(** * MIGraphX: reshape shape inference, reduction fusion and kernel compilation

    A shallow embedding of
      - [op::reshape] (src/include/migraphx/op/reshape.hpp),
      - [group_by] (migraphx/algorithm.hpp),
      - the [prepare_reduce] pass (src/targets/gpu/prepare_reduce.cpp),
      - the [compile_ops] pass (src/targets/gpu/compile_ops.cpp),
      - [miopen_convolution::finalize] (gpu/convolution.hpp),
    together with the properties the specification states about them. *)

From Stdlib Require Import String Ascii DecimalString.
From Stdlib Require Import ZArith List Bool Lia Arith PeanoNat Permutation.
Import ListNotations.

Local Open Scope string_scope.
Local Open Scope list_scope.
Local Open Scope Z_scope.

(* ================================================================== *)
(** * Machine integers *)
(* ================================================================== *)

(** [std::size_t] is a 64-bit unsigned integer: a [Z] in [0, 2^64) whose
    arithmetic wraps around. *)
Definition size_t_modulus : Z := 2 ^ 64.

Definition wrap (z : Z) : Z := z mod size_t_modulus.

Definition mul_size_t (a b : Z) : Z := wrap (a * b).

(** Conversion [int64_t -> std::size_t]. *)
Definition to_size_t (z : Z) : Z := wrap z.

(** Conversion [std::size_t -> int64_t] (two's complement). *)
Definition to_int64 (z : Z) : Z :=
  let w := wrap z in if w <? 2 ^ 63 then w else w - 2 ^ 64.

Definition in_int64 (z : Z) : bool := (- 2 ^ 63 <=? z) && (z <? 2 ^ 63).

(** Conversion to [int] (32 bits, two's complement). *)
Definition to_int32 (z : Z) : Z :=
  let w := z mod 2 ^ 32 in if w <? 2 ^ 31 then w else w - 2 ^ 32.

Definition is_size_t (z : Z) : Prop := 0 <= z < size_t_modulus.

(** Product of a range with [std::size_t] accumulator. *)
Definition product_size_t (l : list Z) : Z :=
  fold_left mul_size_t l 1.

(** Mathematical product. *)
Definition product (l : list Z) : Z := fold_right Z.mul 1 l.

(* ================================================================== *)
(** * Results of fallible code *)
(* ================================================================== *)

(** A call returns a value, throws ([MIGRAPHX_THROW]) or has no defined
    behaviour in C++ (an access out of range, a division by zero). *)
Inductive outcome (A : Type) : Type :=
| Ok (a : A)
| Throw (msg : string)
| Undefined.

Arguments Ok {A} a.
Arguments Throw {A} msg.
Arguments Undefined {A}.

Definition bind {A B : Type} (x : outcome A) (f : A -> outcome B) : outcome B :=
  match x with
  | Ok a => f a
  | Throw msg => Throw msg
  | Undefined => Undefined
  end.

Notation "x <- c ;; k" := (bind c (fun x => k))
  (at level 61, c at next level, right associativity).

(** [v[i]] on a [std::vector]: out of range is undefined behaviour. *)
Definition at_index {A : Type} (v : list A) (i : nat) : outcome A :=
  match nth_error v i with
  | Some a => Ok a
  | None => Undefined
  end.

(* ================================================================== *)
(** * Shapes *)
(* ================================================================== *)

Inductive type_t : Type :=
| bool_type | half_type | float_type | double_type
| uint8_type | int8_type | int32_type | int64_type | tuple_type.

Record dynamic_dimension : Type := mk_dd {
  dd_min : Z;
  dd_max : Z;
  dd_optimals : list Z
}.

Definition is_fixed (dd : dynamic_dimension) : bool := dd_min dd =? dd_max dd.

(** Modelled from the spec: the [shape] class (migraphx/shape.hpp) is not
    among the sources.  Section 3 of the specification: a shape is an
    element-type tag and an ordered sequence of dimensions, each fixed or
    dynamic; a static shape carries one stride per dimension; the output
    of a fused instruction is a tuple of shapes. *)
#[warnings="-register-all"]
Inductive shape : Type :=
| shape_static (t : type_t) (lens : list Z) (strides : list Z)
| shape_dynamic (t : type_t) (dds : list dynamic_dimension)
| shape_tuple (subs : list shape).

Definition shape_type (s : shape) : type_t :=
  match s with
  | shape_static t _ _ => t
  | shape_dynamic t _ => t
  | shape_tuple _ => tuple_type
  end.

Definition lens (s : shape) : list Z :=
  match s with
  | shape_static _ l _ => l
  | _ => []
  end.

Definition strides (s : shape) : list Z :=
  match s with
  | shape_static _ _ st => st
  | _ => []
  end.

Definition dyn_dims (s : shape) : list dynamic_dimension :=
  match s with
  | shape_dynamic _ dds => dds
  | _ => []
  end.

Definition dynamic (s : shape) : bool :=
  match s with
  | shape_dynamic _ _ => true
  | _ => false
  end.

(** Modelled from the spec: the canonical row-major strides of [lens]
    ("standard layout: contiguous row-major memory layout for given
    lens"): the last stride is 1 and every other stride is the next
    stride times the next dimension. *)
Fixpoint row_major_strides (l : list Z) : list Z :=
  match l with
  | [] => []
  | _ :: tl =>
      let rest := row_major_strides tl in
      match tl, rest with
      | d :: _, s :: _ => mul_size_t s d :: rest
      | _, _ => [1]
      end
  end.

Definition list_Z_eqb (a b : list Z) : bool :=
  if list_eq_dec Z.eq_dec a b then true else false.

(** Modelled from the spec: "a shape is standard iff strides match the
    canonical row-major layout for its lens". *)
Definition standard (s : shape) : bool :=
  match s with
  | shape_static _ l st => list_Z_eqb st (row_major_strides l)
  | _ => false
  end.

(** Modelled from the spec: the constructor [shape{type, lens}] builds the
    shape of that type and lens in standard layout. *)
Definition make_shape (t : type_t) (l : list Z) : shape :=
  shape_static t l (row_major_strides l).

(** The constructor [shape{type, lens, strides}]. *)
Definition make_shape_strided (t : type_t) (l st : list Z) : shape :=
  shape_static t l st.

(** Modelled from the spec: the element count of a shape is the product
    of its lens, in [std::size_t]. *)
Definition elements (s : shape) : Z := product_size_t (lens s).

(** [std::to_string] of a [std::size_t]. *)
Definition to_string (z : Z) : string :=
  NilZero.string_of_uint (N.to_uint (Z.to_N z)).

(** Modelled from the spec: [check_shapes] (migraphx/check_shapes.hpp) is
    not among the sources.  [check_shapes{inputs, op, dyn}.has(n)] fails
    with a shape error unless exactly [n] shapes are given and, when [dyn]
    is false, none of them is dynamic.  The text of its messages is not
    modelled. *)
Definition check_shapes_has (inputs : list shape) (allow_dynamic : bool) (n : nat)
  : outcome unit :=
  if negb allow_dynamic && existsb dynamic inputs
  then Throw "check_shapes: dynamic shapes not supported"
  else if negb (Nat.eqb (length inputs) n)
  then Throw "check_shapes: wrong number of arguments"
  else Ok tt.

(* ================================================================== *)
(** * [op::reshape] *)
(* ================================================================== *)

Module reshape.

(** ** The dynamic path *)

(** The loop of [dyn_compute_shape] over [dyn_dims], from index [i], with
    the two running counts of fixed elements. *)
Fixpoint count_fixed_elements (dims : list Z) (dds : list dynamic_dimension)
  (i : nat) (num_dims_ele num_dd_ele : Z) : outcome (Z * Z) :=
  match dds with
  | [] => Ok (num_dims_ele, num_dd_ele)
  | dd :: rest =>
      d <- at_index dims i ;;
      if is_fixed dd
      then count_fixed_elements dims rest (S i)
             (mul_size_t num_dims_ele (to_size_t d))
             (mul_size_t num_dd_ele (dd_min dd))
      else if negb (d =? 0) && negb (d =? -1)
      then Throw
        "Reshape: Non-fixed dynamic_dimension doesn't match with 0 or -1 output dimension"
      else count_fixed_elements dims rest (S i) num_dims_ele num_dd_ele
  end.

(** The [std::transform] over [dims] and [dyn_dims] that builds the output
    dimensions; it reads one element of [dyn_dims] per element of [dims]. *)
Fixpoint output_dyn_dims (dims : list Z) (dds : list dynamic_dimension)
  : outcome (list dynamic_dimension) :=
  match dims with
  | [] => Ok []
  | dim :: dims' =>
      match dds with
      | [] => Undefined
      | dyn_dim :: dds' =>
          rest <- output_dyn_dims dims' dds' ;;
          Ok ((if negb (is_fixed dyn_dim) then dyn_dim
               else mk_dd (to_size_t dim) (to_size_t dim) []) :: rest)
      end
  end.

Definition one_non_fixed_message : string :=
  "Reshape: Only supports one non-fixed dynamic_dimension".

Definition num_not_fixed (s0 : shape) : nat :=
  length (filter (fun dd => negb (is_fixed dd)) (dyn_dims s0)).

Definition dyn_compute_shape (dims : list Z) (s0 : shape) : outcome shape :=
  if negb (Nat.eqb (num_not_fixed s0) 1)
  then Throw one_non_fixed_message
  else
    counts <- count_fixed_elements dims (dyn_dims s0) 0 1 1 ;;
    let '(num_dims_ele, num_dd_ele) := counts in
    if negb (num_dims_ele =? num_dd_ele)
    then Throw ("Reshape: Number of fixed elements must match. Input: " ++
                to_string num_dd_ele ++ " Output: " ++ to_string num_dims_ele)%string
    else
      out <- output_dyn_dims dims (dyn_dims s0) ;;
      Ok (shape_dynamic (shape_type s0) out).

(** ** The zero-copy walk *)

(** The [std::find_if] of [compute_end_dim]: the offset of the first
    element at which the running product [x] reaches [dim] (the length of
    the range when none does), and the value of [x] there. *)
Fixpoint find_end (range : list Z) (x dim : Z) : nat * Z :=
  match range with
  | [] => (0%nat, x)
  | i :: rest =>
      let x' := mul_size_t x i in
      if x' >=? dim then (0%nat, x')
      else let '(k, xf) := find_end rest x' dim in (S k, xf)
  end.

(** [compute_end_dim(start, last, dim)], as the offset [it - start] of the
    iterator it returns; [range] is [[start, last)]. *)
Definition compute_end_dim (range : list Z) (dim : Z) : nat :=
  let '(k, x) := find_end range 1 dim in
  if negb (x =? dim) then 0%nat else k.

(** The [std::equal] of [can_strides_merge] with its stateful predicate. *)
Fixpoint equal_strides (dims_rev strides_rev : list Z) (cstride : Z) : bool :=
  match dims_rev, strides_rev with
  | [], [] => true
  | dim :: ds, stride :: ss =>
      let cstride' := mul_size_t cstride dim in
      (stride =? cstride') && equal_strides ds ss cstride'
  | _, _ => false
  end.

(** [can_strides_merge(dim_start, dim_last, stride_start, stride_last)] on
    the ranges [ds] and [ss] (asserted to have the same length): the
    dimensions but the first, in reverse, against the strides but the
    last, in reverse. *)
Definition can_strides_merge (ds ss : list Z) : bool :=
  equal_strides (rev (tl ds)) (rev (removelast ss)) (last ss 0).

(** One iteration of the [while] loop of [reshape_dims]. *)
Inductive step_result : Type :=
| Next (i r : nat) (rstrides : list Z)
| Nullopt
| StepUndefined.

(** The [std::for_each] of the unsqueeze branch. *)
Fixpoint split_strides (range : list Z) (stride : Z) : option (list Z) :=
  match range with
  | [] => Some []
  | dim :: rest =>
      if dim =? 0 then None
      else
        let stride' := stride / dim in
        match split_strides rest stride' with
        | Some l => Some (stride' :: l)
        | None => None
        end
  end.

Definition step (idims istrides rdims : list Z) (i r : nat) (rstrides : list Z)
  : step_result :=
  match nth_error idims i, nth_error rdims r with
  | Some idim, Some rdim =>
      if rdim =? idim then
        match nth_error istrides i with
        | Some s => Next (S i) (S r) (rstrides ++ [s])
        | None => StepUndefined
        end
      else if rdim >? idim then
        (* squeeze *)
        let start := skipn i idims in
        let n := compute_end_dim start rdim in
        if Nat.eqb n 0 then Nullopt
        else if (length istrides <? i + n + 1)%nat then StepUndefined
        else if negb (can_strides_merge (firstn (n + 1) start)
                                        (firstn (n + 1) (skipn i istrides)))
        then Nullopt
        else
          match nth_error istrides (i + n) with
          | Some s => Next (S (i + n)) (S r) (rstrides ++ [s])
          | None => StepUndefined
          end
      else
        (* unsqueeze *)
        if (length rdims <? i)%nat then StepUndefined
        else
          let start := skipn i rdims in
          let n := compute_end_dim start idim in
          if Nat.eqb n 0 then Nullopt
          else
            match nth_error istrides i with
            | Some s =>
                match split_strides (firstn (n + 1) start) (mul_size_t s idim) with
                | Some l => Next (S i) (S (r + n)) (rstrides ++ l)
                | None => StepUndefined
                end
            | None => StepUndefined
            end
  | _, _ => StepUndefined
  end.

Inductive walk_result : Type :=
| Walked (rstrides : list Z)
| WalkNullopt
| WalkUndefined.

(** The [while] loop; every iteration advances [i], so [length idims]
    iterations are enough and [fuel] is never exhausted. *)
Fixpoint walk (fuel : nat) (idims istrides rdims : list Z) (i r : nat)
  (rstrides : list Z) : walk_result :=
  if (i <? length idims)%nat && (r <? length rdims)%nat then
    match fuel with
    | O => WalkUndefined
    | S fuel' =>
        match step idims istrides rdims i r rstrides with
        | Next i' r' rstrides' => walk fuel' idims istrides rdims i' r' rstrides'
        | Nullopt => WalkNullopt
        | StepUndefined => WalkUndefined
        end
    end
  else Walked rstrides.

(** "Handle trailing 1s": [None] when a trailing dimension is not 1. *)
Fixpoint trailing_ones (range : list Z) (stride : Z) (rstrides : list Z)
  : option (list Z) :=
  match range with
  | [] => Some rstrides
  | d :: rest =>
      if negb (d =? 1) then None
      else trailing_ones rest stride (rstrides ++ [stride])
  end.

Definition reshape_dims (input : shape) (rdims : list Z) : outcome (option shape) :=
  if standard input then Ok (Some (make_shape (shape_type input) rdims))
  else
    let idims := lens input in
    let istrides := strides input in
    match walk (length idims) idims istrides rdims 0 0 [] with
    | WalkUndefined => Undefined
    | WalkNullopt => Ok None
    | Walked rstrides =>
        let after_ones :=
          if (length rstrides <? length rdims)%nat && negb (Nat.eqb (length rstrides) 0)
          then trailing_ones (skipn (length rstrides) rdims) (last rstrides 0) rstrides
          else Some rstrides in
        match after_ones with
        | None => Ok None
        | Some rstrides' =>
            if negb (Nat.eqb (length rdims) (length rstrides')) then Ok None
            else Ok (Some (make_shape_strided (shape_type input) rdims rstrides'))
        end
    end.

(** ** The static path *)

(** The first loop of [static_compute_shape]: [rdims] starts as the
    conversion of [dims] to [std::size_t]; an entry [0] copies the input
    dimension of the same index and an entry [-1] becomes [1]. *)
Fixpoint initial_rdims (dims idims : list Z) (i : nat) : outcome (list Z) :=
  match dims with
  | [] => Ok []
  | d :: dims' =>
      x <- (if d =? 0 then at_index idims i
            else if d =? -1 then Ok 1
            else Ok (to_size_t d)) ;;
      rest <- initial_rdims dims' idims (S i) ;;
      Ok (x :: rest)
  end.

(** [std::accumulate(rdims.begin(), rdims.end(), 1, std::multiplies<int64_t>())]:
    the accumulator has the type of the initial value, [int]; each element
    and the accumulator are converted to [int64_t], multiplied (signed
    overflow is undefined) and the product is converted back to [int]. *)
Fixpoint accumulate_int (l : list Z) (acc : Z) : outcome Z :=
  match l with
  | [] => Ok acc
  | x :: rest =>
      let p := acc * to_int64 x in
      if in_int64 p then accumulate_int rest (to_int32 p) else Undefined
  end.

(** The second loop: every [-1] entry receives [missing_dim]. *)
Fixpoint fill_missing (dims rdims : list Z) (missing_dim : Z) : list Z :=
  match dims, rdims with
  | d :: dims', x :: rdims' =>
      (if d =? -1 then missing_dim else x) :: fill_missing dims' rdims' missing_dim
  | _, _ => rdims
  end.

Definition static_compute_shape (dims : list Z) (inputs : list shape)
  (n_neg_dims : nat) : outcome shape :=
  _ <- check_shapes_has inputs false 1 ;;
  input <- at_index inputs 0 ;;
  let idims := lens input in
  rdims0 <- initial_rdims dims idims 0 ;;
  rdims <- (if (0 <? n_neg_dims)%nat then
              acc <- accumulate_int rdims0 1 ;;
              let divisor := to_size_t acc in
              if divisor =? 0 then Undefined
              else Ok (fill_missing dims rdims0 (elements input / divisor))
            else Ok rdims0) ;;
  s <- reshape_dims input rdims ;;
  match s with
  | None => Throw "Reshape on axis that is not packed."
  | Some s =>
      if negb (elements s =? elements input)
      then Throw ("Reshape: Wrong number of elements for reshape: reshape has " ++
                  to_string (elements s) ++ " elements whereas the input has " ++
                  to_string (elements input))%string
      else Ok s
  end.

Definition count_neg_dims (dims : list Z) : nat :=
  length (filter (fun d => d =? -1) dims).

Definition compute_shape (dims : list Z) (inputs : list shape) : outcome shape :=
  _ <- check_shapes_has inputs true 1 ;;
  let n_neg_dims := count_neg_dims dims in
  if (1 <? n_neg_dims)%nat
  then Throw "Reshape: Dimensions for reshape can only have one -1 dim"
  else
    s0 <- at_index inputs 0 ;;
    if dynamic s0 then dyn_compute_shape dims s0
    else static_compute_shape dims inputs n_neg_dims.

(** ** Execution *)

(** [output_alias] ignores its argument. *)
Definition output_alias (shapes : list shape) : Z := 0.

(** Modelled from the spec: [argument] (migraphx/argument.hpp) is not
    among the sources.  An argument is a storage handle together with the
    shape describing it; [argument::reshape] gives the same storage a new
    shape ("output shares storage with that input"). *)
Record argument : Type := mk_argument {
  arg_data : nat;
  arg_shape : shape
}.

Definition argument_reshape (a : argument) (s : shape) : argument :=
  mk_argument (arg_data a) s.

(** [compute(dyn_out, args)] returns [args[0].reshape(dyn_out.computed_shape)]. *)
Definition compute (computed_shape : shape) (args : list argument) : outcome argument :=
  a <- at_index args 0 ;;
  Ok (argument_reshape a computed_shape).

End reshape.


(* ================================================================== *)
(** * Vocabulary of the specification of the reshape walk *)
(* ================================================================== *)

Module reshape_spec.

(** The states the [while] loop of [reshape_dims] passes through. *)
Inductive reaches (idims istrides rdims : list Z) : nat -> nat -> list Z -> Prop :=
| reaches_start : reaches idims istrides rdims 0 0 []
| reaches_step i r rs i' r' rs' :
    reaches idims istrides rdims i r rs ->
    (i < length idims)%nat -> (r < length rdims)%nat ->
    reshape.step idims istrides rdims i r rs = reshape.Next i' r' rs' ->
    reaches idims istrides rdims i' r' rs'.

(** "Accumulate consecutive dims until their product equals [dim]": [n]
    is the least offset such that the product of [range[0..n]] is [dim]. *)
Definition first_exact_prefix (range : list Z) (dim : Z) (n : nat) : Prop :=
  product (firstn (S n) range) = dim /\
  forall m, (m < n)%nat -> product (firstn (S m) range) <> dim.

(** The dimensions are valid [std::size_t] values and the products of
    the prefixes of [range] do not overflow. *)
Definition fits_size_t (range : list Z) : Prop :=
  Forall (fun d => 0 <= d) range /\
  forall m, product (firstn m range) < size_t_modulus.

(** The input dimensions [i .. i+n] are stride-contiguous: each stride is
    the stride of the following dimension times the size of that
    dimension. *)
Definition stride_contiguous (idims istrides : list Z) (i n : nat) : Prop :=
  forall k, (i <= k < i + n)%nat ->
    nth k istrides 0 = mul_size_t (nth (S k) istrides 0) (nth (S k) idims 0).

(** The unsqueeze branch as the specification words it: the target
    dimensions are accumulated from the current target position [r]. *)
Definition unsqueeze_from_target_position (istrides rdims : list Z)
  (i r : nat) (idim : Z) (rstrides : list Z) : reshape.step_result :=
  let start := skipn r rdims in
  let n := reshape.compute_end_dim start idim in
  if Nat.eqb n 0 then reshape.Nullopt
  else
    match nth_error istrides i with
    | Some s =>
        match reshape.split_strides (firstn (n + 1) start) (mul_size_t s idim) with
        | Some l => reshape.Next (S i) (S (r + n)) (rstrides ++ l)
        | None => reshape.StepUndefined
        end
    | None => reshape.StepUndefined
    end.

End reshape_spec.

(* ================================================================== *)
(** * [miopen_convolution::finalize] *)
(* ================================================================== *)

Module miopen_convolution.

(** The status codes of the MIOpen library ([miopenStatus_t]). *)
Inductive miopenStatus_t : Type :=
| miopenStatusSuccess
| miopenStatusNotInitialized
| miopenStatusInvalidValue
| miopenStatusBadParm
| miopenStatusAllocFailed
| miopenStatusInternalError
| miopenStatusNotImplemented
| miopenStatusUnknownError
| miopenStatusUnsupportedOp
| miopenStatusGpuOperationsSkipped
| miopenStatusVersionMismatch.

Definition status_eqb (a b : miopenStatus_t) : bool :=
  match a, b with
  | miopenStatusSuccess, miopenStatusSuccess
  | miopenStatusNotInitialized, miopenStatusNotInitialized
  | miopenStatusInvalidValue, miopenStatusInvalidValue
  | miopenStatusBadParm, miopenStatusBadParm
  | miopenStatusAllocFailed, miopenStatusAllocFailed
  | miopenStatusInternalError, miopenStatusInternalError
  | miopenStatusNotImplemented, miopenStatusNotImplemented
  | miopenStatusUnknownError, miopenStatusUnknownError
  | miopenStatusUnsupportedOp, miopenStatusUnsupportedOp
  | miopenStatusGpuOperationsSkipped, miopenStatusGpuOperationsSkipped
  | miopenStatusVersionMismatch, miopenStatusVersionMismatch => true
  | _, _ => false
  end.

(** The fields of the operator that [finalize] reads and writes under
    [MIGRAPHX_HAS_FIND_2_API]: the serialized solution and the handle of
    the loaded one ([nullptr] is [None]). *)
Record t : Type := mk {
  op_name : string;
  solution_object : list Z;
  solution_ptr : option nat
}.

(** What [finalize] reads from the context: the values the compiled
    model was saved with ([ctx.to_value()]) and the current device. *)
Record context : Type := mk_context {
  gfx_arch : string;
  cu_count : Z;
  miopen_version : string;
  current_gfx_arch : string;
  current_cu_count : Z
}.

Definition load_failed_message (self : t) : string :=
  ("MIOpen " ++ op_name self ++ ": loading convolution solution failed")%string.

Definition version_warning (ctx : context) : string :=
  ("MIOpen convolution was compiled with different MIOpen version. " ++
   "But this machine has MIOpen version: " ++ miopen_version ctx ++
   ", Performance may suffer.                    Consider re-compiling the model with environment variable MIOPEN_FIND_ENFORCE=3 to re-tune the model.")%string.

Definition device_mismatch_message (ctx : context) : string :=
  ("MIGraphX model was compiled for gfx_arch: " ++ gfx_arch ctx ++
   " with number of CUs=" ++ to_string (cu_count ctx) ++
   ", but current device has gfx_arch: " ++ current_gfx_arch ctx ++
   " with number of CUs=" ++ to_string (current_cu_count ctx) ++
   ", performance may suffer. Consider re-compiling the model with " ++
   "environment variable MIOPEN_FIND_ENFORCE=3 to re-tune the model.")%string.

(** [finalize] under [MIGRAPHX_HAS_FIND_2_API].  [miopenLoadSolution] is
    the library call: it returns a status and the handle it stored.  The
    result is the updated operator and the lines written to [std::clog].
    (Without the FIND 2 API [finalize] compiles the immediate-mode
    solution and compares no device properties.) *)
Definition finalize (miopenLoadSolution : list Z -> miopenStatus_t * nat)
  (self : t) (ctx : context) : outcome (t * list string) :=
  match solution_ptr self with
  | Some _ => Ok (self, [])
  | None =>
      let '(status, ptr) := miopenLoadSolution (solution_object self) in
      let self' := mk (op_name self) (solution_object self) (Some ptr) in
      if negb (status_eqb status miopenStatusSuccess)
      then Throw (load_failed_message self)
      else
        let log := if status_eqb status miopenStatusVersionMismatch
                   then [version_warning ctx] else [] in
        if negb (cu_count ctx =? current_cu_count ctx) ||
           negb (String.eqb (gfx_arch ctx) (current_gfx_arch ctx))
        then Throw (device_mismatch_message ctx)
        else Ok (self', log)
  end.

End miopen_convolution.

(* ================================================================== *)
(** * Operations, instructions and modules *)
(* ================================================================== *)

(** Equality of shapes ("shapes compare structurally; equality is used as
    a grouping key in rewrites"). *)
Definition type_eqb (a b : type_t) : bool :=
  match a, b with
  | bool_type, bool_type | half_type, half_type | float_type, float_type
  | double_type, double_type | uint8_type, uint8_type | int8_type, int8_type
  | int32_type, int32_type | int64_type, int64_type | tuple_type, tuple_type => true
  | _, _ => false
  end.

Definition dd_eqb (a b : dynamic_dimension) : bool :=
  (dd_min a =? dd_min b) && (dd_max a =? dd_max b) &&
  list_Z_eqb (dd_optimals a) (dd_optimals b).

Fixpoint list_eqb {A : Type} (eqb : A -> A -> bool) (a b : list A) : bool :=
  match a, b with
  | [], [] => true
  | x :: a', y :: b' => eqb x y && list_eqb eqb a' b'
  | _, _ => false
  end.

Fixpoint shape_eqb (a b : shape) : bool :=
  match a, b with
  | shape_static t l st, shape_static t' l' st' =>
      type_eqb t t' && list_Z_eqb l l' && list_Z_eqb st st'
  | shape_dynamic t dds, shape_dynamic t' dds' =>
      type_eqb t t' && list_eqb dd_eqb dds dds'
  | shape_tuple subs, shape_tuple subs' =>
      (fix subs_eqb (x y : list shape) : bool :=
         match x, y with
         | [], [] => true
         | s :: x', s' :: y' => shape_eqb s s' && subs_eqb x' y'
         | _, _ => false
         end) subs subs'
  | _, _ => false
  end.

(** The operators the two passes tell apart; every other operator is a
    name with attributes.  [make_op("get_tuple_elem", {{"index", i}})] is
    [get_tuple_elem i]. *)
Inductive operation : Type :=
| generic_op (op_name : string) (attributes : list (string * Z))
| parallel_reduce (op : operation)
| get_tuple_elem (index : Z)
| precompile_op (op : operation) (additional_args : nat) (ignore_modules : bool).

Definition name (o : operation) : string :=
  match o with
  | generic_op n _ => n
  | parallel_reduce _ => "gpu::parallel_reduce"
  | get_tuple_elem _ => "get_tuple_elem"
  | precompile_op _ _ _ => "gpu::precompile_op"
  end.

(** [std::transform] with a function that may throw. *)
Fixpoint transform {A B : Type} (f : A -> outcome B) (l : list A) : outcome (list B) :=
  match l with
  | [] => Ok []
  | x :: rest =>
      y <- f x ;;
      ys <- transform f rest ;;
      Ok (y :: ys)
  end.

Section ComputeShape.

(** Shape inference of the operators that are not modelled one by one
    ("the concrete semantics of individual operators" is outside the
    core). *)
Variable generic_compute_shape :
  string -> list (string * Z) -> list shape -> outcome shape.

(** [compute_shape] of [parallel_reduce] and of [precompile_op] are the
    source's.  Modelled from the spec: [get_tuple_elem] (not among the
    sources) extracts the slot [index] of its tuple-shaped input.
    The [resize] of [precompile_op] to a size below zero wraps around and
    throws; submodules are not modelled. *)
Fixpoint compute_shape (o : operation) (inputs : list shape) : outcome shape :=
  match o with
  | generic_op n attrs => generic_compute_shape n attrs inputs
  | parallel_reduce op =>
      result <- transform (fun input => compute_shape op [input]) inputs ;;
      Ok (shape_tuple result)
  | get_tuple_elem index =>
      match inputs with
      | [shape_tuple subs] =>
          if index <? 0 then Throw "get_tuple_elem: index out of range"
          else
            match nth_error subs (Z.to_nat index) with
            | Some s => Ok s
            | None => Throw "get_tuple_elem: index out of range"
            end
      | _ => Throw "get_tuple_elem: expects one tuple"
      end
  | precompile_op op additional_args _ =>
      if (length inputs <? additional_args)%nat then Throw "std::length_error"
      else compute_shape op (firstn (length inputs - additional_args) inputs)
  end.

End ComputeShape.

Definition instruction_ref : Type := nat.

(** Modelled from the spec: [instruction] and [module]
    (migraphx/instruction.hpp, migraphx/module.hpp) are not among the
    sources.  Section 3: an instruction is an operation, an ordered
    sequence of input references and a cached output shape, with a
    stable identity; its consumers are "maintained as the inverse of the
    input relation".  A module is an ordered container of
    instructions.  Submodule references are not modelled. *)
Record instruction : Type := mk_instruction {
  ins_id : instruction_ref;
  ins_op : operation;
  ins_inputs : list instruction_ref;
  ins_shape : shape
}.

Definition module : Type := list instruction.

(** A position in a module: an instruction, or [end()]. *)
Definition position : Type := option instruction_ref.

Definition lookup (m : module) (i : instruction_ref) : option instruction :=
  find (fun x => Nat.eqb (ins_id x) i) m.

(** Dereferencing an instruction reference; a reference to an
    instruction that is not in the module is dangling. *)
Definition deref (m : module) (i : instruction_ref) : outcome instruction :=
  match lookup m i with
  | Some x => Ok x
  | None => Undefined
  end.

Definition uses (i : instruction_ref) (x : instruction) : bool :=
  existsb (Nat.eqb i) (ins_inputs x).

(** [ins->outputs()]: the consumers of [i], the inverse of the input
    relation, in module order. *)
Definition outputs (m : module) (i : instruction_ref) : list instruction_ref :=
  map ins_id (filter (uses i) m).

(** [std::next(ins)]. *)
Fixpoint next (m : module) (i : instruction_ref) : outcome position :=
  match m with
  | [] => Undefined
  | x :: rest =>
      if Nat.eqb (ins_id x) i
      then Ok (match rest with [] => None | y :: _ => Some (ins_id y) end)
      else next rest i
  end.

Definition begin (m : module) : position :=
  match m with
  | [] => None
  | x :: _ => Some (ins_id x)
  end.

(** An identity no instruction of the module has. *)
Definition fresh (m : module) : instruction_ref :=
  S (list_max (map ins_id m)).

(** Insertion of [x] immediately before [pos]. *)
Fixpoint insert_before (m : module) (pos : position) (x : instruction) : outcome module :=
  match pos with
  | None => Ok (m ++ [x])
  | Some p =>
      match m with
      | [] => Undefined
      | y :: rest =>
          if Nat.eqb (ins_id y) p then Ok (x :: y :: rest)
          else
            rest' <- insert_before rest pos x ;;
            Ok (y :: rest')
      end
  end.

Definition remove (m : module) (i : instruction_ref) : module :=
  filter (fun x => negb (Nat.eqb (ins_id x) i)) m.

Section ModuleOperations.

Variable generic_compute_shape :
  string -> list (string * Z) -> list shape -> outcome shape.

Definition input_shapes (m : module) (args : list instruction_ref) : outcome (list shape) :=
  transform (fun a => x <- deref m a ;; Ok (ins_shape x)) args.

(** Modelled from the spec: "insert: add a new instruction immediately
    before a given position; its inputs must already exist in the
    Module".  The output shape is the operation's [compute_shape] on the
    shapes of the inputs. *)
Definition insert_instruction (m : module) (pos : position) (op : operation)
  (args : list instruction_ref) : outcome (module * instruction_ref) :=
  shapes <- input_shapes m args ;;
  s <- compute_shape generic_compute_shape op shapes ;;
  let id := fresh m in
  m' <- insert_before m pos (mk_instruction id op args s) ;;
  Ok (m', id).

(** Modelled from the spec: "move: relocate an existing instruction to a
    new position".  Moving an instruction before itself changes
    nothing.  The contract on topological order is an assertion and is
    not checked. *)
Definition move_instruction (m : module) (src : instruction_ref) (dst : position)
  : outcome module :=
  x <- deref m src ;;
  if match dst with Some d => Nat.eqb d src | None => false end then Ok m
  else insert_before (remove m src) dst x.

Definition redirect (old new : instruction_ref) (x : instruction) : instruction :=
  mk_instruction (ins_id x) (ins_op x)
    (map (fun a => if Nat.eqb a old then new else a) (ins_inputs x)) (ins_shape x).

(** Modelled from the spec: "replace-with-redirect: substitute
    instruction A's definition (operation + inputs) with a new
    instruction, rewriting every current consumer of A to reference the
    new instruction, then erasing A".  The new instruction stands where
    A stood; the result is its reference. *)
Definition replace_instruction (m : module) (ins : instruction_ref) (op : operation)
  (args : list instruction_ref) : outcome (module * instruction_ref) :=
  _ <- deref m ins ;;
  shapes <- input_shapes m args ;;
  s <- compute_shape generic_compute_shape op shapes ;;
  let id := fresh m in
  Ok (map (fun x => if Nat.eqb (ins_id x) ins
                    then mk_instruction id op args s
                    else redirect ins id x) m, id).

End ModuleOperations.

(** Every input of every instruction is an instruction of the module. *)
Definition closed (m : module) : Prop :=
  forall x, In x m -> forall a, In a (ins_inputs x) -> In a (map ins_id m).

(** The module that [replace_instruction] builds. *)
Definition replaced (m : module) (ins : instruction_ref) (new : instruction) : module :=
  map (fun x => if Nat.eqb (ins_id x) ins then new
                else redirect ins (ins_id new) x) m.

(** No instruction is its own input. *)
Definition self_free (m : module) : Prop :=
  forall x, In x m -> ~ In (ins_id x) (ins_inputs x).

(** The operator a list of replacements holds for the instruction [i]. *)
Definition code_of (todo : list (instruction_ref * operation)) (i : instruction_ref)
  : option operation :=
  option_map (@snd instruction_ref operation) (find (fun p => Nat.eqb (fst p) i) todo).

(** The position of the first occurrence of [i] in [l]. *)
Fixpoint index_of (i : instruction_ref) (l : list instruction_ref) : option nat :=
  match l with
  | [] => None
  | j :: rest =>
      if Nat.eqb j i then Some 0%nat
      else option_map S (index_of i rest)
  end.

(** The references after the replacement of the members of [group] by
    the new instructions [base], [base + 1], ... *)
Definition rename_group (group : list instruction_ref) (base : nat)
  (a : instruction_ref) : instruction_ref :=
  match index_of a group with
  | Some k => (base + k)%nat
  | None => a
  end.

(** What becomes of an instruction when the members of [group] are
    replaced by tuple extractions from the fused instruction [preduce]:
    member [k] becomes the extraction of slot [i0 + k], with the new
    identity [base + k]; any other instruction keeps its operator and
    has its references to members rewritten. *)
Definition fuse_map (group : list instruction_ref) (preduce : instruction_ref)
  (base : nat) (i0 : Z) (slots : list shape) (x : instruction) : instruction :=
  match index_of (ins_id x) group with
  | Some k =>
      mk_instruction (base + k)%nat (get_tuple_elem (i0 + Z.of_nat k)) [preduce]
        (nth (Z.to_nat (i0 + Z.of_nat k)) slots (shape_tuple []))
  | None =>
      mk_instruction (ins_id x) (ins_op x)
        (map (rename_group group base) (ins_inputs x)) (ins_shape x)
  end.

(* ================================================================== *)
(** * [std::partition] and [group_by] *)
(* ================================================================== *)

Section Partition.

Context {A : Type}.
Variable pred : A -> bool.

(** The longest prefix of elements that satisfy [p], and the rest. *)
Fixpoint span (p : A -> bool) (l : list A) : list A * list A :=
  match l with
  | [] => ([], [])
  | x :: rest =>
      if p x then let '(a, b) := span p rest in (x :: a, b)
      else ([], l)
  end.

(** [std::partition] for bidirectional iterators, as libstdc++ and libc++
    implement it: [first] skips the elements that satisfy [pred], [last]
    skips backwards the elements that do not, the two elements they stop
    at are swapped, and the scan resumes between them.  The result is the
    range before the returned iterator and the range after it.  (The C++
    standard leaves the order inside the two ranges unspecified.) *)
Fixpoint partition_loop (fuel : nat) (l : list A) : list A * list A :=
  let '(front, rest) := span pred l in
  match rest with
  | [] => (front, [])
  | x :: mid =>
      let '(back_rev, mid_rev) := span (fun y => negb (pred y)) (rev mid) in
      match mid_rev with
      | [] => (front, x :: rev back_rev)
      | y :: inner_rev =>
          match fuel with
          | O => (front, rest)
          | S fuel' =>
              let '(t, f) := partition_loop fuel' (rev inner_rev) in
              (front ++ y :: t, f ++ x :: rev back_rev)
          end
      end
  end.

Definition std_partition (l : list A) : list A * list A :=
  partition_loop (length l) l.

End Partition.

(** [group_by(start, last, out, pred)] (migraphx/algorithm.hpp), with the
    state [S] that the callback [out] updates: the range is partitioned
    by [pred(x, *start)], [out] receives the first part, and the loop
    resumes on the second.  [keys] is evaluated in the current state, as
    [pred] reads the instructions when it is called. *)
Fixpoint group_by {A K S : Type} (fuel : nat) (key : S -> A -> outcome K)
  (eqb : K -> K -> bool) (out : S -> list A -> outcome S)
  (range : list A) (st : S) : outcome S :=
  match range with
  | [] => Ok st
  | start :: _ =>
      match fuel with
      | O => Undefined
      | S fuel' =>
          keyed <- transform (fun x => k <- key st x ;; Ok (x, k)) range ;;
          k0 <- key st start ;;
          let '(group, rest) := std_partition (fun xk => eqb (snd xk) k0) keyed in
          st' <- out st (map fst group) ;;
          group_by fuel' key eqb out (map fst rest) st'
      end
  end.

(* ================================================================== *)
(** * The [prepare_reduce] pass *)
(* ================================================================== *)

Module prepare_reduce.

(** [contains(name, "reduce")] on strings: substring search. *)
Definition contains (s pattern : string) : bool :=
  match String.index 0 pattern s with
  | Some _ => true
  | None => false
  end.

Section Pass.

Variable generic_compute_shape :
  string -> list (string * Z) -> list shape -> outcome shape.

(** [get_reduce]: the recursion follows single consumers, so on a module
    of [n] instructions it either ends within [n] calls or runs round a
    cycle for ever; [fuel] is [n] and its exhaustion is the latter. *)
Fixpoint get_reduce_from (fuel : nat) (m : module) (ins : instruction_ref)
  : outcome (option instruction_ref) :=
  x <- deref m ins ;;
  let n := name (ins_op x) in
  if String.eqb n "gpu::parallel_reduce" || String.eqb n "reduce_mean" then Ok None
  else if contains n "reduce" then Ok (Some ins)
  else if String.eqb n "pointwise" then
    if Nat.eqb (length (ins_inputs x)) 1 && Nat.eqb (length (outputs m ins)) 1
    then
      match fuel, outputs m ins with
      | S fuel', front :: _ => get_reduce_from fuel' m front
      | _, _ => Undefined
      end
    else Ok None
  else Ok None.

Definition get_reduce (m : module) (ins : instruction_ref)
  : outcome (option instruction_ref) :=
  get_reduce_from (length m) m ins.

Definition has_value {A : Type} (o : option A) : bool :=
  match o with Some _ => true | None => false end.

(** [std::count_if] with a predicate that may fail. *)
Fixpoint count_if {A : Type} (p : A -> outcome bool) (l : list A) : outcome nat :=
  match l with
  | [] => Ok 0%nat
  | x :: rest =>
      b <- p x ;;
      n <- count_if p rest ;;
      Ok (if b then S n else n)
  end.

(** The matcher [split_reduce]. *)
Definition split_reduce (m : module) (ins : instruction_ref) : outcome bool :=
  if (length (outputs m ins) <? 2)%nat then Ok false
  else
    n <- count_if (fun output => r <- get_reduce m output ;; Ok (has_value r))
                  (outputs m ins) ;;
    Ok (1 <? n)%nat.

(** The first loop of [find_multi_reduce::apply]. *)
Fixpoint collect_reduces (m : module) (outs : list instruction_ref)
  : outcome (list instruction_ref) :=
  match outs with
  | [] => Ok []
  | output :: rest =>
      if Nat.eqb (length (outputs m output)) 0 then collect_reduces m rest
      else
        reduce <- get_reduce m output ;;
        reduces <- collect_reduces m rest ;;
        Ok (match reduce with Some r => r :: reduces | None => reduces end)
  end.

(** [reduce->inputs().front()]. *)
Definition front_input (m : module) (reduce : instruction_ref) : outcome instruction_ref :=
  x <- deref m reduce ;;
  match ins_inputs x with
  | input :: _ => Ok input
  | [] => Undefined
  end.

Fixpoint move_inputs (m : module) (ins : instruction_ref) (insertion : position)
  (inputs : list instruction_ref) : outcome module :=
  match inputs with
  | [] => Ok m
  | input :: rest =>
      m' <- (if Nat.eqb input ins then Ok m
             else move_instruction m input insertion) ;;
      move_inputs m' ins insertion rest
  end.

Fixpoint replace_reduces (m : module) (preduce : instruction_ref) (i : Z)
  (group : list instruction_ref) : outcome module :=
  match group with
  | [] => Ok m
  | reduce :: rest =>
      r <- replace_instruction generic_compute_shape m reduce (get_tuple_elem i) [preduce] ;;
      replace_reduces (fst r) preduce (i + 1) rest
  end.

(** The callback [each] of [find_multi_reduce::apply] on the group
    [[start, last)]. *)
Definition each (ins : instruction_ref) (m : module) (group : list instruction_ref)
  : outcome module :=
  if (length group <? 2)%nat then Ok m
  else
    inputs <- transform (front_input m) group ;;
    start <- at_index group 0 ;;
    first <- deref m start ;;
    let op := ins_op first in
    insertion <- next m ins ;;
    m1 <- move_inputs m ins insertion inputs ;;
    p <- insert_instruction generic_compute_shape m1 insertion (parallel_reduce op) inputs ;;
    let '(m2, preduce) := p in
    replace_reduces m2 preduce 0 group.

(** The grouping key [(i->name(), i->get_shape())]. *)
Definition key (m : module) (i : instruction_ref) : outcome (string * shape) :=
  x <- deref m i ;;
  Ok (name (ins_op x), ins_shape x).

Definition key_eqb (a b : string * shape) : bool :=
  String.eqb (fst a) (fst b) && shape_eqb (snd a) (snd b).

(** [find_multi_reduce::apply] at the matched instruction [ins]. *)
Definition apply (m : module) (ins : instruction_ref) : outcome module :=
  reduces <- collect_reduces m (outputs m ins) ;;
  group_by (length reduces) key key_eqb (each ins) reduces m.

(** Modelled from the spec: [match::find_matches] (migraphx/matcher.hpp)
    is not among the sources.  Section 4.3: "a rewrite pass scans the
    Module once, in a fixed traversal order, testing each instruction
    against a matcher; on a match, the pass's apply callback runs";
    the scan then moves to the instruction that follows the current one
    in the module as rewritten.  [fuel] bounds the number of
    instructions visited. *)
Fixpoint find_matches (fuel : nat) (m : module) (cursor : position) : outcome module :=
  match cursor with
  | None => Ok m
  | Some ins =>
      match fuel with
      | O => Undefined
      | S fuel' =>
          matched <- split_reduce m ins ;;
          m' <- (if matched : bool then apply m ins else Ok m) ;;
          cursor' <- next m' ins ;;
          find_matches fuel' m' cursor'
      end
  end.

(** [prepare_reduce::apply]. *)
Definition run (fuel : nat) (m : module) : outcome module :=
  find_matches fuel m (begin m).

End Pass.

End prepare_reduce.

(* ================================================================== *)
(** * Vocabulary of the specification of the reduction-fusion pass *)
(* ================================================================== *)

Module prepare_reduce_spec.

(** The Module invariant of section 3: identities are unique and "the
    container order is always a valid topological order (every
    instruction's inputs precede it)". *)
Fixpoint topological_from (seen : list instruction_ref) (m : module) : bool :=
  match m with
  | [] => true
  | x :: rest =>
      forallb (fun a => existsb (Nat.eqb a) seen) (ins_inputs x) &&
      negb (existsb (Nat.eqb (ins_id x)) seen) &&
      topological_from (ins_id x :: seen) rest
  end.

Definition topological (m : module) : bool := topological_from [] m.

(** A reduction operator, as the operator names tell: the name contains
    "reduce"; the fused instruction is not one. *)
Definition reduction_operator (n : string) : bool :=
  prepare_reduce.contains n "reduce" && negb (String.eqb n "gpu::parallel_reduce").

(** The reduction operators [get_reduce] counts: [reduce_mean] is left
    out as well. *)
Definition counted_reduction (n : string) : bool :=
  reduction_operator n && negb (String.eqb n "reduce_mean").

(** The consumer [o] reaches the reduction [r]: directly, or through a
    chain of pointwise operators that each have one input and one
    consumer.  [is_reduction] tells which operator names are
    reductions. *)
Inductive reaches (is_reduction : string -> bool) (m : module)
  : instruction_ref -> instruction_ref -> Prop :=
| reaches_direct o x :
    lookup m o = Some x ->
    is_reduction (name (ins_op x)) = true ->
    reaches is_reduction m o o
| reaches_through o x o' r :
    lookup m o = Some x ->
    name (ins_op x) = "pointwise"%string ->
    length (ins_inputs x) = 1%nat ->
    outputs m o = [o'] ->
    reaches is_reduction m o' r ->
    reaches is_reduction m o r.

(** At least two of the consumers of [ins] reach a reduction. *)
Definition two_consumers_reach (is_reduction : string -> bool) (m : module)
  (ins : instruction_ref) : Prop :=
  exists o1 o2,
    o1 <> o2 /\ In o1 (outputs m ins) /\ In o2 (outputs m ins) /\
    (exists r, reaches is_reduction m o1 r) /\
    (exists r, reaches is_reduction m o2 r).

End prepare_reduce_spec.

(* ================================================================== *)
(** * The [compile_ops] pass *)
(* ================================================================== *)

Module compile_ops.

Section Pass.

Variable generic_compute_shape :
  string -> list (string * Z) -> list shape -> outcome shape.

(** A tuning solution ([value]) and the default [value{}]. *)
Variable value : Type.
Variable null_value : value.

(** The collaborators of migraphx/gpu/compiler.hpp, called with the
    pass's context: [get_tuning_config(ctx, ins, preop)] returns the
    solutions of the tuning search, if any; [compile(ctx, ins, preop,
    solution)] returns the compiled operator or throws. *)
Variable get_tuning_config : instruction -> operation -> option (list value).
Variable compile : instruction -> operation -> value -> outcome operation.

Record compiled_result : Type := mk_compiled_result {
  replace_op : operation;
  result_ins : instruction_ref
}.

Record compile_plan : Type := mk_compile_plan {
  preop : operation;
  plan_ins : instruction_ref;
  config : option (list value);
  results : list compiled_result
}.

(** [compile_plan::update_config]. *)
Definition update_config (m : module) (cp : compile_plan) : outcome compile_plan :=
  x <- deref m (plan_ins cp) ;;
  Ok (mk_compile_plan (preop cp) (plan_ins cp)
        (get_tuning_config x (preop cp)) (results cp)).

(** [compile_plan::add_compiles] followed by the run of the tasks it
    adds: one compilation per solution, or one with the default
    solution; every task fills its own slot of [results]. *)
Definition run_compiles (m : module) (cp : compile_plan) : outcome compile_plan :=
  x <- deref m (plan_ins cp) ;;
  let solutions :=
    match config cp with
    | Some solutions => solutions
    | None => [null_value]
    end in
  rs <- transform (fun solution =>
                     op <- compile x (preop cp) solution ;;
                     Ok (mk_compiled_result op (plan_ins cp))) solutions ;;
  Ok (mk_compile_plan (preop cp) (plan_ins cp) (config cp) rs).

(** Modelled from the spec: [compiler_replace::replace]
    (migraphx/gpu/compiler.hpp) is not among the sources.  Section 4.4:
    "replace the placeholder instruction with the compiled instruction
    via replace-with-redirect"; the compiled instruction keeps the
    inputs of the placeholder. *)
Definition compiler_replace (m : module) (r : compiled_result) : outcome module :=
  x <- deref m (result_ins r) ;;
  p <- replace_instruction generic_compute_shape m (result_ins r) (replace_op r)
         (ins_inputs x) ;;
  Ok (fst p).

(** [compile_plan::replace]. *)
Definition replace (m : module) (cp : compile_plan) : outcome module :=
  match results cp with
  | [r] => compiler_replace m r
  | _ => Ok m
  end.

(** The first loop of [compile_ops::apply]; the [any_cast] throws on an
    operator of another type. *)
Fixpoint find_precompile_ops (scan : list instruction) : outcome (list compile_plan) :=
  match scan with
  | [] => Ok []
  | x :: rest =>
      if negb (String.eqb (name (ins_op x)) "gpu::precompile_op")
      then find_precompile_ops rest
      else
        match ins_op x with
        | precompile_op op _ _ =>
            cps <- find_precompile_ops rest ;;
            Ok (mk_compile_plan op (ins_id x) None [] :: cps)
        | _ => Throw "std::bad_any_cast"
        end
  end.

Fixpoint replace_all (m : module) (cps : list compile_plan) : outcome module :=
  match cps with
  | [] => Ok m
  | cp :: rest =>
      m' <- replace m cp ;;
      replace_all m' rest
  end.

(** [compile_ops::apply].  The two [par_compile] phases run independent
    tasks that do not touch the module; they are run here one after the
    other. *)
Definition apply (m : module) : outcome module :=
  cps <- find_precompile_ops m ;;
  cps <- transform (update_config m) cps ;;
  cps <- transform (run_compiles m) cps ;;
  replace_all m cps.

End Pass.

End compile_ops.

(* ================================================================== *)
(** * Vocabulary of the specification of the compilation scheduler *)
(* ================================================================== *)

Module compile_ops_spec.

(** A placeholder instruction: "an instruction wrapping a deferred,
    not-yet-target-compiled operator". *)
Definition placeholder_name (o : operation) : bool :=
  String.eqb (name o) "gpu::precompile_op".

Definition placeholder (x : instruction) : bool := placeholder_name (ins_op x).

Section Scheduler.

Variable generic_compute_shape :
  string -> list (string * Z) -> list shape -> outcome shape.
Variable value : Type.
Variable get_tuning_config : instruction -> operation -> option (list value).
Variable compile : instruction -> operation -> value -> outcome operation.

(** The compiled operator of a placeholder whose tuning search yields
    exactly one candidate and whose compilation succeeds. *)
Definition single_candidate (x : instruction) : option operation :=
  match ins_op x with
  | precompile_op op _ _ =>
      match get_tuning_config x op with
      | Some [solution] =>
          match compile x op solution with
          | Ok code => Some code
          | _ => None
          end
      | _ => None
      end
  | _ => None
  end.

(** The placeholders of a module with their compiled operators, in the
    order of the module scan. *)
Fixpoint discovered (scan : list instruction) : list (instruction_ref * operation) :=
  match scan with
  | [] => []
  | x :: rest =>
      if placeholder x then
        match single_candidate x with
        | Some code => (ins_id x, code) :: discovered rest
        | None => discovered rest
        end
      else discovered rest
  end.

(** Replace-with-redirect of the given instructions, one after the
    other, in the order given. *)
Fixpoint replace_in_order (m : module) (todo : list (instruction_ref * operation))
  : outcome module :=
  match todo with
  | [] => Ok m
  | (i, code) :: rest =>
      x <- deref m i ;;
      p <- replace_instruction generic_compute_shape m i code (ins_inputs x) ;;
      replace_in_order (fst p) rest
  end.

(** Every placeholder of [m] has one tuning candidate and compiles to
    an operator that is not itself a placeholder, and the replacement
    can be built: the compiled operator infers a shape from the shapes
    of the placeholder's inputs.  That shape is the placeholder's own,
    unless no placeholder consumes the placeholder (so that no later
    replacement sees it). *)
Definition all_compile (m : module) : Prop :=
  forall x, In x m -> placeholder x = true ->
    exists code shapes s,
      single_candidate x = Some code /\
      placeholder_name code = false /\
      input_shapes m (ins_inputs x) = Ok shapes /\
      compute_shape generic_compute_shape code shapes = Ok s /\
      (s = ins_shape x \/
       forall y, In y m -> placeholder y = true -> ~ In (ins_id x) (ins_inputs y)).

End Scheduler.

End compile_ops_spec.

(* ================================================================== *)
(** * Vocabulary of the specification of the fusion rewrite *)
(* ================================================================== *)

Module fusion_spec.

Section Fusion.

Variable generic_compute_shape :
  string -> list (string * Z) -> list shape -> outcome shape.

(** The grouping key of an instruction of the module. *)
Definition key_of (m : module) (r : instruction_ref) : option (string * shape) :=
  match lookup m r with
  | Some x => Some (name (ins_op x), ins_shape x)
  | None => None
  end.

Definition same_key (m : module) (a b : instruction_ref) : bool :=
  match key_of m a, key_of m b with
  | Some ka, Some kb => prepare_reduce.key_eqb ka kb
  | _, _ => false
  end.

(** [m'] is [m] with the group [group] fused.  With [first] the first
    member, [inputs] the first inputs of the members and [p] a new
    identity:
    - one instruction is added: [p], the operator [parallel_reduce] of
      the first member's operator on [inputs], whose shape is the tuple
      of the shapes that operator computes on each input;
    - member [k] is gone and a new instruction [p + 1 + k] extracts slot
      [k] of [p];
    - every other instruction is kept, its references to the members
      rewritten to the new instructions. *)
Definition fused (m : module) (group : list instruction_ref) (m' : module) : Prop :=
  exists (start : instruction_ref) (first : instruction)
         (inputs : list instruction_ref) (slots : list shape),
    hd_error group = Some start /\ lookup m start = Some first /\
    Forall2 (fun r input =>
               exists x, lookup m r = Some x /\ hd_error (ins_inputs x) = Some input)
            group inputs /\
    Forall2 (fun input slot =>
               exists y, lookup m input = Some y /\
                 compute_shape generic_compute_shape (ins_op first) [ins_shape y] = Ok slot)
            inputs slots /\
    let p := fresh m in
    NoDup (map ins_id m') /\
    length m' = S (length m) /\
    lookup m' p =
      Some (mk_instruction p (parallel_reduce (ins_op first))
              (map (rename_group group (S p)) inputs) (shape_tuple slots)) /\
    (forall k r, nth_error group k = Some r ->
       lookup m' r = None /\
       exists slot,
         nth_error slots k = Some slot /\
         lookup m' (S p + k)%nat =
           Some (mk_instruction (S p + k)%nat (get_tuple_elem (Z.of_nat k)) [p] slot)) /\
    (forall x, In x m -> ~ In (ins_id x) group ->
       lookup m' (ins_id x) =
         Some (mk_instruction (ins_id x) (ins_op x)
                 (map (rename_group group (S p)) (ins_inputs x)) (ins_shape x))).

(** The reductions [range] are split into [groups], one after the
    other: with [start] the first remaining reduction, [std::partition]
    splits the remaining reductions into those of the key of [start],
    the group, and the others, which remain.  So the group starts with
    [start] and holds every remaining reduction of its key, and no
    other; the order of its other members, and of the reductions that
    remain, is the one [std::partition] leaves.  A group of at least
    two members is fused, a smaller group leaves the module as it is.
    The keys are read in the module as the previous groups left it. *)
Inductive fuses : module -> list instruction_ref -> list (list instruction_ref)
                  -> module -> Prop :=
| fuses_done m : fuses m [] [] m
| fuses_group m range start group rest m1 groups m' :
    hd_error range = Some start ->
    std_partition (fun r => same_key m r start) range = (group, rest) ->
    hd_error group = Some start ->
    Permutation range (group ++ rest) ->
    (forall r, In r group -> same_key m r start = true) ->
    (forall r, In r rest -> same_key m r start = false) ->
    ((length group < 2)%nat /\ m1 = m \/
     (2 <= length group)%nat /\ fused m group m1) ->
    fuses m1 rest groups m' ->
    fuses m range (group :: groups) m'.

(** The reductions [find_multi_reduce::apply] collects at [ins]: for
    each consumer of [ins] that has consumers itself, in the order of
    the consumers, the reduction [get_reduce] returns, if any. *)
Definition reached_reductions (m : module) (ins : instruction_ref)
  : list instruction_ref :=
  flat_map (fun o =>
              if Nat.eqb (length (outputs m o)) 0 then []
              else match prepare_reduce.get_reduce m o with
                   | Ok (Some r) => [r]
                   | _ => []
                   end) (outputs m ins).

(** Shape inference succeeds where the fusion of the reductions [range]
    needs it: the operator of each of them infers a shape from the
    shape of the first input of every one of them that has its key. *)
Definition inferable (m : module) (range : list instruction_ref) : Prop :=
  forall r1 r2 x y a z,
    In r1 range -> In r2 range -> same_key m r1 r2 = true ->
    lookup m r1 = Some x -> lookup m r2 = Some y ->
    hd_error (ins_inputs y) = Some a -> lookup m a = Some z ->
    exists s, compute_shape generic_compute_shape (ins_op x) [ins_shape z] = Ok s.

End Fusion.

(** A stable partition keeps the relative order of the elements in both
    parts ([std::stable_partition]). *)
Definition stable_partition {A : Type} (pred : A -> bool) (l : list A)
  : list A * list A :=
  (filter pred l, filter (fun x => negb (pred x)) l).

End fusion_spec.

(* ================================================================== *)
(** * Vocabulary of the scan of the reduction-fusion pass *)
(* ================================================================== *)

Module scan_spec.

(** The identities of the instructions that stand before [i] in the
    module (of all of them when [i] is not in the module). *)
Fixpoint before_ids (m : module) (i : instruction_ref) : list instruction_ref :=
  match m with
  | [] => []
  | x :: rest =>
      if Nat.eqb (ins_id x) i then [] else ins_id x :: before_ids rest i
  end.

(** The instruction [i] stands before the position [pos]. *)
Definition ahead (m : module) (i : instruction_ref) (pos : position) : Prop :=
  match pos with
  | None => In i (map ins_id m)
  | Some z => In i (before_ids m z)
  end.

(** Every reduction that [get_reduce] counts has exactly one input. *)
Definition unary_reductions (m : module) : bool :=
  forallb (fun x =>
             implb (prepare_reduce_spec.counted_reduction (name (ins_op x)))
                   (Nat.eqb (length (ins_inputs x)) 1)) m.

(** Nothing is left to fuse at [i]: the reductions reached from two
    different consumers of [i] (consumers that have consumers
    themselves) never have the same key. *)
Definition quiet (m : module) (i : instruction_ref) : Prop :=
  forall o1 o2 r1 r2,
    o1 <> o2 -> In o1 (outputs m i) -> In o2 (outputs m i) ->
    outputs m o1 <> [] -> outputs m o2 <> [] ->
    prepare_reduce.get_reduce m o1 = Ok (Some r1) ->
    prepare_reduce.get_reduce m o2 = Ok (Some r2) ->
    fusion_spec.same_key m r1 r2 = false.

(** [get_reduce] returns on every instruction of the module. *)
Definition get_reduce_total (m : module) : Prop :=
  forall o, In o (map ins_id m) -> exists res, prepare_reduce.get_reduce m o = Ok res.

(** The path [get_reduce] follows from [a] passes through [b]: every
    instruction before [b] on it is a pointwise operator with one input
    and one consumer. *)
Inductive chain (m : module) : instruction_ref -> instruction_ref -> Prop :=
| chain_here a : chain m a a
| chain_next a x a' b :
    lookup m a = Some x ->
    name (ins_op x) = "pointwise"%string ->
    length (ins_inputs x) = 1%nat ->
    outputs m a = [a'] ->
    chain m a' b ->
    chain m a b.

(** The invariants of the module that the pass relies on and keeps. *)
Definition well_formed (m : module) : Prop :=
  NoDup (map ins_id m) /\ closed m /\ unary_reductions m = true /\
  get_reduce_total m.

(** Every instruction before [i] has nothing left to fuse. *)
Definition visited (m : module) (i : instruction_ref) : Prop :=
  forall y, In y (before_ids m i) -> quiet m y.

(** The reductions still to be grouped are counted reductions whose
    only input is [i] or a pointwise operator. *)
Definition fed_by (m : module) (i : instruction_ref) (rest : list instruction_ref) : Prop :=
  forall r, In r rest ->
    exists x a, lookup m r = Some x /\
      prepare_reduce_spec.counted_reduction (name (ins_op x)) = true /\
      ins_inputs x = [a] /\
      (a = i \/ exists y, lookup m a = Some y /\ name (ins_op y) = "pointwise"%string).

(** Two different consumers of [i] reach two different reductions that
    are still to be grouped, or reductions of different keys. *)
Definition pending (m : module) (i : instruction_ref) (rest : list instruction_ref) : Prop :=
  forall o1 o2 r1 r2,
    o1 <> o2 -> In o1 (outputs m i) -> In o2 (outputs m i) ->
    outputs m o1 <> [] -> outputs m o2 <> [] ->
    prepare_reduce.get_reduce m o1 = Ok (Some r1) ->
    prepare_reduce.get_reduce m o2 = Ok (Some r2) ->
    (In r1 rest /\ In r2 rest /\ r1 <> r2) \/ fusion_spec.same_key m r1 r2 = false.

(** The state of [find_multi_reduce::apply] at [i] between two groups. *)
Definition good (m : module) (i : instruction_ref) (rest : list instruction_ref) : Prop :=
  well_formed m /\ visited m i /\ fed_by m i rest /\ pending m i rest.

Definition fusing (m : module) (i : instruction_ref) (rest : list instruction_ref) : Prop :=
  (i < fresh m)%nat /\ (In i (map ins_id m) -> good m i rest).

(** What [find_multi_reduce::apply] at [i] needs between two groups to
    go on: the instruction [i] is in the module and is not one of the
    reductions still to be grouped, which are all different. *)
Definition steady (m : module) (i : instruction_ref) (rest : list instruction_ref) : Prop :=
  well_formed m /\ fed_by m i rest /\ In i (map ins_id m) /\ ~ In i rest /\
  NoDup rest.

(** The state of the scan at the position [cursor]: nothing is left to
    fuse at the instructions before it. *)
Definition scanned (m : module) (cursor : position) : Prop :=
  match cursor with
  | Some i => In i (map ins_id m) /\ visited m i
  | None => forall y, In y (map ins_id m) -> quiet m y
  end.

(** The consumers from which [get_reduce] reaches a reduction. *)
Definition reaching (m : module) (o : instruction_ref) : bool :=
  match prepare_reduce.get_reduce m o with
  | Ok (Some _) => true
  | _ => false
  end.

End scan_spec.

(* ================================================================== *)
(** * The other algorithms of migraphx/algorithm.hpp *)
(* ================================================================== *)

Module algorithm.

(** A callback [out] that records the ranges it receives. *)
Definition collect {A : Type} (groups : list (list A)) (group : list A)
  : outcome (list (list A)) :=
  Ok (groups ++ [group]).

(** [group_unique(start, last, out, pred)]: [std::find_if] stops at the
    first element [x] for which [pred], called with the first element of
    the range and [x], is false; [out] receives the range before it and
    the loop resumes there.  As in [group_by], [out]
    updates a state, and [fuel] bounds the number of iterations. *)
Fixpoint group_unique {A S : Type} (fuel : nat) (pred : A -> A -> bool)
  (out : S -> list A -> outcome S) (range : list A) (st : S) : outcome S :=
  match range with
  | [] => Ok st
  | start :: _ =>
      match fuel with
      | O => Undefined
      | S fuel' =>
          let '(group, rest) := span (pred start) range in
          st' <- out st group ;;
          group_unique fuel' pred out rest st'
      end
  end.

(** [levenshtein_distance(first1, last1, first2, last2)]; [eqb] is the
    [operator==] of the elements.  The result is a [std::ptrdiff_t]. *)
Fixpoint levenshtein_distance {A : Type} (eqb : A -> A -> bool) (l1 : list A)
  : list A -> Z :=
  fix against (l2 : list A) : Z :=
    match l1, l2 with
    | [], _ => Z.of_nat (length l2)
    | _, [] => Z.of_nat (length l1)
    | a :: rest1, b :: rest2 =>
        if eqb a b then levenshtein_distance eqb rest1 rest2
        else
          let x1 := levenshtein_distance eqb rest1 rest2 in
          let x2 := against rest2 in
          let x3 := levenshtein_distance eqb rest1 l2 in
          1 + Z.min x1 (Z.min x2 x3)
    end.

End algorithm.


(** The ranges [group_unique] hands to [out]: runs of consecutive
    elements that belong with the first of the run, each run ended by an
    element that does not. *)
Inductive runs {A : Type} (pred : A -> A -> bool) : list (list A) -> Prop :=
| runs_nil : runs pred []
| runs_last h t :
    (forall x, In x t -> pred h x = true) -> runs pred [h :: t]
| runs_cons h t h' t' gs :
    (forall x, In x t -> pred h x = true) ->
    pred h h' = false ->
    runs pred ((h' :: t') :: gs) ->
    runs pred ((h :: t) :: (h' :: t') :: gs).

(* ================================================================== *)
(** * [precompile_op] and [miopen_convolution]: the other members *)
(* ================================================================== *)

(** [shapes.size() - 1] returned as a [std::ptrdiff_t]: the subtraction
    is done in [std::size_t]. *)
Definition last_index {A : Type} (shapes : list A) : Z :=
  to_int64 (wrap (Z.of_nat (length shapes) - 1)).

Module precompile.

(** [precompile_op::output_alias]. *)
Definition output_alias (shapes : list shape) : Z := last_index shapes.

End precompile.

Module convolution.

(** [reshape_if_1d]: [new_dims.insert(new_dims.begin() + 2, 1)] on a
    shape of three dimensions. *)
Definition reshape_if_1d (input : shape) : shape :=
  let dims := lens input in
  if Nat.eqb (length dims) 3
  then make_shape (shape_type input) (firstn 2 dims ++ 1 :: skipn 2 dims)
  else input.

(** [miopen_convolution::pack_int8_shape]; [lens[1]] and [strides[0]] on
    vectors that are too short are out of range. *)
Definition pack_int8_shape (s : shape) : outcome shape :=
  if negb (type_eqb (shape_type s) int8_type) then Ok s
  else
    match lens s, strides s with
    | l0 :: l1 :: lens_rest, s0 :: s1 :: strides_rest =>
        let l1' := mul_size_t (wrap (l1 + 3) / 4) 4 in
        Ok (make_shape_strided (shape_type s) (l0 :: l1' :: lens_rest)
              (mul_size_t s1 l1' :: s1 :: strides_rest))
    | _, _ => Undefined
    end.

(** [miopen_convolution::output_alias]. *)
Definition output_alias (shapes : list shape) : Z := last_index shapes.

Section Compute.

(** The collaborators of [compute]: [make_tensor] (migraphx/gpu/miopen.hpp)
    builds a tensor descriptor and may throw; [miopenRunSolution] is the
    library call, given the loaded solution, the three tensors, the
    workspace and its size. *)
Variable tensor_descriptor : Type.
Variable make_tensor : shape -> bool -> outcome tensor_descriptor.
Variable bytes : shape -> Z.
Variable miopenRunSolution :
  nat -> reshape.argument -> reshape.argument -> reshape.argument ->
  reshape.argument -> Z -> miopen_convolution.miopenStatus_t.

Definition not_loaded_message (self : miopen_convolution.t) : string :=
  ("MIOpen " ++ miopen_convolution.op_name self ++
   " : Load MIOpen Solution before running it")%string.

Definition run_failed_message (self : miopen_convolution.t) : string :=
  ("MIOpen " ++ miopen_convolution.op_name self ++
   " : running convolution using find_2.0 failed")%string.

(** [miopen_convolution::compute] under [MIGRAPHX_HAS_FIND_2_API]. *)
Definition compute (self : miopen_convolution.t) (int8_x4_format : bool)
  (output_shape : shape) (args : list reshape.argument) : outcome reshape.argument :=
  a0 <- at_index args 0 ;;
  _ <- make_tensor (reshape_if_1d (reshape.arg_shape a0)) int8_x4_format ;;
  a1 <- at_index args 1 ;;
  _ <- make_tensor (reshape_if_1d (reshape.arg_shape a1)) int8_x4_format ;;
  _ <- make_tensor (reshape_if_1d output_shape) false ;;
  a2 <- at_index args 2 ;;
  let workspace_size := bytes (reshape.arg_shape a2) in
  a3 <- at_index args 3 ;;
  match miopen_convolution.solution_ptr self with
  | None => Throw (not_loaded_message self)
  | Some ptr =>
      let status := miopenRunSolution ptr a0 a1 a3 a2 workspace_size in
      if negb (miopen_convolution.status_eqb status miopen_convolution.miopenStatusSuccess)
      then Throw (run_failed_message self)
      else Ok a3
  end.

End Compute.

End convolution.

(* ================================================================== *)
(** * Part II: properties *)
(* ================================================================== *)

(** ** Machine arithmetic and shapes *)

Section SizeT.

Lemma wrap_idem z : wrap (wrap z) = wrap z.
Proof. unfold wrap, size_t_modulus. apply Z.mod_mod. lia. Qed.

Lemma wrap_small z : is_size_t z -> wrap z = z.
Proof. unfold is_size_t, wrap. intros H. apply Z.mod_small. exact H. Qed.

Lemma wrap_range z : is_size_t (wrap z).
Proof.
  unfold is_size_t, wrap, size_t_modulus. apply Z.mod_pos_bound. lia.
Qed.

Lemma mul_size_t_wrap_l a b : mul_size_t (wrap a) b = mul_size_t a b.
Proof.
  unfold mul_size_t, wrap, size_t_modulus.
  rewrite Z.mul_mod_idemp_l by lia. reflexivity.
Qed.

Lemma fold_mul_size_t l : forall acc,
  fold_left mul_size_t l (wrap acc) = wrap (acc * product l).
Proof.
  induction l as [|d l IH]; intros acc; simpl.
  - rewrite Z.mul_1_r. reflexivity.
  - rewrite mul_size_t_wrap_l. unfold mul_size_t at 2.
    rewrite IH. f_equal. unfold product. simpl. ring.
Qed.

(** The element count is the mathematical product modulo [2^64]. *)
Lemma product_size_t_wrap l : product_size_t l = wrap (product l).
Proof.
  unfold product_size_t.
  change 1 with (wrap 1) at 1.
  rewrite fold_mul_size_t. f_equal. lia.
Qed.

End SizeT.

Lemma list_Z_eqb_refl l : list_Z_eqb l l = true.
Proof. unfold list_Z_eqb. destruct (list_eq_dec Z.eq_dec l l); congruence. Qed.

Lemma list_Z_eqb_eq a b : list_Z_eqb a b = true <-> a = b.
Proof.
  unfold list_Z_eqb. destruct (list_eq_dec Z.eq_dec a b); split; congruence.
Qed.

Lemma standard_make_shape t l : standard (make_shape t l) = true.
Proof. apply list_Z_eqb_refl. Qed.

Lemma standard_inv s :
  standard s = true -> s = make_shape (shape_type s) (lens s).
Proof.
  destruct s as [t l st| |]; simpl; try discriminate.
  intros H. apply list_Z_eqb_eq in H. subst. reflexivity.
Qed.

(** ** [reshape]: standard inputs (C1) *)

Lemma count_neg_dims_positive dims :
  Forall (fun d => 0 < d < 2 ^ 63) dims -> reshape.count_neg_dims dims = 0%nat.
Proof.
  unfold reshape.count_neg_dims.
  induction 1 as [|d l Hd _ IH]; simpl; [reflexivity|].
  destruct (Z.eqb_spec d (-1)); [lia | exact IH].
Qed.

Lemma initial_rdims_positive dims idims : forall i,
  Forall (fun d => 0 < d < 2 ^ 63) dims ->
  reshape.initial_rdims dims idims i = Ok dims.
Proof.
  induction dims as [|d l IH]; intros i H; simpl; [reflexivity|].
  inversion H as [|? ? Hd Hl]; subst.
  destruct (Z.eqb_spec d 0); [lia|].
  destruct (Z.eqb_spec d (-1)); [lia|].
  simpl. rewrite (IH (S i) Hl). simpl.
  unfold to_size_t. rewrite wrap_small; [reflexivity|].
  unfold is_size_t, size_t_modulus. lia.
Qed.

(** C1, as stated, fails: the two placeholders of [dims = [-1; -1]] have
    product [1], the element count of the standard shape of lens [[1]],
    and [compute_shape] rejects them. *)
Lemma reshape_two_placeholders_rejected :
  let input := make_shape float_type [1] in
  standard input = true /\
  product [-1; -1] = product (lens input) /\
  reshape.compute_shape [-1; -1] [input] =
    Throw "Reshape: Dimensions for reshape can only have one -1 dim".
Proof. repeat split. Qed.

(** C1 (amended): for every standard input shape with lens [L] and every
    [dims] vector of positive entries (no [0] or [-1] placeholder) whose
    product equals [product(L)], [compute_shape] succeeds and returns the
    standard shape whose lens are [dims]. *)
Theorem reshape_standard_positive_dims (input : shape) (dims : list Z) :
  standard input = true ->
  Forall (fun d => 0 < d < 2 ^ 63) dims ->
  product dims = product (lens input) ->
  reshape.compute_shape dims [input] = Ok (make_shape (shape_type input) dims) /\
  standard (make_shape (shape_type input) dims) = true /\
  lens (make_shape (shape_type input) dims) = dims.
Proof.
  intros Hstd Hpos Hprod.
  split; [|split; [apply standard_make_shape | reflexivity]].
  assert (Hdyn : dynamic input = false) by (destruct input; simpl in *; congruence).
  unfold reshape.compute_shape. simpl.
  rewrite (count_neg_dims_positive dims Hpos). simpl.
  rewrite Hdyn.
  unfold reshape.static_compute_shape, check_shapes_has. simpl.
  rewrite Hdyn. simpl.
  rewrite (initial_rdims_positive dims (lens input) 0 Hpos). simpl.
  unfold reshape.reshape_dims. rewrite Hstd. simpl.
  unfold elements at 1 2. simpl.
  rewrite !product_size_t_wrap, Hprod, Z.eqb_refl. reflexivity.
Qed.

Lemma reshape_standard_positive_dims_witness :
  reshape.compute_shape [2; 12] [make_shape float_type [2; 3; 4]] =
    Ok (make_shape float_type [2; 12]) /\
  standard (make_shape float_type [2; 12]) = true /\
  lens (make_shape float_type [2; 12]) = [2; 12].
Proof.
  apply (reshape_standard_positive_dims (make_shape float_type [2; 3; 4]) [2; 12]).
  - reflexivity.
  - repeat constructor.
  - reflexivity.
Defined.

(** ** [reshape]: the dynamic path (C4) *)

Lemma count_fixed_elements_throw dims dds : forall i a b msg,
  reshape.count_fixed_elements dims dds i a b = Throw msg ->
  msg <> reshape.one_non_fixed_message.
Proof.
  induction dds as [|dd rest IH]; intros i a b msg; simpl; [discriminate|].
  unfold at_index. destruct (nth_error dims i) as [d|]; simpl; [|discriminate].
  destruct (is_fixed dd); [apply IH|].
  destruct (negb (d =? 0) && negb (d =? -1)); [|apply IH].
  intros H. injection H as <-. discriminate.
Qed.

Lemma output_dyn_dims_no_throw dims : forall dds msg,
  reshape.output_dyn_dims dims dds <> Throw msg.
Proof.
  induction dims as [|d l IH]; intros dds msg; simpl; [discriminate|].
  destruct dds as [|dd dds']; [discriminate|].
  specialize (IH dds' msg).
  destruct (reshape.output_dyn_dims l dds'); simpl; congruence.
Qed.

Lemma compute_shape_dynamic_path dims s0 :
  dynamic s0 = true -> (reshape.count_neg_dims dims <= 1)%nat ->
  reshape.compute_shape dims [s0] = reshape.dyn_compute_shape dims s0.
Proof.
  intros Hd Hn. unfold reshape.compute_shape. simpl.
  destruct (Nat.ltb_spec 1 (reshape.count_neg_dims dims)); [lia|].
  simpl. rewrite Hd. reflexivity.
Qed.

(** C4, as stated, fails for zero non-fixed dimensions: a dynamic shape
    whose only dimension is the fixed range [[2,2]] is rejected for its
    count of non-fixed dimensions. *)
Lemma reshape_dynamic_all_fixed_rejected :
  let s0 := shape_dynamic float_type [mk_dd 2 2 []] in
  dynamic s0 = true /\
  reshape.num_not_fixed s0 = 0%nat /\
  reshape.compute_shape [2] [s0] = Throw reshape.one_non_fixed_message.
Proof. repeat split. Qed.

(** C4 (amended): on the dynamic path of [compute_shape], an input whose
    number of non-fixed dimensions is not exactly one (zero, or more than
    one) fails with the error "Reshape: Only supports one non-fixed
    dynamic_dimension", and an input with exactly one non-fixed dimension
    is never rejected with that error. *)
Theorem reshape_dynamic_one_non_fixed (dims : list Z) (s0 : shape) :
  dynamic s0 = true ->
  (reshape.count_neg_dims dims <= 1)%nat ->
  (reshape.num_not_fixed s0 <> 1%nat ->
     reshape.compute_shape dims [s0] = Throw reshape.one_non_fixed_message) /\
  (reshape.num_not_fixed s0 = 1%nat ->
     reshape.compute_shape dims [s0] <> Throw reshape.one_non_fixed_message).
Proof.
  intros Hd Hn. rewrite (compute_shape_dynamic_path dims s0 Hd Hn).
  unfold reshape.dyn_compute_shape. split; intros Hc.
  - destruct (Nat.eqb_spec (reshape.num_not_fixed s0) 1); [contradiction|].
    reflexivity.
  - rewrite Hc. simpl.
    destruct (reshape.count_fixed_elements dims (dyn_dims s0) 0 1 1)
      as [[a b]|msg|] eqn:E; simpl.
    + destruct (negb (a =? b)).
      * intros H. injection H as H. revert H. unfold reshape.one_non_fixed_message.
        simpl. discriminate.
      * pose proof (output_dyn_dims_no_throw dims (dyn_dims s0)) as Hno.
        destruct (reshape.output_dyn_dims dims (dyn_dims s0)); simpl;
          [discriminate | exfalso; exact (Hno _ eq_refl) | discriminate].
    + intros H. injection H as H.
      exact (count_fixed_elements_throw _ _ _ _ _ _ E H).
    + discriminate.
Qed.

Lemma reshape_dynamic_one_non_fixed_witness :
  (reshape.num_not_fixed
     (shape_dynamic float_type [mk_dd 1 4 []; mk_dd 3 3 []; mk_dd 2 8 []]) <> 1%nat ->
   reshape.compute_shape [0; 3; 0]
     [shape_dynamic float_type [mk_dd 1 4 []; mk_dd 3 3 []; mk_dd 2 8 []]] =
     Throw reshape.one_non_fixed_message) /\
  (reshape.num_not_fixed
     (shape_dynamic float_type [mk_dd 1 4 []; mk_dd 3 3 []; mk_dd 2 8 []]) = 1%nat ->
   reshape.compute_shape [0; 3; 0]
     [shape_dynamic float_type [mk_dd 1 4 []; mk_dd 3 3 []; mk_dd 2 8 []]] <>
     Throw reshape.one_non_fixed_message).
Proof.
  apply (reshape_dynamic_one_non_fixed [0; 3; 0]
           (shape_dynamic float_type [mk_dd 1 4 []; mk_dd 3 3 []; mk_dd 2 8 []])).
  - reflexivity.
  - vm_compute. lia.
Defined.

(** ** [reshape]: aliasing (C10) *)

(** C10: for every list of input shapes [output_alias] returns index 0,
    and [compute] hands back the storage of its first argument under the
    computed shape, so no data is copied. *)
Theorem reshape_output_alias_first_input (shapes : list shape) :
  reshape.output_alias shapes = 0 /\
  forall (computed_shape : shape) (a : reshape.argument) (args : list reshape.argument),
    exists out,
      reshape.compute computed_shape (a :: args) = Ok out /\
      reshape.arg_data out = reshape.arg_data a /\
      reshape.arg_shape out = computed_shape.
Proof.
  split; [reflexivity|].
  intros cs a args. exists (reshape.argument_reshape a cs).
  repeat split.
Qed.

(** ** Products of ranges *)

Lemma product_app a b : product (a ++ b) = product a * product b.
Proof.
  unfold product. induction a as [|x a IH]; cbn [app fold_right]; [lia|].
  rewrite IH. ring.
Qed.

Lemma product_nonneg l : Forall (fun d => 0 <= d) l -> 0 <= product l.
Proof.
  unfold product. induction 1 as [|d l Hd _ IH]; cbn [fold_right]; [lia|].
  apply Z.mul_nonneg_nonneg; assumption.
Qed.

Lemma Forall_firstn {A} (P : A -> Prop) n l : Forall P l -> Forall P (firstn n l).
Proof.
  intros H. revert n. induction H; intros [|n]; simpl; constructor; auto.
Qed.

Lemma Forall_skipn {A} (P : A -> Prop) n l : Forall P l -> Forall P (skipn n l).
Proof.
  intros H. revert n. induction H; intros [|n]; simpl; auto.
Qed.

Lemma firstn_split_product l a b :
  (a <= b)%nat ->
  product (firstn b l) = product (firstn a l) * product (firstn (b - a) (skipn a l)).
Proof.
  intros Hab.
  rewrite <- (firstn_skipn a (firstn b l)) at 1.
  rewrite product_app, firstn_firstn, skipn_firstn_comm.
  rewrite Nat.min_l by exact Hab. reflexivity.
Qed.

(** Among non-negative dimensions with a positive product, prefix
    products grow with the prefix. *)
Lemma product_prefix_le l a b :
  Forall (fun d => 0 <= d) l -> (a <= b)%nat ->
  0 < product (firstn b l) ->
  product (firstn a l) <= product (firstn b l).
Proof.
  intros Hl Hab Hpos.
  rewrite (firstn_split_product l a b Hab) in Hpos |- *.
  pose proof (product_nonneg _ (Forall_firstn _ a _ Hl)) as H1.
  pose proof (product_nonneg _ (Forall_firstn _ (b - a) _ (Forall_skipn _ a _ Hl))) as H2.
  set (pa := product (firstn a l)) in *.
  set (pb := product (firstn (b - a) (skipn a l))) in *.
  assert (1 <= pb) by nia.
  nia.
Qed.

(** ** [compute_end_dim] *)

(** Without overflow, [find_end] stops at the first prefix whose product
    reaches [dim], or runs to the end of the range. *)
Lemma find_end_spec range : forall x dim,
  0 <= x ->
  Forall (fun d => 0 <= d) range ->
  (forall m, x * product (firstn m range) < size_t_modulus) ->
  let '(k, xf) := reshape.find_end range x dim in
  (forall m, (m < k)%nat -> x * product (firstn (S m) range) < dim) /\
  xf = x * product (firstn (S k) range) /\
  ((k < length range)%nat /\ dim <= xf \/ k = length range).
Proof.
  induction range as [|d rest IH]; intros x dim Hx Hnn Hfit; cbn [reshape.find_end].
  - split; [intros m Hm; lia|]. split; [unfold product; simpl; lia|]. right. reflexivity.
  - inversion Hnn as [|? ? Hd Hrest]; subst.
    assert (Hxd : mul_size_t x d = x * d).
    { unfold mul_size_t. apply wrap_small. split; [nia|].
      specialize (Hfit 1%nat). unfold product in Hfit. simpl in Hfit.
      rewrite Z.mul_1_r in Hfit. destruct d; exact Hfit. }
    rewrite Hxd.
    destruct (Z.geb_spec (x * d) dim) as [Hge|Hlt].
    + split; [intros m Hm; lia|].
      split; [unfold product; simpl; destruct d; lia|].
      left. split; [simpl; lia | lia].
    + specialize (IH (x * d) dim).
      destruct (reshape.find_end rest (x * d) dim) as [k xf].
      destruct IH as (Hbelow & Hxf & Hend).
      * nia.
      * exact Hrest.
      * intros m. specialize (Hfit (S m)).
        change (firstn (S m) (d :: rest)) with (d :: firstn m rest) in Hfit.
        change (product (d :: firstn m rest)) with (d * product (firstn m rest)) in Hfit.
        lia.
      * assert (Hcons : forall m, x * product (firstn (S (S m)) (d :: rest)) =
                                   x * d * product (firstn (S m) rest)).
        { intros m.
          change (firstn (S (S m)) (d :: rest)) with (d :: firstn (S m) rest).
          change (product (d :: firstn (S m) rest))
            with (d * product (firstn (S m) rest)). ring. }
        split; [|split].
        -- intros [|m] Hm.
           ++ unfold product. simpl. destruct d; lia.
           ++ rewrite Hcons. apply Hbelow. lia.
        -- rewrite Hcons. exact Hxf.
        -- destruct Hend as [[Hk Hle]|Hk]; [left; simpl; lia | right; simpl; lia].
Qed.

Lemma firstn_past_end {A} (l : list A) n : (length l <= n)%nat -> firstn n l = l.
Proof. intros H. apply firstn_all2. exact H. Qed.

(** When some prefix of the range has product exactly [dim > 0],
    [compute_end_dim] returns the offset of the first such prefix. *)
Lemma compute_end_dim_found range dim n :
  reshape_spec.fits_size_t range -> 0 < dim ->
  reshape_spec.first_exact_prefix range dim n ->
  (n < length range)%nat ->
  reshape.compute_end_dim range dim = n.
Proof.
  intros [Hnn Hfit] Hdim [Heq Hleast] Hn.
  unfold reshape.compute_end_dim.
  pose proof (find_end_spec range 1 dim) as H.
  destruct (reshape.find_end range 1 dim) as [k xf].
  destruct H as (Hbelow & Hxf & Hend); [lia | exact Hnn | intros m; specialize (Hfit m); lia |].
  assert (Hkn : k = n).
  { destruct (Nat.lt_trichotomy k n) as [Hlt|[He|Hgt]]; [|exact He|].
    - exfalso. destruct Hend as [[Hk Hle]|Hk]; [|lia].
      assert (Hmono : product (firstn (S k) range) <= product (firstn (S n) range)).
      { apply product_prefix_le; [exact Hnn | lia | lia]. }
      apply (Hleast k Hlt). lia.
    - exfalso. specialize (Hbelow n Hgt). lia. }
  subst k. rewrite Hxf, Z.mul_1_l, Heq, Z.eqb_refl. reflexivity.
Qed.

(** When no prefix of the range has product exactly [dim],
    [compute_end_dim] returns [start]. *)
Lemma compute_end_dim_not_found range dim :
  reshape_spec.fits_size_t range ->
  (forall n, product (firstn (S n) range) <> dim) ->
  reshape.compute_end_dim range dim = 0%nat.
Proof.
  intros [Hnn Hfit] Hno.
  unfold reshape.compute_end_dim.
  pose proof (find_end_spec range 1 dim) as H.
  destruct (reshape.find_end range 1 dim) as [k xf].
  destruct H as (_ & Hxf & _); [lia | exact Hnn | intros m; specialize (Hfit m); lia |].
  rewrite Z.mul_1_l in Hxf. subst xf.
  destruct (Z.eqb_spec (product (firstn (S k) range)) dim) as [E|E]; [|reflexivity].
  exfalso. exact (Hno k E).
Qed.

(** ** [can_strides_merge] *)

Lemma equal_strides_spec D : forall T c,
  length D = length T ->
  (reshape.equal_strides (rev D) (rev T) c = true <->
   forall k, (k < length D)%nat ->
     nth k T 0 = mul_size_t (nth (S k) (T ++ [c]) 0) (nth k D 0)).
Proof.
  induction D as [|d D' IH] using rev_ind; intros T c Hlen.
  - destruct T; [|discriminate]. simpl. split; [intros _ k Hk; lia | reflexivity].
  - destruct T as [|s T' _] using rev_ind.
    { rewrite length_app in Hlen. simpl in Hlen. lia. }
    rewrite !length_app in Hlen. simpl in Hlen.
    assert (HlenD : length D' = length T') by lia.
    rewrite !rev_app_distr. cbn [rev app reshape.equal_strides].
    rewrite andb_true_iff, Z.eqb_eq, length_app. simpl.
    split.
    + intros [Hs Hrest] k Hk.
      rewrite <- Hs in Hrest.
      pose proof (proj1 (IH T' s HlenD) Hrest) as Hrest'.
      destruct (Nat.eq_dec k (length D')) as [->|Hne].
      * rewrite HlenD at 1. rewrite nth_middle.
        replace (S (length D')) with (length (T' ++ [s]))
          by (rewrite length_app; simpl; lia).
        rewrite !nth_middle. exact Hs.
      * assert (Hk' : (k < length D')%nat) by lia.
        rewrite (app_nth1 T' [s]) by lia.
        rewrite (app_nth1 (T' ++ [s]) [c]) by (rewrite length_app; simpl; lia).
        rewrite (app_nth1 D' [d]) by lia.
        apply Hrest'. exact Hk'.
    + intros H.
      assert (Hs : s = mul_size_t c d).
      { specialize (H (length D') ltac:(lia)).
        rewrite HlenD in H at 1. rewrite nth_middle in H.
        replace (S (length D')) with (length (T' ++ [s])) in H
          by (rewrite length_app; simpl; lia).
        rewrite !nth_middle in H. exact H. }
      split; [exact Hs|].
      rewrite <- Hs. apply (proj2 (IH T' s HlenD)).
      intros k Hk. specialize (H k ltac:(lia)).
      rewrite (app_nth1 T' [s]) in H by lia.
      rewrite (app_nth1 (T' ++ [s]) [c]) in H by (rewrite length_app; simpl; lia).
      rewrite (app_nth1 D' [d]) in H by lia.
      exact H.
Qed.

(** [can_strides_merge] accepts exactly the ranges in which every stride
    is the next stride times the next dimension. *)
Lemma can_strides_merge_spec ds ss n :
  length ds = S n -> length ss = S n ->
  (reshape.can_strides_merge ds ss = true <->
   forall k, (k < n)%nat ->
     nth k ss 0 = mul_size_t (nth (S k) ss 0) (nth (S k) ds 0)).
Proof.
  intros Hds Hss.
  destruct ds as [|d0 D]; [discriminate|].
  assert (Hne : ss <> []) by (destruct ss; discriminate).
  destruct (exists_last Hne) as (S0 & c & ->).
  unfold reshape.can_strides_merge.
  rewrite removelast_last, last_last. cbn [tl].
  rewrite length_app in Hss. simpl in Hds, Hss.
  assert (HD : length D = n) by lia.
  assert (HS : length S0 = n) by lia.
  rewrite (equal_strides_spec D S0 c) by lia.
  rewrite HD. split; intros H k Hk; specialize (H k Hk).
  - rewrite (app_nth1 S0 [c]) by lia. exact H.
  - rewrite (app_nth1 S0 [c]) in H by lia. exact H.
Qed.

Lemma nth_firstn_skipn {A} (l : list A) (d : A) i n k :
  (k < n)%nat -> nth k (firstn n (skipn i l)) d = nth (i + k) l d.
Proof.
  intros Hk. rewrite nth_firstn.
  destruct (Nat.ltb_spec k n); [|lia].
  rewrite nth_skipn. reflexivity.
Qed.

Lemma can_strides_merge_contiguous idims istrides i n :
  (i + n + 1 <= length idims)%nat -> (i + n + 1 <= length istrides)%nat ->
  (reshape.can_strides_merge (firstn (n + 1) (skipn i idims))
                             (firstn (n + 1) (skipn i istrides)) = true <->
   reshape_spec.stride_contiguous idims istrides i n).
Proof.
  intros Hd Hs.
  rewrite (can_strides_merge_spec _ _ n);
    try (rewrite length_firstn, length_skipn; lia).
  unfold reshape_spec.stride_contiguous. split; intros H k Hk.
  - specialize (H (k - i)%nat ltac:(lia)).
    rewrite !nth_firstn_skipn in H by lia.
    replace (i + (k - i))%nat with k in H by lia.
    replace (i + S (k - i))%nat with (S k) in H by lia.
    exact H.
  - rewrite !nth_firstn_skipn by lia.
    replace (i + S k)%nat with (S (i + k)) by lia.
    apply H. lia.
Qed.

(** ** The walk of [reshape_dims] *)

Lemma step_advances idims istrides rdims i r rs i' r' rs' :
  reshape.step idims istrides rdims i r rs = reshape.Next i' r' rs' ->
  (i < i')%nat.
Proof.
  unfold reshape.step.
  destruct (nth_error idims i) as [idim|]; [|discriminate].
  destruct (nth_error rdims r) as [rdim|]; [|discriminate].
  destruct (rdim =? idim).
  { destruct (nth_error istrides i); [|discriminate].
    intros H. injection H as <- _ _. lia. }
  destruct (rdim >? idim).
  - destruct (Nat.eqb _ 0); [discriminate|].
    destruct (_ <? _)%nat; [discriminate|].
    destruct (negb _); [discriminate|].
    destruct (nth_error istrides _); [|discriminate].
    intros H. injection H as <- _ _. lia.
  - destruct (_ <? _)%nat; [discriminate|].
    destruct (Nat.eqb _ 0); [discriminate|].
    destruct (nth_error istrides i); [|discriminate].
    destruct (reshape.split_strides _ _); [|discriminate].
    intros H. injection H as <- _ _. lia.
Qed.

(** The loop started at the initial state passes through every state of
    [reaches] with enough iterations left. *)
Lemma walk_reaches idims istrides rdims i r rs :
  reshape_spec.reaches idims istrides rdims i r rs ->
  exists fuel,
    (length idims <= fuel + i)%nat /\
    reshape.walk (length idims) idims istrides rdims 0 0 [] =
    reshape.walk fuel idims istrides rdims i r rs.
Proof.
  induction 1 as [|i r rs i' r' rs' _ IH Hi Hr Hstep].
  - exists (length idims). split; [lia | reflexivity].
  - destruct IH as (fuel & Hfuel & Heq).
    destruct fuel as [|fuel]; [lia|].
    exists fuel. split.
    + pose proof (step_advances _ _ _ _ _ _ _ _ _ Hstep). lia.
    + rewrite Heq. cbn [reshape.walk].
      destruct (Nat.ltb_spec i (length idims)); [|lia].
      destruct (Nat.ltb_spec r (length rdims)); [|lia].
      cbn [andb]. rewrite Hstep. reflexivity.
Qed.

(** A step that returns [nullopt] in a state of the walk makes
    [reshape_dims] return [nullopt]: no shape is produced. *)
Lemma reshape_dims_nullopt input rdims i r rs :
  standard input = false ->
  reshape_spec.reaches (lens input) (strides input) rdims i r rs ->
  (i < length (lens input))%nat -> (r < length rdims)%nat ->
  reshape.step (lens input) (strides input) rdims i r rs = reshape.Nullopt ->
  reshape.reshape_dims input rdims = Ok None.
Proof.
  intros Hstd Hreach Hi Hr Hstep.
  unfold reshape.reshape_dims. rewrite Hstd.
  destruct (walk_reaches _ _ _ _ _ _ Hreach) as (fuel & Hfuel & ->).
  destruct fuel as [|fuel]; [lia|].
  cbn [reshape.walk].
  destruct (Nat.ltb_spec i (length (lens input))); [|lia].
  destruct (Nat.ltb_spec r (length rdims)); [|lia].
  cbn [andb]. rewrite Hstep. reflexivity.
Qed.

Lemma nth_error_lt {A} (l : list A) i x : nth_error l i = Some x -> (i < length l)%nat.
Proof. intros H. apply nth_error_Some. congruence. Qed.

Lemma skipn_head {A} (l : list A) i x :
  nth_error l i = Some x -> exists rest, skipn i l = x :: rest.
Proof.
  revert i. induction l as [|a l IH]; intros [|i] H; simpl in *; try discriminate.
  - injection H as ->. eexists. reflexivity.
  - apply IH. exact H.
Qed.

(** The first exact prefix of a non-empty range lies inside the range. *)
Lemma first_exact_prefix_lt range dim n :
  range <> [] ->
  reshape_spec.first_exact_prefix range dim n -> (n < length range)%nat.
Proof.
  intros Hne [Heq Hleast].
  destruct (Nat.lt_ge_cases n (length range)) as [H|H]; [exact H|].
  exfalso.
  assert (Hlen : (0 < length range)%nat) by (destruct range; [congruence | simpl; lia]).
  apply (Hleast (length range - 1)%nat); [lia|].
  rewrite firstn_past_end in Heq by lia.
  rewrite firstn_past_end by lia. exact Heq.
Qed.

(** ** The squeeze branch (C3) *)

Section Squeeze.

Variables (input : shape) (rdims : list Z) (i r : nat) (rs : list Z) (idim rdim : Z).

Hypothesis Hstd : standard input = false.
Hypothesis Hlen : length (strides input) = length (lens input).
Hypothesis Hreach : reshape_spec.reaches (lens input) (strides input) rdims i r rs.
Hypothesis Hidim : nth_error (lens input) i = Some idim.
Hypothesis Hrdim : nth_error rdims r = Some rdim.
Hypothesis Hsqueeze : idim < rdim.
Hypothesis Hfits : reshape_spec.fits_size_t (skipn i (lens input)).

Let range := skipn i (lens input).

Lemma squeeze_idim_nonneg : 0 <= idim.
Proof.
  destruct Hfits as [Hnn _].
  destruct (skipn_head _ _ _ Hidim) as (rest & E).
  rewrite E in Hnn. inversion Hnn. assumption.
Qed.

Lemma squeeze_step_unfold :
  reshape.step (lens input) (strides input) rdims i r rs =
  let n := reshape.compute_end_dim range rdim in
  if Nat.eqb n 0 then reshape.Nullopt
  else if (length (strides input) <? i + n + 1)%nat then reshape.StepUndefined
  else if negb (reshape.can_strides_merge (firstn (n + 1) range)
                  (firstn (n + 1) (skipn i (strides input))))
  then reshape.Nullopt
  else
    match nth_error (strides input) (i + n) with
    | Some s => reshape.Next (S (i + n)) (S r) (rs ++ [s])
    | None => reshape.StepUndefined
    end.
Proof.
  unfold reshape.step. rewrite Hidim, Hrdim.
  destruct (Z.eqb_spec rdim idim); [lia|].
  destruct (Z.gtb_spec rdim idim); [|lia].
  reflexivity.
Qed.

Lemma squeeze_no_prefix :
  (forall n, product (firstn (S n) range) <> rdim) ->
  reshape.step (lens input) (strides input) rdims i r rs = reshape.Nullopt.
Proof.
  intros Hno. rewrite squeeze_step_unfold. cbv zeta.
  rewrite (compute_end_dim_not_found range rdim Hfits Hno). reflexivity.
Qed.

Lemma squeeze_prefix_bounds n :
  reshape_spec.first_exact_prefix range rdim n ->
  (0 < n)%nat /\ (i + n + 1 <= length (lens input))%nat /\
  reshape.compute_end_dim range rdim = n.
Proof.
  intros Hn.
  destruct (skipn_head _ _ _ Hidim) as (rest & E).
  assert (Hne : range <> []) by (unfold range; rewrite E; discriminate).
  pose proof (first_exact_prefix_lt range rdim n Hne Hn) as Hlt.
  pose proof squeeze_idim_nonneg as Hnn.
  split; [|split].
  - destruct n; [|lia]. destruct Hn as [Heq _].
    unfold range in Heq. rewrite E in Heq. unfold product in Heq. simpl in Heq.
    rewrite Z.mul_1_r in Heq. lia.
  - unfold range in Hlt. rewrite length_skipn in Hlt. lia.
  - apply compute_end_dim_found; [exact Hfits | lia | exact Hn | exact Hlt].
Qed.

Lemma squeeze_merge n :
  reshape_spec.first_exact_prefix range rdim n ->
  reshape_spec.stride_contiguous (lens input) (strides input) i n ->
  reshape.step (lens input) (strides input) rdims i r rs =
  reshape.Next (S (i + n)) (S r) (rs ++ [nth (i + n) (strides input) 0]).
Proof.
  intros Hn Hc.
  destruct (squeeze_prefix_bounds n Hn) as (Hpos & Hbound & Hend).
  rewrite squeeze_step_unfold. cbv zeta. rewrite Hend.
  destruct (Nat.eqb_spec n 0); [lia|].
  destruct (Nat.ltb_spec (length (strides input)) (i + n + 1)); [lia|].
  apply can_strides_merge_contiguous in Hc; [|lia|lia].
  fold range in Hc. rewrite Hc. cbn [negb].
  destruct (nth_error (strides input) (i + n)) as [s|] eqn:E.
  - rewrite (nth_error_nth _ _ 0 E). reflexivity.
  - apply nth_error_None in E. lia.
Qed.

Lemma squeeze_not_contiguous n :
  reshape_spec.first_exact_prefix range rdim n ->
  ~ reshape_spec.stride_contiguous (lens input) (strides input) i n ->
  reshape.step (lens input) (strides input) rdims i r rs = reshape.Nullopt.
Proof.
  intros Hn Hc.
  destruct (squeeze_prefix_bounds n Hn) as (Hpos & Hbound & Hend).
  rewrite squeeze_step_unfold. cbv zeta. rewrite Hend.
  destruct (Nat.eqb_spec n 0); [lia|].
  destruct (Nat.ltb_spec (length (strides input)) (i + n + 1)); [lia|].
  destruct (reshape.can_strides_merge (firstn (n + 1) range)
              (firstn (n + 1) (skipn i (strides input)))) eqn:E; [|reflexivity].
  exfalso. apply Hc.
  apply can_strides_merge_contiguous; [lia | lia | exact E].
Qed.

Lemma squeeze_nullopt_no_shape :
  reshape.step (lens input) (strides input) rdims i r rs = reshape.Nullopt ->
  reshape.reshape_dims input rdims = Ok None.
Proof.
  intros H.
  apply (reshape_dims_nullopt input rdims i r rs Hstd Hreach); [| |exact H].
  - exact (nth_error_lt _ _ _ Hidim).
  - exact (nth_error_lt _ _ _ Hrdim).
Qed.

End Squeeze.

(** C3: in a state of the walk whose target dimension [rdim] is larger
    than the input dimension [idim] (a squeeze), the step accumulates the
    input dimensions from [i] up to the first prefix whose product is
    [rdim]; it returns [nullopt], and [reshape_dims] produces no shape,
    when no prefix product equals [rdim], and also when the merged
    dimensions are not stride-contiguous (each stride being the stride
    of the following dimension times that dimension); when they are, the
    merged dimension takes the stride of the last merged input
    dimension. *)
Theorem reshape_squeeze (input : shape) (rdims : list Z) (i r : nat) (rs : list Z)
  (idim rdim : Z) :
  standard input = false ->
  length (strides input) = length (lens input) ->
  reshape_spec.reaches (lens input) (strides input) rdims i r rs ->
  nth_error (lens input) i = Some idim ->
  nth_error rdims r = Some rdim ->
  idim < rdim ->
  reshape_spec.fits_size_t (skipn i (lens input)) ->
  ((forall n, product (firstn (S n) (skipn i (lens input))) <> rdim) ->
     reshape.step (lens input) (strides input) rdims i r rs = reshape.Nullopt /\
     reshape.reshape_dims input rdims = Ok None) /\
  (forall n,
     reshape_spec.first_exact_prefix (skipn i (lens input)) rdim n ->
     (~ reshape_spec.stride_contiguous (lens input) (strides input) i n ->
        reshape.step (lens input) (strides input) rdims i r rs = reshape.Nullopt /\
        reshape.reshape_dims input rdims = Ok None) /\
     (reshape_spec.stride_contiguous (lens input) (strides input) i n ->
        reshape.step (lens input) (strides input) rdims i r rs =
        reshape.Next (S (i + n)) (S r) (rs ++ [nth (i + n) (strides input) 0]))).
Proof.
  intros Hstd Hlen Hreach Hidim Hrdim Hsq Hfits.
  assert (Hnone : reshape.step (lens input) (strides input) rdims i r rs = reshape.Nullopt ->
                  reshape.reshape_dims input rdims = Ok None).
  { eapply squeeze_nullopt_no_shape; eassumption. }
  split.
  - intros Hno.
    assert (H : reshape.step (lens input) (strides input) rdims i r rs = reshape.Nullopt).
    { eapply squeeze_no_prefix; eassumption. }
    split; [exact H | exact (Hnone H)].
  - intros n Hn. split.
    + intros Hc.
      assert (H : reshape.step (lens input) (strides input) rdims i r rs = reshape.Nullopt).
      { eapply squeeze_not_contiguous; eassumption. }
      split; [exact H | exact (Hnone H)].
    + intros Hc. eapply squeeze_merge; eassumption.
Qed.

Lemma reshape_squeeze_witness :
  reshape.step [2; 3; 4] [12; 1; 3] [2; 12] 1 1 [12] = reshape.Nullopt /\
  reshape.reshape_dims (shape_static float_type [2; 3; 4] [12; 1; 3]) [2; 12] = Ok None.
Proof.
  assert (Hreach : reshape_spec.reaches [2; 3; 4] [12; 1; 3] [2; 12] 1 1 [12]).
  { apply (reshape_spec.reaches_step _ _ _ 0 0 [] 1 1 [12]).
    - apply reshape_spec.reaches_start.
    - simpl. lia.
    - simpl. lia.
    - reflexivity. }
  assert (Hfits : reshape_spec.fits_size_t [3; 4]).
  { split; [repeat constructor; lia|].
    intros [|[|[|m]]]; vm_compute; reflexivity. }
  assert (Hprefix : reshape_spec.first_exact_prefix [3; 4] 12 1).
  { split; [reflexivity|]. intros [|m] Hm; [vm_compute; discriminate | lia]. }
  assert (Hnc : ~ reshape_spec.stride_contiguous [2; 3; 4] [12; 1; 3] 1 1).
  { intros H. specialize (H 1%nat ltac:(lia)). vm_compute in H. discriminate. }
  exact (proj1 (proj2 (reshape_squeeze (shape_static float_type [2; 3; 4] [12; 1; 3])
                         [2; 12] 1 1 [12] 3 12
                         eq_refl eq_refl Hreach eq_refl eq_refl eq_refl Hfits)
                 1%nat Hprefix) Hnc).
Defined.

(** ** The unsqueeze branch (C2) *)

(** Where the walk has consumed as many input as target dimensions
    ([i = r]), the unsqueeze branch of [step] is the accumulation from the
    current target position. *)
Lemma unsqueeze_aligned idims istrides rdims i rs idim rdim :
  nth_error idims i = Some idim -> nth_error rdims i = Some rdim ->
  rdim < idim ->
  reshape.step idims istrides rdims i i rs =
  reshape_spec.unsqueeze_from_target_position istrides rdims i i idim rs.
Proof.
  intros Hi Hr Hlt. unfold reshape.step, reshape_spec.unsqueeze_from_target_position.
  rewrite Hi, Hr.
  destruct (Z.eqb_spec rdim idim); [lia|].
  destruct (Z.gtb_spec rdim idim); [lia|].
  pose proof (nth_error_lt _ _ _ Hr).
  destruct (Nat.ltb_spec (length rdims) i); [lia|].
  reflexivity.
Qed.

(** C2 at the failing input: lens [[2,2,6]] with strides [[24,12,2]],
    target [[4,2,3]].  After the squeeze of the first two input
    dimensions the walk is at [i = 2], [r = 1]; the input dimension 6 is
    larger than the target dimension 2 and the target dimensions from
    position [r], [[2,3]], have product 6, so the accumulation from the
    current target position yields the strides [[6,2]].  The code starts
    its accumulation at [rdims.begin() + i], finds [[3]] only, and
    returns [nullopt]: [compute_shape] throws. *)
Theorem reshape_unsqueeze_wrong_start :
  let idims := [2; 2; 6] in
  let istrides := [24; 12; 2] in
  let rdims := [4; 2; 3] in
  reshape_spec.reaches idims istrides rdims 2 1 [12] /\
  nth_error idims 2 = Some 6 /\ nth_error rdims 1 = Some 2 /\
  reshape_spec.first_exact_prefix (skipn 1 rdims) 6 1 /\
  reshape_spec.unsqueeze_from_target_position istrides rdims 2 1 6 [12] =
    reshape.Next 3 3 [12; 6; 2] /\
  reshape.step idims istrides rdims 2 1 [12] = reshape.Nullopt /\
  reshape.reshape_dims (shape_static float_type idims istrides) rdims = Ok None /\
  reshape.compute_shape [4; 2; 3] [shape_static float_type idims istrides] =
    Throw "Reshape on axis that is not packed.".
Proof.
  cbv zeta. split; [|split; [|split; [|split; [|split; [|split; [|split]]]]]];
    try reflexivity.
  - apply (reshape_spec.reaches_step _ _ _ 0 0 [] 2 1 [12]).
    + apply reshape_spec.reaches_start.
    + simpl. lia.
    + simpl. lia.
    + reflexivity.
  - split; [reflexivity|]. intros [|m] Hm; [vm_compute; discriminate | lia].
Qed.

(** The same memory described with the first two dimensions already
    merged (lens [[4,6]], strides [[12,2]]) reshapes to [[4,2,3]] with the
    strides [[12,6,2]]: there the walk is at [i = r] when it splits. *)
Lemma reshape_unsqueeze_aligned_example :
  reshape.reshape_dims (shape_static float_type [4; 6] [12; 2]) [4; 2; 3] =
    Ok (Some (shape_static float_type [4; 2; 3] [12; 6; 2])).
Proof. reflexivity. Qed.

(** ** [miopen_convolution::finalize] (C9) *)

(** C9 on the code: when [finalize] loads a solution and the compute-unit
    count or the architecture the model was compiled for differs from
    the current device, it throws the message that ends in "performance
    may suffer ..."; nothing is logged and no result is returned. *)
Theorem finalize_device_mismatch_throws
  (miopenLoadSolution : list Z -> miopen_convolution.miopenStatus_t * nat)
  (self : miopen_convolution.t) (ctx : miopen_convolution.context) (ptr : nat) :
  miopen_convolution.solution_ptr self = None ->
  miopenLoadSolution (miopen_convolution.solution_object self) =
    (miopen_convolution.miopenStatusSuccess, ptr) ->
  miopen_convolution.cu_count ctx <> miopen_convolution.current_cu_count ctx \/
  miopen_convolution.gfx_arch ctx <> miopen_convolution.current_gfx_arch ctx ->
  miopen_convolution.finalize miopenLoadSolution self ctx =
    Throw (miopen_convolution.device_mismatch_message ctx) /\
  forall out, miopen_convolution.finalize miopenLoadSolution self ctx <> Ok out.
Proof.
  intros Hptr Hload Hdiff.
  assert (H : miopen_convolution.finalize miopenLoadSolution self ctx =
              Throw (miopen_convolution.device_mismatch_message ctx)).
  { unfold miopen_convolution.finalize. rewrite Hptr, Hload. cbn [negb
      miopen_convolution.status_eqb].
    destruct (Z.eqb_spec (miopen_convolution.cu_count ctx)
                         (miopen_convolution.current_cu_count ctx)) as [Ecu|Ecu];
      [|reflexivity].
    destruct (String.eqb_spec (miopen_convolution.gfx_arch ctx)
                              (miopen_convolution.current_gfx_arch ctx)) as [Ea|Ea];
      [|reflexivity].
    destruct Hdiff; contradiction. }
  split; [exact H|]. intros out. rewrite H. discriminate.
Qed.

Lemma finalize_device_mismatch_throws_witness :
  let self := miopen_convolution.mk "convolution" [1; 2; 3] None in
  let ctx := miopen_convolution.mk_context "gfx90a" 104 "3.2.0" "gfx1100" 48 in
  miopen_convolution.finalize
    (fun _ => (miopen_convolution.miopenStatusSuccess, 7%nat)) self ctx =
    Throw (miopen_convolution.device_mismatch_message ctx) /\
  forall out,
    miopen_convolution.finalize
      (fun _ => (miopen_convolution.miopenStatusSuccess, 7%nat)) self ctx <> Ok out.
Proof.
  apply (finalize_device_mismatch_throws
           (fun _ => (miopen_convolution.miopenStatusSuccess, 7%nat))
           (miopen_convolution.mk "convolution" [1; 2; 3] None)
           (miopen_convolution.mk_context "gfx90a" 104 "3.2.0" "gfx1100" 48) 7%nat).
  - reflexivity.
  - reflexivity.
  - left. simpl. lia.
Defined.

(** The sibling check of the MIOpen version is the one that logs, but it
    follows the throw on every status other than success: whenever
    [finalize] returns, nothing was written to the log. *)
Lemma finalize_never_logs miopenLoadSolution self ctx self' log :
  miopen_convolution.finalize miopenLoadSolution self ctx = Ok (self', log) ->
  log = [].
Proof.
  unfold miopen_convolution.finalize.
  destruct (miopen_convolution.solution_ptr self).
  { intros H. injection H as _ <-. reflexivity. }
  destruct (miopenLoadSolution _) as [status ptr].
  destruct status; cbn [negb miopen_convolution.status_eqb]; try discriminate.
  destruct (_ || _); [discriminate|].
  intros H. injection H as _ <-. reflexivity.
Qed.

(** ** Modules *)

Lemma existsb_eqb_In a l : existsb (Nat.eqb a) l = true <-> In a l.
Proof.
  rewrite existsb_exists. split.
  - intros (x & Hin & E). apply Nat.eqb_eq in E. subst. exact Hin.
  - intros H. exists a. split; [exact H | apply Nat.eqb_refl].
Qed.

Lemma existsb_eqb_not_In a l : existsb (Nat.eqb a) l = false <-> ~ In a l.
Proof.
  rewrite <- existsb_eqb_In. destruct (existsb (Nat.eqb a) l); split; congruence.
Qed.

Lemma topological_from_ids seen m :
  prepare_reduce_spec.topological_from seen m = true ->
  NoDup (map ins_id m) /\ forall x, In x m -> ~ In (ins_id x) seen.
Proof.
  revert seen. induction m as [|y rest IH]; intros seen H; simpl in *.
  - split; [constructor | intros x []].
  - apply andb_true_iff in H as [H Hrest]. apply andb_true_iff in H as [_ Hy].
    apply negb_true_iff, existsb_eqb_not_In in Hy.
    destruct (IH _ Hrest) as [Hnd Hseen]. split.
    + constructor; [|exact Hnd].
      intros Hin. apply in_map_iff in Hin as (z & Ez & Hz).
      apply (Hseen z Hz). left. symmetry. exact Ez.
    + intros x [<-|Hx]; [exact Hy|].
      intros Hin. apply (Hseen x Hx). right. exact Hin.
Qed.

Lemma topological_from_inputs seen pre x suf :
  prepare_reduce_spec.topological_from seen (pre ++ x :: suf) = true ->
  forall a, In a (ins_inputs x) -> In a seen \/ In a (map ins_id pre).
Proof.
  revert seen. induction pre as [|y pre IH]; intros seen H a Ha; simpl in *.
  - apply andb_true_iff in H as [H _]. apply andb_true_iff in H as [H _].
    rewrite forallb_forall in H. left. apply existsb_eqb_In. apply H. exact Ha.
  - apply andb_true_iff in H as [_ H].
    destruct (IH _ H a Ha) as [[<-|Hs]|Hp]; auto.
Qed.

Lemma lookup_In m i x : lookup m i = Some x -> In x m /\ ins_id x = i.
Proof.
  unfold lookup. intros H. apply find_some in H as [Hin E].
  apply Nat.eqb_eq in E. split; assumption.
Qed.

Lemma lookup_None m i : lookup m i = None <-> ~ In i (map ins_id m).
Proof.
  unfold lookup. split.
  - intros H Hin. apply in_map_iff in Hin as (x & E & Hx).
    pose proof (find_none _ _ H x Hx) as Hf. simpl in Hf.
    rewrite E, Nat.eqb_refl in Hf. discriminate.
  - intros H. destruct (find _ m) as [x|] eqn:E; [|reflexivity].
    exfalso. apply find_some in E as [Hin E]. apply Nat.eqb_eq in E.
    apply H. apply in_map_iff. exists x. split; assumption.
Qed.

Lemma lookup_unique m x :
  NoDup (map ins_id m) -> In x m -> lookup m (ins_id x) = Some x.
Proof.
  unfold lookup. induction m as [|y rest IH]; intros Hnd Hin; [destruct Hin|].
  simpl in *. inversion Hnd as [|? ? Hy Hrest]; subst.
  destruct Hin as [->|Hin].
  - rewrite Nat.eqb_refl. reflexivity.
  - destruct (Nat.eqb_spec (ins_id y) (ins_id x)) as [E|E].
    + exfalso. apply Hy. rewrite E. apply in_map. exact Hin.
    + apply IH; assumption.
Qed.

Lemma outputs_In m i o :
  In o (outputs m i) <-> exists y, In y m /\ ins_id y = o /\ In i (ins_inputs y).
Proof.
  unfold outputs. rewrite in_map_iff. split.
  - intros (y & E & Hy). apply filter_In in Hy as [Hy Hu].
    exists y. split; [exact Hy|]. split; [exact E|].
    apply existsb_eqb_In. exact Hu.
  - intros (y & Hy & E & Hi). exists y. split; [exact E|].
    apply filter_In. split; [exact Hy|]. apply existsb_eqb_In. exact Hi.
Qed.

Lemma NoDup_map_filter {A B} (f : A -> B) (p : A -> bool) l :
  NoDup (map f l) -> NoDup (map f (filter p l)).
Proof.
  induction l as [|x l IH]; intros H; simpl in *; [constructor|].
  inversion H as [|? ? Hx Hl]; subst.
  destruct (p x); simpl; [|auto].
  constructor; [|auto].
  intros Hin. apply Hx. apply in_map_iff in Hin as (y & E & Hy).
  apply filter_In in Hy as [Hy _]. apply in_map_iff. exists y. auto.
Qed.

Lemma outputs_NoDup m i : NoDup (map ins_id m) -> NoDup (outputs m i).
Proof. apply NoDup_map_filter. Qed.

Lemma NoDup_app_disjoint {A} (l1 l2 : list A) z :
  NoDup (l1 ++ l2) -> In z l1 -> In z l2 -> False.
Proof.
  induction l1 as [|a l1 IH]; intros Hnd H1 H2; [destruct H1|].
  simpl in Hnd. inversion Hnd as [|? ? Ha Hrest]; subst.
  destruct H1 as [->|H1].
  - apply Ha. apply in_or_app. right. exact H2.
  - exact (IH Hrest H1 H2).
Qed.

(** In a module in topological order the consumers of an instruction
    come after it. *)
Lemma consumers_follow pre x suf o :
  prepare_reduce_spec.topological (pre ++ x :: suf) = true ->
  In o (outputs (pre ++ x :: suf) (ins_id x)) ->
  exists s1 y s2, suf = s1 ++ y :: s2 /\ ins_id y = o.
Proof.
  intros Htop Ho.
  destruct (topological_from_ids _ _ Htop) as [Hnd _].
  apply outputs_In in Ho as (y & Hy & E & Hi).
  assert (Hsuf : In y suf).
  { apply in_app_or in Hy. destruct Hy as [Hy|[<-|Hy]]; [| |exact Hy]; exfalso.
    - apply in_split in Hy as (p1 & p2 & ->).
      rewrite <- app_assoc in Htop, Hnd. simpl in Htop, Hnd.
      destruct (topological_from_inputs _ _ _ _ Htop _ Hi) as [[]|Hp].
      rewrite map_app in Hnd.
      apply (NoDup_app_disjoint _ _ (ins_id x) Hnd Hp).
      simpl. right. rewrite map_app. apply in_or_app. right. left. reflexivity.
    - destruct (topological_from_inputs _ _ _ _ Htop _ Hi) as [[]|Hp].
      rewrite map_app in Hnd.
      apply (NoDup_app_disjoint _ _ (ins_id x) Hnd Hp). left. reflexivity. }
  apply in_split in Hsuf as (s1 & s2 & ->). exists s1, y, s2. auto.
Qed.

(** ** [get_reduce] and the matcher (C5) *)

Section GetReduce.

Variable m : module.

Lemma get_reduce_from_sound fuel : forall o r,
  prepare_reduce.get_reduce_from fuel m o = Ok (Some r) ->
  prepare_reduce_spec.reaches prepare_reduce_spec.counted_reduction m o r.
Proof.
  induction fuel as [|fuel IH]; intros o r; simpl; unfold deref;
    destruct (lookup m o) as [x|] eqn:Hx; simpl; try discriminate.
  all: destruct (String.eqb (name (ins_op x)) "gpu::parallel_reduce") eqn:E1;
       simpl; try discriminate.
  all: destruct (String.eqb (name (ins_op x)) "reduce_mean") eqn:E2;
       simpl; try discriminate.
  all: destruct (prepare_reduce.contains (name (ins_op x)) "reduce") eqn:E3.
  all: try (intros H; injection H as <-;
            apply (prepare_reduce_spec.reaches_direct _ _ _ x Hx);
            unfold prepare_reduce_spec.counted_reduction,
                   prepare_reduce_spec.reduction_operator;
            rewrite E1, E2, E3; reflexivity).
  all: destruct (String.eqb_spec (name (ins_op x)) "pointwise") as [E4|E4];
       try discriminate.
  all: destruct (Nat.eqb_spec (length (ins_inputs x)) 1) as [E5|E5];
       simpl; try discriminate.
  all: destruct (Nat.eqb_spec (length (outputs m o)) 1) as [E6|E6];
       simpl; try discriminate.
  destruct (outputs m o) as [|o' [|? ?]] eqn:Ho; try discriminate.
  intros H.
  exact (prepare_reduce_spec.reaches_through _ _ _ x o' r Hx E4 E5 Ho (IH _ _ H)).
Qed.

Lemma get_reduce_from_complete o r :
  prepare_reduce_spec.reaches prepare_reduce_spec.counted_reduction m o r ->
  forall fuel,
    prepare_reduce.get_reduce_from fuel m o = Undefined \/
    prepare_reduce.get_reduce_from fuel m o = Ok (Some r).
Proof.
  induction 1 as [o x Hx Hred|o x o' r Hx Hname Hin Hout _ IH]; intros fuel.
  - right.
    unfold prepare_reduce_spec.counted_reduction,
           prepare_reduce_spec.reduction_operator in Hred.
    apply andb_true_iff in Hred as [Hred E2].
    apply andb_true_iff in Hred as [E3 E1].
    apply negb_true_iff in E1, E2.
    destruct fuel; simpl; unfold deref; rewrite Hx; simpl;
      rewrite E1, E2, E3; reflexivity.
  - destruct fuel as [|fuel]; simpl; unfold deref; rewrite Hx; simpl;
      rewrite Hname, Hin, Hout; simpl.
    + left. reflexivity.
    + apply IH.
Qed.

Lemma get_reduce_from_no_throw fuel : forall o msg,
  prepare_reduce.get_reduce_from fuel m o <> Throw msg.
Proof.
  induction fuel as [|fuel IH]; intros o msg; simpl; unfold deref;
    destruct (lookup m o) as [x|]; simpl; try discriminate.
  all: destruct (_ || _); try discriminate.
  all: destruct (prepare_reduce.contains _ _); try discriminate.
  all: destruct (String.eqb _ _); try discriminate.
  all: destruct (_ && _); try discriminate.
  all: destruct (outputs m o); try discriminate.
  apply IH.
Qed.

Hypothesis Htop : prepare_reduce_spec.topological m = true.

(** In topological order the recursion of [get_reduce] moves forward in
    the module, so it ends. *)
Lemma get_reduce_from_defined n : forall pre x suf fuel,
  m = pre ++ x :: suf -> (length suf <= n)%nat -> (n <= fuel)%nat ->
  prepare_reduce.get_reduce_from fuel m (ins_id x) <> Undefined.
Proof.
  induction n as [|n IH]; intros pre x suf fuel Hm Hsuf Hfuel.
  all: destruct (topological_from_ids _ _ Htop) as [Hnd _].
  all: assert (Hx : lookup m (ins_id x) = Some x)
         by (apply lookup_unique; [exact Hnd | rewrite Hm; apply in_elt]).
  all: destruct fuel as [|fuel]; simpl; unfold deref; rewrite Hx; simpl.
  all: destruct (_ || _); try discriminate.
  all: destruct (prepare_reduce.contains _ _); try discriminate.
  all: destruct (String.eqb _ _); try discriminate.
  all: destruct (Nat.eqb (length (ins_inputs x)) 1); simpl; try discriminate.
  all: destruct (Nat.eqb_spec (length (outputs m (ins_id x))) 1) as [E6|E6];
       simpl; try discriminate.
  all: destruct (outputs m (ins_id x)) as [|o' outs] eqn:Ho; try discriminate.
  all: try (assert (Hin : In o' (outputs (pre ++ x :: suf) (ins_id x)))
              by (rewrite <- Hm, Ho; left; reflexivity);
            destruct (consumers_follow pre x suf o' ltac:(rewrite <- Hm; exact Htop) Hin)
              as (s1 & y & s2 & -> & <-);
            rewrite length_app in Hsuf; simpl in Hsuf).
  all: try discriminate.
  all: try (exfalso; lia).
  apply (IH (pre ++ x :: s1) y s2 fuel); [|lia|lia].
  rewrite Hm, <- app_assoc. reflexivity.
Qed.

Lemma get_reduce_defined o :
  In o (map ins_id m) -> prepare_reduce.get_reduce m o <> Undefined.
Proof.
  intros Hin. apply in_map_iff in Hin as (x & <- & Hx).
  apply in_split in Hx as (pre & suf & Hm).
  unfold prepare_reduce.get_reduce.
  apply (get_reduce_from_defined (length m) pre x suf (length m) Hm); [|lia].
  rewrite Hm, length_app. simpl. lia.
Qed.

(** [get_reduce] returns a reduction exactly for the consumers that
    reach one. *)
Lemma get_reduce_spec o :
  In o (map ins_id m) ->
  exists res,
    prepare_reduce.get_reduce m o = Ok res /\
    (prepare_reduce.has_value res = true <->
     exists r, prepare_reduce_spec.reaches prepare_reduce_spec.counted_reduction m o r).
Proof.
  intros Hin.
  pose proof (get_reduce_defined o Hin) as Hdef.
  unfold prepare_reduce.get_reduce in *.
  destruct (prepare_reduce.get_reduce_from (length m) m o) as [res|msg|] eqn:E.
  - exists res. split; [reflexivity|]. split.
    + destruct res as [r|]; [|discriminate]. intros _. exists r.
      eapply get_reduce_from_sound. exact E.
    + intros (r & Hr).
      destruct (get_reduce_from_complete o r Hr (length m)) as [H|H];
        rewrite E in H; [discriminate|].
      injection H as ->. reflexivity.
  - exfalso. exact (get_reduce_from_no_throw _ _ _ E).
  - congruence.
Qed.

End GetReduce.

Lemma count_if_filter {A} (p : A -> outcome bool) (b : A -> bool) l :
  (forall x, In x l -> p x = Ok (b x)) ->
  prepare_reduce.count_if p l = Ok (length (filter b l)).
Proof.
  induction l as [|x l IH]; intros H; simpl; [reflexivity|].
  rewrite (H x (or_introl eq_refl)). simpl.
  rewrite IH by (intros y Hy; apply H; right; exact Hy). simpl.
  destruct (b x); reflexivity.
Qed.

Lemma two_in_filter {A} (b : A -> bool) l :
  NoDup l ->
  ((2 <= length (filter b l))%nat <->
   exists x y, x <> y /\ In x l /\ In y l /\ b x = true /\ b y = true).
Proof.
  intros Hnd. split.
  - intros Hlen.
    pose proof (NoDup_filter b Hnd) as Hf.
    destruct (filter b l) as [|x [|y rest]] eqn:E; simpl in Hlen; try lia.
    assert (Hx : In x (filter b l)) by (rewrite E; left; reflexivity).
    assert (Hy : In y (filter b l)) by (rewrite E; right; left; reflexivity).
    apply filter_In in Hx as [Hx Hbx]. apply filter_In in Hy as [Hy Hby].
    exists x, y. repeat split; try assumption.
    inversion Hf as [|? ? Hnin _]; subst. intros ->. apply Hnin. left. reflexivity.
  - intros (x & y & Hne & Hx & Hy & Hbx & Hby).
    assert (Hfx : In x (filter b l)) by (apply filter_In; auto).
    assert (Hfy : In y (filter b l)) by (apply filter_In; auto).
    destruct (filter b l) as [|a [|c rest]]; simpl in *; [tauto| |lia].
    destruct Hfx as [<-|[]]. destruct Hfy as [<-|[]]. congruence.
Qed.

(** C5, as stated, fails: both consumers of instruction 1 are
    [reduce_mean] reductions, so two consumers reach a reduction
    operator, and the matcher rejects the instruction. *)
Lemma split_reduce_ignores_reduce_mean :
  let s := make_shape float_type [4; 8] in
  let s1 := make_shape float_type [4; 1] in
  let m := [ mk_instruction 1%nat (generic_op "add" []) [] s;
             mk_instruction 2%nat (generic_op "reduce_mean" [("axes", 1)]) [1%nat] s1;
             mk_instruction 3%nat (generic_op "reduce_mean" [("axes", 1)]) [1%nat] s1;
             mk_instruction 4%nat (generic_op "mul" []) [2%nat; 3%nat] s1 ] in
  prepare_reduce_spec.topological m = true /\
  (2 <= length (outputs m 1%nat))%nat /\
  prepare_reduce_spec.two_consumers_reach prepare_reduce_spec.reduction_operator m 1%nat /\
  prepare_reduce.split_reduce m 1%nat = Ok false.
Proof.
  cbv zeta. split; [reflexivity|]. split; [simpl; lia|]. split; [|reflexivity].
  exists 2%nat, 3%nat.
  split; [discriminate|]. split; [simpl; auto|]. split; [simpl; auto|]. split.
  - exists 2%nat. eapply prepare_reduce_spec.reaches_direct; reflexivity.
  - exists 3%nat. eapply prepare_reduce_spec.reaches_direct; reflexivity.
Qed.

(** C5 (amended): on a module in topological order the matcher accepts
    an instruction exactly when it has at least two consumers and at
    least two of them reach a reduction operator other than [reduce_mean]
    (and other than the fused [gpu::parallel_reduce]), directly or
    through a chain of pointwise operators that each have one input and
    one consumer; every such chain counts.  The matcher always returns. *)
Theorem split_reduce_matches (m : module) (ins : instruction_ref) :
  prepare_reduce_spec.topological m = true ->
  (exists b, prepare_reduce.split_reduce m ins = Ok b) /\
  (prepare_reduce.split_reduce m ins = Ok true <->
   (2 <= length (outputs m ins))%nat /\
   prepare_reduce_spec.two_consumers_reach prepare_reduce_spec.counted_reduction m ins).
Proof.
  intros Htop.
  destruct (topological_from_ids _ _ Htop) as [Hnd _].
  set (b := fun o => match prepare_reduce.get_reduce m o with
                     | Ok (Some _) => true
                     | _ => false
                     end).
  assert (Hb : forall o, In o (outputs m ins) ->
             (r <- prepare_reduce.get_reduce m o ;; Ok (prepare_reduce.has_value r)) = Ok (b o) /\
             (b o = true <->
              exists r, prepare_reduce_spec.reaches prepare_reduce_spec.counted_reduction m o r)).
  { intros o Ho.
    assert (Hin : In o (map ins_id m)).
    { apply outputs_In in Ho as (y & Hy & <- & _). apply in_map. exact Hy. }
    destruct (get_reduce_spec m Htop o Hin) as (res & E & Hres).
    unfold b. rewrite E. simpl. split; [destruct res; reflexivity|].
    rewrite <- Hres. destruct res; simpl; tauto. }
  assert (Hcount : prepare_reduce.count_if
                     (fun output => r <- prepare_reduce.get_reduce m output ;;
                                    Ok (prepare_reduce.has_value r)) (outputs m ins) =
                   Ok (length (filter b (outputs m ins)))).
  { apply count_if_filter. intros o Ho. apply (Hb o Ho). }
  unfold prepare_reduce.split_reduce. rewrite Hcount. simpl.
  split.
  { destruct (_ <? 2)%nat; eexists; reflexivity. }
  destruct (Nat.ltb_spec (length (outputs m ins)) 2) as [Hlt|Hge].
  - split; [discriminate|]. intros [H _]. lia.
  - split.
    + intros H. injection H as H. apply Nat.ltb_lt in H.
      split; [exact Hge|].
      apply (two_in_filter b _ (outputs_NoDup m ins Hnd)) in H
        as (o1 & o2 & Hne & H1 & H2 & Hb1 & Hb2).
      exists o1, o2. repeat split; try assumption.
      * apply (Hb o1 H1). exact Hb1.
      * apply (Hb o2 H2). exact Hb2.
    + intros [_ (o1 & o2 & Hne & H1 & H2 & Hr1 & Hr2)].
      f_equal. apply Nat.ltb_lt.
      apply (two_in_filter b _ (outputs_NoDup m ins Hnd)).
      exists o1, o2. repeat split; try assumption.
      * apply (Hb o1 H1). exact Hr1.
      * apply (Hb o2 H2). exact Hr2.
Qed.

Lemma split_reduce_matches_witness :
  let s := make_shape float_type [4; 8] in
  let s1 := make_shape float_type [4; 1] in
  let m := [ mk_instruction 1%nat (generic_op "add" []) [] s;
             mk_instruction 2%nat (generic_op "pointwise" []) [1%nat] s;
             mk_instruction 3%nat (generic_op "reduce_sum" [("axes", 1)]) [2%nat] s1;
             mk_instruction 4%nat (generic_op "reduce_sum" [("axes", 1)]) [1%nat] s1;
             mk_instruction 5%nat (generic_op "mul" []) [3%nat; 4%nat] s1 ] in
  (exists b, prepare_reduce.split_reduce m 1%nat = Ok b) /\
  (prepare_reduce.split_reduce m 1%nat = Ok true <->
   (2 <= length (outputs m 1%nat))%nat /\
   prepare_reduce_spec.two_consumers_reach prepare_reduce_spec.counted_reduction m 1%nat).
Proof.
  cbv zeta. apply split_reduce_matches. reflexivity.
Defined.

(** ** Module mutations *)

Lemma topological_closed m :
  prepare_reduce_spec.topological m = true -> closed m.
Proof.
  intros Htop x Hx a Ha.
  apply in_split in Hx as (pre & suf & ->).
  destruct (topological_from_inputs _ _ _ _ Htop a Ha) as [[]|H].
  rewrite map_app. apply in_or_app. left. exact H.
Qed.

Lemma list_max_ge l x : In x l -> (x <= list_max l)%nat.
Proof.
  induction l as [|y l IH]; intros H; [destruct H|].
  simpl. destruct H as [->|H]; [lia|]. specialize (IH H). lia.
Qed.

Lemma fresh_not_in m : ~ In (fresh m) (map ins_id m).
Proof.
  intros H. apply list_max_ge in H. unfold fresh in H. lia.
Qed.

Lemma deref_ok m i : In i (map ins_id m) -> exists x, deref m i = Ok x /\ lookup m i = Some x.
Proof.
  intros H. unfold deref. destruct (lookup m i) as [x|] eqn:E.
  - exists x. split; reflexivity.
  - apply lookup_None in E. contradiction.
Qed.

Lemma input_shapes_ok m args :
  (forall a, In a args -> In a (map ins_id m)) ->
  exists shapes, input_shapes m args = Ok shapes.
Proof.
  unfold input_shapes. induction args as [|a args IH]; intros H; simpl.
  - eexists. reflexivity.
  - destruct (deref_ok m a (H a (or_introl eq_refl))) as (x & -> & _). simpl.
    destruct IH as (shapes & ->); [intros b Hb; apply H; right; exact Hb|].
    simpl. eexists. reflexivity.
Qed.

Lemma replaced_ids m ins new :
  map ins_id (replaced m ins new) =
  map (fun i => if Nat.eqb i ins then ins_id new else i) (map ins_id m).
Proof.
  unfold replaced. rewrite !map_map. apply map_ext. intros x.
  destruct (Nat.eqb (ins_id x) ins); reflexivity.
Qed.

Lemma NoDup_map_rename (l : list nat) old new :
  NoDup l -> ~ In new l ->
  NoDup (map (fun i => if Nat.eqb i old then new else i) l).
Proof.
  induction l as [|a l IH]; intros Hnd Hnew; simpl; [constructor|].
  inversion Hnd as [|? ? Ha Hl]; subst.
  constructor.
  - intros Hin. apply in_map_iff in Hin as (b & E & Hb).
    destruct (Nat.eqb_spec a old) as [Ea|Ea]; destruct (Nat.eqb_spec b old) as [Eb|Eb].
    + apply Ha. congruence.
    + apply Hnew. right. congruence.
    + apply Hnew. left. congruence.
    + apply Ha. congruence.
  - apply IH; [exact Hl|]. intros H. apply Hnew. right. exact H.
Qed.

Lemma replaced_NoDup m ins new :
  NoDup (map ins_id m) -> ~ In (ins_id new) (map ins_id m) ->
  NoDup (map ins_id (replaced m ins new)).
Proof.
  intros Hnd Hnew. rewrite replaced_ids. apply NoDup_map_rename; assumption.
Qed.

Lemma replaced_closed m ins new :
  closed m ->
  (forall a, In a (ins_inputs new) -> In a (map ins_id m) /\ a <> ins) ->
  In ins (map ins_id m) ->
  closed (replaced m ins new).
Proof.
  intros Hc Hnew Hins x Hx a Ha.
  rewrite replaced_ids.
  unfold replaced in Hx. apply in_map_iff in Hx as (y & <- & Hy).
  destruct (Nat.eqb (ins_id y) ins).
  - destruct (Hnew a Ha) as [Hin Hne].
    apply in_map_iff. exists a. split; [|exact Hin].
    destruct (Nat.eqb_spec a ins); [contradiction | reflexivity].
  - simpl in Ha. apply in_map_iff in Ha as (b & <- & Hb).
    destruct (Nat.eqb_spec b ins) as [->|Hne].
    + apply in_map_iff. exists ins. rewrite Nat.eqb_refl. auto.
    + apply in_map_iff. exists b. split.
      * destruct (Nat.eqb_spec b ins); [contradiction | reflexivity].
      * exact (Hc y Hy b Hb).
Qed.

Lemma Forall2_map_left {A B C} (R : B -> C -> Prop) (f : A -> B) l : forall l',
  Forall2 R (map f l) l' -> Forall2 (fun x y => R (f x) y) l l'.
Proof.
  induction l as [|x l IH]; intros l' H; simpl in H; inversion H; subst;
    constructor; auto.
Qed.

Lemma topological_self_free m :
  prepare_reduce_spec.topological m = true -> self_free m.
Proof.
  intros Htop x Hx Hself.
  destruct (topological_from_ids _ _ Htop) as [Hnd _].
  apply in_split in Hx as (pre & suf & ->).
  destruct (topological_from_inputs _ _ _ _ Htop _ Hself) as [[]|H].
  rewrite map_app in Hnd.
  apply (NoDup_app_disjoint _ _ (ins_id x) Hnd H). left. reflexivity.
Qed.

(** Replacing an instruction by one that keeps its inputs preserves the
    links of the module. *)
Lemma replaced_keeps_links m i x op s :
  closed m -> self_free m -> In x m -> ins_id x = i ->
  let new := mk_instruction (fresh m) op (ins_inputs x) s in
  closed (replaced m i new) /\ self_free (replaced m i new).
Proof.
  intros Hcl Hsf Hx Hid new.
  assert (Hi : In i (map ins_id m)) by (rewrite <- Hid; apply in_map; exact Hx).
  split.
  - apply replaced_closed; [exact Hcl | | exact Hi].
    intros a Ha. split; [exact (Hcl x Hx a Ha)|].
    intros ->. apply (Hsf x Hx). rewrite Hid. exact Ha.
  - intros y Hy Hself. unfold replaced in Hy.
    apply in_map_iff in Hy as (z & <- & Hz).
    destruct (Nat.eqb_spec (ins_id z) i) as [E|E].
    + simpl in Hself. apply (fresh_not_in m). exact (Hcl x Hx _ Hself).
    + simpl in Hself. apply in_map_iff in Hself as (b & Eb & Hb).
      destruct (Nat.eqb_spec b i) as [Ebi|Hne].
      * simpl in Eb. apply (fresh_not_in m). rewrite Eb. apply in_map. exact Hz.
      * rewrite Eb in Hb. exact (Hsf z Hz Hb).
Qed.

(** ** The compilation scheduler (C8) *)

Section Scheduler.

Variable gcs : string -> list (string * Z) -> list shape -> outcome shape.
Variable value : Type.
Variable null_value : value.
Variable get_tuning_config : instruction -> operation -> option (list value).
Variable compile : instruction -> operation -> value -> outcome operation.

Abbreviation single_candidate :=
  (compile_ops_spec.single_candidate value get_tuning_config compile).
Abbreviation discovered :=
  (compile_ops_spec.discovered value get_tuning_config compile).
Abbreviation replace_in_order := (compile_ops_spec.replace_in_order gcs).
Abbreviation all_compile :=
  (compile_ops_spec.all_compile gcs value get_tuning_config compile).

Lemma code_of_not_in todo i : ~ In i (map fst todo) -> code_of todo i = None.
Proof.
  unfold code_of. intros H.
  destruct (find (fun p => Nat.eqb (fst p) i) todo) as [p|] eqn:E; [|reflexivity].
  apply find_some in E as [Hin E]. apply Nat.eqb_eq in E.
  exfalso. apply H. apply in_map_iff. exists p. auto.
Qed.

Lemma lookup_ids m i x : lookup m i = Some x -> In i (map ins_id m).
Proof.
  intros H. apply lookup_In in H as [H <-]. apply in_map. exact H.
Qed.

Lemma lookup_replaced_other m ins new j x :
  lookup m j = Some x -> j <> ins -> ins_id new <> j ->
  lookup (replaced m ins new) j = Some (redirect ins (ins_id new) x).
Proof.
  unfold lookup, replaced. intros Hx Hne Hnew.
  induction m as [|y m IH]; simpl in *; [discriminate|].
  destruct (Nat.eqb_spec (ins_id y) j) as [E|E].
  - injection Hx as ->. destruct (Nat.eqb_spec (ins_id x) ins); [congruence|].
    simpl. rewrite E, Nat.eqb_refl. reflexivity.
  - destruct (Nat.eqb_spec (ins_id y) ins) as [E'|E'].
    + destruct (Nat.eqb_spec (ins_id new) j); [contradiction|]. apply IH. exact Hx.
    + simpl. destruct (Nat.eqb_spec (ins_id y) j); [contradiction|]. apply IH. exact Hx.
Qed.

Lemma lookup_replaced_new m ins new :
  In ins (map ins_id m) -> ~ In (ins_id new) (map ins_id m) ->
  lookup (replaced m ins new) (ins_id new) = Some new.
Proof.
  unfold lookup, replaced. intros Hins Hnew.
  induction m as [|y m IH]; simpl in *; [destruct Hins|].
  destruct (Nat.eqb_spec (ins_id y) ins) as [E|E].
  - rewrite Nat.eqb_refl. reflexivity.
  - simpl. destruct (Nat.eqb_spec (ins_id y) (ins_id new)) as [E'|_].
    + exfalso. apply Hnew. left. exact E'.
    + apply IH; [|intros H; apply Hnew; right; exact H].
      destruct Hins as [H|H]; [contradiction | exact H].
Qed.

(** A replacement that keeps the shape of the instruction it replaces,
    or that no listed instruction consumes, leaves the input shapes of
    the other instructions as they were. *)
Lemma input_shapes_replaced mc i x new args shapes :
  NoDup (map ins_id mc) -> lookup mc i = Some x ->
  ins_id new = fresh mc ->
  (In i args -> ins_shape new = ins_shape x) ->
  input_shapes mc args = Ok shapes ->
  input_shapes (replaced mc i new)
    (map (fun a => if Nat.eqb a i then ins_id new else a) args) = Ok shapes.
Proof.
  intros Hnd Hx Hid Hshape. unfold input_shapes. revert shapes.
  induction args as [|a args IH]; intros shapes H; [exact H|].
  cbn [map transform] in H |- *.
  destruct (deref mc a) as [z| |] eqn:Ez; cbn [bind] in H; try discriminate.
  destruct (transform (fun a0 => x0 <- deref mc a0 ;; Ok (ins_shape x0)) args)
    as [rest| |] eqn:Erest; cbn [bind] in H; try discriminate.
  injection H as <-.
  rewrite (IH (fun Hin => Hshape (or_intror Hin)) rest eq_refl).
  unfold deref in Ez. destruct (lookup mc a) as [z'|] eqn:Ea; [|discriminate].
  injection Ez as ->.
  assert (Hi : In i (map ins_id mc)) by (eapply lookup_ids; exact Hx).
  assert (Hfresh : ~ In (ins_id new) (map ins_id mc))
    by (rewrite Hid; apply fresh_not_in).
  destruct (Nat.eqb_spec a i) as [->|Hne].
  - unfold deref. rewrite (lookup_replaced_new mc i new Hi Hfresh). cbn [bind].
    rewrite (Hshape (or_introl eq_refl)). congruence.
  - unfold deref. rewrite (lookup_replaced_other mc i new a z Ea Hne).
    + reflexivity.
    + intros E. apply Hfresh. rewrite E. eapply lookup_ids. exact Ea.
Qed.

(** The sequential replacement succeeds and changes exactly the
    operators of the listed instructions, when each listed operator
    infers a shape from the shapes of the inputs of its instruction,
    and that shape is the instruction's own unless no listed
    instruction consumes it. *)
Lemma replace_in_order_spec todo : forall mc,
  NoDup (map ins_id mc) -> closed mc -> self_free mc -> NoDup (map fst todo) ->
  (forall i code, In (i, code) todo ->
     exists x shapes s,
       lookup mc i = Some x /\
       input_shapes mc (ins_inputs x) = Ok shapes /\
       compute_shape gcs code shapes = Ok s /\
       (s = ins_shape x \/
        forall j c y, In (j, c) todo -> lookup mc j = Some y ->
                      ~ In i (ins_inputs y))) ->
  exists m',
    replace_in_order mc todo = Ok m' /\
    Forall2 (fun x x' => match code_of todo (ins_id x) with
                         | Some code => ins_op x' = code
                         | None => ins_op x' = ins_op x
                         end) mc m'.
Proof.
  induction todo as [|[i code] rest IH]; intros mc Hnd Hcl Hsf Htodo Hall.
  - exists mc. split; [reflexivity|].
    clear. induction mc; constructor; [reflexivity | assumption].
  - cbn [compile_ops_spec.replace_in_order].
    destruct (Hall i code (or_introl eq_refl)) as (x & shapes & s & Hx & Hshapes & Hs & Hkeep).
    assert (Hi : In i (map ins_id mc)) by (eapply lookup_ids; exact Hx).
    unfold deref at 1. rewrite Hx. cbn [bind].
    unfold replace_instruction, deref. rewrite Hx. cbn [bind].
    rewrite Hshapes. cbn [bind]. rewrite Hs. cbn [bind fst].
    fold (replaced mc i (mk_instruction (fresh mc) code (ins_inputs x) s)).
    pose proof Hx as Hx'. apply lookup_In in Hx' as [Hxin Hxid].
    set (new := mk_instruction (fresh mc) code (ins_inputs x) s).
    simpl in Htodo. inversion Htodo as [|? ? Hirest Hrest]; subst.
    destruct (replaced_keeps_links mc (ins_id x) x code s Hcl Hsf Hxin eq_refl)
      as [Hcl1 Hsf1].
    fold new in Hcl1, Hsf1.
    assert (Hother : forall j c, In (j, c) rest -> j <> ins_id x).
    { intros j c Hj ->. apply Hirest. apply in_map_iff. exists (ins_id x, c). auto. }
    assert (Hold : forall j c, In (j, c) rest -> fresh mc <> j).
    { intros j c Hj E.
      destruct (Hall j c (or_intror Hj)) as (y & _ & _ & Hy & _).
      apply (fresh_not_in mc). rewrite E. eapply lookup_ids. exact Hy. }
    destruct (IH (replaced mc (ins_id x) new)) as (m' & Hrun & Hrel);
      [apply replaced_NoDup; [exact Hnd | apply fresh_not_in]
      | exact Hcl1 | exact Hsf1 | exact Hrest | |].
    + intros j c Hj.
      destruct (Hall j c (or_intror Hj)) as (y & shapesj & sj & Hy & Hshj & Hsj & Hkeepj).
      exists (redirect (ins_id x) (fresh mc) y), shapesj, sj.
      split; [exact (lookup_replaced_other mc (ins_id x) new j y Hy
                       (Hother j c Hj) (Hold j c Hj))|].
      split.
      { cbn [redirect ins_inputs].
        apply (input_shapes_replaced mc (ins_id x) x new (ins_inputs y) shapesj
                 Hnd Hx eq_refl); [|exact Hshj].
        intros Hin. cbn [new ins_shape].
        destruct Hkeep as [E|Hnone]; [exact E|].
        exfalso. exact (Hnone j c y (or_intror Hj) Hy Hin). }
      split; [exact Hsj|].
      destruct Hkeepj as [E|Hnone]; [left; exact E|]. right.
      intros j' c' y' Hj' Hy' Hin.
      destruct (Hall j' c' (or_intror Hj')) as (y0 & _ & _ & Hy0 & _).
      rewrite (lookup_replaced_other mc (ins_id x) new j' y0 Hy0
                 (Hother j' c' Hj') (Hold j' c' Hj')) in Hy'.
      injection Hy' as <-. cbn [redirect ins_inputs] in Hin.
      apply in_map_iff in Hin as (b & Eb & Hb).
      destruct (Nat.eqb_spec b (ins_id x)) as [_|_].
      * exact (Hold j c Hj Eb).
      * rewrite Eb in Hb. exact (Hnone j' c' y0 (or_intror Hj') Hy0 Hb).
    + exists m'. split; [exact Hrun|].
      apply Forall2_map_left in Hrel.
      eapply Forall2_impl; [|exact Hrel].
      intros y y' Hy. cbv beta in Hy. unfold code_of. cbn [find fst].
      destruct (Nat.eqb_spec (ins_id x) (ins_id y)) as [E|E].
      * rewrite <- E, Nat.eqb_refl in Hy. cbn [option_map snd].
        rewrite code_of_not_in in Hy; [exact Hy|].
        intros Hin. apply in_map_iff in Hin as ([j c] & Ej & Hj). simpl in Ej.
        exact (Hold j c Hj (eq_sym Ej)).
      * destruct (Nat.eqb_spec (ins_id y) (ins_id x)) as [E'|_]; [congruence|].
        exact Hy.
Qed.

Lemma single_candidate_inv x code :
  single_candidate x = Some code ->
  exists op a i solution,
    ins_op x = precompile_op op a i /\
    get_tuning_config x op = Some [solution] /\
    compile x op solution = Ok code.
Proof.
  unfold compile_ops_spec.single_candidate.
  destruct (ins_op x) as [| | |op a i]; try discriminate.
  destruct (get_tuning_config x op) as [[|solution [|]]|] eqn:Ecfg; try discriminate.
  destruct (compile x op solution) as [c| |] eqn:E; try discriminate.
  intros H. injection H as ->. exists op, a, i, solution. auto.
Qed.

(** The three phases that precede the replacement build, for the
    placeholders in scan order, plans with one compiled result each; the
    final loop over these plans is the sequential replacement. *)
Lemma plans_spec (m : module) scan :
  NoDup (map ins_id m) ->
  (forall x, In x scan -> In x m) ->
  (forall x, In x scan -> compile_ops_spec.placeholder x = true ->
     exists code, single_candidate x = Some code) ->
  exists cps0 cps1 cps2,
    compile_ops.find_precompile_ops value scan = Ok cps0 /\
    transform (compile_ops.update_config value get_tuning_config m) cps0 = Ok cps1 /\
    transform (compile_ops.run_compiles value null_value compile m) cps1 = Ok cps2 /\
    forall mc, compile_ops.replace_all gcs value mc cps2 =
               replace_in_order mc (discovered scan).
Proof.
  intros Hnd. induction scan as [|x rest IH]; intros Hsub Hall.
  - exists [], [], []. repeat split; reflexivity.
  - destruct IH as (cps0 & cps1 & cps2 & H0 & H1 & H2 & H3).
    { intros y Hy. apply Hsub. right. exact Hy. }
    { intros y Hy. apply Hall. right. exact Hy. }
    cbn [compile_ops.find_precompile_ops compile_ops_spec.discovered].
    unfold compile_ops_spec.placeholder, compile_ops_spec.placeholder_name in *.
    destruct (String.eqb (name (ins_op x)) "gpu::precompile_op") eqn:Ename; cbn [negb].
    + destruct (Hall x (or_introl eq_refl) Ename) as (code & Hcode).
      rewrite Hcode.
      destruct (single_candidate_inv x code Hcode) as (op & a & i & sol & Eop & Ecfg & Ecomp).
      rewrite Eop, H0. cbn [bind].
      assert (Hx : deref m (ins_id x) = Ok x).
      { unfold deref. rewrite (lookup_unique m x Hnd (Hsub x (or_introl eq_refl))).
        reflexivity. }
      eexists. eexists. eexists.
      split; [reflexivity|]. split.
      { cbn [transform]. unfold compile_ops.update_config at 1.
        cbn [compile_ops.plan_ins compile_ops.preop compile_ops.results].
        rewrite Hx. cbn [bind]. rewrite Ecfg, H1. cbn [bind]. reflexivity. }
      split.
      { cbn [transform]. unfold compile_ops.run_compiles at 1.
        cbn [compile_ops.plan_ins compile_ops.preop compile_ops.config].
        rewrite Hx. cbn [bind transform]. rewrite Ecomp. cbn [bind].
        rewrite H2. cbn [bind]. reflexivity. }
      intros mc. cbn [compile_ops.replace_all compile_ops_spec.replace_in_order].
      unfold compile_ops.replace, compile_ops.compiler_replace.
      cbn [compile_ops.results compile_ops.result_ins compile_ops.replace_op].
      destruct (deref mc (ins_id x)) as [x'| |]; cbn [bind]; try reflexivity.
      destruct (replace_instruction gcs mc (ins_id x) code (ins_inputs x'))
        as [p| |]; cbn [bind]; try reflexivity.
      apply H3.
    + exists cps0, cps1, cps2. auto.
Qed.

Lemma discovered_ids scan i code :
  In (i, code) (discovered scan) ->
  exists x, In x scan /\ ins_id x = i /\
            compile_ops_spec.placeholder x = true /\ single_candidate x = Some code.
Proof.
  induction scan as [|y rest IH]; simpl; [intros []|].
  destruct (compile_ops_spec.placeholder y) eqn:Ep.
  - destruct (single_candidate y) as [c|] eqn:Ec.
    + intros [H|H].
      * injection H as <- <-. exists y. auto.
      * destruct (IH H) as (x & Hx & Hrest). exists x. split; [right|]; auto.
    + intros H. destruct (IH H) as (x & Hx & Hrest). exists x. split; [right|]; auto.
  - intros H. destruct (IH H) as (x & Hx & Hrest). exists x. split; [right|]; auto.
Qed.

Lemma discovered_NoDup scan :
  NoDup (map ins_id scan) -> NoDup (map fst (discovered scan)).
Proof.
  induction scan as [|y rest IH]; simpl; intros H; [constructor|].
  inversion H as [|? ? Hy Hrest]; subst.
  destruct (compile_ops_spec.placeholder y); [|auto].
  destruct (single_candidate y); [|auto].
  simpl. constructor; [|auto].
  intros Hin. apply in_map_iff in Hin as ([i c] & E & Hic). simpl in E. subst i.
  destruct (discovered_ids _ _ _ Hic) as (x & Hx & Ex & _).
  apply Hy. rewrite <- Ex. apply in_map. exact Hx.
Qed.

Lemma code_of_discovered scan x :
  NoDup (map ins_id scan) -> In x scan ->
  code_of (discovered scan) (ins_id x) =
  if compile_ops_spec.placeholder x then single_candidate x else None.
Proof.
  induction scan as [|y rest IH]; intros Hnd Hx; [destruct Hx|].
  simpl in Hnd. inversion Hnd as [|? ? Hy Hrest]; subst.
  assert (Hskip : In x rest -> code_of (discovered rest) (ins_id x) =
                  (if compile_ops_spec.placeholder x then single_candidate x else None) ->
                  forall c, code_of ((ins_id y, c) :: discovered rest) (ins_id x) =
                  (if compile_ops_spec.placeholder x then single_candidate x else None)).
  { intros Hin H c. unfold code_of in *. cbn [find fst].
    destruct (Nat.eqb_spec (ins_id y) (ins_id x)) as [E|E]; [|exact H].
    exfalso. apply Hy. rewrite E. apply in_map. exact Hin. }
  destruct Hx as [->|Hx].
  - cbn [compile_ops_spec.discovered].
    destruct (compile_ops_spec.placeholder x).
    + destruct (single_candidate x) as [c|].
      * unfold code_of. cbn [find fst]. rewrite Nat.eqb_refl. reflexivity.
      * apply code_of_not_in. intros Hin.
        apply in_map_iff in Hin as ([i c] & E & Hic). simpl in E. subst i.
        destruct (discovered_ids _ _ _ Hic) as (z & Hz & Ez & _).
        apply Hy. rewrite <- Ez. apply in_map. exact Hz.
    + apply code_of_not_in. intros Hin.
      apply in_map_iff in Hin as ([i c] & E & Hic). simpl in E. subst i.
      destruct (discovered_ids _ _ _ Hic) as (z & Hz & Ez & _).
      apply Hy. rewrite <- Ez. apply in_map. exact Hz.
  - cbn [compile_ops_spec.discovered].
    destruct (compile_ops_spec.placeholder y); [|apply IH; assumption].
    destruct (single_candidate y); [|apply IH; assumption].
    apply Hskip; [exact Hx | apply IH; assumption].
Qed.

End Scheduler.

Lemma Forall2_impl_In {A B} (R1 R2 : A -> B -> Prop) l l' :
  (forall x y, In x l -> R1 x y -> R2 x y) ->
  Forall2 R1 l l' -> Forall2 R2 l l'.
Proof.
  intros H HF. induction HF as [|x y l l' Hxy _ IH]; constructor.
  - apply H; [left; reflexivity | exact Hxy].
  - apply IH. intros a b Ha. apply H. right. exact Ha.
Qed.

Lemma Forall2_filter_nil {A B} (R : A -> B -> Prop) (p : B -> bool) l l' :
  (forall x y, In x l -> R x y -> p y = false) ->
  Forall2 R l l' -> filter p l' = [].
Proof.
  intros H HF. induction HF as [|x y l l' Hxy _ IH]; [reflexivity|].
  simpl. rewrite (H x y (or_introl eq_refl) Hxy).
  apply IH. intros a b Ha. apply H. right. exact Ha.
Qed.

(** C8: on a module in topological order in which every placeholder has
    exactly one tuning candidate and compiles to an operator that is
    not a placeholder and that infers a shape from the shapes of the
    placeholder's inputs (the placeholder's own shape, unless no
    placeholder consumes it), one run of the pass succeeds; its result
    is the replace-with-redirect of the placeholders one after the
    other in the order of the module scan; the module keeps its length,
    no placeholder remains, every placeholder's position holds its
    compiled operator and every other position keeps its operator. *)
Theorem compile_ops_replaces_all
  (gcs : string -> list (string * Z) -> list shape -> outcome shape)
  (value : Type) (null_value : value)
  (get_tuning_config : instruction -> operation -> option (list value))
  (compile : instruction -> operation -> value -> outcome operation)
  (m : module) :
  prepare_reduce_spec.topological m = true ->
  compile_ops_spec.all_compile gcs value get_tuning_config compile m ->
  exists m',
    compile_ops.apply gcs value null_value get_tuning_config compile m = Ok m' /\
    compile_ops_spec.replace_in_order gcs m
      (compile_ops_spec.discovered value get_tuning_config compile m) = Ok m' /\
    length m' = length m /\
    filter compile_ops_spec.placeholder m' = [] /\
    Forall2 (fun x x' =>
               if compile_ops_spec.placeholder x
               then compile_ops_spec.single_candidate value get_tuning_config compile x =
                    Some (ins_op x')
               else ins_op x' = ins_op x) m m'.
Proof.
  intros Htop Hall.
  destruct (topological_from_ids _ _ Htop) as [Hnd _].
  destruct (plans_spec gcs value null_value get_tuning_config compile m m Hnd)
    as (cps0 & cps1 & cps2 & H0 & H1 & H2 & H3).
  { auto. }
  { intros x Hx Hp. destruct (Hall x Hx Hp) as (code & _ & _ & Hc & _).
    exists code. exact Hc. }
  destruct (replace_in_order_spec gcs
              (compile_ops_spec.discovered value get_tuning_config compile m) m)
    as (m' & Hrun & Hrel).
  { exact Hnd. }
  { apply topological_closed. exact Htop. }
  { apply topological_self_free. exact Htop. }
  { apply discovered_NoDup. exact Hnd. }
  { intros i code Hic.
    destruct (discovered_ids _ _ _ _ _ _ Hic) as (x & Hx & Ex & Hp & Hc).
    destruct (Hall x Hx Hp) as (code' & shapes & s & Hc' & _ & Hshapes & Hs & Hkeep).
    rewrite Hc in Hc'. injection Hc' as <-.
    exists x, shapes, s. rewrite <- Ex.
    split; [apply lookup_unique; assumption|].
    split; [exact Hshapes|]. split; [exact Hs|].
    destruct Hkeep as [E|Hnone]; [left; exact E|]. right.
    intros j c y Hjc Hy.
    destruct (discovered_ids _ _ _ _ _ _ Hjc) as (y' & Hy' & Ey & Hpy & _).
    rewrite <- Ey, (lookup_unique m y' Hnd Hy') in Hy. injection Hy as <-.
    exact (Hnone y' Hy' Hpy). }
  assert (Hrel' : Forall2 (fun x x' =>
               if compile_ops_spec.placeholder x
               then compile_ops_spec.single_candidate value get_tuning_config compile x =
                    Some (ins_op x')
               else ins_op x' = ins_op x) m m').
  { eapply Forall2_impl_In; [|exact Hrel].
    intros x x' Hin Hx. cbv beta in Hx.
    rewrite (code_of_discovered value get_tuning_config compile m x Hnd Hin) in Hx.
    destruct (compile_ops_spec.placeholder x) eqn:Ep; [|exact Hx].
    destruct (Hall x Hin Ep) as (code & _ & _ & Hc & _).
    rewrite Hc in Hx |- *. congruence. }
  exists m'. split; [|split; [exact Hrun|split; [|split; [|exact Hrel']]]].
  - unfold compile_ops.apply. rewrite H0. cbn [bind]. rewrite H1. cbn [bind].
    rewrite H2. cbn [bind]. rewrite H3. exact Hrun.
  - symmetry. exact (Forall2_length Hrel).
  - eapply Forall2_filter_nil; [|exact Hrel'].
    intros x x' Hin Hx. cbv beta in Hx.
    destruct (compile_ops_spec.placeholder x) eqn:Ep.
    + destruct (Hall x Hin Ep) as (code & _ & _ & Hc & Hnp & _).
      rewrite Hc in Hx. injection Hx as Hx.
      unfold compile_ops_spec.placeholder. rewrite <- Hx. exact Hnp.
    + unfold compile_ops_spec.placeholder in *. rewrite Hx. exact Ep.
Qed.

Lemma compile_ops_replaces_all_witness :
  let gcs := fun (_ : string) (_ : list (string * Z)) (shapes : list shape) =>
               match shapes with
               | [] => Throw "code_object: no output buffer"
               | s0 :: _ => Ok (last shapes s0)
               end in
  let get_tuning_config := fun (_ : instruction) (_ : operation) => Some [7] in
  let compile := fun (_ : instruction) (op : operation) (solution : Z) =>
                   Ok (generic_op "gpu::code_object" [("solution", solution)]) in
  let s := make_shape float_type [4; 8] in
  let m := [ mk_instruction 1%nat (generic_op "@param" []) [] s;
             mk_instruction 2%nat (generic_op "hip::allocate" []) [] s;
             mk_instruction 3%nat (precompile_op (generic_op "pointwise" []) 1 false)
               [1%nat; 2%nat] s;
             mk_instruction 4%nat (generic_op "hip::allocate" []) [] s;
             mk_instruction 5%nat (precompile_op (generic_op "reduce_sum" []) 1 false)
               [3%nat; 4%nat] s ] in
  exists m',
    compile_ops.apply gcs Z 0 get_tuning_config compile m = Ok m' /\
    compile_ops_spec.replace_in_order gcs m
      (compile_ops_spec.discovered Z get_tuning_config compile m) = Ok m' /\
    length m' = length m /\
    filter compile_ops_spec.placeholder m' = [] /\
    Forall2 (fun x x' =>
               if compile_ops_spec.placeholder x
               then compile_ops_spec.single_candidate Z get_tuning_config compile x =
                    Some (ins_op x')
               else ins_op x' = ins_op x) m m'.
Proof.
  cbv zeta. apply compile_ops_replaces_all.
  - reflexivity.
  - intros x Hx Hp. simpl in Hx.
    destruct Hx as [<-|[<-|[<-|[<-|[<-|[]]]]]]; try discriminate Hp.
    + eexists. eexists. eexists. split; [reflexivity|]. split; [reflexivity|].
      split; [reflexivity|]. split; [reflexivity|]. left. reflexivity.
    + eexists. eexists. eexists. split; [reflexivity|]. split; [reflexivity|].
      split; [reflexivity|]. split; [reflexivity|]. left. reflexivity.
Defined.

(** ** The rewrite of one group *)

Lemma index_of_Some i l k :
  index_of i l = Some k -> nth_error l k = Some i /\ (k < length l)%nat.
Proof.
  revert k. induction l as [|j l IH]; intros k; simpl; [discriminate|].
  destruct (Nat.eqb_spec j i) as [->|Hne].
  - intros H. injection H as <-. split; [reflexivity | lia].
  - destruct (index_of i l) as [k'|]; simpl; [|discriminate].
    intros H. injection H as <-. destruct (IH k' eq_refl). split; [assumption | lia].
Qed.

Lemma index_of_In i l : In i l -> exists k, index_of i l = Some k.
Proof.
  induction l as [|j l IH]; simpl; [intros []|].
  destruct (Nat.eqb_spec j i) as [->|Hne]; [eexists; reflexivity|].
  intros [H|H]; [contradiction|].
  destruct (IH H) as (k & ->). eexists. reflexivity.
Qed.

Lemma index_of_None i l : ~ In i l -> index_of i l = None.
Proof.
  intros H. destruct (index_of i l) as [k|] eqn:E; [|reflexivity].
  exfalso. apply H. apply index_of_Some in E as [E _].
  eapply nth_error_In. exact E.
Qed.

Lemma index_of_nth i l k :
  NoDup l -> nth_error l k = Some i -> index_of i l = Some k.
Proof.
  revert k. induction l as [|j l IH]; intros k Hnd Hk; [destruct k; discriminate|].
  inversion Hnd as [|? ? Hj Hl]; subst. simpl.
  destruct k as [|k]; simpl in Hk.
  - injection Hk as ->. rewrite Nat.eqb_refl. reflexivity.
  - destruct (Nat.eqb_spec j i) as [->|Hne].
    + exfalso. apply Hj. eapply nth_error_In. exact Hk.
    + rewrite (IH k Hl Hk). reflexivity.
Qed.

Lemma rename_group_out group base a :
  ~ In a group -> rename_group group base a = a.
Proof. intros H. unfold rename_group. rewrite index_of_None by exact H. reflexivity. Qed.

Lemma list_max_rename l i n :
  In i l -> (forall x, In x l -> (x <= n)%nat) ->
  list_max (map (fun j => if Nat.eqb j i then n else j) l) = n.
Proof.
  intros Hi Hle. apply Nat.le_antisymm.
  - apply list_max_le. apply Forall_forall. intros x Hx.
    apply in_map_iff in Hx as (j & <- & Hj).
    destruct (Nat.eqb j i); [lia | apply Hle; exact Hj].
  - apply list_max_ge. apply in_map_iff. exists i.
    rewrite Nat.eqb_refl. auto.
Qed.

Lemma fresh_replaced m i new :
  In i (map ins_id m) -> ins_id new = fresh m ->
  fresh (replaced m i new) = S (fresh m).
Proof.
  intros Hi Hnew. unfold fresh at 1. rewrite replaced_ids, Hnew.
  rewrite list_max_rename; [reflexivity | exact Hi |].
  intros x Hx. apply list_max_ge in Hx. unfold fresh. lia.
Qed.

Lemma replace_instruction_inv gcs m ins op args m' id :
  replace_instruction gcs m ins op args = Ok (m', id) ->
  In ins (map ins_id m) /\
  exists shapes s,
    input_shapes m args = Ok shapes /\
    compute_shape gcs op shapes = Ok s /\
    m' = replaced m ins (mk_instruction (fresh m) op args s) /\
    id = fresh m.
Proof.
  unfold replace_instruction, deref.
  destruct (lookup m ins) as [x|] eqn:Hx; cbn [bind]; [|discriminate].
  destruct (input_shapes m args) as [shapes| |] eqn:E1; cbn [bind]; try discriminate.
  destruct (compute_shape gcs op shapes) as [s| |] eqn:E2; cbn [bind]; try discriminate.
  intros H. injection H as <- <-. split.
  - apply lookup_In in Hx as [Hin <-]. apply in_map. exact Hin.
  - exists shapes, s. auto.
Qed.

Lemma input_shapes_single m a shapes :
  input_shapes m [a] = Ok shapes ->
  exists x, lookup m a = Some x /\ shapes = [ins_shape x].
Proof.
  unfold input_shapes, deref. simpl.
  destruct (lookup m a) as [x|]; simpl; [|discriminate].
  intros H. injection H as <-. exists x. auto.
Qed.

Lemma get_tuple_elem_shape gcs i sp s :
  compute_shape gcs (get_tuple_elem i) [sp] = Ok s ->
  exists subs, sp = shape_tuple subs /\ 0 <= i /\
               nth_error subs (Z.to_nat i) = Some s.
Proof.
  simpl. destruct sp as [| |subs]; try discriminate.
  destruct (Z.ltb_spec i 0) as [Hi|Hi]; [discriminate|].
  destruct (nth_error subs (Z.to_nat i)) as [s'|] eqn:E; [|discriminate].
  intros H. injection H as <-. exists subs. auto.
Qed.

Lemma replace_reduces_created gcs group : forall m p i m',
  prepare_reduce.replace_reduces gcs m p i group = Ok m' ->
  forall r, In r group -> In r (map ins_id m) \/ (fresh m <= r)%nat.
Proof.
  induction group as [|g rest IH]; intros m p i m' H r Hr; [destruct Hr|].
  cbn [prepare_reduce.replace_reduces] in H.
  destruct (replace_instruction gcs m g (get_tuple_elem i) [p]) as [[m1 id]| |] eqn:E;
    cbn [bind fst] in H; try discriminate.
  apply replace_instruction_inv in E as (Hg & shapes & s & _ & _ & -> & ->).
  destruct Hr as [<-|Hr]; [left; exact Hg|].
  destruct (IH _ _ _ _ H r Hr) as [Hin|Hge].
  - rewrite replaced_ids in Hin. apply in_map_iff in Hin as (j & Ej & Hj).
    destruct (Nat.eqb j g); [right; simpl in Ej; lia | left; rewrite <- Ej; exact Hj].
  - right. rewrite fresh_replaced in Hge by (auto). lia.
Qed.

(** Replacing the member [g] and then the members [rest] is the
    simultaneous rewrite of [g :: rest]. *)
Lemma fuse_map_step g rest p base i slots s0 x :
  ~ In base rest -> ~ In p (g :: rest) ->
  0 <= i -> nth_error slots (Z.to_nat i) = Some s0 ->
  fuse_map rest p (S base) (i + 1) slots
    (if Nat.eqb (ins_id x) g
     then mk_instruction base (get_tuple_elem i) [p] s0
     else redirect g base x) =
  fuse_map (g :: rest) p base i slots x.
Proof.
  intros Hbase Hp Hi Hs0.
  assert (Hren : forall a, rename_group rest (S base) (if Nat.eqb a g then base else a) =
                           rename_group (g :: rest) base a).
  { intros a. unfold rename_group. cbn [index_of].
    destruct (Nat.eqb_spec a g) as [->|Hne].
    - rewrite Nat.eqb_refl. rewrite (index_of_None base rest Hbase). lia.
    - destruct (Nat.eqb_spec g a) as [E|_]; [congruence|].
      destruct (index_of a rest); simpl; lia. }
  unfold fuse_map. cbn [index_of].
  destruct (Nat.eqb_spec (ins_id x) g) as [E|E].
  - cbn [ins_id]. rewrite (index_of_None base rest Hbase).
    rewrite E, Nat.eqb_refl. cbn [ins_op ins_inputs ins_shape map].
    rewrite rename_group_out by (intros H; apply Hp; right; exact H).
    rewrite Nat.add_0_r, Z.add_0_r.
    rewrite (nth_error_nth _ _ _ Hs0). reflexivity.
  - cbn [redirect ins_id ins_op ins_inputs ins_shape].
    destruct (Nat.eqb_spec g (ins_id x)) as [E'|_]; [congruence|].
    destruct (index_of (ins_id x) rest) as [k|]; cbn [option_map].
    + f_equal; [lia | f_equal; lia | f_equal; lia].
    + f_equal. rewrite map_map. apply map_ext. exact Hren.
Qed.

(** The loop that replaces the members of a group by tuple extractions
    is the simultaneous rewrite [fuse_map]; it succeeds only on distinct
    members. *)
Lemma replace_reduces_closed_form gcs group : forall m p i m' P slots,
  NoDup (map ins_id m) ->
  (forall r, In r group -> In r (map ins_id m)) ->
  ~ In p group ->
  lookup m p = Some P -> ins_shape P = shape_tuple slots ->
  prepare_reduce.replace_reduces gcs m p i group = Ok m' ->
  NoDup group /\
  (group = [] \/ 0 <= i) /\
  m' = map (fuse_map group p (fresh m) i slots) m.
Proof.
  induction group as [|g rest IH]; intros m p i m' P slots Hnd Hsub Hp HP Hslots H.
  - cbn in H. injection H as <-. split; [constructor|]. split; [left; reflexivity|].
    symmetry. erewrite map_ext; [apply map_id|]. intros x.
    unfold fuse_map. cbn [index_of]. destruct x as [id op ins sh]. cbn.
    f_equal. erewrite map_ext; [apply map_id|]. reflexivity.
  - cbn [prepare_reduce.replace_reduces] in H.
    destruct (replace_instruction gcs m g (get_tuple_elem i) [p]) as [[m1 id]| |] eqn:E;
      cbn [bind fst] in H; try discriminate.
    apply replace_instruction_inv in E as (Hg & shapes & s0 & Hshapes & Hs0 & -> & ->).
    apply input_shapes_single in Hshapes as (P' & HP' & ->).
    rewrite HP in HP'. injection HP' as <-.
    apply get_tuple_elem_shape in Hs0 as (subs & Esubs & Hi & Hnth).
    rewrite Hslots in Esubs. injection Esubs as <-.
    set (new0 := mk_instruction (fresh m) (get_tuple_elem i) [p] s0) in *.
    assert (Hpg : p <> g) by (intros ->; apply Hp; left; reflexivity).
    assert (Hfp : fresh m <> p).
    { intros E. apply (fresh_not_in m). rewrite E.
      apply lookup_In in HP as [HPin <-]. apply in_map. exact HPin. }
    assert (Hgrest : ~ In g rest).
    { intros Hin.
      destruct (replace_reduces_created _ _ _ _ _ _ H g Hin) as [Hin'|Hge].
      - rewrite replaced_ids in Hin'. apply in_map_iff in Hin' as (j & Ej & Hj).
        destruct (Nat.eqb_spec j g) as [Ejg|Hne]; [|congruence].
        cbn in Ej. apply (fresh_not_in m). rewrite Ej. exact Hg.
      - rewrite fresh_replaced in Hge by auto.
        apply list_max_ge in Hg. unfold fresh in Hge. lia. }
    destruct (IH (replaced m g new0) p (i + 1) m' (redirect g (fresh m) P) slots)
      as (Hndr & _ & ->).
    + apply replaced_NoDup; [exact Hnd | apply fresh_not_in].
    + intros r Hr. rewrite replaced_ids. apply in_map_iff. exists r.
      split; [|apply Hsub; right; exact Hr].
      destruct (Nat.eqb_spec r g) as [Erg|_]; [|reflexivity].
      exfalso. apply Hgrest. rewrite <- Erg. exact Hr.
    + intros Hin. apply Hp. right. exact Hin.
    + apply (lookup_replaced_other m g new0 p P HP Hpg Hfp).
    + exact Hslots.
    + exact H.
    + split; [constructor; assumption|]. split; [right; exact Hi|].
      rewrite fresh_replaced by auto.
      unfold replaced. rewrite map_map. apply map_ext. intros x.
      apply fuse_map_step; try assumption.
      intros Hin. apply (fresh_not_in m). apply Hsub. right. exact Hin.
Qed.

(** ** Insertion and moves *)

Lemma insert_before_perm m pos x : forall m',
  insert_before m pos x = Ok m' -> Permutation m' (x :: m).
Proof.
  destruct pos as [p|]; simpl.
  - induction m as [|y rest IH]; intros m'; simpl; [discriminate|].
    destruct (Nat.eqb (ins_id y) p).
    + intros H. injection H as <-. apply Permutation_refl.
    + destruct (insert_before rest (Some p) x) as [rest'| |]; cbn [bind]; try discriminate.
      intros H. injection H as <-.
      rewrite (IH rest' eq_refl). apply perm_swap.
  - intros m'. destruct m; simpl; intros H; injection H as <-.
    + apply Permutation_refl.
    + symmetry. change (x :: i :: m) with ([x] ++ (i :: m)).
      change (i :: m ++ [x]) with ((i :: m) ++ [x]). apply Permutation_app_comm.
Qed.

Lemma remove_perm m src x :
  NoDup (map ins_id m) -> lookup m src = Some x ->
  Permutation m (x :: remove m src).
Proof.
  unfold lookup, remove. induction m as [|y rest IH]; intros Hnd H; simpl in *; [discriminate|].
  inversion Hnd as [|? ? Hy Hrest]; subst.
  destruct (Nat.eqb_spec (ins_id y) src) as [E|E]; simpl.
  - injection H as ->. constructor.
    rewrite (proj2 (filter_ext_in_iff _ (fun _ => true) rest)).
    + clear. induction rest; simpl; [constructor | constructor; assumption].
    + intros z Hz. apply negb_true_iff. apply Nat.eqb_neq. intros Ez.
      apply Hy. rewrite E, <- Ez. apply in_map. exact Hz.
  - rewrite (IH Hrest H) at 1. apply perm_swap.
Qed.

Lemma lookup_perm m m' i :
  Permutation m m' -> NoDup (map ins_id m) -> lookup m' i = lookup m i.
Proof.
  intros Hp Hnd.
  assert (Hnd' : NoDup (map ins_id m')).
  { eapply Permutation_NoDup; [apply Permutation_map; exact Hp | exact Hnd]. }
  destruct (lookup m i) as [x|] eqn:E.
  - apply lookup_In in E as [Hin <-].
    apply lookup_unique; [exact Hnd'|]. eapply Permutation_in; eassumption.
  - apply lookup_None. intros Hin. apply lookup_None in E. apply E.
    eapply Permutation_in; [apply Permutation_map; symmetry; exact Hp | exact Hin].
Qed.

Lemma list_max_perm l l' : Permutation l l' -> list_max l = list_max l'.
Proof.
  induction 1; simpl; try lia.
Qed.

Lemma fresh_perm m m' : Permutation m m' -> fresh m' = fresh m.
Proof.
  intros H. unfold fresh. f_equal. symmetry. apply list_max_perm.
  apply Permutation_map. exact H.
Qed.

Lemma transform_ext {A B} (f g : A -> outcome B) l :
  (forall x, In x l -> f x = g x) -> transform f l = transform g l.
Proof.
  induction l as [|x l IH]; intros H; simpl; [reflexivity|].
  rewrite (H x (or_introl eq_refl)), IH; [reflexivity|].
  intros y Hy. apply H. right. exact Hy.
Qed.

Lemma input_shapes_perm m m' args :
  Permutation m m' -> NoDup (map ins_id m) ->
  input_shapes m' args = input_shapes m args.
Proof.
  intros Hp Hnd. unfold input_shapes. apply transform_ext. intros a _.
  unfold deref. rewrite (lookup_perm m m' a Hp Hnd). reflexivity.
Qed.

Lemma move_instruction_perm m src dst m' :
  NoDup (map ins_id m) ->
  move_instruction m src dst = Ok m' -> Permutation m' m.
Proof.
  intros Hnd. unfold move_instruction, deref.
  destruct (lookup m src) as [x|] eqn:Hx; cbn [bind]; [|discriminate].
  destruct (match dst with Some d => Nat.eqb d src | None => false end).
  - intros H. injection H as <-. apply Permutation_refl.
  - intros H. apply insert_before_perm in H. rewrite H.
    symmetry. apply remove_perm; assumption.
Qed.

Lemma move_inputs_perm ins insertion inputs : forall m m',
  NoDup (map ins_id m) ->
  prepare_reduce.move_inputs m ins insertion inputs = Ok m' -> Permutation m' m.
Proof.
  induction inputs as [|input rest IH]; intros m m' Hnd; simpl.
  - intros H. injection H as <-. apply Permutation_refl.
  - destruct (Nat.eqb input ins); cbn [bind].
    + apply IH. exact Hnd.
    + destruct (move_instruction m input insertion) as [m1| |] eqn:E; cbn [bind];
        try discriminate.
      pose proof (move_instruction_perm _ _ _ _ Hnd E) as Hp.
      intros H. apply IH in H.
      * rewrite H. exact Hp.
      * eapply Permutation_NoDup; [apply Permutation_map; symmetry; exact Hp | exact Hnd].
Qed.

Lemma insert_instruction_inv gcs m pos op args m' id :
  insert_instruction gcs m pos op args = Ok (m', id) ->
  exists shapes s,
    input_shapes m args = Ok shapes /\
    compute_shape gcs op shapes = Ok s /\
    id = fresh m /\
    insert_before m pos (mk_instruction (fresh m) op args s) = Ok m'.
Proof.
  unfold insert_instruction.
  destruct (input_shapes m args) as [shapes| |] eqn:E1; cbn [bind]; try discriminate.
  destruct (compute_shape gcs op shapes) as [s| |] eqn:E2; cbn [bind]; try discriminate.
  destruct (insert_before m pos _) as [m1| |] eqn:E3; cbn [bind]; try discriminate.
  intros H. injection H as <- <-. exists shapes, s. auto.
Qed.

Lemma transform_In {A B} (f : A -> outcome B) l l' x :
  transform f l = Ok l' -> In x l -> exists y, f x = Ok y /\ In y l'.
Proof.
  revert l'. induction l as [|a l IH]; intros l' H Hx; [destruct Hx|].
  simpl in H. destruct (f a) as [b| |] eqn:Ea; cbn [bind] in H; try discriminate.
  destruct (transform f l) as [bs| |] eqn:Eb; cbn [bind] in H; try discriminate.
  injection H as <-. destruct Hx as [<-|Hx].
  - exists b. split; [exact Ea | left; reflexivity].
  - destruct (IH bs eq_refl Hx) as (y & Hy & Hin). exists y. split; [exact Hy | right; exact Hin].
Qed.

Lemma transform_length {A B} (f : A -> outcome B) l l' :
  transform f l = Ok l' -> length l' = length l.
Proof.
  revert l'. induction l as [|a l IH]; intros l' H; simpl in H.
  - injection H as <-. reflexivity.
  - destruct (f a) as [b| |]; cbn [bind] in H; try discriminate.
    destruct (transform f l) as [bs| |]; cbn [bind] in H; try discriminate.
    injection H as <-. simpl. rewrite (IH bs eq_refl). reflexivity.
Qed.

Lemma front_input_In m r a :
  prepare_reduce.front_input m r = Ok a ->
  exists x, lookup m r = Some x /\ hd_error (ins_inputs x) = Some a.
Proof.
  unfold prepare_reduce.front_input, deref.
  destruct (lookup m r) as [x|]; cbn [bind]; [|discriminate].
  destruct (ins_inputs x) as [|b rest] eqn:E; [discriminate|].
  intros H. injection H as <-. exists x. rewrite E. auto.
Qed.

(** The callback [each] on a group of at least two members: up to the
    order of the module, the fused instruction is added to the module
    and the members are rewritten by [fuse_map]. *)
(** ** Positions in a module *)

Lemma before_ids_app_in m x i :
  In i (map ins_id m) -> scan_spec.before_ids (m ++ [x]) i = scan_spec.before_ids m i.
Proof.
  induction m as [|y rest IH]; simpl; [intros []|].
  destruct (Nat.eqb_spec (ins_id y) i) as [E|E]; [reflexivity|].
  intros [H|H]; [contradiction|]. rewrite (IH H). reflexivity.
Qed.

Lemma before_ids_incl m i : incl (scan_spec.before_ids m i) (map ins_id m).
Proof.
  induction m as [|y rest IH]; simpl; [intros ? []|].
  destruct (Nat.eqb (ins_id y) i); [intros ? []|].
  intros a [<-|Ha]; [left; reflexivity | right; apply IH; exact Ha].
Qed.

Lemma before_ids_not_self m i : ~ In i (scan_spec.before_ids m i).
Proof.
  induction m as [|y rest IH]; simpl; [intros []|].
  destruct (Nat.eqb_spec (ins_id y) i) as [E|E]; [intros []|].
  intros [H|H]; [contradiction | exact (IH H)].
Qed.

(** The position that follows [i]. *)
Lemma next_spec m i pos :
  NoDup (map ins_id m) -> next m i = Ok pos ->
  In i (map ins_id m) /\
  match pos with
  | Some z => In z (map ins_id m) /\
              scan_spec.before_ids m z = scan_spec.before_ids m i ++ [i]
  | None => map ins_id m = scan_spec.before_ids m i ++ [i]
  end.
Proof.
  induction m as [|y rest IH]; intros Hnd H; simpl in H; [discriminate|].
  inversion Hnd as [|? ? Hy Hrest]; subst.
  simpl. destruct (Nat.eqb_spec (ins_id y) i) as [E|E].
  - injection H as <-. split; [left; exact E|].
    destruct rest as [|y' rest'].
    + simpl. rewrite E. reflexivity.
    + split; [right; left; reflexivity|].
      destruct (Nat.eqb_spec (ins_id y) (ins_id y')) as [E'|E'].
      * exfalso. apply Hy. left. symmetry. exact E'.
      * simpl. rewrite Nat.eqb_refl, E. reflexivity.
  - destruct (IH Hrest H) as [Hin Hpos]. split; [right; exact Hin|].
    destruct pos as [z|].
    + destruct Hpos as [Hz Hb]. split; [right; exact Hz|].
      destruct (Nat.eqb_spec (ins_id y) z) as [E'|E'].
      * exfalso. apply Hy. rewrite E'. exact Hz.
      * rewrite Hb. reflexivity.
    + rewrite Hpos. reflexivity.
Qed.

Lemma next_ahead m i pos :
  NoDup (map ins_id m) -> next m i = Ok pos -> scan_spec.ahead m i pos.
Proof.
  intros Hnd H. destruct (next_spec m i pos Hnd H) as [Hin Hpos].
  destruct pos as [z|]; simpl; [|exact Hin].
  destruct Hpos as [_ ->]. apply in_or_app. right. left. reflexivity.
Qed.

Lemma next_defined m i : In i (map ins_id m) -> exists pos, next m i = Ok pos.
Proof.
  induction m as [|y rest IH]; simpl; [intros []|].
  destruct (Nat.eqb_spec (ins_id y) i) as [E|E]; [eexists; reflexivity|].
  intros [H|H]; [contradiction | exact (IH H)].
Qed.

Lemma insert_before_ahead x i pos : forall m m',
  scan_spec.ahead m i pos -> insert_before m pos x = Ok m' ->
  scan_spec.before_ids m' i = scan_spec.before_ids m i /\ scan_spec.ahead m' i pos.
Proof.
  destruct pos as [z|]; simpl.
  - induction m as [|y rest IH]; intros m' Ha H; simpl in *; [discriminate|].
    destruct (Nat.eqb_spec (ins_id y) z) as [E|E]; [destruct Ha|].
    destruct (insert_before rest (Some z) x) as [rest'| |] eqn:Er; cbn [bind] in H;
      try discriminate.
    injection H as <-. simpl.
    destruct (Nat.eqb_spec (ins_id y) z) as [E'|_]; [contradiction|].
    destruct (Nat.eqb_spec (ins_id y) i) as [Ei|Ei].
    + split; [reflexivity | left; exact Ei].
    + destruct Ha as [Ha|Ha]; [contradiction|].
      destruct (IH rest' Ha eq_refl) as [Hb Hah].
      rewrite Hb. split; [reflexivity | right; exact Hah].
  - intros m m' Ha H.
    assert (E : m' = m ++ [x]) by (destruct m; simpl in H; injection H as <-; reflexivity).
    subst m'. split.
    + apply before_ids_app_in. exact Ha.
    + rewrite map_app. apply in_or_app. left. exact Ha.
Qed.

Lemma before_ids_remove m src z :
  z <> src ->
  scan_spec.before_ids (remove m src) z =
    filter (fun i => negb (Nat.eqb i src)) (scan_spec.before_ids m z).
Proof.
  intros Hz. unfold remove. induction m as [|y rest IH]; simpl; [reflexivity|].
  destruct (Nat.eqb_spec (ins_id y) src) as [E|E]; simpl.
  - destruct (Nat.eqb_spec (ins_id y) z) as [E'|E']; [congruence|].
    simpl. destruct (Nat.eqb_spec (ins_id y) src); [|contradiction]. simpl. exact IH.
  - destruct (Nat.eqb_spec (ins_id y) z) as [E'|E']; [reflexivity|].
    simpl. destruct (Nat.eqb_spec (ins_id y) src); [contradiction|]. simpl.
    rewrite IH. reflexivity.
Qed.

Lemma move_instruction_ahead m i src dst m' :
  src <> i -> scan_spec.ahead m i dst ->
  move_instruction m src dst = Ok m' ->
  incl (scan_spec.before_ids m' i) (scan_spec.before_ids m i) /\ scan_spec.ahead m' i dst.
Proof.
  intros Hsrc Ha. unfold move_instruction, deref.
  destruct (lookup m src) as [x|]; cbn [bind]; [|discriminate].
  destruct (match dst with Some d => Nat.eqb d src | None => false end) eqn:Ed.
  - intros H. injection H as <-. split; [apply incl_refl | exact Ha].
  - intros H.
    assert (Ha' : scan_spec.ahead (remove m src) i dst).
    { destruct dst as [z|]; simpl in *.
      - apply Nat.eqb_neq in Ed. rewrite (before_ids_remove m src z Ed).
        apply filter_In. split; [exact Ha|].
        apply Bool.negb_true_iff. apply Nat.eqb_neq. congruence.
      - apply in_map_iff in Ha as (y & Ey & Hy). apply in_map_iff.
        exists y. split; [exact Ey|]. apply filter_In. split; [exact Hy|].
        apply Bool.negb_true_iff. apply Nat.eqb_neq. congruence. }
    destruct (insert_before_ahead x i dst _ _ Ha' H) as [Hb Hah].
    split; [|exact Hah].
    rewrite Hb, (before_ids_remove m src i) by congruence.
    intros a Hin. apply filter_In in Hin as [Hin _]. exact Hin.
Qed.

Lemma move_inputs_ahead i insertion inputs : forall m m',
  scan_spec.ahead m i insertion ->
  prepare_reduce.move_inputs m i insertion inputs = Ok m' ->
  incl (scan_spec.before_ids m' i) (scan_spec.before_ids m i) /\
  scan_spec.ahead m' i insertion.
Proof.
  induction inputs as [|input rest IH]; intros m m' Ha; simpl.
  - intros H. injection H as <-. split; [apply incl_refl | exact Ha].
  - destruct (Nat.eqb_spec input i) as [E|E]; cbn [bind].
    + apply IH. exact Ha.
    + destruct (move_instruction m input insertion) as [m1| |] eqn:Em; cbn [bind];
        try discriminate.
      destruct (move_instruction_ahead m i input insertion m1 E Ha Em) as [Hb Ha1].
      intros H. destruct (IH m1 m' Ha1 H) as [Hb' Ha'].
      split; [|exact Ha']. eapply incl_tran; eassumption.
Qed.

Lemma before_ids_map (F : instruction -> instruction) (rho : instruction_ref -> instruction_ref)
  m i :
  (forall x, In x m -> ins_id (F x) = rho (ins_id x)) ->
  (forall x, In x m -> (rho (ins_id x) = i <-> ins_id x = i)) ->
  scan_spec.before_ids (map F m) i = map rho (scan_spec.before_ids m i).
Proof.
  induction m as [|y rest IH]; intros Hid Hrho; simpl; [reflexivity|].
  rewrite (Hid y (or_introl eq_refl)).
  pose proof (Hrho y (or_introl eq_refl)) as Hy.
  destruct (Nat.eqb_spec (rho (ins_id y)) i) as [E|E];
    destruct (Nat.eqb_spec (ins_id y) i) as [E'|E']; try tauto.
  simpl. rewrite IH; [reflexivity | |];
    intros x Hx; [apply Hid | apply Hrho]; right; exact Hx.
Qed.

Lemma each_closed_form gcs ins m group m' :
  NoDup (map ins_id m) -> (2 <= length group)%nat ->
  prepare_reduce.each gcs ins m group = Ok m' ->
  exists inputs start first shapes slots m2,
    transform (prepare_reduce.front_input m) group = Ok inputs /\
    hd_error group = Some start /\ lookup m start = Some first /\
    input_shapes m inputs = Ok shapes /\
    transform (fun input => compute_shape gcs (ins_op first) [input]) shapes = Ok slots /\
    Permutation m2
      (mk_instruction (fresh m) (parallel_reduce (ins_op first)) inputs
         (shape_tuple slots) :: m) /\
    NoDup group /\
    m' = map (fuse_map group (fresh m) (S (fresh m)) 0 slots) m2 /\
    In ins (map ins_id m) /\
    incl (scan_spec.before_ids m2 ins) (scan_spec.before_ids m ins).
Proof.
  intros Hnd Hlen. unfold prepare_reduce.each.
  destruct (Nat.ltb_spec (length group) 2); [lia|].
  destruct (transform (prepare_reduce.front_input m) group) as [inputs| |] eqn:Ei;
    cbn [bind]; try discriminate.
  unfold at_index. destruct group as [|start rest] eqn:Eg; [simpl in Hlen; lia|].
  cbn [nth_error bind]. rewrite <- Eg in *.
  unfold deref. destruct (lookup m start) as [first|] eqn:Ef; cbn [bind]; [|discriminate].
  destruct (next m ins) as [insertion| |] eqn:Enext; cbn [bind]; try discriminate.
  destruct (prepare_reduce.move_inputs m ins insertion inputs) as [m1| |] eqn:Em;
    cbn [bind]; try discriminate.
  pose proof (move_inputs_perm _ _ _ _ _ Hnd Em) as Hp1.
  destruct (move_inputs_ahead _ _ _ _ _ (next_ahead _ _ _ Hnd Enext) Em) as [Hb1 Ha1].
  destruct (next_spec _ _ _ Hnd Enext) as [Hins_in _].
  destruct (insert_instruction gcs m1 insertion (parallel_reduce (ins_op first)) inputs)
    as [[m2 p]| |] eqn:Einsert; cbn [bind]; try discriminate.
  apply insert_instruction_inv in Einsert as (shapes & s & Hshapes & Hs & -> & Hins).
  rewrite (input_shapes_perm m m1 inputs (Permutation_sym Hp1) Hnd) in Hshapes.
  rewrite (fresh_perm m m1 (Permutation_sym Hp1)) in *.
  cbn [compute_shape] in Hs.
  destruct (transform (fun input => compute_shape gcs (ins_op first) [input]) shapes)
    as [slots| |] eqn:Eslots; cbn [bind] in Hs; try discriminate.
  injection Hs as <-.
  set (P := mk_instruction (fresh m) (parallel_reduce (ins_op first)) inputs
              (shape_tuple slots)) in *.
  destruct (insert_before_ahead _ _ _ _ _ Ha1 Hins) as [Hb2 _].
  apply insert_before_perm in Hins.
  assert (Hp2 : Permutation m2 (P :: m)).
  { rewrite Hins. constructor. exact Hp1. }
  assert (Hnd2 : NoDup (map ins_id m2)).
  { eapply Permutation_NoDup; [apply Permutation_map; symmetry; exact Hp2|].
    simpl. constructor; [apply fresh_not_in | exact Hnd]. }
  assert (Hsub : forall r, In r group -> In r (map ins_id m)).
  { intros r Hr. destruct (transform_In _ _ _ _ Ei Hr) as (a & Ha & _).
    apply front_input_In in Ha as (x & Hx & _).
    apply lookup_In in Hx as [Hin <-]. apply in_map. exact Hin. }
  intros Hrep.
  destruct (replace_reduces_closed_form gcs group m2 (fresh m) 0 m' P slots)
    as (Hndg & _ & ->); try assumption.
  - intros r Hr. eapply Permutation_in; [apply Permutation_map; symmetry; exact Hp2|].
    right. apply Hsub. exact Hr.
  - intros Hin. apply (fresh_not_in m). apply Hsub. exact Hin.
  - change (fresh m) with (ins_id P) at 1. apply lookup_unique; [exact Hnd2|].
    eapply Permutation_in; [symmetry; exact Hp2 | left; reflexivity].
  - reflexivity.
  - exists inputs, start, first, shapes, slots, m2.
    rewrite (fresh_perm (P :: m) m2 (Permutation_sym Hp2)).
    assert (Hfresh : fresh (P :: m) = S (fresh m)).
    { unfold fresh at 1.
      change (map ins_id (P :: m)) with (fresh m :: map ins_id m).
      change (list_max (fresh m :: map ins_id m))
        with (Nat.max (fresh m) (list_max (map ins_id m))).
      unfold fresh. lia. }
    rewrite Hfresh. rewrite Eg. cbn [hd_error]. rewrite <- Eg.
    rewrite Hb2.
    repeat split; try assumption; reflexivity.
Qed.

(** ** [std::partition] *)

Lemma span_spec {A} (p : A -> bool) l :
  let '(a, b) := span p l in
  l = a ++ b /\ Forall (fun x => p x = true) a /\
  match b with [] => True | x :: _ => p x = false end.
Proof.
  induction l as [|x l IH]; simpl.
  - repeat split. constructor.
  - destruct (p x) eqn:E.
    + destruct (span p l) as [a b]. destruct IH as (-> & Ha & Hb).
      repeat split; [constructor; assumption | exact Hb].
    + repeat split; [constructor | exact E].
Qed.

(** [std::partition] returns a permutation of the range in which the
    elements that satisfy the predicate come first; a first element that
    satisfies the predicate stays first. *)
Lemma partition_loop_spec {A} (pred : A -> bool) fuel : forall l,
  (length l <= fuel)%nat ->
  let '(t, f) := partition_loop pred fuel l in
  Permutation l (t ++ f) /\
  Forall (fun x => pred x = true) t /\
  Forall (fun x => pred x = false) f /\
  (forall a rest, l = a :: rest -> pred a = true -> exists t', t = a :: t').
Proof.
  induction fuel as [|fuel IH]; intros l Hlen.
  - destruct l; [|simpl in Hlen; lia]. simpl. repeat split; try constructor.
    intros a rest H. discriminate.
  - cbn [partition_loop].
    pose proof (span_spec pred l) as Hs. destruct (span pred l) as [front rest].
    destruct Hs as (-> & Hfront & Hrest).
    assert (Hhead : forall a rest0 t2, front ++ rest = a :: rest0 -> pred a = true ->
                    match rest with [] => True | x :: _ => pred x = false end ->
                    exists t', front ++ t2 = a :: t').
    { intros a rest0 t2 E Ha Hr. destruct front as [|b front'].
      - simpl in E. subst rest. rewrite Ha in Hr. discriminate.
      - simpl in E. injection E as -> _. eexists. reflexivity. }
    destruct rest as [|x mid].
    { split; [apply Permutation_refl|]. split; [exact Hfront|].
      split; [constructor|].
      intros a rest0 E Ha. destruct (Hhead a rest0 [] E Ha I) as (t' & Ht').
      rewrite app_nil_r in Ht'. eauto. }
    pose proof (span_spec (fun y => negb (pred y)) (rev mid)) as Hs2.
    destruct (span (fun y => negb (pred y)) (rev mid)) as [back_rev mid_rev].
    destruct Hs2 as (Hmid & Hback & Hmr).
    assert (Hback' : Forall (fun y => pred y = false) (rev back_rev)).
    { apply Forall_rev. eapply Forall_impl; [|exact Hback].
      intros y Hy. apply negb_true_iff. exact Hy. }
    assert (Emid : mid = rev mid_rev ++ rev back_rev).
    { rewrite <- rev_app_distr, <- Hmid, rev_involutive. reflexivity. }
    destruct mid_rev as [|y inner_rev].
    { simpl in Emid. subst mid.
      split; [apply Permutation_refl|]. split; [exact Hfront|].
      split; [constructor; assumption|].
      intros a rest0 E Ha. destruct (Hhead a rest0 [] E Ha Hrest) as (t' & Ht').
      rewrite app_nil_r in Ht'. eauto. }
    simpl in Emid. rewrite <- app_assoc in Emid. simpl in Emid.
    assert (Hy : pred y = true) by (apply negb_false_iff; exact Hmr).
    specialize (IH (rev inner_rev)).
    destruct (partition_loop pred fuel (rev inner_rev)) as [t f].
    destruct IH as (Hperm & Ht & Hf & _).
    { subst mid. rewrite length_app in Hlen. simpl in Hlen.
      rewrite length_app in Hlen. simpl in Hlen. lia. }
    subst mid. split; [|split; [|split]].
    + rewrite <- app_assoc. apply Permutation_app_head. simpl.
      transitivity (x :: y :: rev inner_rev ++ rev back_rev).
      { constructor. symmetry. apply Permutation_middle. }
      transitivity (y :: x :: (t ++ f) ++ rev back_rev).
      { etransitivity; [apply perm_swap|].
        do 2 constructor. apply Permutation_app_tail. exact Hperm. }
      constructor. rewrite <- app_assoc.
      transitivity (t ++ x :: f ++ rev back_rev).
      { apply Permutation_middle. }
      apply Permutation_app_head. apply Permutation_middle.
    + apply Forall_app. split; [assumption|]. constructor; assumption.
    + apply Forall_app. split; [assumption|]. constructor; assumption.
    + intros a rest0 E Ha. exact (Hhead a rest0 (y :: t) E Ha Hrest).
Qed.

Lemma std_partition_spec {A} (pred : A -> bool) l t f :
  std_partition pred l = (t, f) ->
  Permutation l (t ++ f) /\
  Forall (fun x => pred x = true) t /\
  Forall (fun x => pred x = false) f /\
  (forall a rest, l = a :: rest -> pred a = true -> exists t', t = a :: t').
Proof.
  intros H. pose proof (partition_loop_spec pred (length l) l (Nat.le_refl _)) as Hs.
  unfold std_partition in H. rewrite H in Hs. exact Hs.
Qed.

(** ** The fusion of one group *)

Lemma transform_Forall2 {A B} (f : A -> outcome B) l : forall l',
  transform f l = Ok l' -> Forall2 (fun x y => f x = Ok y) l l'.
Proof.
  induction l as [|a l IH]; intros l' H; simpl in H.
  - injection H as <-. constructor.
  - destruct (f a) as [b| |] eqn:Ea; cbn [bind] in H; try discriminate.
    destruct (transform f l) as [bs| |]; cbn [bind] in H; try discriminate.
    injection H as <-. constructor; [exact Ea | apply IH; reflexivity].
Qed.

Lemma Forall2_compose {A B C} (R1 : A -> B -> Prop) (R2 : B -> C -> Prop) l1 : forall l2 l3,
  Forall2 R1 l1 l2 -> Forall2 R2 l2 l3 ->
  Forall2 (fun a c => exists b, R1 a b /\ R2 b c) l1 l3.
Proof.
  induction l1 as [|a l1 IH]; intros l2 l3 H1 H2; inversion H1; subst;
    inversion H2; subst; constructor; eauto.
Qed.

Lemma fuse_map_id group p base i slots x :
  ins_id (fuse_map group p base i slots x) = rename_group group base (ins_id x).
Proof.
  unfold fuse_map, rename_group. destruct (index_of (ins_id x) group); reflexivity.
Qed.

Lemma NoDup_map_in {A B} (f : A -> B) l :
  (forall x y, In x l -> In y l -> f x = f y -> x = y) ->
  NoDup l -> NoDup (map f l).
Proof.
  intros Hinj Hnd. induction Hnd as [|a l Ha _ IH]; simpl; constructor.
  - intros Hin. apply in_map_iff in Hin as (b & E & Hb).
    apply Ha. rewrite <- (Hinj b a (or_intror Hb) (or_introl eq_refl) E). exact Hb.
  - apply IH. intros x y Hx Hy. apply Hinj; right; assumption.
Qed.

(** Renaming the members of a group to identities above every identity
    in use is injective. *)
Lemma rename_group_inj group base a b :
  NoDup group -> (a < base)%nat -> (b < base)%nat ->
  rename_group group base a = rename_group group base b -> a = b.
Proof.
  intros Hnd Ha Hb. unfold rename_group.
  destruct (index_of a group) as [ka|] eqn:Ea; destruct (index_of b group) as [kb|] eqn:Eb;
    intros E; try lia.
  apply index_of_Some in Ea as [Ea _]. apply index_of_Some in Eb as [Eb _].
  assert (ka = kb) by lia. subst kb. congruence.
Qed.

Lemma lookup_map_member (F : instruction -> instruction) l x :
  NoDup (map ins_id (map F l)) -> In x l ->
  lookup (map F l) (ins_id (F x)) = Some (F x).
Proof.
  intros Hnd Hx. apply lookup_unique; [exact Hnd | apply in_map; exact Hx].
Qed.

Lemma each_fused gcs ins m group m' :
  NoDup (map ins_id m) -> (2 <= length group)%nat ->
  prepare_reduce.each gcs ins m group = Ok m' ->
  fusion_spec.fused gcs m group m'.
Proof.
  intros Hnd Hlen H.
  destruct (each_closed_form gcs ins m group m' Hnd Hlen H)
    as (inputs & start & first & shapes & slots & m2 &
        Hinputs & Hstart & Hfirst & Hshapes & Hslots & Hperm & Hndg & -> & _ & _).
  set (p := fresh m) in *.
  set (P := mk_instruction p (parallel_reduce (ins_op first)) inputs (shape_tuple slots)) in *.
  set (F := fuse_map group p (S p) 0 slots).
  assert (Hids2 : forall a, In a (map ins_id m2) -> (a < S p)%nat).
  { intros a Ha.
    eapply Permutation_in in Ha; [|apply Permutation_map; exact Hperm].
    destruct Ha as [<-|Ha]; [simpl; lia|].
    apply list_max_ge in Ha. unfold p, fresh. lia. }
  assert (Hnd2 : NoDup (map ins_id m2)).
  { eapply Permutation_NoDup; [apply Permutation_map; symmetry; exact Hperm|].
    simpl. constructor; [apply fresh_not_in | exact Hnd]. }
  assert (Hsub : forall r, In r group -> In r (map ins_id m)).
  { intros r Hr. destruct (transform_In _ _ _ _ Hinputs Hr) as (a & Ha & _).
    apply front_input_In in Ha as (x & Hx & _).
    apply lookup_In in Hx as [Hin <-]. apply in_map. exact Hin. }
  assert (Hpg : ~ In p group).
  { intros Hin. apply (fresh_not_in m). apply Hsub. exact Hin. }
  assert (HndF : NoDup (map ins_id (map F m2))).
  { rewrite map_map.
    rewrite (map_ext _ (fun x => rename_group group (S p) (ins_id x)))
      by (intros x; apply fuse_map_id).
    rewrite <- (map_map ins_id (rename_group group (S p))).
    apply NoDup_map_in; [|exact Hnd2].
    intros a b Ha Hb. apply rename_group_inj; auto. }
  assert (Hin2 : forall x, In x m -> In x m2).
  { intros x Hx. eapply Permutation_in; [symmetry; exact Hperm | right; exact Hx]. }
  assert (HlenS : length slots = length group).
  { rewrite (transform_length _ _ _ Hslots).
    unfold input_shapes in Hshapes. rewrite (transform_length _ _ _ Hshapes).
    apply (transform_length _ _ _ Hinputs). }
  exists start, first, inputs, slots.
  split; [exact Hstart|]. split; [exact Hfirst|]. split; [|split].
  - eapply Forall2_impl; [|apply transform_Forall2; exact Hinputs].
    intros r a Ha. apply front_input_In. exact Ha.
  - unfold input_shapes in Hshapes.
    pose proof (Forall2_compose _ _ _ _ _ (transform_Forall2 _ _ _ Hshapes)
                  (transform_Forall2 _ _ _ Hslots)) as HF.
    eapply Forall2_impl; [|exact HF].
    intros a slot (s & Hs & Hslot). cbv beta in Hs. unfold deref in Hs.
    destruct (lookup m a) as [y|]; cbn [bind] in Hs; [|discriminate].
    injection Hs as <-. exists y. auto.
  - cbv zeta. fold p. split; [exact HndF|]. split; [|split; [|split]].
    + rewrite length_map. rewrite (Permutation_length Hperm). reflexivity.
    + assert (HP : In P m2).
      { eapply Permutation_in; [symmetry; exact Hperm | left; reflexivity]. }
      pose proof (lookup_map_member F m2 P HndF HP) as HL.
      unfold F at 2 3 in HL. unfold fuse_map in HL. cbn [ins_id P] in HL.
      rewrite (index_of_None p group Hpg) in HL. exact HL.
    + intros k r Hk.
      assert (Hr : In r group) by (eapply nth_error_In; exact Hk).
      assert (Hrm : In r (map ins_id m)) by (apply Hsub; exact Hr).
      split.
      * apply lookup_None. intros Hin. rewrite map_map in Hin.
        apply in_map_iff in Hin as (x & Ex & Hx). unfold F in Ex.
        rewrite fuse_map_id in Ex.
        pose proof (Hids2 _ (in_map ins_id _ _ Hx)) as Hlt.
        unfold rename_group in Ex.
        destruct (index_of (ins_id x) group) as [kx|] eqn:Eidx.
        -- apply list_max_ge in Hrm. unfold p, fresh in Ex. lia.
        -- rewrite Ex in Eidx. destruct (index_of_In r group Hr) as (kk & Ekk).
           congruence.
      * assert (Hkl : (k < length slots)%nat).
        { rewrite HlenS. apply nth_error_Some. congruence. }
        destruct (nth_error slots k) as [slot|] eqn:Eslot;
          [|apply nth_error_None in Eslot; lia].
        exists slot. split; [reflexivity|].
        apply in_map_iff in Hrm as (x & Ex & Hx).
        pose proof (lookup_map_member F m2 x HndF (Hin2 x Hx)) as HL.
        unfold F at 2 3 in HL. unfold fuse_map in HL.
        rewrite Ex, (index_of_nth r group k Hndg Hk) in HL.
        cbn [ins_id] in HL. rewrite Z.add_0_l, Nat2Z.id in HL.
        rewrite (nth_error_nth _ _ _ Eslot) in HL. exact HL.
    + intros x Hx Hxg.
      pose proof (lookup_map_member F m2 x HndF (Hin2 x Hx)) as HL.
      unfold F at 2 3 in HL. unfold fuse_map in HL.
      rewrite (index_of_None _ _ Hxg) in HL. cbn [ins_id] in HL. exact HL.
Qed.

(** ** The grouping of the reductions (C6) *)

Lemma type_eqb_refl t : type_eqb t t = true.
Proof. destruct t; reflexivity. Qed.

Lemma list_eqb_refl {A} (eqb : A -> A -> bool) l :
  (forall x, eqb x x = true) -> list_eqb eqb l l = true.
Proof.
  intros H. induction l as [|x l IH]; simpl; [reflexivity|].
  rewrite H, IH. reflexivity.
Qed.

Lemma dd_eqb_refl d : dd_eqb d d = true.
Proof.
  unfold dd_eqb. rewrite !Z.eqb_refl, list_Z_eqb_refl. reflexivity.
Qed.

Lemma shape_eqb_refl : forall s, shape_eqb s s = true.
Proof.
  fix IH 1. intros [t l st|t dds|subs]; simpl.
  - rewrite type_eqb_refl, !list_Z_eqb_refl. reflexivity.
  - rewrite type_eqb_refl, (list_eqb_refl dd_eqb dds dd_eqb_refl). reflexivity.
  - induction subs as [|s subs IHsubs]; [reflexivity|].
    rewrite (IH s), IHsubs. reflexivity.
Qed.

Lemma key_eqb_refl k : prepare_reduce.key_eqb k k = true.
Proof.
  unfold prepare_reduce.key_eqb. rewrite String.eqb_refl, shape_eqb_refl. reflexivity.
Qed.

Lemma key_key_of m r k :
  prepare_reduce.key m r = Ok k <-> fusion_spec.key_of m r = Some k.
Proof.
  unfold prepare_reduce.key, fusion_spec.key_of, deref.
  destruct (lookup m r); cbn [bind]; split; intros H; try discriminate;
    injection H as <-; reflexivity.
Qed.

Lemma transform_keyed m range keyed :
  transform (fun x => k <- prepare_reduce.key m x ;; Ok (x, k)) range = Ok keyed ->
  map fst keyed = range /\
  forall xk, In xk keyed -> fusion_spec.key_of m (fst xk) = Some (snd xk).
Proof.
  revert keyed. induction range as [|x range IH]; intros keyed H; simpl in H.
  - injection H as <-. split; [reflexivity | intros ? []].
  - destruct (prepare_reduce.key m x) as [k| |] eqn:Ek; cbn [bind] in H; try discriminate.
    destruct (transform _ range) as [ks| |]; cbn [bind] in H; try discriminate.
    injection H as <-. destruct (IH ks eq_refl) as [Hm Hk]. split.
    + simpl. rewrite Hm. reflexivity.
    + intros xk [<-|Hin]; [apply key_key_of; exact Ek | apply Hk; exact Hin].
Qed.

Lemma fused_NoDup gcs m group m' :
  fusion_spec.fused gcs m group m' -> NoDup (map ins_id m').
Proof.
  intros (start & first & inputs & slots & _ & _ & _ & _ & H).
  cbv zeta in H. apply H.
Qed.

Lemma span_map {A B} (f : A -> B) (p : A -> bool) (q : B -> bool) l :
  (forall x, In x l -> p x = q (f x)) ->
  span q (map f l) = (map f (fst (span p l)), map f (snd (span p l))).
Proof.
  induction l as [|x l IH]; intros H; [reflexivity|].
  cbn [map span]. rewrite <- (H x (or_introl eq_refl)).
  destruct (p x); [|reflexivity].
  rewrite IH by (intros y Hy; apply H; right; exact Hy).
  destruct (span p l). reflexivity.
Qed.

(** [std::partition] on a range of pairs whose predicate reads the
    second components is [std::partition] on the first components. *)
Lemma partition_loop_map {A B} (f : A -> B) (p : A -> bool) (q : B -> bool) fuel :
  forall l, (forall x, In x l -> p x = q (f x)) ->
  partition_loop q fuel (map f l) =
    (map f (fst (partition_loop p fuel l)), map f (snd (partition_loop p fuel l))).
Proof.
  induction fuel as [|fuel IH]; intros l H.
  all: cbn [partition_loop]; rewrite (span_map f p q l H).
  all: pose proof (span_spec p l) as Hs; destruct (span p l) as [front rest].
  all: destruct Hs as (El & _ & _); cbn [fst snd].
  all: destruct rest as [|x mid]; [reflexivity|]; cbn [map].
  all: assert (Hmid : forall y, In y (rev mid) -> negb (p y) = negb (q (f y)))
         by (intros y Hy; f_equal; apply H; rewrite El; apply in_or_app; right; right;
             apply in_rev; exact Hy).
  all: rewrite <- map_rev,
         (span_map f (fun y => negb (p y)) (fun y => negb (q y)) (rev mid) Hmid).
  all: pose proof (span_spec (fun y => negb (p y)) (rev mid)) as Hs2.
  all: destruct (span (fun y => negb (p y)) (rev mid)) as [back_rev mid_rev].
  all: destruct Hs2 as (Emid & _ & _); cbn [fst snd].
  all: destruct mid_rev as [|y inner_rev]; cbn [map];
         [rewrite <- map_rev; reflexivity|].
  - reflexivity.
  - rewrite <- map_rev, IH.
    + destruct (partition_loop p fuel (rev inner_rev)) as [t g]. cbn [fst snd].
      rewrite !map_app. cbn [map]. rewrite map_rev. reflexivity.
    + intros z Hz. apply H. rewrite El. apply in_or_app. right. right.
      apply in_rev. rewrite Emid. apply in_or_app. right. right.
      apply in_rev. exact Hz.
Qed.

Lemma std_partition_map {A B} (f : A -> B) (p : A -> bool) (q : B -> bool) l t g :
  (forall x, In x l -> p x = q (f x)) ->
  std_partition p l = (t, g) ->
  std_partition q (map f l) = (map f t, map f g).
Proof.
  intros H E. unfold std_partition in *.
  rewrite length_map, (partition_loop_map f p q (length l) l H), E. reflexivity.
Qed.

(** [group_by] with the callback [each] splits the reductions into
    groups of equal key and fuses the groups of at least two members. *)
Lemma group_by_fuses gcs ins fuel : forall range m m',
  NoDup (map ins_id m) -> (length range <= fuel)%nat ->
  group_by fuel prepare_reduce.key prepare_reduce.key_eqb
    (prepare_reduce.each gcs ins) range m = Ok m' ->
  exists groups, fusion_spec.fuses gcs m range groups m'.
Proof.
  induction fuel as [|fuel IH]; intros range m m' Hnd Hlen H.
  - destruct range; [|simpl in Hlen; lia]. simpl in H. injection H as <-.
    exists []. constructor.
  - destruct range as [|start tl].
    { simpl in H. injection H as <-. exists []. constructor. }
    cbn [group_by] in H.
    destruct (transform _ (start :: tl)) as [keyed| |] eqn:Ekeyed; cbn [bind] in H;
      try discriminate.
    destruct (prepare_reduce.key m start) as [k0| |] eqn:Ek0; cbn [bind] in H;
      try discriminate.
    destruct (std_partition (fun xk => prepare_reduce.key_eqb (snd xk) k0) keyed)
      as [group rest] eqn:Epart.
    destruct (prepare_reduce.each gcs ins m (map fst group)) as [m1| |] eqn:Eeach;
      cbn [bind] in H; try discriminate.
    apply transform_keyed in Ekeyed as [Hfst Hkeys].
    apply key_key_of in Ek0.
    assert (Epinned : std_partition (fun r => fusion_spec.same_key m r start)
                        (start :: tl) = (map fst group, map fst rest)).
    { rewrite <- Hfst.
      apply (std_partition_map fst (fun xk => prepare_reduce.key_eqb (snd xk) k0));
        [|exact Epart].
      intros xk Hxk. unfold fusion_spec.same_key. rewrite (Hkeys xk Hxk), Ek0.
      reflexivity. }
    apply std_partition_spec in Epart as (Hperm & Hgroup & Hrest & Hhead).
    destruct keyed as [|[s0 ks] keyed']; [discriminate Hfst|].
    simpl in Hfst. injection Hfst as -> Hfst'.
    assert (Eks : ks = k0).
    { pose proof (Hkeys (start, ks) (or_introl eq_refl)) as Hk. simpl in Hk.
      congruence. }
    subst ks.
    destruct (Hhead (start, k0) keyed' eq_refl (key_eqb_refl k0)) as (t' & ->).
    assert (Hperm' : Permutation (start :: tl)
                       (map fst ((start, k0) :: t') ++ map fst rest)).
    { rewrite <- map_app. rewrite <- Hfst'.
      change (start :: map fst keyed') with (map fst ((start, k0) :: keyed')).
      apply Permutation_map. exact Hperm. }
    assert (Hin : forall xk, In xk ((start, k0) :: t') \/ In xk rest ->
                  In xk ((start, k0) :: keyed')).
    { intros xk Hxk. eapply Permutation_in; [symmetry; exact Hperm|].
      apply in_or_app. exact Hxk. }
    assert (Hnd1 : NoDup (map ins_id m1) /\
                   ((length (map fst ((start, k0) :: t')) < 2)%nat /\ m1 = m \/
                    (2 <= length (map fst ((start, k0) :: t')))%nat /\
                    fusion_spec.fused gcs m (map fst ((start, k0) :: t')) m1)).
    { destruct (Nat.ltb_spec (length (map fst ((start, k0) :: t'))) 2) as [Hlt|Hge].
      - unfold prepare_reduce.each in Eeach.
        destruct (Nat.ltb_spec (length (map fst ((start, k0) :: t'))) 2); [|lia].
        injection Eeach as <-. split; [exact Hnd | left; auto].
      - pose proof (each_fused gcs ins m _ m1 Hnd Hge Eeach) as Hf.
        split; [exact (fused_NoDup _ _ _ _ Hf) | right; auto]. }
    destruct Hnd1 as [Hnd1 Heach].
    destruct (IH (map fst rest) m1 m' Hnd1) as (groups & Hgroups).
    { apply Permutation_length in Hperm. rewrite length_app in Hperm.
      simpl in Hperm, Hlen. rewrite length_map.
      assert (length keyed' = length tl) by (rewrite <- Hfst'; symmetry; apply length_map).
      lia. }
    { exact H. }
    exists (map fst ((start, k0) :: t') :: groups).
    apply (fusion_spec.fuses_group gcs m (start :: tl) start
             (map fst ((start, k0) :: t')) (map fst rest) m1 groups m');
      try assumption; try reflexivity.
    + intros r Hr. apply in_map_iff in Hr as ([x k] & <- & Hxk).
      unfold fusion_spec.same_key.
      rewrite (Hkeys (x, k) (Hin _ (or_introl Hxk))), Ek0. simpl.
      rewrite Forall_forall in Hgroup. exact (Hgroup _ Hxk).
    + intros r Hr. apply in_map_iff in Hr as ([x k] & <- & Hxk).
      unfold fusion_spec.same_key.
      rewrite (Hkeys (x, k) (Hin _ (or_intror Hxk))), Ek0. simpl.
      rewrite Forall_forall in Hrest. exact (Hrest _ Hxk).
Qed.

Lemma collect_reduces_spec m outs : forall reduces,
  prepare_reduce.collect_reduces m outs = Ok reduces ->
  forall r, In r reduces <->
            exists o, In o outs /\ outputs m o <> [] /\
                      prepare_reduce.get_reduce m o = Ok (Some r).
Proof.
  induction outs as [|o outs IH]; intros reduces H r; simpl in H.
  - injection H as <-. split; [intros [] | intros (o & [] & _)].
  - destruct (Nat.eqb_spec (length (outputs m o)) 0) as [E|E].
    + rewrite (IH reduces H r). split.
      * intros (o' & Ho' & Hrest). exists o'. split; [right|]; assumption.
      * intros (o' & [<-|Ho'] & Hne & Hget).
        -- destruct (outputs m o); [congruence | discriminate E].
        -- exists o'. auto.
    + destruct (prepare_reduce.get_reduce m o) as [res| |] eqn:Eget; cbn [bind] in H;
        try discriminate.
      destruct (prepare_reduce.collect_reduces m outs) as [rs| |]; cbn [bind] in H;
        try discriminate.
      injection H as <-.
      assert (Hne : outputs m o <> []) by (intros E0; rewrite E0 in E; apply E; reflexivity).
      specialize (IH rs eq_refl r).
      destruct res as [r0|]; simpl; rewrite ?IH; split.
      * intros [<-|(o' & Ho' & Hrest)]; [exists o; auto|].
        exists o'. split; [right|]; assumption.
      * intros (o' & [<-|Ho'] & Hne' & Hget); [left; congruence|].
        right. exists o'. auto.
      * intros (o' & Ho' & Hrest). exists o'. split; [right|]; assumption.
      * intros (o' & [<-|Ho'] & Hne' & Hget); [congruence|].
        exists o'. auto.
Qed.


(** ** One fusion, as the rest of the module sees it *)

Lemma type_eqb_sym a b : type_eqb a b = type_eqb b a.
Proof. destruct a, b; reflexivity. Qed.

Lemma list_Z_eqb_sym a b : list_Z_eqb a b = list_Z_eqb b a.
Proof.
  unfold list_Z_eqb.
  destruct (list_eq_dec Z.eq_dec a b), (list_eq_dec Z.eq_dec b a); congruence.
Qed.

Lemma dd_eqb_sym a b : dd_eqb a b = dd_eqb b a.
Proof.
  unfold dd_eqb.
  rewrite (Z.eqb_sym (dd_min a)), (Z.eqb_sym (dd_max a)), (list_Z_eqb_sym (dd_optimals a)).
  reflexivity.
Qed.

Lemma list_eqb_sym {A} (eqb : A -> A -> bool) :
  (forall x y, eqb x y = eqb y x) ->
  forall a b, list_eqb eqb a b = list_eqb eqb b a.
Proof.
  intros H. induction a as [|x a IH]; intros [|y b]; simpl; try reflexivity.
  rewrite (H x y), (IH b). reflexivity.
Qed.

Lemma shape_eqb_sym : forall a b, shape_eqb a b = shape_eqb b a.
Proof.
  fix IH 1. intros [t l st|t dds|subs] [t' l' st'|t' dds'|subs']; simpl; try reflexivity.
  - rewrite (type_eqb_sym t), (list_Z_eqb_sym l), (list_Z_eqb_sym st). reflexivity.
  - rewrite (type_eqb_sym t), (list_eqb_sym dd_eqb dd_eqb_sym dds). reflexivity.
  - revert subs'. induction subs as [|s subs IHsubs]; intros [|s' subs']; try reflexivity.
    rewrite (IH s s'), (IHsubs subs'). reflexivity.
Qed.

Lemma key_eqb_sym a b : prepare_reduce.key_eqb a b = prepare_reduce.key_eqb b a.
Proof.
  unfold prepare_reduce.key_eqb.
  rewrite (String.eqb_sym (fst a)), (shape_eqb_sym (snd a)). reflexivity.
Qed.

Lemma same_key_sym m a b : fusion_spec.same_key m a b = fusion_spec.same_key m b a.
Proof.
  unfold fusion_spec.same_key.
  destruct (fusion_spec.key_of m a), (fusion_spec.key_of m b); try reflexivity.
  apply key_eqb_sym.
Qed.

Lemma same_key_refl m a x :
  lookup m a = Some x -> fusion_spec.same_key m a a = true.
Proof.
  intros H. unfold fusion_spec.same_key, fusion_spec.key_of. rewrite H.
  apply key_eqb_refl.
Qed.

Lemma ids_lt_fresh m i : In i (map ins_id m) -> (i < fresh m)%nat.
Proof. intros H. apply list_max_ge in H. unfold fresh. lia. Qed.

Lemma not_counted_pointwise :
  prepare_reduce_spec.counted_reduction "pointwise" = false.
Proof. reflexivity. Qed.

Lemma not_counted_parallel_reduce :
  prepare_reduce_spec.counted_reduction "gpu::parallel_reduce" = false.
Proof. reflexivity. Qed.

Lemma not_counted_get_tuple_elem :
  prepare_reduce_spec.counted_reduction "get_tuple_elem" = false.
Proof. reflexivity. Qed.

Lemma get_reduce_from_eq fuel m o x :
  lookup m o = Some x ->
  prepare_reduce.get_reduce_from fuel m o =
    let n := name (ins_op x) in
    if String.eqb n "gpu::parallel_reduce" || String.eqb n "reduce_mean" then Ok None
    else if prepare_reduce.contains n "reduce" then Ok (Some o)
    else if String.eqb n "pointwise" then
      if Nat.eqb (length (ins_inputs x)) 1 && Nat.eqb (length (outputs m o)) 1
      then
        match fuel, outputs m o with
        | S fuel', front :: _ => prepare_reduce.get_reduce_from fuel' m front
        | _, _ => Undefined
        end
      else Ok None
    else Ok None.
Proof.
  intros H. destruct fuel; simpl; unfold deref; rewrite H; reflexivity.
Qed.

Lemma reaches_target m o r :
  prepare_reduce_spec.reaches prepare_reduce_spec.counted_reduction m o r ->
  exists x, lookup m r = Some x /\
            prepare_reduce_spec.counted_reduction (name (ins_op x)) = true.
Proof.
  induction 1 as [o x Hx Hred|o x o' r Hx Hname Hin Hout _ IH]; [|exact IH].
  exists x. auto.
Qed.

Lemma get_reduce_some_lookup fuel m o r :
  prepare_reduce.get_reduce_from fuel m o = Ok (Some r) ->
  exists x, lookup m r = Some x /\
            prepare_reduce_spec.counted_reduction (name (ins_op x)) = true.
Proof.
  intros H. apply get_reduce_from_sound in H. apply reaches_target in H. exact H.
Qed.

Lemma unary_reductions_spec m :
  scan_spec.unary_reductions m = true <->
  forall x, In x m ->
    prepare_reduce_spec.counted_reduction (name (ins_op x)) = true ->
    length (ins_inputs x) = 1%nat.
Proof.
  unfold scan_spec.unary_reductions. rewrite forallb_forall. split.
  - intros H x Hx Hc. specialize (H x Hx). rewrite Hc in H. simpl in H.
    apply Nat.eqb_eq. exact H.
  - intros H x Hx.
    destruct (prepare_reduce_spec.counted_reduction (name (ins_op x))) eqn:Hc;
      [|reflexivity].
    simpl. apply Nat.eqb_eq. apply H; assumption.
Qed.

Section FuseStep.

Variables (m m2 : module) (G I : list instruction_ref).
Variables (op : operation) (slots : list shape).

Let P := fresh m.
Let Pnode := mk_instruction P (parallel_reduce op) I (shape_tuple slots).
Let F := fuse_map G P (S P) 0 slots.
Let rho := rename_group G (S P).
Let mF := map F m2.

Hypothesis Hnd : NoDup (map ins_id m).
Hypothesis Hclosed : closed m.
Hypothesis Hperm : Permutation m2 (Pnode :: m).
Hypothesis HndG : NoDup G.
Hypothesis HG : forall r, In r G ->
  exists x i, lookup m r = Some x /\
              prepare_reduce_spec.counted_reduction (name (ins_op x)) = true /\
              ins_inputs x = [i] /\ In i I /\ ~ In i G.
Hypothesis HI : forall i, In i I ->
  ~ In i G /\ exists r x, In r G /\ lookup m r = Some x /\ ins_inputs x = [i].

Lemma fuse_old_lt a : In a (map ins_id m) -> (a < P)%nat.
Proof. apply ids_lt_fresh. Qed.

Lemma fuse_G_old r : In r G -> In r (map ins_id m).
Proof. intros Hr. destruct (HG r Hr) as (x & i & Hx & _). eapply lookup_ids. exact Hx. Qed.

Lemma fuse_rho_new r : In r G -> (S P <= rho r)%nat.
Proof.
  intros Hr. unfold rho, rename_group.
  destruct (index_of_In r G Hr) as (k & ->). lia.
Qed.

Lemma fuse_rho_old a : ~ In a G -> rho a = a.
Proof. apply rename_group_out. Qed.

Lemma fuse_P_not_G : ~ In P G.
Proof. intros H. apply fuse_G_old in H. apply (fresh_not_in m). exact H. Qed.

Lemma fuse_I_old i : In i I -> In i (map ins_id m).
Proof.
  intros Hi. destruct (HI i Hi) as (_ & r & x & _ & Hx & Hin).
  apply lookup_In in Hx as [Hx _]. apply (Hclosed x Hx). rewrite Hin. left. reflexivity.
Qed.

Lemma fuse_map_rho_I : map rho I = I.
Proof.
  rewrite <- (map_id I) at 2. apply map_ext_in. intros i Hi.
  apply fuse_rho_old. apply (HI i Hi).
Qed.

Lemma fuse_F_P : F Pnode = Pnode.
Proof.
  unfold F, fuse_map. cbn [ins_id Pnode]. rewrite (index_of_None P G fuse_P_not_G).
  unfold Pnode. cbn [ins_op ins_inputs ins_shape]. fold rho. rewrite fuse_map_rho_I.
  reflexivity.
Qed.

Lemma fuse_F_old x :
  ~ In (ins_id x) G ->
  F x = mk_instruction (ins_id x) (ins_op x) (map rho (ins_inputs x)) (ins_shape x).
Proof.
  intros H. unfold F, fuse_map. rewrite (index_of_None _ _ H). reflexivity.
Qed.

Lemma fuse_F_member x :
  In (ins_id x) G ->
  ins_id (F x) = rho (ins_id x) /\ ins_inputs (F x) = [P] /\
  name (ins_op (F x)) = "get_tuple_elem"%string.
Proof.
  intros H. unfold F, fuse_map, rho, rename_group.
  destruct (index_of_In _ _ H) as (k & ->). auto.
Qed.

Lemma fuse_F_id x : ins_id (F x) = rho (ins_id x).
Proof. apply fuse_map_id. Qed.

Lemma fuse_In_mF y : In y mF <-> y = Pnode \/ exists x, In x m /\ y = F x.
Proof.
  unfold mF. rewrite in_map_iff. split.
  - intros (x & <- & Hx). apply (Permutation_in _ Hperm) in Hx as [<-|Hx].
    + left. apply fuse_F_P.
    + right. exists x. auto.
  - intros [->|(x & Hx & ->)].
    + exists Pnode. split; [apply fuse_F_P|].
      apply (Permutation_in _ (Permutation_sym Hperm)). left. reflexivity.
    + exists x. split; [reflexivity|].
      apply (Permutation_in _ (Permutation_sym Hperm)). right. exact Hx.
Qed.

Lemma fuse_NoDup2 : NoDup (map ins_id m2).
Proof.
  eapply Permutation_NoDup; [apply Permutation_map; symmetry; exact Hperm|].
  simpl. constructor; [apply fresh_not_in | exact Hnd].
Qed.

Lemma fuse_ids2 a : In a (map ins_id m2) -> (a < S P)%nat.
Proof.
  intros H. apply (Permutation_in _ (Permutation_map ins_id Hperm)) in H.
  destruct H as [<-|H]; [simpl; lia|]. apply fuse_old_lt in H. lia.
Qed.

Lemma fuse_NoDup : NoDup (map ins_id mF).
Proof.
  unfold mF. rewrite map_map.
  rewrite (map_ext _ (fun x => rho (ins_id x)) fuse_F_id).
  rewrite <- (map_map ins_id rho).
  apply NoDup_map_in; [|exact fuse_NoDup2].
  intros a b Ha Hb. apply rename_group_inj; [exact HndG | |]; apply fuse_ids2; assumption.
Qed.

Lemma fuse_length : length mF = S (length m).
Proof.
  unfold mF. rewrite length_map. apply (Permutation_length Hperm).
Qed.

Lemma fuse_lookup_P : lookup mF P = Some Pnode.
Proof.
  change P with (ins_id Pnode) at 1. apply lookup_unique; [exact fuse_NoDup|].
  apply fuse_In_mF. left. reflexivity.
Qed.

Lemma fuse_lookup_old o x :
  lookup m o = Some x -> ~ In o G -> lookup mF o = Some (F x).
Proof.
  intros Hx Ho. apply lookup_In in Hx as [Hx <-].
  replace (ins_id x) with (ins_id (F x)) at 1
    by (rewrite fuse_F_id; apply fuse_rho_old; exact Ho).
  apply lookup_unique; [exact fuse_NoDup|].
  apply fuse_In_mF. right. exists x. auto.
Qed.

Lemma fuse_lookup_member r x :
  lookup m r = Some x -> In r G -> lookup mF (rho r) = Some (F x).
Proof.
  intros Hx Hr. apply lookup_In in Hx as [Hx <-].
  rewrite <- fuse_F_id.
  apply lookup_unique; [exact fuse_NoDup|].
  apply fuse_In_mF. right. exists x. auto.
Qed.

(** The instructions of the fused module. *)
Lemma fuse_ids c :
  In c (map ins_id mF) <->
  c = P \/ (In c (map ins_id m) /\ ~ In c G) \/ (exists r, In r G /\ c = rho r).
Proof.
  rewrite in_map_iff. split.
  - intros (y & <- & Hy). apply fuse_In_mF in Hy as [->|(x & Hx & ->)].
    + left. reflexivity.
    + right. rewrite fuse_F_id.
      destruct (in_dec Nat.eq_dec (ins_id x) G) as [Hg|Hg].
      * right. exists (ins_id x). auto.
      * left. rewrite (fuse_rho_old _ Hg). split; [apply in_map; exact Hx | exact Hg].
  - intros [->|[[Hc Hg]|(r & Hr & ->)]].
    + exists Pnode. split; [reflexivity | apply fuse_In_mF; left; reflexivity].
    + apply in_map_iff in Hc as (x & <- & Hx). exists (F x). split.
      * rewrite fuse_F_id. apply fuse_rho_old. exact Hg.
      * apply fuse_In_mF. right. exists x. auto.
    + pose proof (fuse_G_old r Hr) as Hin.
      apply in_map_iff in Hin as (x & <- & Hx). exists (F x). split.
      * apply fuse_F_id.
      * apply fuse_In_mF. right. exists x. auto.
Qed.

(** A member of the group is consumed by no member. *)
Lemma fuse_consumer_of_member x r :
  In x m -> In r G -> In r (ins_inputs x) -> ~ In (ins_id x) G.
Proof.
  intros Hx Hr Hin Hg.
  destruct (HG _ Hg) as (x' & i & Hx' & _ & Hi & _ & HiG).
  rewrite (lookup_unique m x Hnd Hx) in Hx'. injection Hx' as <-.
  rewrite Hi in Hin. destruct Hin as [->|[]]. contradiction.
Qed.

(** The consumers of an instruction that is kept. *)
Lemma fuse_outputs_old t c :
  In t (map ins_id m) -> ~ In t G ->
  (In c (outputs mF t) <->
   (c = P /\ In t I) \/
   (exists x, In x m /\ ins_id x = c /\ ~ In c G /\ In t (ins_inputs x))).
Proof.
  intros Ht HtG. pose proof (fuse_old_lt t Ht) as Hlt.
  rewrite outputs_In. split.
  - intros (y & Hy & <- & Hin). apply fuse_In_mF in Hy as [->|(x & Hx & ->)].
    + left. split; [reflexivity | exact Hin].
    + right. destruct (in_dec Nat.eq_dec (ins_id x) G) as [Hg|Hg].
      * destruct (fuse_F_member x Hg) as (_ & Hinp & _). rewrite Hinp in Hin.
        destruct Hin as [E|[]]. lia.
      * rewrite (fuse_F_old x Hg) in *. cbn [ins_id ins_inputs] in *.
        exists x. repeat split; try assumption.
        apply in_map_iff in Hin as (a & Ea & Ha).
        destruct (in_dec Nat.eq_dec a G) as [HaG|HaG].
        -- pose proof (fuse_rho_new a HaG). lia.
        -- rewrite (fuse_rho_old a HaG) in Ea. subst a. exact Ha.
  - intros [[-> Hin]|(x & Hx & <- & Hg & Hin)].
    + exists Pnode. split; [apply fuse_In_mF; left; reflexivity|].
      split; [reflexivity | exact Hin].
    + exists (F x). split; [apply fuse_In_mF; right; exists x; auto|].
      rewrite (fuse_F_old x Hg). cbn [ins_id ins_inputs]. split; [reflexivity|].
      apply in_map_iff. exists t. split; [apply fuse_rho_old; exact HtG | exact Hin].
Qed.

(** The consumers of the extraction that replaces a member are the
    consumers of the member. *)
Lemma fuse_outputs_member r c :
  In r G -> (In c (outputs mF (rho r)) <-> In c (outputs m r) /\ ~ In c G).
Proof.
  intros Hr. pose proof (fuse_rho_new r Hr) as Hnew.
  rewrite !outputs_In. split.
  - intros (y & Hy & <- & Hin). apply fuse_In_mF in Hy as [->|(x & Hx & ->)].
    + cbn [Pnode ins_inputs] in Hin. apply fuse_I_old, fuse_old_lt in Hin. lia.
    + destruct (in_dec Nat.eq_dec (ins_id x) G) as [Hg|Hg].
      * destruct (fuse_F_member x Hg) as (_ & Hinp & _). rewrite Hinp in Hin.
        destruct Hin as [E|[]]. lia.
      * rewrite (fuse_F_old x Hg) in *. cbn [ins_id ins_inputs] in *.
        split; [|exact Hg]. exists x. repeat split; try assumption.
        apply in_map_iff in Hin as (a & Ea & Ha).
        assert (a = r); [|subst a; exact Ha].
        apply (rename_group_inj G (S P)); [exact HndG | | |exact Ea].
        -- pose proof (fuse_old_lt a (Hclosed x Hx a Ha)). lia.
        -- pose proof (fuse_old_lt r (fuse_G_old r Hr)). lia.
  - intros [(x & Hx & <- & Hin) Hg].
    exists (F x). split; [apply fuse_In_mF; right; exists x; auto|].
    rewrite (fuse_F_old x Hg). cbn [ins_id ins_inputs]. split; [reflexivity|].
    apply in_map. exact Hin.
Qed.

(** An instruction that feeds no member keeps its consumers. *)
Lemma fuse_outputs_same t :
  In t (map ins_id m) -> ~ In t G -> ~ In t I ->
  Permutation (outputs mF t) (outputs m t) /\
  forall c, In c (outputs m t) -> ~ In c G.
Proof.
  intros Ht HtG HtI.
  assert (Hfree : forall c, In c (outputs m t) -> ~ In c G).
  { intros c Hc Hg. apply outputs_In in Hc as (x & Hx & <- & Hin).
    destruct (HG _ Hg) as (x' & i & Hx' & _ & Hi & HiI & _).
    rewrite (lookup_unique m x Hnd Hx) in Hx'. injection Hx' as <-.
    rewrite Hi in Hin. destruct Hin as [->|[]]. contradiction. }
  split; [|exact Hfree].
  apply NoDup_Permutation.
  - apply outputs_NoDup. exact fuse_NoDup.
  - apply outputs_NoDup. exact Hnd.
  - intros c. rewrite (fuse_outputs_old t c Ht HtG). split.
    + intros [[_ Hin]|(x & Hx & <- & _ & Hin)]; [contradiction|].
      apply outputs_In. exists x. auto.
    + intros Hc. right. pose proof (Hfree c Hc) as Hg.
      apply outputs_In in Hc as (x & Hx & <- & Hin). exists x. auto.
Qed.

(** An instruction that feeds a member is consumed by the fused
    instruction. *)
Lemma fuse_outputs_feeds t : In t I -> In P (outputs mF t).
Proof.
  intros Ht. apply fuse_outputs_old; [apply fuse_I_old; exact Ht | apply (HI t Ht) |].
  left. auto.
Qed.

Lemma fuse_outputs_nonempty t :
  In t (map ins_id m) -> ~ In t G -> outputs mF t <> [] -> outputs m t <> [].
Proof.
  intros Ht HtG Hne Hempty.
  destruct (outputs mF t) as [|c rest] eqn:E; [congruence|].
  assert (Hc : In c (outputs mF t)) by (rewrite E; left; reflexivity).
  apply (fuse_outputs_old t c Ht HtG) in Hc as [[_ Hin]|(x & Hx & <- & _ & Hin)].
  - destruct (HI t Hin) as (_ & r & x & Hr & Hx & Hinp).
    assert (Hr' : In r (outputs m t)).
    { apply outputs_In. exists x. apply lookup_In in Hx as [Hx Hid].
      rewrite Hinp. repeat split; auto. left. reflexivity. }
    rewrite Hempty in Hr'. destruct Hr'.
  - assert (Hc : In (ins_id x) (outputs m t)) by (apply outputs_In; exists x; auto).
    rewrite Hempty in Hc. destruct Hc.
Qed.


Lemma fuse_get_reduce_new fuel c :
  c = P \/ (exists r, In r G /\ c = rho r) ->
  prepare_reduce.get_reduce_from fuel mF c = Ok None.
Proof.
  intros [->|(r & Hr & ->)].
  - rewrite (get_reduce_from_eq fuel mF P Pnode fuse_lookup_P). reflexivity.
  - destruct (HG r Hr) as (x & i & Hx & _).
    rewrite (get_reduce_from_eq fuel mF (rho r) (F x) (fuse_lookup_member r x Hx Hr)).
    apply lookup_In in Hx as [_ Hid]. rewrite <- Hid in Hr.
    destruct (fuse_F_member x Hr) as (_ & _ & Hname).
    cbv zeta. rewrite Hname. reflexivity.
Qed.

(** What [get_reduce] finds after the fusion it found before, and it is
    not a member of the group. *)
Lemma fuse_get_reduce_mono fuel : forall o res,
  In o (map ins_id m) -> ~ In o G ->
  prepare_reduce.get_reduce_from fuel m o = Ok res ->
  exists res',
    prepare_reduce.get_reduce_from (S fuel) mF o = Ok res' /\
    forall r, res' = Some r -> res = Some r /\ ~ In r G.
Proof.
  induction fuel as [fuel IH] using lt_wf_ind. intros o res Ho HoG Hres.
  destruct (deref_ok m o Ho) as (x & _ & Hx).
  rewrite (get_reduce_from_eq _ m o x Hx) in Hres.
  rewrite (get_reduce_from_eq _ mF o (F x) (fuse_lookup_old o x Hx HoG)).
  assert (Hid : ins_id x = o) by (apply lookup_In in Hx; apply Hx).
  rewrite (fuse_F_old x) by (rewrite Hid; exact HoG).
  cbn [ins_op ins_inputs ins_id ins_shape]. rewrite length_map.
  revert Hres. cbv zeta.
  destruct (String.eqb (name (ins_op x)) "gpu::parallel_reduce"
            || String.eqb (name (ins_op x)) "reduce_mean").
  { intros _. exists None. split; [reflexivity | discriminate]. }
  destruct (prepare_reduce.contains (name (ins_op x)) "reduce").
  { intros H. injection H as <-. exists (Some o). split; [reflexivity|].
    intros r Hr. injection Hr as <-. auto. }
  destruct (String.eqb (name (ins_op x)) "pointwise").
  2:{ intros _. exists None. split; [reflexivity | discriminate]. }
  destruct (Nat.eqb (length (ins_inputs x)) 1); cbn [andb].
  2:{ intros _. exists None. split; [reflexivity | discriminate]. }
  destruct (Nat.eqb_spec (length (outputs mF o)) 1) as [EF|EF].
  2:{ intros _. exists None. split; [reflexivity | discriminate]. }
  destruct (outputs mF o) as [|c [|c' rest]] eqn:EoF; try discriminate EF.
  destruct (in_dec Nat.eq_dec o I) as [HoI|HoI].
  - intros _. pose proof (fuse_outputs_feeds o HoI) as HP. rewrite EoF in HP.
    destruct HP as [->|[]].
    exists None. split; [|discriminate].
    apply fuse_get_reduce_new. left. reflexivity.
  - destruct (fuse_outputs_same o Ho HoG HoI) as [Hp Hfree]. rewrite EoF in Hp.
    apply Permutation_length_1_inv in Hp. rewrite Hp. cbn [length Nat.eqb].
    destruct fuel as [|fuel']; [discriminate|].
    intros Hres. apply (IH fuel' (Nat.lt_succ_diag_r _) c res); [| |exact Hres].
    + assert (Hc : In c (outputs m o)) by (rewrite Hp; left; reflexivity).
      apply outputs_In in Hc as (y & Hy & <- & _). apply in_map. exact Hy.
    + apply Hfree. rewrite Hp. left. reflexivity.
Qed.

Lemma fuse_total : scan_spec.get_reduce_total m -> scan_spec.get_reduce_total mF.
Proof.
  intros Htot c Hc. unfold prepare_reduce.get_reduce. rewrite fuse_length.
  apply fuse_ids in Hc as [->|[[Hc Hg]|Hnew]].
  - exists None. apply fuse_get_reduce_new. left. reflexivity.
  - destruct (Htot c Hc) as (res & Hres).
    destruct (fuse_get_reduce_mono _ c res Hc Hg Hres) as (res' & Hres' & _).
    exists res'. exact Hres'.
  - exists None. apply fuse_get_reduce_new. right. exact Hnew.
Qed.

Lemma fuse_unary :
  scan_spec.unary_reductions m = true -> scan_spec.unary_reductions mF = true.
Proof.
  rewrite !unary_reductions_spec. intros Hun y Hy Hc.
  apply fuse_In_mF in Hy as [->|(x & Hx & ->)]; [discriminate Hc|].
  destruct (in_dec Nat.eq_dec (ins_id x) G) as [Hg|Hg].
  - destruct (fuse_F_member x Hg) as (_ & _ & Hname). rewrite Hname in Hc.
    discriminate Hc.
  - rewrite (fuse_F_old x Hg) in *. cbn [ins_op ins_inputs] in *.
    rewrite length_map. apply Hun; assumption.
Qed.

Lemma fuse_closed : closed mF.
Proof.
  intros y Hy a Ha. apply fuse_ids.
  apply fuse_In_mF in Hy as [->|(x & Hx & ->)].
  - right. left. cbn [Pnode ins_inputs] in Ha.
    split; [apply fuse_I_old; exact Ha | apply (HI a Ha)].
  - destruct (in_dec Nat.eq_dec (ins_id x) G) as [Hg|Hg].
    + destruct (fuse_F_member x Hg) as (_ & Hinp & _). rewrite Hinp in Ha.
      destruct Ha as [<-|[]]. left. reflexivity.
    + rewrite (fuse_F_old x Hg) in Ha. cbn [ins_inputs] in Ha.
      apply in_map_iff in Ha as (a0 & <- & Ha0). right.
      destruct (in_dec Nat.eq_dec a0 G) as [HaG|HaG].
      * right. exists a0. auto.
      * left. rewrite (fuse_rho_old a0 HaG). split; [|exact HaG].
        apply (Hclosed x Hx a0 Ha0).
Qed.

Lemma fuse_well_formed :
  scan_spec.unary_reductions m = true -> scan_spec.get_reduce_total m ->
  scan_spec.well_formed mF.
Proof.
  intros Hun Htot. split; [exact fuse_NoDup|]. split; [exact fuse_closed|].
  split; [apply fuse_unary; exact Hun | apply fuse_total; exact Htot].
Qed.

Lemma fuse_key_of r :
  In r (map ins_id m) -> ~ In r G -> fusion_spec.key_of mF r = fusion_spec.key_of m r.
Proof.
  intros Hr Hg. destruct (deref_ok m r Hr) as (x & _ & Hx).
  unfold fusion_spec.key_of. rewrite Hx, (fuse_lookup_old r x Hx Hg).
  rewrite (fuse_F_old x); [reflexivity|].
  apply lookup_In in Hx as [_ ->]. exact Hg.
Qed.

Lemma fuse_same_key r1 r2 :
  In r1 (map ins_id m) -> ~ In r1 G -> In r2 (map ins_id m) -> ~ In r2 G ->
  fusion_spec.same_key mF r1 r2 = fusion_spec.same_key m r1 r2.
Proof.
  intros H1 G1 H2 G2. unfold fusion_spec.same_key.
  rewrite (fuse_key_of r1 H1 G1), (fuse_key_of r2 H2 G2). reflexivity.
Qed.

(** A reduction reached from a consumer of [y] after the fusion was
    reached from a consumer of [y] before it. *)
Lemma fuse_reach_back y o r :
  scan_spec.get_reduce_total m -> In y (map ins_id m) ->
  In o (outputs mF (rho y)) -> outputs mF o <> [] ->
  prepare_reduce.get_reduce mF o = Ok (Some r) ->
  In o (outputs m y) /\ outputs m o <> [] /\
  prepare_reduce.get_reduce m o = Ok (Some r) /\
  In r (map ins_id m) /\ ~ In r G.
Proof.
  intros Htot Hy Ho Hne Hr.
  assert (Hold : In o (outputs m y) /\ ~ In o G).
  { destruct (in_dec Nat.eq_dec y G) as [Hg|Hg].
    - apply (fuse_outputs_member y o Hg). exact Ho.
    - rewrite (fuse_rho_old y Hg) in Ho.
      apply (fuse_outputs_old y o Hy Hg) in Ho as [[-> _]|(x & Hx & <- & HxG & Hin)].
      + unfold prepare_reduce.get_reduce in Hr.
        rewrite (fuse_get_reduce_new _ P) in Hr by (left; reflexivity). discriminate.
      + split; [|exact HxG]. apply outputs_In. exists x. auto. }
  destruct Hold as [Hoy HoG].
  assert (Hom : In o (map ins_id m)).
  { apply outputs_In in Hoy as (x & Hx & <- & _). apply in_map. exact Hx. }
  split; [exact Hoy|]. split; [apply fuse_outputs_nonempty; assumption|].
  destruct (Htot o Hom) as (res & Hres).
  destruct (fuse_get_reduce_mono _ o res Hom HoG Hres) as (res' & Hres' & Hback).
  unfold prepare_reduce.get_reduce in Hr. rewrite fuse_length, Hres' in Hr.
  injection Hr as ->. destruct (Hback r eq_refl) as [-> HrG].
  split; [exact Hres|]. split; [|exact HrG].
  destruct (get_reduce_some_lookup _ _ _ _ Hres) as (x & Hx & _).
  eapply lookup_ids. exact Hx.
Qed.

Lemma fuse_quiet y :
  scan_spec.get_reduce_total m -> In y (map ins_id m) ->
  scan_spec.quiet m y -> scan_spec.quiet mF (rho y).
Proof.
  intros Htot Hy Hq o1 o2 r1 r2 Hne H1 H2 Hn1 Hn2 Hr1 Hr2.
  destruct (fuse_reach_back y o1 r1 Htot Hy H1 Hn1 Hr1) as (A1 & B1 & C1 & D1 & E1).
  destruct (fuse_reach_back y o2 r2 Htot Hy H2 Hn2 Hr2) as (A2 & B2 & C2 & D2 & E2).
  rewrite (fuse_same_key r1 r2 D1 E1 D2 E2).
  apply (Hq o1 o2 r1 r2); assumption.
Qed.

Section Cursor.

Variable X : instruction_ref.
Hypothesis HX : In X (map ins_id m).
Hypothesis HXG : ~ In X G.

Lemma fuse_before_ids :
  scan_spec.before_ids mF X = map rho (scan_spec.before_ids m2 X).
Proof.
  apply before_ids_map.
  - intros x _. apply fuse_F_id.
  - intros x Hx. split.
    + intros E. destruct (in_dec Nat.eq_dec (ins_id x) G) as [Hg|Hg].
      * pose proof (fuse_rho_new _ Hg). pose proof (fuse_old_lt X HX). lia.
      * rewrite (fuse_rho_old _ Hg) in E. exact E.
    + intros ->. apply fuse_rho_old. exact HXG.
Qed.

Lemma fuse_visited :
  scan_spec.get_reduce_total m ->
  incl (scan_spec.before_ids m2 X) (scan_spec.before_ids m X) ->
  scan_spec.visited m X -> scan_spec.visited mF X.
Proof.
  intros Htot Hincl Hv y Hy. rewrite fuse_before_ids in Hy.
  apply in_map_iff in Hy as (y0 & <- & Hy0). apply Hincl in Hy0.
  apply fuse_quiet; [exact Htot | | apply Hv; exact Hy0].
  apply (before_ids_incl m X). exact Hy0.
Qed.

Lemma fuse_fed_by rest :
  scan_spec.fed_by m X rest -> (forall r, In r rest -> ~ In r G) ->
  scan_spec.fed_by mF X rest.
Proof.
  intros Hfed Hdisj r Hr.
  destruct (Hfed r Hr) as (x & a & Hx & Hc & Hin & Ha).
  pose proof (Hdisj r Hr) as HrG.
  assert (HaG : ~ In a G).
  { destruct Ha as [->|(y & Hy & Hname)]; [exact HXG|].
    intros Hg. destruct (HG a Hg) as (y' & ? & Hy' & Hc' & _).
    rewrite Hy in Hy'. injection Hy' as <-. rewrite Hname in Hc'. discriminate Hc'. }
  exists (F x), a. split; [apply fuse_lookup_old; assumption|].
  rewrite (fuse_F_old x) by (apply lookup_In in Hx as [_ ->]; exact HrG).
  cbn [ins_op ins_inputs]. split; [exact Hc|]. split.
  - rewrite Hin. simpl. rewrite (fuse_rho_old a HaG). reflexivity.
  - destruct Ha as [->|(y & Hy & Hname)]; [left; reflexivity|].
    right. exists (F y). split; [apply fuse_lookup_old; assumption|].
    rewrite (fuse_F_old y) by (apply lookup_In in Hy as [_ ->]; exact HaG).
    exact Hname.
Qed.

(** The fusion of a group keeps the shape inferences that the groups
    still to come need. *)
Lemma fuse_inferable gcs rest :
  scan_spec.fed_by m X rest -> (forall r, In r rest -> ~ In r G) ->
  fusion_spec.inferable gcs m rest -> fusion_spec.inferable gcs mF rest.
Proof.
  intros Hfed Hdisj Hinf r1 r2 x' y' a' z' H1 H2 Hkey Hx' Hy' Ha' Hz'.
  destruct (Hfed r1 H1) as (x & a1 & Hx & _).
  destruct (Hfed r2 H2) as (y & a & Hy & Hc & Hin & Ha).
  pose proof (Hdisj r1 H1) as Hr1G. pose proof (Hdisj r2 H2) as Hr2G.
  assert (HaG : ~ In a G).
  { destruct Ha as [->|(y0 & Hy0 & Hname)]; [exact HXG|].
    intros Hg. destruct (HG a Hg) as (y1 & ? & Hy1 & Hc1 & _).
    rewrite Hy0 in Hy1. injection Hy1 as <-. rewrite Hname in Hc1. discriminate Hc1. }
  assert (Hz : exists z, lookup m a = Some z).
  { destruct Ha as [->|(y0 & Hy0 & _)]; [|exists y0; exact Hy0].
    destruct (deref_ok m X HX) as (z & _ & Hz). exists z. exact Hz. }
  destruct Hz as (z & Hz).
  rewrite (fuse_lookup_old r1 x Hx Hr1G) in Hx'. injection Hx' as <-.
  rewrite (fuse_lookup_old r2 y Hy Hr2G) in Hy'. injection Hy' as <-.
  rewrite (fuse_F_old y) in Ha' by (apply lookup_In in Hy as [_ ->]; exact Hr2G).
  cbn [ins_inputs] in Ha'. rewrite Hin in Ha'. cbn [map hd_error] in Ha'.
  rewrite (fuse_rho_old a HaG) in Ha'. injection Ha' as <-.
  rewrite (fuse_lookup_old a z Hz HaG) in Hz'. injection Hz' as <-.
  rewrite (fuse_F_old x) by (apply lookup_In in Hx as [_ ->]; exact Hr1G).
  rewrite (fuse_F_old z) by (apply lookup_In in Hz as [_ ->]; exact HaG).
  cbn [ins_op ins_shape].
  rewrite fuse_same_key in Hkey;
    [|eapply lookup_ids; exact Hx | exact Hr1G | eapply lookup_ids; exact Hy | exact Hr2G].
  apply (Hinf r1 r2 x y a z); try assumption.
  rewrite Hin. reflexivity.
Qed.

Lemma fuse_pending range rest :
  scan_spec.get_reduce_total m -> Permutation range (G ++ rest) ->
  scan_spec.pending m X range -> scan_spec.pending mF X rest.
Proof.
  intros Htot Hp Hpend o1 o2 r1 r2 Hne H1 H2 Hn1 Hn2 Hr1 Hr2.
  rewrite <- (fuse_rho_old X HXG) in H1, H2.
  destruct (fuse_reach_back X o1 r1 Htot HX H1 Hn1 Hr1) as (A1 & B1 & C1 & D1 & E1).
  destruct (fuse_reach_back X o2 r2 Htot HX H2 Hn2 Hr2) as (A2 & B2 & C2 & D2 & E2).
  rewrite (fuse_same_key r1 r2 D1 E1 D2 E2).
  destruct (Hpend o1 o2 r1 r2 Hne A1 A2 B1 B2 C1 C2) as [(I1 & I2 & Hr)|Hk];
    [left|right; exact Hk].
  apply (Permutation_in _ Hp) in I1, I2.
  apply in_app_or in I1, I2.
  destruct I1 as [I1|I1]; [contradiction|].
  destruct I2 as [I2|I2]; [contradiction|]. auto.
Qed.

Lemma fuse_good range rest :
  incl (scan_spec.before_ids m2 X) (scan_spec.before_ids m X) ->
  Permutation range (G ++ rest) -> (forall r, In r rest -> ~ In r G) ->
  scan_spec.good m X range -> scan_spec.good mF X rest.
Proof.
  intros Hincl Hp Hdisj ((_ & _ & Hun & Htot) & Hv & Hfed & Hpend).
  split; [apply fuse_well_formed; assumption|].
  split; [apply fuse_visited; assumption|].
  split; [|eapply fuse_pending; eassumption].
  apply fuse_fed_by; [|exact Hdisj].
  intros r Hr. apply Hfed. apply (Permutation_in _ (Permutation_sym Hp)).
  apply in_or_app. right. exact Hr.
Qed.

End Cursor.

End FuseStep.

(** ** Two consumers never reach the same reduction *)

Lemma reaches_chain m o r :
  prepare_reduce_spec.reaches prepare_reduce_spec.counted_reduction m o r ->
  scan_spec.chain m o r.
Proof.
  induction 1 as [o x Hx Hred|o x o' r Hx Hname Hin Hout _ IH].
  - constructor.
  - econstructor; eassumption.
Qed.

Lemma chain_last m a b :
  scan_spec.chain m a b ->
  a = b \/
  exists c x, scan_spec.chain m a c /\ lookup m c = Some x /\
              name (ins_op x) = "pointwise"%string /\
              length (ins_inputs x) = 1%nat /\ outputs m c = [b].
Proof.
  induction 1 as [a|a x a' b Hx Hname Hin Hout Hc IH].
  - left. reflexivity.
  - right. destruct IH as [->|(c & y & Hac & Hy & Hn & Hi & Ho)].
    + exists a, x. repeat split; try assumption. constructor.
    + exists c, y. repeat split; try assumption. econstructor; eassumption.
Qed.

Lemma reaches_single_input m o r :
  scan_spec.unary_reductions m = true ->
  prepare_reduce_spec.reaches prepare_reduce_spec.counted_reduction m o r ->
  exists x, lookup m o = Some x /\ length (ins_inputs x) = 1%nat.
Proof.
  intros Hun H. destruct H as [o x Hx Hred|o x o' r Hx Hname Hin Hout _].
  - exists x. split; [exact Hx|].
    apply (proj1 (unary_reductions_spec m) Hun); [|exact Hred].
    apply lookup_In in Hx. apply Hx.
  - exists x. auto.
Qed.

(** The only input of an instruction with one input. *)
Lemma single_input m o x a b :
  NoDup (map ins_id m) -> lookup m o = Some x -> length (ins_inputs x) = 1%nat ->
  In o (outputs m a) -> In o (outputs m b) -> a = b.
Proof.
  intros Hnd Hx Hlen Ha Hb.
  apply outputs_In in Ha as (y & Hy & Ey & Hina).
  apply outputs_In in Hb as (z & Hz & Ez & Hinb).
  pose proof (lookup_unique m y Hnd Hy) as Ly. rewrite Ey, Hx in Ly. injection Ly as <-.
  pose proof (lookup_unique m z Hnd Hz) as Lz. rewrite Ez, Hx in Lz. injection Lz as <-.
  destruct (ins_inputs x) as [|i [|j rest]]; try discriminate Hlen.
  destruct Hina as [<-|[]]. destruct Hinb as [<-|[]]. reflexivity.
Qed.

Lemma chains_meet m :
  NoDup (map ins_id m) -> scan_spec.unary_reductions m = true ->
  forall o1 r,
    prepare_reduce_spec.reaches prepare_reduce_spec.counted_reduction m o1 r ->
    forall o2,
      prepare_reduce_spec.reaches prepare_reduce_spec.counted_reduction m o2 r ->
      scan_spec.chain m o1 o2 \/ scan_spec.chain m o2 o1.
Proof.
  intros Hnd Hun.
  induction 1 as [o x Hx Hred|o x o' r Hx Hname Hin Hout Hreach IH]; intros o2 H2.
  - right. apply reaches_chain. exact H2.
  - destruct (IH o2 H2) as [Hc|Hc].
    + left. econstructor; eassumption.
    + apply chain_last in Hc as [->|(c & y & Hoc & Hy & Hn & Hi & Ho)].
      * left. econstructor; try eassumption. constructor.
      * right. destruct (reaches_single_input m o' r Hun Hreach) as (z & Hz & Hlen).
        assert (E : c = o).
        { apply (single_input m o' z c o Hnd Hz Hlen).
          - rewrite Ho. left. reflexivity.
          - rewrite Hout. left. reflexivity. }
        subst c. exact Hoc.
Qed.

Lemma chain_from_sibling m i a b x :
  NoDup (map ins_id m) ->
  scan_spec.chain m a b -> In a (outputs m i) -> In b (outputs m i) ->
  lookup m b = Some x -> length (ins_inputs x) = 1%nat -> a = b.
Proof.
  intros Hnd Hc Ha Hb Hx Hlen.
  apply chain_last in Hc as [E|(c & y & _ & _ & _ & _ & Ho)]; [exact E|].
  assert (E : c = i).
  { apply (single_input m b x c i Hnd Hx Hlen); [|exact Hb].
    rewrite Ho. left. reflexivity. }
  subst c. rewrite Ho in Ha. destruct Ha as [E|[]]. symmetry. exact E.
Qed.

Lemma unique_reduction m i o1 o2 r :
  NoDup (map ins_id m) -> scan_spec.unary_reductions m = true ->
  In o1 (outputs m i) -> In o2 (outputs m i) ->
  prepare_reduce_spec.reaches prepare_reduce_spec.counted_reduction m o1 r ->
  prepare_reduce_spec.reaches prepare_reduce_spec.counted_reduction m o2 r ->
  o1 = o2.
Proof.
  intros Hnd Hun H1 H2 R1 R2.
  destruct (reaches_single_input m o1 r Hun R1) as (x1 & Hx1 & L1).
  destruct (reaches_single_input m o2 r Hun R2) as (x2 & Hx2 & L2).
  destruct (chains_meet m Hnd Hun o1 r R1 o2 R2) as [Hc|Hc].
  - apply (chain_from_sibling m i o1 o2 x2); assumption.
  - symmetry. apply (chain_from_sibling m i o2 o1 x1); assumption.
Qed.

(** ** The state of the pass at a matched instruction *)

Lemma pending_initial m i reduces :
  scan_spec.well_formed m ->
  prepare_reduce.collect_reduces m (outputs m i) = Ok reduces ->
  scan_spec.pending m i reduces.
Proof.
  intros (Hnd & _ & Hun & _) Hcol o1 o2 r1 r2 Hne H1 H2 Hn1 Hn2 Hr1 Hr2.
  left. pose proof (collect_reduces_spec m _ reduces Hcol) as Hspec.
  split; [apply Hspec; exists o1; auto|]. split; [apply Hspec; exists o2; auto|].
  intros ->. apply Hne.
  apply (unique_reduction m i o1 o2 r2 Hnd Hun H1 H2);
    eapply get_reduce_from_sound; eassumption.
Qed.

Lemma fed_by_initial m i reduces :
  scan_spec.well_formed m ->
  prepare_reduce.collect_reduces m (outputs m i) = Ok reduces ->
  scan_spec.fed_by m i reduces.
Proof.
  intros (Hnd & _ & Hun & _) Hcol r Hr.
  apply (collect_reduces_spec m _ reduces Hcol) in Hr as (o & Ho & _ & Hget).
  apply get_reduce_from_sound in Hget.
  destruct (reaches_target m o r Hget) as (x & Hx & Hc).
  assert (Hlen : length (ins_inputs x) = 1%nat).
  { apply (proj1 (unary_reductions_spec m) Hun); [|exact Hc].
    apply lookup_In in Hx. apply Hx. }
  destruct (ins_inputs x) as [|a [|a' rest]] eqn:Hin; try discriminate Hlen.
  assert (Hone : forall c, In r (outputs m c) -> c = a).
  { intros c Hcr. apply outputs_In in Hcr as (y & Hy & Ey & Hiny).
    pose proof (lookup_unique m y Hnd Hy) as Ly. rewrite Ey, Hx in Ly.
    injection Ly as <-. rewrite Hin in Hiny. destruct Hiny as [<-|[]]. reflexivity. }
  exists x, a. repeat split; try assumption.
  apply reaches_chain, chain_last in Hget as [->|(c & y & _ & Hy & Hn & _ & Hout)].
  - left. symmetry. apply Hone. exact Ho.
  - right. exists y. rewrite <- (Hone c) by (rewrite Hout; left; reflexivity). auto.
Qed.

(** [group_by] with the callback [each] keeps what every call of [each]
    keeps. *)
Lemma group_by_inv gcs ins (Inv : module -> list instruction_ref -> Prop) :
  (forall m range start group rest m1,
     Inv m range -> hd_error range = Some start -> hd_error group = Some start ->
     Permutation range (group ++ rest) ->
     (forall r, In r group -> fusion_spec.same_key m r start = true) ->
     (forall r, In r rest -> fusion_spec.same_key m r start = false) ->
     prepare_reduce.each gcs ins m group = Ok m1 -> Inv m1 rest) ->
  forall fuel range m m',
    (length range <= fuel)%nat -> Inv m range ->
    group_by fuel prepare_reduce.key prepare_reduce.key_eqb
      (prepare_reduce.each gcs ins) range m = Ok m' ->
    Inv m' [].
Proof.
  intros Hstep. induction fuel as [|fuel IH]; intros range m m' Hlen Hinv H.
  - destruct range; [|simpl in Hlen; lia]. simpl in H. injection H as <-. exact Hinv.
  - destruct range as [|start tl].
    { simpl in H. injection H as <-. exact Hinv. }
    cbn [group_by] in H.
    destruct (transform _ (start :: tl)) as [keyed| |] eqn:Ekeyed; cbn [bind] in H;
      try discriminate.
    destruct (prepare_reduce.key m start) as [k0| |] eqn:Ek0; cbn [bind] in H;
      try discriminate.
    destruct (std_partition (fun xk => prepare_reduce.key_eqb (snd xk) k0) keyed)
      as [group rest] eqn:Epart.
    destruct (prepare_reduce.each gcs ins m (map fst group)) as [m1| |] eqn:Eeach;
      cbn [bind] in H; try discriminate.
    apply transform_keyed in Ekeyed as [Hfst Hkeys].
    apply std_partition_spec in Epart as (Hperm & Hgroup & Hrest & Hhead).
    apply key_key_of in Ek0.
    destruct keyed as [|[s0 ks] keyed']; [discriminate Hfst|].
    simpl in Hfst. injection Hfst as -> Hfst'.
    assert (Eks : ks = k0).
    { pose proof (Hkeys (start, ks) (or_introl eq_refl)) as Hk. simpl in Hk.
      congruence. }
    subst ks.
    destruct (Hhead (start, k0) keyed' eq_refl (key_eqb_refl k0)) as (t' & ->).
    assert (Hperm' : Permutation (start :: tl)
                       (map fst ((start, k0) :: t') ++ map fst rest)).
    { rewrite <- map_app. rewrite <- Hfst'.
      change (start :: map fst keyed') with (map fst ((start, k0) :: keyed')).
      apply Permutation_map. exact Hperm. }
    assert (Hin : forall xk, In xk ((start, k0) :: t') \/ In xk rest ->
                  In xk ((start, k0) :: keyed')).
    { intros xk Hxk. eapply Permutation_in; [symmetry; exact Hperm|].
      apply in_or_app. exact Hxk. }
    apply (IH (map fst rest) m1 m'); [| |exact H].
    { apply Permutation_length in Hperm. rewrite length_app in Hperm.
      simpl in Hperm, Hlen. rewrite length_map.
      assert (length keyed' = length tl) by (rewrite <- Hfst'; symmetry; apply length_map).
      lia. }
    apply (Hstep m (start :: tl) start (map fst ((start, k0) :: t')) (map fst rest) m1);
      try assumption; try reflexivity.
    + intros r Hr. apply in_map_iff in Hr as ([x k] & <- & Hxk).
      unfold fusion_spec.same_key.
      rewrite (Hkeys (x, k) (Hin _ (or_introl Hxk))), Ek0. simpl.
      rewrite Forall_forall in Hgroup. exact (Hgroup _ Hxk).
    + intros r Hr. apply in_map_iff in Hr as ([x k] & <- & Hxk).
      unfold fusion_spec.same_key.
      rewrite (Hkeys (x, k) (Hin _ (or_intror Hxk))), Ek0. simpl.
      rewrite Forall_forall in Hrest. exact (Hrest _ Hxk).
Qed.

Lemma next_in m i pos : next m i = Ok pos -> In i (map ins_id m).
Proof.
  induction m as [|y rest IH]; simpl; [discriminate|].
  destruct (Nat.eqb_spec (ins_id y) i) as [E|E]; [left; exact E|].
  intros H. right. apply IH. exact H.
Qed.

Lemma each_cursor_in gcs ins m group m' :
  (2 <= length group)%nat -> prepare_reduce.each gcs ins m group = Ok m' ->
  In ins (map ins_id m).
Proof.
  intros Hlen. unfold prepare_reduce.each.
  destruct (Nat.ltb_spec (length group) 2); [lia|].
  destruct (transform _ group); cbn [bind]; try discriminate.
  destruct (at_index group 0) as [s| |]; cbn [bind]; try discriminate.
  destruct (deref m s); cbn [bind]; try discriminate.
  destruct (next m ins) as [pos| |] eqn:E; cbn [bind]; try discriminate.
  intros _. eapply next_in. exact E.
Qed.

Lemma transform_In_inv {A B} (f : A -> outcome B) l : forall l' y,
  transform f l = Ok l' -> In y l' -> exists x, In x l /\ f x = Ok y.
Proof.
  induction l as [|a l IH]; intros l' y H Hy; simpl in H.
  - injection H as <-. destruct Hy.
  - destruct (f a) as [b| |] eqn:Ea; cbn [bind] in H; try discriminate.
    destruct (transform f l) as [bs| |]; cbn [bind] in H; try discriminate.
    injection H as <-. destruct Hy as [<-|Hy].
    + exists a. split; [left; reflexivity | exact Ea].
    + destruct (IH bs y eq_refl Hy) as (x & Hx & E). exists x. split; [right|]; assumption.
Qed.

(** The fused instruction is new, and a member of the group is gone. *)
Lemma fused_ids m m2 G P base slots Pnode :
  P = fresh m -> base = S P -> ins_id Pnode = P ->
  Permutation m2 (Pnode :: m) -> (forall r, In r G -> In r (map ins_id m)) ->
  let m1 := map (fuse_map G P base 0 slots) m2 in
  (fresh m < fresh m1)%nat /\ forall r, In r G -> ~ In r (map ins_id m1).
Proof.
  intros -> -> HP Hperm Hsub m1. split.
  - apply ids_lt_fresh. unfold m1. apply in_map_iff.
    exists (fuse_map G (fresh m) (S (fresh m)) 0 slots Pnode). split.
    + rewrite fuse_map_id, HP. apply rename_group_out.
      intros H. apply Hsub in H. exact (fresh_not_in m H).
    + apply in_map. apply (Permutation_in _ (Permutation_sym Hperm)). left. reflexivity.
  - intros r Hr Hin. unfold m1 in Hin. rewrite map_map in Hin.
    apply in_map_iff in Hin as (x & E & Hx). rewrite fuse_map_id in E.
    pose proof (ids_lt_fresh m r (Hsub r Hr)) as Hlt.
    unfold rename_group in E.
    destruct (index_of (ins_id x) G) as [k|] eqn:Ek; [lia|].
    subst r. destruct (index_of_In _ _ Hr) as (k & Hk). congruence.
Qed.

(** One call of [each] keeps the state of the pass. *)
Lemma each_fusing gcs i m range start G rest m1 :
  scan_spec.fusing m i range ->
  hd_error range = Some start -> hd_error G = Some start ->
  Permutation range (G ++ rest) ->
  (forall r, In r G -> fusion_spec.same_key m r start = true) ->
  (forall r, In r rest -> fusion_spec.same_key m r start = false) ->
  prepare_reduce.each gcs i m G = Ok m1 ->
  scan_spec.fusing m1 i rest.
Proof.
  intros [Hlt Hgood] Hhr HhG Hp HkG Hkr Heach.
  assert (Hrest : forall r, In r rest -> In r range).
  { intros r Hr. apply (Permutation_in _ (Permutation_sym Hp)).
    apply in_or_app. right. exact Hr. }
  assert (HGr : forall r, In r G -> In r range).
  { intros r Hr. apply (Permutation_in _ (Permutation_sym Hp)).
    apply in_or_app. left. exact Hr. }
  destruct (Nat.ltb_spec (length G) 2) as [Hsmall|Hbig].
  - unfold prepare_reduce.each in Heach.
    destruct (Nat.ltb_spec (length G) 2); [|lia]. injection Heach as <-.
    destruct G as [|g [|g' G']]; [discriminate HhG| |simpl in Hsmall; lia].
    injection HhG as ->.
    split; [exact Hlt|]. intros Hi.
    destruct (Hgood Hi) as (Hwf & Hv & Hfed & Hpend).
    split; [exact Hwf|]. split; [exact Hv|]. split.
    + intros r Hr. apply Hfed. apply Hrest. exact Hr.
    + intros o1 o2 r1 r2 Hne H1 H2 Hn1 Hn2 Hr1 Hr2.
      destruct (Hpend o1 o2 r1 r2 Hne H1 H2 Hn1 Hn2 Hr1 Hr2) as [(I1 & I2 & Hd)|Hk];
        [|right; exact Hk].
      apply (Permutation_in _ Hp) in I1, I2. simpl in I1, I2.
      destruct I1 as [<-|I1]; destruct I2 as [<-|I2].
      * contradiction.
      * right. rewrite same_key_sym. apply Hkr. exact I2.
      * right. apply Hkr. exact I1.
      * left. auto.
  - pose proof (each_cursor_in gcs i m G m1 Hbig Heach) as Hi.
    destruct (Hgood Hi) as (Hwf & Hv & Hfed & Hpend).
    destruct Hwf as (Hnd & Hclosed & Hun & Htot).
    destruct (each_closed_form gcs i m G m1 Hnd Hbig Heach)
      as (I & start' & first & shapes & slots & m2 &
          Hinputs & _ & _ & _ & _ & Hperm & HndG & -> & _ & Hincl).
    assert (Hfront : forall r, In r G ->
              exists x a, lookup m r = Some x /\
                prepare_reduce_spec.counted_reduction (name (ins_op x)) = true /\
                ins_inputs x = [a] /\ In a I /\
                (a = i \/ exists y, lookup m a = Some y /\
                                    name (ins_op y) = "pointwise"%string)).
    { intros r Hr. destruct (Hfed r (HGr r Hr)) as (x & a & Hx & Hc & Hin & Ha).
      exists x, a. repeat split; try assumption.
      destruct (transform_In _ _ _ _ Hinputs Hr) as (a' & Ha' & HaI).
      apply front_input_In in Ha' as (x' & Hx' & Hhd).
      rewrite Hx in Hx'. injection Hx' as <-. rewrite Hin in Hhd.
      injection Hhd as <-. exact HaI. }
    assert (Hsub : forall r, In r G -> In r (map ins_id m)).
    { intros r Hr. destruct (Hfront r Hr) as (x & _ & Hx & _).
      eapply lookup_ids. exact Hx. }
    destruct (fused_ids m m2 G (fresh m) (S (fresh m)) slots
                (mk_instruction (fresh m) (parallel_reduce (ins_op first)) I
                   (shape_tuple slots)) eq_refl eq_refl eq_refl Hperm Hsub)
      as [Hfresh Hgone].
    split; [lia|]. intros Hi1.
    assert (HiG : ~ In i G) by (intros Hg; exact (Hgone i Hg Hi1)).
    assert (Hnot : forall a, (a = i \/ exists y, lookup m a = Some y /\
                                      name (ins_op y) = "pointwise"%string) ->
                   ~ In a G).
    { intros a [->|(y & Hy & Hname)]; [exact HiG|].
      intros Hg. destruct (Hfront a Hg) as (y' & ? & Hy' & Hc' & _).
      rewrite Hy in Hy'. injection Hy' as <-. rewrite Hname in Hc'. discriminate Hc'. }
    assert (HG : forall r, In r G ->
              exists x a, lookup m r = Some x /\
                prepare_reduce_spec.counted_reduction (name (ins_op x)) = true /\
                ins_inputs x = [a] /\ In a I /\ ~ In a G).
    { intros r Hr. destruct (Hfront r Hr) as (x & a & Hx & Hc & Hin & HaI & Ha).
      exists x, a. repeat split; try assumption. apply Hnot. exact Ha. }
    assert (HI : forall a, In a I ->
              ~ In a G /\ exists r x, In r G /\ lookup m r = Some x /\ ins_inputs x = [a]).
    { intros a Ha.
      destruct (transform_In_inv _ _ _ _ Hinputs Ha) as (r & Hr & Hfr).
      apply front_input_In in Hfr as (x & Hx & Hhd).
      destruct (Hfront r Hr) as (x' & a' & Hx' & _ & Hin & _ & Ha').
      rewrite Hx in Hx'. injection Hx' as <-. rewrite Hin in Hhd.
      injection Hhd as ->. split; [apply Hnot; exact Ha'|].
      exists r, x. auto. }
    assert (Hdisj : forall r, In r rest -> ~ In r G).
    { intros r Hr Hg. pose proof (Hkr r Hr) as Hf. rewrite (HkG r Hg) in Hf.
      discriminate. }
    eapply (fuse_good m m2 G I (ins_op first) slots); try eassumption.
    repeat split; assumption.
Qed.

(** ** The scan *)

Lemma outputs_ids m i o : In o (outputs m i) -> In o (map ins_id m).
Proof.
  intros H. apply outputs_In in H as (y & Hy & <- & _). apply in_map. exact Hy.
Qed.

Lemma two_distinct_length {A} (l : list A) a b :
  In a l -> In b l -> a <> b -> (2 <= length l)%nat.
Proof.
  intros Ha Hb Hne. destruct l as [|x [|y l']]; simpl in *; try lia.
  destruct Ha as [<-|[]], Hb as [<-|[]]. contradiction.
Qed.

Lemma split_reduce_total m i :
  scan_spec.get_reduce_total m ->
  prepare_reduce.split_reduce m i =
    Ok (negb (length (outputs m i) <? 2)%nat &&
        (1 <? length (filter (scan_spec.reaching m) (outputs m i)))%nat).
Proof.
  intros Htot. unfold prepare_reduce.split_reduce.
  destruct (length (outputs m i) <? 2)%nat; [reflexivity|].
  rewrite (count_if_filter _ (scan_spec.reaching m)); [reflexivity|].
  intros o Ho. destruct (Htot o (outputs_ids m i o Ho)) as (res & Hres).
  unfold scan_spec.reaching. rewrite Hres. destruct res; reflexivity.
Qed.

Lemma split_reduce_false_quiet m i :
  scan_spec.well_formed m -> prepare_reduce.split_reduce m i = Ok false ->
  scan_spec.quiet m i.
Proof.
  intros (Hnd & _ & _ & Htot) H o1 o2 r1 r2 Hne H1 H2 _ _ Hr1 Hr2. exfalso.
  rewrite (split_reduce_total m i Htot) in H. injection H as H.
  apply andb_false_iff in H as [H|H].
  - apply negb_false_iff, Nat.ltb_lt in H.
    pose proof (two_distinct_length _ o1 o2 H1 H2 Hne). lia.
  - apply Nat.ltb_ge in H.
    assert (Hge : (2 <= length (filter (scan_spec.reaching m) (outputs m i)))%nat).
    { apply (two_in_filter _ _ (outputs_NoDup m i Hnd)).
      exists o1, o2. unfold scan_spec.reaching. rewrite Hr1, Hr2. auto. }
    lia.
Qed.

Lemma collect_reduces_total m outs :
  (forall o, In o outs -> exists res, prepare_reduce.get_reduce m o = Ok res) ->
  exists reduces, prepare_reduce.collect_reduces m outs = Ok reduces.
Proof.
  induction outs as [|o outs IH]; intros H; simpl; [eexists; reflexivity|].
  destruct IH as (rs & Hrs); [intros o' Ho'; apply H; right; exact Ho'|].
  destruct (Nat.eqb (length (outputs m o)) 0); [exists rs; exact Hrs|].
  destruct (H o (or_introl eq_refl)) as (res & ->). rewrite Hrs. cbn [bind].
  eexists. reflexivity.
Qed.

Lemma collect_reduces_NoDup m outs : forall reduces,
  NoDup outs ->
  (forall o1 o2 r, In o1 outs -> In o2 outs ->
     prepare_reduce.get_reduce m o1 = Ok (Some r) ->
     prepare_reduce.get_reduce m o2 = Ok (Some r) -> o1 = o2) ->
  prepare_reduce.collect_reduces m outs = Ok reduces -> NoDup reduces.
Proof.
  induction outs as [|o outs IH]; intros reduces Hnd Hinj H; simpl in H.
  - injection H as <-. constructor.
  - inversion Hnd as [|? ? Ho Hnd']; subst.
    assert (Hinj' : forall o1 o2 r, In o1 outs -> In o2 outs ->
              prepare_reduce.get_reduce m o1 = Ok (Some r) ->
              prepare_reduce.get_reduce m o2 = Ok (Some r) -> o1 = o2).
    { intros o1 o2 r H1 H2. apply Hinj; right; assumption. }
    destruct (Nat.eqb (length (outputs m o)) 0); [exact (IH _ Hnd' Hinj' H)|].
    destruct (prepare_reduce.get_reduce m o) as [res| |] eqn:Eget; cbn [bind] in H;
      try discriminate.
    destruct (prepare_reduce.collect_reduces m outs) as [rs| |] eqn:Ers; cbn [bind] in H;
      try discriminate.
    injection H as <-. pose proof (IH rs Hnd' Hinj' eq_refl) as Hrs.
    destruct res as [r|]; [|exact Hrs].
    constructor; [|exact Hrs]. intros Hin.
    apply (collect_reduces_spec m outs rs Ers) in Hin as (o' & Ho' & _ & Hget').
    assert (E : o = o').
    { apply (Hinj o o' r); [left; reflexivity | right; exact Ho' | exact Eget | exact Hget']. }
    apply Ho. rewrite E. exact Ho'.
Qed.

Lemma transform_total {A B} (f : A -> outcome B) l :
  (forall x, In x l -> exists y, f x = Ok y) -> exists l', transform f l = Ok l'.
Proof.
  induction l as [|a l IH]; intros H; simpl; [eexists; reflexivity|].
  destruct (H a (or_introl eq_refl)) as (b & ->).
  destruct IH as (bs & ->); [intros x Hx; apply H; right; exact Hx|].
  cbn [bind]. eexists. reflexivity.
Qed.

(** Reductions of different keys are left as they are. *)
Lemma group_by_quiet gcs ins m fuel : forall range,
  (length range <= fuel)%nat -> NoDup range ->
  (forall r, In r range -> exists x, lookup m r = Some x) ->
  (forall a b, In a range -> In b range -> a <> b ->
     fusion_spec.same_key m a b = false) ->
  group_by fuel prepare_reduce.key prepare_reduce.key_eqb
    (prepare_reduce.each gcs ins) range m = Ok m.
Proof.
  induction fuel as [|fuel IH]; intros range Hlen Hnd Hex Hkeys.
  - destruct range; [reflexivity | simpl in Hlen; lia].
  - destruct range as [|start tl]; [reflexivity|].
    cbn [group_by].
    destruct (transform_total
                (fun x => k <- prepare_reduce.key m x ;; Ok (x, k)) (start :: tl))
      as (keyed & Ekeyed).
    { intros r Hr. destruct (Hex r Hr) as (x & Hx).
      unfold prepare_reduce.key, deref. rewrite Hx. cbn [bind]. eexists. reflexivity. }
    rewrite Ekeyed. cbn [bind].
    destruct (Hex start (or_introl eq_refl)) as (x0 & Hx0).
    assert (Ek0 : prepare_reduce.key m start = Ok (name (ins_op x0), ins_shape x0)).
    { unfold prepare_reduce.key, deref. rewrite Hx0. reflexivity. }
    rewrite Ek0. cbn [bind]. set (k0 := (name (ins_op x0), ins_shape x0)) in *.
    destruct (std_partition (fun xk => prepare_reduce.key_eqb (snd xk) k0) keyed)
      as [group rest] eqn:Epart.
    apply transform_keyed in Ekeyed as [Hfst Hkeyed].
    apply std_partition_spec in Epart as (Hperm & Hgroup & Hrest & Hhead).
    apply key_key_of in Ek0.
    destruct keyed as [|[s0 ks] keyed']; [discriminate Hfst|].
    simpl in Hfst. injection Hfst as -> Hfst'.
    assert (Eks : ks = k0).
    { pose proof (Hkeyed (start, ks) (or_introl eq_refl)) as Hk. simpl in Hk.
      congruence. }
    subst ks.
    destruct (Hhead (start, k0) keyed' eq_refl (key_eqb_refl k0)) as (t' & ->).
    assert (Hperm' : Permutation (start :: tl) (start :: map fst t' ++ map fst rest)).
    { rewrite <- map_app. rewrite <- Hfst'.
      change (start :: map fst keyed') with (map fst ((start, k0) :: keyed')).
      change (start :: map fst (t' ++ rest)) with (map fst (((start, k0) :: t') ++ rest)).
      apply Permutation_map. exact Hperm. }
    assert (Hnd' : NoDup (start :: map fst t' ++ map fst rest)).
    { eapply Permutation_NoDup; eassumption. }
    assert (Et : t' = []).
    { destruct t' as [|[x k] t'']; [reflexivity|]. exfalso.
      assert (Hx : In x (start :: tl)).
      { apply (Permutation_in _ (Permutation_sym Hperm')). right. left. reflexivity. }
      assert (Hne : x <> start).
      { intros ->. inversion Hnd' as [|? ? Hs _]. apply Hs. left. reflexivity. }
      pose proof (Hkeys x start Hx (or_introl eq_refl) Hne) as Hk.
      unfold fusion_spec.same_key in Hk.
      assert (Hxk : fusion_spec.key_of m x = Some k).
      { apply (Hkeyed (x, k)).
        apply (Permutation_in _ (Permutation_sym Hperm)). right. left. reflexivity. }
      rewrite Hxk, Ek0 in Hk. rewrite Forall_forall in Hgroup.
      pose proof (Hgroup (x, k) (or_intror (or_introl eq_refl))) as Hg.
      simpl in Hg. congruence. }
    subst t'. simpl in Hperm', Hnd'.
    unfold prepare_reduce.each at 1. cbn [map fst length Nat.ltb Nat.leb bind].
    apply IH.
    + apply Permutation_length in Hperm'. simpl in Hperm', Hlen. lia.
    + inversion Hnd'. assumption.
    + intros r Hr. apply Hex. apply (Permutation_in _ (Permutation_sym Hperm')).
      right. exact Hr.
    + intros a b Ha Hb. apply Hkeys;
        apply (Permutation_in _ (Permutation_sym Hperm')); right; assumption.
Qed.

(** Where nothing is left to fuse the pass changes nothing. *)
Lemma quiet_apply gcs m i :
  scan_spec.well_formed m -> scan_spec.quiet m i ->
  prepare_reduce.apply gcs m i = Ok m.
Proof.
  intros (Hnd & _ & Hun & Htot) Hq. unfold prepare_reduce.apply.
  destruct (collect_reduces_total m (outputs m i)) as (reduces & Hcol).
  { intros o Ho. apply Htot. eapply outputs_ids. exact Ho. }
  rewrite Hcol. cbn [bind].
  pose proof (collect_reduces_spec m _ reduces Hcol) as Hspec.
  apply group_by_quiet; [lia | | |].
  - apply (collect_reduces_NoDup m (outputs m i)); [|  |exact Hcol].
    + apply outputs_NoDup. exact Hnd.
    + intros o1 o2 r H1 H2 Hr1 Hr2.
      apply (unique_reduction m i o1 o2 r Hnd Hun H1 H2);
        eapply get_reduce_from_sound; eassumption.
  - intros r Hr. apply Hspec in Hr as (o & _ & _ & Hget).
    destruct (get_reduce_some_lookup _ _ _ _ Hget) as (x & Hx & _). exists x. exact Hx.
  - intros a b Ha Hb Hne.
    apply Hspec in Ha as (oa & Hoa & Hna & Hga).
    apply Hspec in Hb as (ob & Hob & Hnb & Hgb).
    apply (Hq oa ob a b); try assumption.
    intros ->. rewrite Hga in Hgb. injection Hgb as E. contradiction.
Qed.

(** The visit of one instruction by the first run. *)
Lemma visit_keeps gcs m i b m' :
  scan_spec.well_formed m -> scan_spec.visited m i ->
  prepare_reduce.split_reduce m i = Ok b ->
  (if b then prepare_reduce.apply gcs m i else Ok m) = Ok m' ->
  In i (map ins_id m') ->
  scan_spec.well_formed m' /\ scan_spec.visited m' i /\ scan_spec.quiet m' i.
Proof.
  intros Hwf Hv Hsplit Happly Hi'. destruct b.
  - unfold prepare_reduce.apply in Happly.
    destruct (prepare_reduce.collect_reduces m (outputs m i)) as [reduces| |] eqn:Hcol;
      cbn [bind] in Happly; try discriminate.
    assert (Hinit : scan_spec.fusing m i reduces).
    { destruct (in_dec Nat.eq_dec i (map ins_id m)) as [Hi|Hi].
      - split; [apply ids_lt_fresh; exact Hi|]. intros _.
        split; [exact Hwf|]. split; [exact Hv|].
        split; [apply fed_by_initial | apply pending_initial]; assumption.
      - exfalso.
        assert (Hout : outputs m i = []).
        { destruct (outputs m i) as [|o outs] eqn:E; [reflexivity|]. exfalso.
          assert (Ho : In o (outputs m i)) by (rewrite E; left; reflexivity).
          destruct Hwf as (_ & Hclosed & _).
          apply outputs_In in Ho as (y & Hy & _ & Hin).
          apply Hi. apply (Hclosed y Hy i Hin). }
        unfold prepare_reduce.split_reduce in Hsplit. rewrite Hout in Hsplit.
        discriminate Hsplit. }
    pose proof (group_by_inv gcs i (fun m r => scan_spec.fusing m i r)
                  (each_fusing gcs i) _ _ _ _ (Nat.le_refl _) Hinit Happly)
      as [_ Hfinal].
    destruct (Hfinal Hi') as (Hwf' & Hv' & _ & Hpend).
    split; [exact Hwf'|]. split; [exact Hv'|].
    intros o1 o2 r1 r2 Hne H1 H2 Hn1 Hn2 Hr1 Hr2.
    destruct (Hpend o1 o2 r1 r2 Hne H1 H2 Hn1 Hn2 Hr1 Hr2) as [([] & _)|Hk].
    exact Hk.
  - injection Happly as <-. split; [exact Hwf|]. split; [exact Hv|].
    apply split_reduce_false_quiet; assumption.
Qed.

(** When the first run ends nothing is left to fuse anywhere. *)
Lemma find_matches_settles gcs fuel : forall m cursor m1,
  scan_spec.well_formed m -> scan_spec.scanned m cursor ->
  prepare_reduce.find_matches gcs fuel m cursor = Ok m1 ->
  scan_spec.well_formed m1 /\ forall y, In y (map ins_id m1) -> scan_spec.quiet m1 y.
Proof.
  induction fuel as [|fuel IH]; intros m cursor m1 Hwf Hsc H.
  - destruct cursor as [i|]; simpl in H; [discriminate|].
    injection H as <-. split; [exact Hwf | exact Hsc].
  - destruct cursor as [i|]; simpl in H.
    2:{ injection H as <-. split; [exact Hwf | exact Hsc]. }
    destruct Hsc as [Hi Hv].
    destruct (prepare_reduce.split_reduce m i) as [b| |] eqn:Hsplit; cbn [bind] in H;
      try discriminate.
    destruct (if b then prepare_reduce.apply gcs m i else Ok m) as [m'| |] eqn:Happly;
      cbn [bind] in H; try discriminate.
    destruct (next m' i) as [cursor'| |] eqn:Hnext; cbn [bind] in H; try discriminate.
    pose proof (next_in _ _ _ Hnext) as Hi'.
    destruct (visit_keeps gcs m i b m' Hwf Hv Hsplit Happly Hi') as (Hwf' & Hv' & Hq').
    apply (IH m' cursor' m1 Hwf'); [|exact H].
    destruct (next_spec m' i cursor' (proj1 Hwf') Hnext) as [_ Hpos].
    destruct cursor' as [z|]; simpl.
    + destruct Hpos as [Hz Hb]. split; [exact Hz|].
      intros y Hy. rewrite Hb in Hy. apply in_app_or in Hy as [Hy|[<-|[]]];
        [apply Hv'; exact Hy | exact Hq'].
    + intros y Hy. rewrite Hpos in Hy. apply in_app_or in Hy as [Hy|[<-|[]]];
        [apply Hv'; exact Hy | exact Hq'].
Qed.

Lemma next_middle pre x suf :
  NoDup (map ins_id (pre ++ x :: suf)) ->
  next (pre ++ x :: suf) (ins_id x) = Ok (begin suf).
Proof.
  induction pre as [|y pre IH]; intros Hnd; simpl.
  - rewrite Nat.eqb_refl. destruct suf; reflexivity.
  - simpl in Hnd. inversion Hnd as [|? ? Hy Hnd']; subst.
    destruct (Nat.eqb_spec (ins_id y) (ins_id x)) as [E|E]; [|apply IH; exact Hnd'].
    exfalso. apply Hy. rewrite E, map_app. apply in_or_app. right. left. reflexivity.
Qed.

(** The scan of a module where nothing is left to fuse returns it. *)
Lemma find_matches_quiet gcs m :
  scan_spec.well_formed m -> (forall y, In y (map ins_id m) -> scan_spec.quiet m y) ->
  forall suf pre fuel, m = pre ++ suf -> (length suf <= fuel)%nat ->
    prepare_reduce.find_matches gcs fuel m (begin suf) = Ok m.
Proof.
  intros Hwf Hq. induction suf as [|x suf IH]; intros pre fuel Hm Hlen.
  { destruct fuel; reflexivity. }
  destruct fuel as [|fuel]; [simpl in Hlen; lia|].
  cbn [length begin prepare_reduce.find_matches] in *.
  destruct Hwf as (Hnd & Hrest). destruct Hrest as (Hcl & Hun & Htot).
  assert (Hx : In (ins_id x) (map ins_id m)).
  { rewrite Hm, map_app. apply in_or_app. right. left. reflexivity. }
  rewrite (split_reduce_total m (ins_id x) Htot). cbn [bind].
  assert (Happly : (if negb (length (outputs m (ins_id x)) <? 2)%nat &&
                       (1 <? length (filter (scan_spec.reaching m)
                                       (outputs m (ins_id x))))%nat
                    then prepare_reduce.apply gcs m (ins_id x) else Ok m) = Ok m).
  { destruct (_ && _); [|reflexivity].
    apply quiet_apply; [repeat split; assumption | apply Hq; exact Hx]. }
  rewrite Happly. cbn [bind].
  rewrite Hm at 1. rewrite next_middle by (rewrite <- Hm; exact Hnd). cbn [bind].
  apply (IH (pre ++ [x])); [rewrite <- app_assoc; exact Hm | lia].
Qed.

Lemma topological_well_formed m :
  prepare_reduce_spec.topological m = true ->
  scan_spec.unary_reductions m = true ->
  scan_spec.well_formed m.
Proof.
  intros Htop Hun.
  split; [apply (topological_from_ids _ _ Htop)|].
  split; [apply topological_closed; exact Htop|].
  split; [exact Hun|].
  intros o Ho. destruct (get_reduce_spec m Htop o Ho) as (res & Hres & _).
  exists res. exact Hres.
Qed.

(** C7, as stated, fails: instructions are matched on the second run.
    An instruction whose consumers reach reductions of different keys
    matches on every run: the pass finds nothing to fuse there and
    leaves the module as it is, and the second run matches it again. *)
Lemma prepare_reduce_second_run_matches :
  let s := make_shape float_type [4; 8] in
  let s1 := make_shape float_type [4; 1] in
  let gcs := fun (_ : string) (_ : list (string * Z)) (_ : list shape) => Ok s1 in
  let m := [ mk_instruction 1%nat (generic_op "add" []) [] s;
             mk_instruction 2%nat (generic_op "reduce_sum" [("axes", 1)]) [1%nat] s1;
             mk_instruction 3%nat (generic_op "reduce_max" [("axes", 1)]) [1%nat] s1;
             mk_instruction 4%nat (generic_op "relu" []) [2%nat] s1;
             mk_instruction 5%nat (generic_op "relu" []) [3%nat] s1 ] in
  prepare_reduce_spec.topological m = true /\
  prepare_reduce.run gcs (length m) m = Ok m /\
  prepare_reduce.split_reduce m 1%nat = Ok true.
Proof.
  cbv zeta. repeat split; vm_compute; reflexivity.
Qed.

(** A reduction with two inputs is fused on its first input alone, and
    its other input loses a consumer: here the fusion at instruction 2
    leaves the pointwise instruction 3 with the only consumer 4, so that
    instruction 1, which was visited before, has two consumers that
    reach a [reduce_max]; a second run fuses them. *)
Lemma prepare_reduce_binary_reduction_second_run :
  let s := make_shape float_type [4; 8] in
  let s1 := make_shape float_type [4; 1] in
  let gcs := fun (_ : string) (_ : list (string * Z)) (_ : list shape) => Ok s1 in
  let relu := generic_op "relu" [] in
  let m := [ mk_instruction 1%nat (generic_op "param" []) [] s;
             mk_instruction 2%nat (generic_op "add" []) [1%nat] s;
             mk_instruction 3%nat (generic_op "pointwise" []) [1%nat] s;
             mk_instruction 4%nat (generic_op "reduce_max" []) [3%nat] s1;
             mk_instruction 5%nat (generic_op "fused_reduce" []) [2%nat; 3%nat] s1;
             mk_instruction 6%nat (generic_op "fused_reduce" []) [2%nat] s1;
             mk_instruction 7%nat (generic_op "reduce_max" []) [1%nat] s1;
             mk_instruction 8%nat relu [4%nat] s1;
             mk_instruction 9%nat relu [5%nat] s1;
             mk_instruction 10%nat relu [6%nat] s1;
             mk_instruction 11%nat relu [7%nat] s1 ] in
  prepare_reduce_spec.topological m = true /\
  scan_spec.unary_reductions m = false /\
  exists m1 m2,
    prepare_reduce.run gcs 20 m = Ok m1 /\
    prepare_reduce.run gcs 20 m1 = Ok m2 /\
    length m1 = 12%nat /\ length m2 = 13%nat.
Proof.
  cbv zeta. split; [reflexivity|]. split; [reflexivity|].
  eexists. eexists. split; [vm_compute; reflexivity|].
  split; [vm_compute; reflexivity|]. split; reflexivity.
Qed.

(** C7 (amended): on a module in topological order in which every
    reduction the pass counts has exactly one input, when a first run of
    the reduction-fusion pass returns the module [m1], a second run on
    [m1] returns and changes nothing.  Instructions may match again on
    the second run; at every instruction of [m1], among its consumers
    that have consumers themselves (the pass skips the others), the
    reductions reached from two different ones have different keys, so
    that every group has one member. *)
Theorem prepare_reduce_second_run_unchanged gcs (m m1 : module) (fuel fuel' : nat) :
  prepare_reduce_spec.topological m = true ->
  scan_spec.unary_reductions m = true ->
  prepare_reduce.run gcs fuel m = Ok m1 ->
  (length m1 <= fuel')%nat ->
  prepare_reduce.run gcs fuel' m1 = Ok m1 /\
  forall i, In i (map ins_id m1) -> scan_spec.quiet m1 i.
Proof.
  intros Htop Hun Hrun Hfuel.
  pose proof (topological_well_formed m Htop Hun) as Hwf.
  assert (Hsc : scan_spec.scanned m (begin m)).
  { destruct m as [|x rest]; simpl.
    - intros y [].
    - split; [left; reflexivity|]. intros y Hy. simpl in Hy.
      rewrite Nat.eqb_refl in Hy. destruct Hy. }
  destruct (find_matches_settles gcs fuel m (begin m) m1 Hwf Hsc Hrun) as [Hwf1 Hq].
  split; [|exact Hq].
  apply (find_matches_quiet gcs m1 Hwf1 Hq m1 [] fuel' eq_refl Hfuel).
Qed.

Lemma prepare_reduce_second_run_unchanged_witness :
  let s := make_shape float_type [4; 8] in
  let s1 := make_shape float_type [4; 1] in
  let gcs := fun (_ : string) (_ : list (string * Z)) (_ : list shape) => Ok s1 in
  let sum := generic_op "reduce_sum" [("axes", 1)] in
  let max := generic_op "reduce_max" [("axes", 1)] in
  let relu := generic_op "relu" [] in
  let m := [ mk_instruction 1%nat (generic_op "add" []) [] s;
             mk_instruction 2%nat (generic_op "pointwise" []) [1%nat] s;
             mk_instruction 3%nat sum [2%nat] s1;
             mk_instruction 4%nat max [1%nat] s1;
             mk_instruction 5%nat sum [1%nat] s1;
             mk_instruction 6%nat relu [3%nat] s1;
             mk_instruction 7%nat relu [4%nat] s1;
             mk_instruction 8%nat relu [5%nat] s1 ] in
  let m1 := [ mk_instruction 1%nat (generic_op "add" []) [] s;
              mk_instruction 9%nat (parallel_reduce sum) [2; 1]%nat (shape_tuple [s1; s1]);
              mk_instruction 2%nat (generic_op "pointwise" []) [1%nat] s;
              mk_instruction 10%nat (get_tuple_elem 0) [9%nat] s1;
              mk_instruction 4%nat max [1%nat] s1;
              mk_instruction 11%nat (get_tuple_elem 1) [9%nat] s1;
              mk_instruction 6%nat relu [10%nat] s1;
              mk_instruction 7%nat relu [4%nat] s1;
              mk_instruction 8%nat relu [11%nat] s1 ] in
  prepare_reduce_spec.topological m = true /\
  scan_spec.unary_reductions m = true /\
  prepare_reduce.run gcs 9 m = Ok m1 /\
  prepare_reduce.run gcs 9 m1 = Ok m1 /\
  forall i, In i (map ins_id m1) -> scan_spec.quiet m1 i.
Proof.
  intros s s1 gcs sum max relu m m1.
  split; [reflexivity|]. split; [reflexivity|]. split; [vm_compute; reflexivity|].
  apply (prepare_reduce_second_run_unchanged gcs m m1 9%nat 9%nat);
    [reflexivity | reflexivity | vm_compute; reflexivity | simpl; lia].
Defined.

(** ** The pass returns *)

Lemma insert_before_total m pos x :
  (forall z, pos = Some z -> In z (map ins_id m)) ->
  exists m', insert_before m pos x = Ok m'.
Proof.
  destruct pos as [z|].
  - intros H. specialize (H z eq_refl).
    induction m as [|y rest IH]; simpl in *; [destruct H|].
    destruct (Nat.eqb_spec (ins_id y) z) as [E|E]; [eexists; reflexivity|].
    destruct H as [H|H]; [contradiction|].
    destruct (IH H) as (rest' & ->). cbn [bind]. eexists. reflexivity.
  - intros _. exists (m ++ [x]). destruct m; reflexivity.
Qed.

Lemma remove_ids m src z :
  In z (map ins_id m) -> z <> src -> In z (map ins_id (remove m src)).
Proof.
  intros Hz Hne. apply in_map_iff in Hz as (y & <- & Hy). apply in_map.
  apply filter_In. split; [exact Hy|]. apply negb_true_iff, Nat.eqb_neq. exact Hne.
Qed.

Lemma move_instruction_total m src dst :
  In src (map ins_id m) -> (forall z, dst = Some z -> In z (map ins_id m)) ->
  exists m', move_instruction m src dst = Ok m'.
Proof.
  intros Hsrc Hdst. unfold move_instruction.
  destruct (deref_ok m src Hsrc) as (x & -> & _). cbn [bind].
  destruct (match dst with Some d => Nat.eqb d src | None => false end) eqn:E;
    [eexists; reflexivity|].
  apply insert_before_total. intros z ->.
  apply Nat.eqb_neq in E. apply remove_ids; [apply Hdst; reflexivity | exact E].
Qed.

Lemma move_inputs_total ins insertion inputs : forall m,
  NoDup (map ins_id m) ->
  (forall a, In a inputs -> In a (map ins_id m)) ->
  (forall z, insertion = Some z -> In z (map ins_id m)) ->
  exists m', prepare_reduce.move_inputs m ins insertion inputs = Ok m'.
Proof.
  induction inputs as [|input rest IH]; intros m Hnd Hin Hpos; simpl;
    [eexists; reflexivity|].
  assert (Hrest : forall a, In a rest -> In a (map ins_id m))
    by (intros a Ha; apply Hin; right; exact Ha).
  destruct (Nat.eqb input ins); cbn [bind]; [apply IH; assumption|].
  destruct (move_instruction_total m input insertion (Hin input (or_introl eq_refl)) Hpos)
    as (m1 & Hm1).
  rewrite Hm1. cbn [bind].
  pose proof (move_instruction_perm _ _ _ _ Hnd Hm1) as Hp.
  pose proof (Permutation_map ins_id (Permutation_sym Hp)) as Hids.
  apply IH.
  - eapply Permutation_NoDup; eassumption.
  - intros a Ha. apply (Permutation_in _ Hids). apply Hrest. exact Ha.
  - intros z Hz. apply (Permutation_in _ Hids). apply Hpos. exact Hz.
Qed.

Lemma counted_generic o :
  prepare_reduce_spec.counted_reduction (name o) = true ->
  exists n attrs, o = generic_op n attrs.
Proof.
  destruct o as [n attrs| | |]; try discriminate. intros _. exists n, attrs. reflexivity.
Qed.

Lemma replace_reduces_total gcs group : forall m p i P slots,
  NoDup (map ins_id m) -> NoDup group ->
  (forall r, In r group -> In r (map ins_id m)) ->
  ~ In p group ->
  lookup m p = Some P -> ins_shape P = shape_tuple slots ->
  0 <= i -> (Z.to_nat i + length group <= length slots)%nat ->
  exists m', prepare_reduce.replace_reduces gcs m p i group = Ok m'.
Proof.
  induction group as [|r rest IH]; intros m p i P slots Hnd HndG Hsub Hp HP Hshape Hi Hlen;
    [eexists; reflexivity|].
  inversion HndG as [|? ? Hr HndR]; subst.
  cbn [prepare_reduce.replace_reduces].
  destruct (deref_ok m r (Hsub r (or_introl eq_refl))) as (x & Hd & Hx).
  unfold replace_instruction. rewrite Hd. cbn [bind].
  unfold input_shapes. cbn [transform]. unfold deref. rewrite HP. cbn [bind].
  rewrite Hshape. cbn [compute_shape].
  destruct (Z.ltb_spec i 0) as [Hneg|_]; [lia|].
  destruct (nth_error slots (Z.to_nat i)) as [s0|] eqn:Es.
  2:{ apply nth_error_None in Es. simpl in Hlen. lia. }
  cbn [bind fst].
  set (new := mk_instruction (fresh m) (get_tuple_elem i) [p] s0).
  assert (Hpr : p <> r) by (intros ->; apply Hp; left; reflexivity).
  assert (Hpf : fresh m <> p).
  { intros E. apply (fresh_not_in m). rewrite E. eapply lookup_ids. exact HP. }
  apply (IH (replaced m r new) p (i + 1) (redirect r (fresh m) P) slots).
  - apply replaced_NoDup; [exact Hnd | apply fresh_not_in].
  - exact HndR.
  - intros r' Hr'. rewrite replaced_ids. apply in_map_iff. exists r'.
    split; [|apply Hsub; right; exact Hr'].
    destruct (Nat.eqb_spec r' r) as [->|_]; [contradiction | reflexivity].
  - intros H. apply Hp. right. exact H.
  - apply (lookup_replaced_other m r new p P HP Hpr Hpf).
  - exact Hshape.
  - lia.
  - simpl in Hlen. lia.
Qed.

(** What [each] needs of a group to return. *)
Lemma each_total gcs i m G :
  NoDup (map ins_id m) -> In i (map ins_id m) -> NoDup G ->
  (forall r, In r G ->
     exists x a, lookup m r = Some x /\
       prepare_reduce_spec.counted_reduction (name (ins_op x)) = true /\
       ins_inputs x = [a] /\ In a (map ins_id m)) ->
  (forall start first r y a z,
     hd_error G = Some start -> lookup m start = Some first ->
     In r G -> lookup m r = Some y -> hd_error (ins_inputs y) = Some a ->
     lookup m a = Some z ->
     exists s', compute_shape gcs (ins_op first) [ins_shape z] = Ok s') ->
  exists m1, prepare_reduce.each gcs i m G = Ok m1.
Proof.
  intros Hnd Hi HndG HG Hgcs. unfold prepare_reduce.each.
  destruct (Nat.ltb_spec (length G) 2) as [_|Hbig]; [eexists; reflexivity|].
  destruct (transform_total (prepare_reduce.front_input m) G) as (I & HI).
  { intros r Hr. destruct (HG r Hr) as (x & a & Hx & _ & Hin & _).
    unfold prepare_reduce.front_input, deref. rewrite Hx. cbn [bind]. rewrite Hin.
    eexists. reflexivity. }
  rewrite HI. cbn [bind].
  destruct G as [|start G'] eqn:EG; [simpl in Hbig; lia|].
  unfold at_index. cbn [nth_error bind]. rewrite <- EG in *.
  assert (Hstart : In start G) by (rewrite EG; left; reflexivity).
  destruct (HG start Hstart) as (first & a0 & Hfirst & Hcount & _).
  unfold deref. rewrite Hfirst. cbn [bind].
  destruct (next_defined m i Hi) as (insertion & Hnext). rewrite Hnext. cbn [bind].
  destruct (next_spec m i insertion Hnd Hnext) as [_ Hpos].
  assert (Hvalid : forall z, insertion = Some z -> In z (map ins_id m)).
  { intros z Hz. subst insertion. apply Hpos. }
  assert (HIm : forall a, In a I -> In a (map ins_id m)).
  { intros a Ha. destruct (transform_In_inv _ _ _ _ HI Ha) as (r & Hr & Hfr).
    apply front_input_In in Hfr as (x & Hx & Hhd).
    destruct (HG r Hr) as (x' & a' & Hx' & _ & Hin & Ha').
    rewrite Hx in Hx'. injection Hx' as <-. rewrite Hin in Hhd.
    injection Hhd as <-. exact Ha'. }
  destruct (move_inputs_total i insertion I m Hnd HIm Hvalid) as (m1 & Hm1).
  rewrite Hm1. cbn [bind].
  pose proof (move_inputs_perm _ _ _ _ _ Hnd Hm1) as Hp1.
  pose proof (Permutation_map ins_id (Permutation_sym Hp1)) as Hids1.
  assert (Hnd1 : NoDup (map ins_id m1)) by (eapply Permutation_NoDup; eassumption).
  unfold insert_instruction.
  destruct (input_shapes_ok m1 I) as (shapes & Hshapes).
  { intros a Ha. apply (Permutation_in _ Hids1). apply HIm. exact Ha. }
  rewrite Hshapes. cbn [bind compute_shape].
  destruct (transform_total (fun input => compute_shape gcs (ins_op first) [input]) shapes)
    as (slots & Hslots).
  { intros s Hs. unfold input_shapes in Hshapes.
    destruct (transform_In_inv _ _ _ _ Hshapes Hs) as (a & Ha & Hda).
    unfold deref in Hda. destruct (lookup m1 a) as [z|] eqn:Ez; [|discriminate].
    cbn [bind] in Hda. injection Hda as <-.
    rewrite (lookup_perm m m1 a (Permutation_sym Hp1) Hnd) in Ez.
    destruct (transform_In_inv _ _ _ _ HI Ha) as (r & Hr & Hfr).
    apply front_input_In in Hfr as (y & Hy & Hhd).
    apply (Hgcs start first r y a z); try assumption.
    rewrite EG. reflexivity. }
  rewrite Hslots. cbn [bind].
  set (Pnode := mk_instruction (fresh m1) (parallel_reduce (ins_op first)) I
                  (shape_tuple slots)).
  destruct (insert_before_total m1 insertion Pnode) as (m2 & Hm2).
  { intros z Hz. apply (Permutation_in _ Hids1). apply Hvalid. exact Hz. }
  rewrite Hm2. cbn [bind].
  pose proof (insert_before_perm _ _ _ _ Hm2) as Hp2.
  pose proof (Permutation_map ins_id (Permutation_sym Hp2)) as Hids2.
  assert (Hnd2 : NoDup (map ins_id m2)).
  { eapply Permutation_NoDup; [exact Hids2|].
    simpl. constructor; [apply fresh_not_in | exact Hnd1]. }
  assert (Hsub1 : forall r, In r G -> In r (map ins_id m1)).
  { intros r Hr. apply (Permutation_in _ Hids1).
    destruct (HG r Hr) as (x & _ & Hx & _). eapply lookup_ids. exact Hx. }
  apply (replace_reduces_total gcs G m2 (fresh m1) 0 Pnode slots); try assumption.
  - intros r Hr. apply (Permutation_in _ Hids2). right. apply Hsub1. exact Hr.
  - intros H. apply (fresh_not_in m1). apply Hsub1. exact H.
  - change (fresh m1) with (ins_id Pnode). apply lookup_unique; [exact Hnd2|].
    apply (Permutation_in _ (Permutation_sym Hp2)). left. reflexivity.
  - reflexivity.
  - lia.
  - rewrite (transform_length _ _ _ Hslots).
    unfold input_shapes in Hshapes. rewrite (transform_length _ _ _ Hshapes).
    rewrite (transform_length _ _ _ HI). simpl. lia.
Qed.

(** The members of a group and their inputs. *)
Lemma each_group_facts m i range G I :
  scan_spec.fed_by m i range -> (forall r, In r G -> In r range) -> ~ In i G ->
  transform (prepare_reduce.front_input m) G = Ok I ->
  (forall r, In r G ->
     exists x a, lookup m r = Some x /\
       prepare_reduce_spec.counted_reduction (name (ins_op x)) = true /\
       ins_inputs x = [a] /\ In a I /\ ~ In a G) /\
  (forall a, In a I ->
     ~ In a G /\ exists r x, In r G /\ lookup m r = Some x /\ ins_inputs x = [a]).
Proof.
  intros Hfed HGr HiG Hinputs.
  assert (Hnot : forall a, (a = i \/ exists y, lookup m a = Some y /\
                                    name (ins_op y) = "pointwise"%string) ->
                 ~ In a G).
  { intros a [->|(y & Hy & Hname)]; [exact HiG|].
    intros Hg. destruct (Hfed a (HGr a Hg)) as (y' & ? & Hy' & Hc' & _).
    rewrite Hy in Hy'. injection Hy' as <-. rewrite Hname in Hc'. discriminate Hc'. }
  split.
  - intros r Hr. destruct (Hfed r (HGr r Hr)) as (x & a & Hx & Hc & Hin & Ha).
    exists x, a. repeat split; try assumption; [|apply Hnot; exact Ha].
    destruct (transform_In _ _ _ _ Hinputs Hr) as (a' & Ha' & HaI).
    apply front_input_In in Ha' as (x' & Hx' & Hhd).
    rewrite Hx in Hx'. injection Hx' as <-. rewrite Hin in Hhd.
    injection Hhd as <-. exact HaI.
  - intros a Ha.
    destruct (transform_In_inv _ _ _ _ Hinputs Ha) as (r & Hr & Hfr).
    apply front_input_In in Hfr as (x & Hx & Hhd).
    destruct (Hfed r (HGr r Hr)) as (x' & a' & Hx' & _ & Hin & Ha').
    rewrite Hx in Hx'. injection Hx' as <-. rewrite Hin in Hhd.
    injection Hhd as ->. split; [apply Hnot; exact Ha'|].
    exists r, x. auto.
Qed.

(** One call of [each] returns, and the pass can go on. *)
Lemma each_steady gcs i m range start G rest :
  scan_spec.steady m i range /\ fusion_spec.inferable gcs m range ->
  hd_error range = Some start -> hd_error G = Some start ->
  Permutation range (G ++ rest) ->
  (forall r, In r G -> fusion_spec.same_key m r start = true) ->
  (forall r, In r rest -> fusion_spec.same_key m r start = false) ->
  exists m1, prepare_reduce.each gcs i m G = Ok m1 /\
             scan_spec.steady m1 i rest /\ fusion_spec.inferable gcs m1 rest.
Proof.
  intros [(Hwf & Hfed & Hi & Hir & HndR) Hinf] Hhr HhG Hp HkG Hkr.
  pose proof Hwf as (Hnd & Hclosed & Hun & Htot).
  assert (Hrest : forall r, In r rest -> In r range).
  { intros r Hr. apply (Permutation_in _ (Permutation_sym Hp)).
    apply in_or_app. right. exact Hr. }
  assert (HGr : forall r, In r G -> In r range).
  { intros r Hr. apply (Permutation_in _ (Permutation_sym Hp)).
    apply in_or_app. left. exact Hr. }
  assert (Hnd' : NoDup (G ++ rest)) by (eapply Permutation_NoDup; eassumption).
  pose proof (NoDup_app_remove_r _ _ Hnd') as HndG.
  pose proof (NoDup_app_remove_l _ _ Hnd') as HndRest.
  assert (HiG : ~ In i G) by (intros H; apply Hir, HGr; exact H).
  assert (Hfed' : scan_spec.fed_by m i rest).
  { intros r Hr. apply Hfed. apply Hrest. exact Hr. }
  assert (Hinf' : fusion_spec.inferable gcs m rest).
  { intros r1 r2 x y a z H1 H2. apply Hinf; apply Hrest; assumption. }
  destruct (each_total gcs i m G Hnd Hi HndG) as (m1 & Heach).
  { intros r Hr. destruct (Hfed r (HGr r Hr)) as (x & a & Hx & Hc & Hin & _).
    exists x, a. repeat split; try assumption.
    apply lookup_In in Hx as [Hx _]. apply (Hclosed x Hx). rewrite Hin. left. reflexivity. }
  { intros start' first r y a z Hs' Hfirst Hr Hy Ha Hz.
    rewrite HhG in Hs'. injection Hs' as <-.
    assert (Hstart : In start G) by (destruct G; [discriminate|]; injection HhG as ->;
                                     left; reflexivity).
    apply (Hinf start r first y a z); try assumption; try (apply HGr; assumption).
    rewrite same_key_sym. apply HkG. exact Hr. }
  exists m1. split; [exact Heach|].
  destruct (Nat.ltb_spec (length G) 2) as [Hsmall|Hbig].
  - unfold prepare_reduce.each in Heach.
    destruct (Nat.ltb_spec (length G) 2); [|lia]. injection Heach as <-.
    split; [|exact Hinf'].
    split; [exact Hwf|]. split; [exact Hfed'|]. split; [exact Hi|].
    split; [intros Hx; apply Hir, Hrest; exact Hx | exact HndRest].
  - destruct (each_closed_form gcs i m G m1 Hnd Hbig Heach)
      as (I & start' & first & shapes & slots & m2 &
          Hinputs & _ & _ & _ & _ & Hperm & _ & -> & _ & _).
    destruct (each_group_facts m i range G I Hfed HGr HiG Hinputs) as [HG HI].
    assert (Hdisj : forall r, In r rest -> ~ In r G).
    { intros r Hr Hg. exact (NoDup_app_disjoint _ _ r Hnd' Hg Hr). }
    split; [|apply (fuse_inferable m m2 G I (ins_op first) slots) with (X := i);
              assumption].
    split; [apply (fuse_well_formed m m2 G I (ins_op first) slots); assumption|].
    split; [apply (fuse_fed_by m m2 G I (ins_op first) slots); assumption|].
    split.
    { apply (fuse_ids m m2 G I (ins_op first) slots); try assumption.
      right. left. auto. }
    split; [intros Hx; apply Hir, Hrest; exact Hx | exact HndRest].
Qed.

Lemma group_by_total gcs ins (Inv : module -> list instruction_ref -> Prop) :
  (forall m range r, Inv m range -> In r range -> exists x, lookup m r = Some x) ->
  (forall m range start group rest,
     Inv m range -> hd_error range = Some start -> hd_error group = Some start ->
     Permutation range (group ++ rest) ->
     (forall r, In r group -> fusion_spec.same_key m r start = true) ->
     (forall r, In r rest -> fusion_spec.same_key m r start = false) ->
     exists m1, prepare_reduce.each gcs ins m group = Ok m1 /\ Inv m1 rest) ->
  forall fuel range m,
    (length range <= fuel)%nat -> Inv m range ->
    exists m', group_by fuel prepare_reduce.key prepare_reduce.key_eqb
                 (prepare_reduce.each gcs ins) range m = Ok m'.
Proof.
  intros Hex Hstep. induction fuel as [|fuel IH]; intros range m Hlen Hinv.
  - destruct range; [eexists; reflexivity | simpl in Hlen; lia].
  - destruct range as [|start tl]; [eexists; reflexivity|].
    cbn [group_by].
    destruct (transform_total
                (fun x => k <- prepare_reduce.key m x ;; Ok (x, k)) (start :: tl))
      as (keyed & Ekeyed).
    { intros r Hr. destruct (Hex m _ r Hinv Hr) as (x & Hx).
      unfold prepare_reduce.key, deref. rewrite Hx. cbn [bind]. eexists. reflexivity. }
    rewrite Ekeyed. cbn [bind].
    destruct (Hex m _ start Hinv (or_introl eq_refl)) as (x0 & Hx0).
    assert (Ek0 : prepare_reduce.key m start = Ok (name (ins_op x0), ins_shape x0)).
    { unfold prepare_reduce.key, deref. rewrite Hx0. reflexivity. }
    rewrite Ek0. cbn [bind]. set (k0 := (name (ins_op x0), ins_shape x0)) in *.
    destruct (std_partition (fun xk => prepare_reduce.key_eqb (snd xk) k0) keyed)
      as [group rest] eqn:Epart.
    apply transform_keyed in Ekeyed as [Hfst Hkeyed].
    apply std_partition_spec in Epart as (Hperm & Hgroup & Hrest & Hhead).
    apply key_key_of in Ek0.
    destruct keyed as [|[s0 ks] keyed']; [discriminate Hfst|].
    simpl in Hfst. injection Hfst as -> Hfst'.
    assert (Eks : ks = k0).
    { pose proof (Hkeyed (start, ks) (or_introl eq_refl)) as Hk. simpl in Hk.
      congruence. }
    subst ks.
    destruct (Hhead (start, k0) keyed' eq_refl (key_eqb_refl k0)) as (t' & ->).
    assert (Hperm' : Permutation (start :: tl)
                       (map fst ((start, k0) :: t') ++ map fst rest)).
    { rewrite <- map_app. rewrite <- Hfst'.
      change (start :: map fst keyed') with (map fst ((start, k0) :: keyed')).
      apply Permutation_map. exact Hperm. }
    assert (Hin : forall xk, In xk ((start, k0) :: t') \/ In xk rest ->
                  In xk ((start, k0) :: keyed')).
    { intros xk Hxk. eapply Permutation_in; [symmetry; exact Hperm|].
      apply in_or_app. exact Hxk. }
    destruct (Hstep m (start :: tl) start (map fst ((start, k0) :: t')) (map fst rest))
      as (m1 & Heach & Hinv1); try assumption; try reflexivity.
    + intros r Hr. apply in_map_iff in Hr as ([x k] & <- & Hxk).
      unfold fusion_spec.same_key.
      rewrite (Hkeyed (x, k) (Hin _ (or_introl Hxk))), Ek0. simpl.
      rewrite Forall_forall in Hgroup. exact (Hgroup _ Hxk).
    + intros r Hr. apply in_map_iff in Hr as ([x k] & <- & Hxk).
      unfold fusion_spec.same_key.
      rewrite (Hkeyed (x, k) (Hin _ (or_intror Hxk))), Ek0. simpl.
      rewrite Forall_forall in Hrest. exact (Hrest _ Hxk).
    + rewrite Heach. cbn [bind]. apply IH; [|exact Hinv1].
      apply Permutation_length in Hperm. rewrite length_app in Hperm.
      simpl in Hperm, Hlen. rewrite length_map.
      assert (length keyed' = length tl) by (rewrite <- Hfst'; symmetry; apply length_map).
      lia.
Qed.

(** In topological order [get_reduce] moves forward. *)
Lemma reaches_forward m :
  prepare_reduce_spec.topological m = true ->
  forall o r,
    prepare_reduce_spec.reaches prepare_reduce_spec.counted_reduction m o r ->
    forall pre x suf, m = pre ++ x :: suf -> ins_id x = o ->
      In r (map ins_id (x :: suf)).
Proof.
  intros Htop. induction 1 as [o x Hx Hred|o x o' r Hx Hname Hin Hout _ IH];
    intros pre y suf Hm Hy.
  - left. exact Hy.
  - assert (Ho' : In o' (outputs (pre ++ y :: suf) (ins_id y))).
    { rewrite <- Hm, Hy, Hout. left. reflexivity. }
    rewrite Hm in Htop.
    destruct (consumers_follow pre y suf o' Htop Ho') as (s1 & z & s2 & -> & Hz).
    right. rewrite map_app. apply in_or_app. right.
    apply (IH (pre ++ y :: s1) z s2); [|exact Hz].
    rewrite Hm, <- app_assoc. reflexivity.
Qed.

Lemma topological_not_self m i o r :
  prepare_reduce_spec.topological m = true ->
  In i (map ins_id m) -> In o (outputs m i) ->
  prepare_reduce.get_reduce m o = Ok (Some r) -> r <> i.
Proof.
  intros Htop Hi Ho Hget.
  destruct (topological_from_ids _ _ Htop) as [Hnd _].
  apply in_map_iff in Hi as (x & <- & Hx).
  apply in_split in Hx as (pre & suf & Hm).
  pose proof Htop as Htop'. rewrite Hm in Htop', Ho.
  destruct (consumers_follow pre x suf o Htop' Ho) as (s1 & z & s2 & -> & Hz).
  apply get_reduce_from_sound in Hget.
  pose proof (reaches_forward m Htop o r Hget (pre ++ x :: s1) z s2) as Hr.
  rewrite Hm, <- app_assoc in Hr. specialize (Hr eq_refl Hz).
  intros ->. rewrite Hm, map_app in Hnd. simpl in Hnd. apply NoDup_remove_2 in Hnd.
  apply in_map_iff in Hr as (y & Ey & Hy).
  apply Hnd. apply in_or_app. right. rewrite <- Ey. apply (in_map ins_id).
  apply in_or_app. right. exact Hy.
Qed.

Lemma collect_reduces_reached m outs : forall reduces,
  prepare_reduce.collect_reduces m outs = Ok reduces ->
  reduces =
    flat_map (fun o =>
                if Nat.eqb (length (outputs m o)) 0 then []
                else match prepare_reduce.get_reduce m o with
                     | Ok (Some r) => [r]
                     | _ => []
                     end) outs.
Proof.
  induction outs as [|o outs IH]; intros reduces; cbn [prepare_reduce.collect_reduces flat_map].
  - intros H. injection H as <-. reflexivity.
  - destruct (Nat.eqb (length (outputs m o)) 0); [exact (IH reduces)|].
    destruct (prepare_reduce.get_reduce m o) as [res| |]; cbn [bind]; try discriminate.
    destruct (prepare_reduce.collect_reduces m outs) as [rest| |]; cbn [bind];
      try discriminate.
    intros H. injection H as <-. rewrite <- (IH rest eq_refl).
    destruct res; reflexivity.
Qed.

(** The pass returns at every instruction of a module in topological
    order whose counted reductions have one input, when the operator of
    each reduction it reaches infers a shape from the first input of
    every reached reduction of the same key. *)
Lemma apply_total gcs m i :
  prepare_reduce_spec.topological m = true ->
  scan_spec.unary_reductions m = true ->
  fusion_spec.inferable gcs m (fusion_spec.reached_reductions m i) ->
  exists m', prepare_reduce.apply gcs m i = Ok m'.
Proof.
  intros Htop Hun Hgcs.
  pose proof (topological_well_formed m Htop Hun) as Hwf.
  pose proof Hwf as (Hnd & Hclosed & _ & Htot).
  unfold prepare_reduce.apply.
  destruct (collect_reduces_total m (outputs m i)) as (reduces & Hcol).
  { intros o Ho. apply Htot. eapply outputs_ids. exact Ho. }
  rewrite Hcol. cbn [bind].
  destruct (outputs m i) as [|o0 outs] eqn:Eout.
  { simpl in Hcol. injection Hcol as <-. eexists. reflexivity. }
  assert (Hi : In i (map ins_id m)).
  { assert (Ho : In o0 (outputs m i)) by (rewrite Eout; left; reflexivity).
    apply outputs_In in Ho as (y & Hy & _ & Hin). apply (Hclosed y Hy i Hin). }
  rewrite <- Eout in Hcol.
  pose proof (collect_reduces_spec m _ reduces Hcol) as Hspec.
  apply (group_by_total gcs i
           (fun m r => scan_spec.steady m i r /\ fusion_spec.inferable gcs m r)).
  - intros m0 range r [(_ & Hfed & _) _] Hr.
    destruct (Hfed r Hr) as (x & _ & Hx & _). exists x. exact Hx.
  - intros m0 range start G rest. apply each_steady.
  - apply Nat.le_refl.
  - split; [|rewrite (collect_reduces_reached m _ reduces Hcol); exact Hgcs].
    split; [exact Hwf|]. split; [apply fed_by_initial; assumption|].
    split; [exact Hi|]. split.
    + intros Hin. apply Hspec in Hin as (o & Ho & _ & Hget).
      exact (topological_not_self m i o i Htop Hi Ho Hget eq_refl).
    + apply (collect_reduces_NoDup m (outputs m i)); [| |exact Hcol].
      * apply outputs_NoDup. exact Hnd.
      * intros o1 o2 r H1 H2 Hr1 Hr2.
        apply (unique_reduction m i o1 o2 r Hnd Hun H1 H2);
          eapply get_reduce_from_sound; eassumption.
Qed.

(** ** The fusion at a matched instruction (C6) *)

(** C6, as stated, fails: the partitioning is not stable.  The order
    inside a group is the order [std::partition] leaves, not the order
    of the reductions: of the consumers 2, 3, 4, 5 of
    instruction 1 (2, 4 and 5 of one key), the group is 2, 5, 4.  The
    reduction 4, second of its key, is replaced by the extraction of
    slot 2, and the reduction 5, third of its key, by the extraction of
    slot 1; a stable partition gives the group 2, 4, 5. *)
Lemma find_multi_reduce_group_order_not_stable :
  let s := make_shape float_type [4; 8] in
  let s1 := make_shape float_type [4; 1] in
  let gcs := fun (_ : string) (_ : list (string * Z)) (_ : list shape) => Ok s1 in
  let sum := generic_op "reduce_sum" [("axes", 1)] in
  let max := generic_op "reduce_max" [("axes", 1)] in
  let relu := generic_op "relu" [] in
  let m := [ mk_instruction 1%nat (generic_op "add" []) [] s;
             mk_instruction 2%nat sum [1%nat] s1;
             mk_instruction 3%nat max [1%nat] s1;
             mk_instruction 4%nat sum [1%nat] s1;
             mk_instruction 5%nat sum [1%nat] s1;
             mk_instruction 6%nat relu [2%nat] s1;
             mk_instruction 7%nat relu [3%nat] s1;
             mk_instruction 8%nat relu [4%nat] s1;
             mk_instruction 9%nat relu [5%nat] s1 ] in
  prepare_reduce_spec.topological m = true /\
  prepare_reduce.split_reduce m 1%nat = Ok true /\
  prepare_reduce.collect_reduces m (outputs m 1%nat) = Ok [2; 3; 4; 5]%nat /\
  fusion_spec.stable_partition (fun r => fusion_spec.same_key m r 2%nat) [2; 3; 4; 5]%nat
    = ([2; 4; 5]%nat, [3%nat]) /\
  std_partition (fun r => fusion_spec.same_key m r 2%nat) [2; 3; 4; 5]%nat
    = ([2; 5; 4]%nat, [3%nat]) /\
  prepare_reduce.apply gcs m 1%nat =
    Ok [ mk_instruction 1%nat (generic_op "add" []) [] s;
         mk_instruction 10%nat (parallel_reduce sum) [1; 1; 1]%nat (shape_tuple [s1; s1; s1]);
         mk_instruction 11%nat (get_tuple_elem 0) [10%nat] s1;
         mk_instruction 3%nat max [1%nat] s1;
         mk_instruction 13%nat (get_tuple_elem 2) [10%nat] s1;
         mk_instruction 12%nat (get_tuple_elem 1) [10%nat] s1;
         mk_instruction 6%nat relu [11%nat] s1;
         mk_instruction 7%nat relu [3%nat] s1;
         mk_instruction 8%nat relu [13%nat] s1;
         mk_instruction 9%nat relu [12%nat] s1 ].
Proof.
  cbv zeta. repeat split; vm_compute; reflexivity.
Qed.

(** C6 (amended): on a module whose instructions have different
    identities, when the reduction-fusion pass applies to the
    instruction [ins] and returns,
    the reductions it groups are those reached from the consumers of
    [ins] that have consumers themselves, in the order of these
    consumers.  They are split into groups by the key (operator name,
    output shape), one group after the other: [std::partition] splits
    the remaining reductions into those that have the key of the first
    of them, which are the group, and the others, which remain; the
    group starts with that first reduction, and the order of its other
    members and of the remaining reductions is the one [std::partition]
    leaves, which need not be their original order.  For each group of
    at least two members the module gets exactly one new fused
    instruction, whose operator wraps the operator of the first member
    and whose shape is the tuple with one slot per member in group
    order, slot [k] being the shape the first member's operator computes
    on the first input of member [k]; member [k] is replaced by a new
    instruction extracting slot [k], and its consumers refer to the new
    instruction.  Groups of one member leave the module as it is.  The
    pass does return when the module is in topological order, the
    counted reductions have one input and the operator of each reached
    reduction infers a shape from the first input of every reached
    reduction of the same key. *)
Theorem find_multi_reduce_fuses gcs (m : module) (ins : instruction_ref) :
  NoDup (map ins_id m) ->
  (forall m', prepare_reduce.apply gcs m ins = Ok m' ->
     exists groups,
       fusion_spec.fuses gcs m (fusion_spec.reached_reductions m ins) groups m') /\
  (forall r, In r (fusion_spec.reached_reductions m ins) <->
     exists o, In o (outputs m ins) /\ outputs m o <> [] /\
               prepare_reduce.get_reduce m o = Ok (Some r)) /\
  (prepare_reduce_spec.topological m = true ->
   scan_spec.unary_reductions m = true ->
   fusion_spec.inferable gcs m (fusion_spec.reached_reductions m ins) ->
   exists m', prepare_reduce.apply gcs m ins = Ok m').
Proof.
  intros Hnd. split; [|split].
  - intros m' H.
    unfold prepare_reduce.apply in H.
    destruct (prepare_reduce.collect_reduces m (outputs m ins)) as [reduces| |] eqn:Ered;
      cbn [bind] in H; try discriminate.
    destruct (group_by_fuses gcs ins _ _ _ _ Hnd (Nat.le_refl _) H) as (groups & Hgroups).
    exists groups. unfold fusion_spec.reached_reductions.
    rewrite <- (collect_reduces_reached m _ reduces Ered). exact Hgroups.
  - intros r. unfold fusion_spec.reached_reductions. rewrite in_flat_map. split.
    + intros (o & Ho & Hr). exists o. split; [exact Ho|].
      destruct (outputs m o) as [|o' outs]; [destruct Hr|]. cbn [length Nat.eqb] in Hr.
      split; [discriminate|].
      destruct (prepare_reduce.get_reduce m o) as [[r'|]| |]; try destruct Hr.
      * subst r'. reflexivity.
      * contradiction.
    + intros (o & Ho & Hne & Hget). exists o. split; [exact Ho|].
      destruct (outputs m o) as [|o' outs]; [contradiction|]. cbn [length Nat.eqb].
      rewrite Hget. left. reflexivity.
  - intros Htop Hun Hinf. apply apply_total; assumption.
Qed.

Lemma find_multi_reduce_fuses_witness :
  let s := make_shape float_type [4; 8] in
  let s1 := make_shape float_type [4; 1] in
  let gcs := fun (n : string) (_ : list (string * Z)) (shapes : list shape) =>
               match shapes with
               | [x] => if shape_eqb x s then Ok s1 else Throw "reduce: unexpected input"
               | _ => Throw "reduce: expects one input"
               end in
  let sum := generic_op "reduce_sum" [("axes", 1)] in
  let m := [ mk_instruction 1%nat (generic_op "add" []) [] s;
             mk_instruction 2%nat sum [1%nat] s1;
             mk_instruction 3%nat sum [1%nat] s1;
             mk_instruction 4%nat (generic_op "mul" []) [2%nat; 3%nat] s1 ] in
  let m' := [ mk_instruction 1%nat (generic_op "add" []) [] s;
              mk_instruction 5%nat (parallel_reduce sum) [1; 1]%nat (shape_tuple [s1; s1]);
              mk_instruction 6%nat (get_tuple_elem 0) [5%nat] s1;
              mk_instruction 7%nat (get_tuple_elem 1) [5%nat] s1;
              mk_instruction 4%nat (generic_op "mul" []) [6%nat; 7%nat] s1 ] in
  prepare_reduce_spec.topological m = true /\
  scan_spec.unary_reductions m = true /\
  fusion_spec.reached_reductions m 1%nat = [2; 3]%nat /\
  (exists m'', prepare_reduce.apply gcs m 1%nat = Ok m'') /\
  prepare_reduce.apply gcs m 1%nat = Ok m' /\
  exists groups,
    fusion_spec.fuses gcs m (fusion_spec.reached_reductions m 1%nat) groups m'.
Proof.
  intros s s1 gcs sum m m'.
  assert (Hnd : NoDup (map ins_id m))
    by (apply (topological_from_ids [] m); reflexivity).
  destruct (find_multi_reduce_fuses gcs m 1%nat Hnd) as (Hfuses & _ & Hreturns).
  split; [reflexivity|]. split; [reflexivity|]. split; [reflexivity|]. split.
  - apply Hreturns; [reflexivity|reflexivity|].
    intros r1 r2 x y a z H1 H2 _ Hx Hy Ha Hz.
    change (fusion_spec.reached_reductions m 1%nat) with [2; 3]%nat in H1, H2.
    assert (Ex : ins_op x = sum).
    { destruct H1 as [<-|[<-|[]]]; vm_compute in Hx; injection Hx as <-; reflexivity. }
    assert (Ez : ins_shape z = s).
    { destruct H2 as [<-|[<-|[]]]; vm_compute in Hy; injection Hy as <-;
        cbn [ins_inputs hd_error] in Ha; injection Ha as <-;
        vm_compute in Hz; injection Hz as <-; reflexivity. }
    rewrite Ex, Ez. exists s1. reflexivity.
  - split; [reflexivity|]. apply Hfuses. reflexivity.
Defined.

(* ================================================================== *)
(** * Part III: further properties of the code *)
(* ================================================================== *)

(** ** [group_by], [group_unique] and [levenshtein_distance] *)


Lemma collect_eq {A} (st : list (list A)) g : algorithm.collect st g = Ok (st ++ [g]).
Proof. reflexivity. Qed.





Lemma span_head {A} (p : A -> bool) x l :
  p x = true -> exists t rest, span p (x :: l) = (x :: t, rest) /\ span p l = (t, rest).
Proof.
  intros H. simpl. rewrite H. destruct (span p l) as [t rest].
  exists t, rest. auto.
Qed.

Lemma span_length {A} (p : A -> bool) l t rest :
  span p l = (t, rest) -> (length rest <= length l)%nat.
Proof.
  intros H. pose proof (span_spec p l) as Hs. rewrite H in Hs.
  destruct Hs as (-> & _). rewrite length_app. lia.
Qed.

Lemma group_unique_collects {A} (pred : A -> A -> bool) :
  forall fuel (l : list A) (st : list (list A)),
    (length l <= fuel)%nat ->
    (forall x, In x l -> pred x x = true) ->
    exists gs,
      algorithm.group_unique fuel pred algorithm.collect l st = Ok (st ++ gs) /\
      concat gs = l /\ runs pred gs /\
      match l with
      | [] => gs = []
      | a :: _ => exists t gs', gs = (a :: t) :: gs'
      end.
Proof.
  induction fuel as [|fuel IH]; intros l st Hlen Hrefl.
  - destruct l; [|simpl in Hlen; lia]. exists []. simpl. rewrite app_nil_r.
    repeat split. constructor.
  - destruct l as [|start tl].
    { exists []. simpl. rewrite app_nil_r. repeat split. constructor. }
    cbn [algorithm.group_unique].
    destruct (span_head (pred start) start tl (Hrefl start (or_introl eq_refl)))
      as (t & rest & -> & Hspan).
    pose proof (span_spec (pred start) tl) as Hs. rewrite Hspan in Hs.
    destruct Hs as (Htl & Ht & Hstop).
    rewrite collect_eq. cbn [bind].
    destruct (IH rest (st ++ [start :: t])) as (gs & Hrun & Hcat & Hruns & Hfirst).
    { pose proof (span_length _ _ _ _ Hspan). simpl in Hlen. lia. }
    { intros x Hx. apply Hrefl. right. rewrite Htl. apply in_or_app. right. exact Hx. }
    exists ((start :: t) :: gs).
    split; [rewrite Hrun, <- app_assoc; reflexivity|].
    split; [cbn [concat]; rewrite Hcat, Htl; reflexivity|].
    split; [|eexists; eexists; reflexivity].
    rewrite Forall_forall in Ht.
    destruct rest as [|h' rest'].
    + subst gs. constructor. exact Ht.
    + destruct Hfirst as (t' & gs' & ->). constructor; assumption.
Qed.

(** X2: [group_unique] splits the range into runs: when [pred] holds between
    every element and itself, the loop ends, the ranges it hands to
    [out], put end to end, are the range itself, each is a run of
    elements for which [pred] holds against the first element of the
    run, and the element that follows a run is one for which it does
    not. *)
Theorem group_unique_splits_into_runs {A} (pred : A -> A -> bool) (l : list A) :
  (forall x, In x l -> pred x x = true) ->
  exists gs,
    algorithm.group_unique (length l) pred algorithm.collect l [] = Ok gs /\
    concat gs = l /\ runs pred gs.
Proof.
  intros Hrefl.
  destruct (group_unique_collects pred (length l) l [] (Nat.le_refl _) Hrefl)
    as (gs & Hrun & Hcat & Hruns & _).
  exists gs. split; [exact Hrun|]. split; assumption.
Qed.

Lemma group_unique_splits_into_runs_witness :
  exists gs,
    algorithm.group_unique 5 Nat.eqb algorithm.collect [1; 1; 2; 1; 1]%nat [] = Ok gs /\
    concat gs = [1; 1; 2; 1; 1]%nat /\ runs Nat.eqb gs.
Proof.
  apply (group_unique_splits_into_runs Nat.eqb [1; 1; 2; 1; 1]%nat).
  intros x _. apply Nat.eqb_refl.
Defined.

(** X3: [group_unique] does not end when [pred] fails between the first
    element and itself: [std::find_if] stops at once, [out] receives an
    empty range, and the loop resumes where it was.  Whatever the number
    of iterations allowed, the loop has not returned. *)
Theorem group_unique_stuck_on_irreflexive_head {A S} (pred : A -> A -> bool)
  (out : S -> list A -> outcome S) (x : A) (l : list A) :
  pred x x = false ->
  (forall st g, exists st', out st g = Ok st') ->
  forall fuel st, algorithm.group_unique fuel pred out (x :: l) st = Undefined.
Proof.
  intros Hx Hout. induction fuel as [|fuel IH]; intros st; [reflexivity|].
  cbn [algorithm.group_unique span]. rewrite Hx.
  destruct (Hout st []) as (st' & ->). cbn [bind]. apply IH.
Qed.

Lemma group_unique_stuck_on_irreflexive_head_witness :
  Nat.ltb 1 1 = false /\
  (forall fuel st,
     algorithm.group_unique fuel Nat.ltb algorithm.collect [1; 2]%nat st = Undefined).
Proof.
  split; [reflexivity|].
  apply (group_unique_stuck_on_irreflexive_head Nat.ltb algorithm.collect 1%nat [2%nat]).
  - reflexivity.
  - intros st g. eexists. reflexivity.
Defined.

Lemma levenshtein_nil_l {A} (eqb : A -> A -> bool) l2 :
  algorithm.levenshtein_distance eqb [] l2 = Z.of_nat (length l2).
Proof. destruct l2; reflexivity. Qed.

Lemma levenshtein_nil_r {A} (eqb : A -> A -> bool) l1 :
  algorithm.levenshtein_distance eqb l1 [] = Z.of_nat (length l1).
Proof. destruct l1; reflexivity. Qed.

Lemma levenshtein_cons {A} (eqb : A -> A -> bool) a r1 b r2 :
  algorithm.levenshtein_distance eqb (a :: r1) (b :: r2) =
    if eqb a b then algorithm.levenshtein_distance eqb r1 r2
    else 1 + Z.min (algorithm.levenshtein_distance eqb r1 r2)
               (Z.min (algorithm.levenshtein_distance eqb (a :: r1) r2)
                      (algorithm.levenshtein_distance eqb r1 (b :: r2))).
Proof. reflexivity. Qed.

Lemma levenshtein_range {A} (eqb : A -> A -> bool) (l1 : list A) : forall l2,
  Z.abs (Z.of_nat (length l1) - Z.of_nat (length l2))
    <= algorithm.levenshtein_distance eqb l1 l2
    <= Z.max (Z.of_nat (length l1)) (Z.of_nat (length l2)).
Proof.
  induction l1 as [|a r1 IH1]; intros l2.
  - rewrite levenshtein_nil_l. simpl length. lia.
  - induction l2 as [|b r2 IH2].
    + rewrite levenshtein_nil_r. simpl length. lia.
    + rewrite levenshtein_cons.
      pose proof (IH1 r2) as H1. pose proof (IH1 (b :: r2)) as H3.
      cbn [length] in *. destruct (eqb a b); lia.
Qed.

(** X4: [levenshtein_distance] lies between the difference of the two
    lengths and the larger of them, whatever the elements and their
    [operator==]; with an empty range it is the length of the other
    range.  So the [std::ptrdiff_t] it returns never overflows. *)
Theorem levenshtein_distance_bounds {A} (eqb : A -> A -> bool) (l1 l2 : list A) :
  Z.abs (Z.of_nat (length l1) - Z.of_nat (length l2))
    <= algorithm.levenshtein_distance eqb l1 l2
    <= Z.max (Z.of_nat (length l1)) (Z.of_nat (length l2)) /\
  algorithm.levenshtein_distance eqb [] l2 = Z.of_nat (length l2) /\
  algorithm.levenshtein_distance eqb l1 [] = Z.of_nat (length l1).
Proof.
  split; [apply levenshtein_range|].
  split; [apply levenshtein_nil_l | apply levenshtein_nil_r].
Qed.

(** X5: [levenshtein_distance] is zero exactly on equal ranges, when
    [operator==] decides equality. *)
Theorem levenshtein_distance_zero_iff_equal {A} (eqb : A -> A -> bool) (l1 l2 : list A) :
  (forall x y, eqb x y = true <-> x = y) ->
  (algorithm.levenshtein_distance eqb l1 l2 = 0 <-> l1 = l2).
Proof.
  intros Heq. revert l2. induction l1 as [|a r1 IH1]; intros l2.
  - rewrite levenshtein_nil_l. destruct l2; simpl length; split; intros H;
      try reflexivity; try discriminate; lia.
  - destruct l2 as [|b r2].
    + rewrite levenshtein_nil_r. simpl length. split; intros H; [lia | discriminate].
    + rewrite levenshtein_cons.
      pose proof (levenshtein_range eqb r1 r2) as H1.
      pose proof (levenshtein_range eqb (a :: r1) r2) as H2.
      pose proof (levenshtein_range eqb r1 (b :: r2)) as H3.
      destruct (eqb a b) eqn:E.
      * apply Heq in E. subst b. rewrite (IH1 r2). split; intros H; congruence.
      * split; intros H; [lia|]. injection H as Hab _.
        apply Heq in Hab. congruence.
Qed.

Lemma levenshtein_distance_zero_iff_equal_witness :
  algorithm.levenshtein_distance Nat.eqb [1; 2; 3]%nat [1; 2; 3]%nat = 0 /\
  algorithm.levenshtein_distance Nat.eqb [1; 2; 3]%nat [1; 3; 2]%nat <> 0.
Proof.
  split.
  - apply (levenshtein_distance_zero_iff_equal Nat.eqb); [apply Nat.eqb_eq | reflexivity].
  - intros H.
    apply (levenshtein_distance_zero_iff_equal Nat.eqb) in H; [|apply Nat.eqb_eq].
    discriminate H.
Defined.

(** X6: [levenshtein_distance] does not depend on the order of its two
    ranges, when [operator==] is symmetric. *)
Theorem levenshtein_distance_symmetric {A} (eqb : A -> A -> bool) (l1 l2 : list A) :
  (forall x y, eqb x y = eqb y x) ->
  algorithm.levenshtein_distance eqb l1 l2 = algorithm.levenshtein_distance eqb l2 l1.
Proof.
  intros Hsym. revert l2. induction l1 as [|a r1 IH1]; intros l2.
  - rewrite levenshtein_nil_l, levenshtein_nil_r. reflexivity.
  - induction l2 as [|b r2 IH2].
    + rewrite levenshtein_nil_l, levenshtein_nil_r. reflexivity.
    + rewrite !levenshtein_cons, (Hsym b a).
      rewrite (IH1 r2), (IH1 (b :: r2)), IH2.
      destruct (eqb a b); [reflexivity|]. lia.
Qed.

Lemma levenshtein_distance_symmetric_witness :
  algorithm.levenshtein_distance Nat.eqb [1; 2; 3]%nat [2; 3; 4; 5]%nat =
  algorithm.levenshtein_distance Nat.eqb [2; 3; 4; 5]%nat [1; 2; 3]%nat.
Proof.
  apply (levenshtein_distance_symmetric Nat.eqb). intros x y. apply Nat.eqb_sym.
Defined.


(** ** [reshape]: further properties of [compute_shape] *)

Lemma walk_same_dims (l st : list Z) : length st = length l ->
  forall fuel i, (i <= length l)%nat -> (length l - i <= fuel)%nat ->
  reshape.walk fuel l st l i i (firstn i st) = reshape.Walked st.
Proof.
  intros Hlen. induction fuel as [|fuel IH]; intros i Hi Hfuel.
  - assert (i = length l) by lia. subst i.
    cbn [reshape.walk]. rewrite Nat.ltb_irrefl. cbn [andb].
    rewrite <- Hlen, firstn_all. reflexivity.
  - cbn [reshape.walk]. destruct (Nat.ltb_spec i (length l)) as [Hlt|Hge]; cbn [andb].
    + unfold reshape.step.
      destruct (nth_error l i) as [x|] eqn:Ex;
        [|apply nth_error_None in Ex; lia].
      rewrite Z.eqb_refl.
      destruct (nth_error st i) as [s|] eqn:Es;
        [|apply nth_error_None in Es; lia].
      replace (firstn i st ++ [s]) with (firstn (S i) st).
      * apply IH; lia.
      * clear - Es. revert st Es. induction i as [|i IHi]; intros [|y st] Es;
          try discriminate; simpl in *.
        -- injection Es as <-. reflexivity.
        -- rewrite (IHi st Es). reflexivity.
    + assert (i = length l) by lia. subst i.
      rewrite <- Hlen, firstn_all. reflexivity.
Qed.

Lemma reshape_dims_same_dims t l st : length st = length l ->
  reshape.reshape_dims (shape_static t l st) l = Ok (Some (shape_static t l st)).
Proof.
  intros Hlen. unfold reshape.reshape_dims.
  destruct (standard (shape_static t l st)) eqn:Hstd.
  - apply standard_inv in Hstd. cbn [shape_type lens] in Hstd |- *.
    rewrite <- Hstd. reflexivity.
  - cbn [lens strides shape_type].
    pose proof (walk_same_dims l st Hlen (length l) 0%nat) as Hw.
    cbn [firstn] in Hw. rewrite Hw by lia.
    rewrite Hlen, Nat.ltb_irrefl. cbn [andb].
    rewrite Hlen, Nat.eqb_refl. reflexivity.
Qed.

Lemma initial_rdims_keeps dims : forall l pre,
  Forall2 (fun d x => d = 0 \/ (d = x /\ 0 < x < 2 ^ 64)) dims l ->
  reshape.initial_rdims dims (pre ++ l) (length pre) = Ok l.
Proof.
  induction dims as [|d dims IH]; intros l pre H; inversion H as [|? x ? l' Hd Hl]; subst.
  - reflexivity.
  - cbn [reshape.initial_rdims].
    pose proof (IH l' (pre ++ [x]) Hl) as Hrest.
    rewrite <- app_assoc, length_app in Hrest. cbn [app length] in Hrest.
    rewrite Nat.add_1_r in Hrest. rewrite Hrest.
    assert (Hx : (if d =? 0 then at_index (pre ++ x :: l') (length pre)
                  else if d =? -1 then Ok 1 else Ok (to_size_t d)) = Ok x).
    { destruct Hd as [->|[-> Hx]].
      - simpl. unfold at_index. rewrite nth_error_app2 by lia.
        rewrite Nat.sub_diag. reflexivity.
      - destruct (Z.eqb_spec x 0); [lia|]. destruct (Z.eqb_spec x (-1)); [lia|].
        unfold to_size_t. rewrite wrap_small; [reflexivity|].
        unfold is_size_t, size_t_modulus. lia. }
    rewrite Hx. reflexivity.
Qed.

Lemma count_neg_dims_keeps dims l :
  Forall2 (fun d x => d = 0 \/ (d = x /\ 0 < x < 2 ^ 64)) dims l -> reshape.count_neg_dims dims = 0%nat.
Proof.
  unfold reshape.count_neg_dims.
  induction 1 as [|d x dims l Hd _ IH]; simpl; [reflexivity|].
  destruct (Z.eqb_spec d (-1)); [|exact IH].
  destruct Hd as [->|[-> Hx]]; lia.
Qed.

(** X7: A reshape whose every entry is [0] or the input dimension of the
    same index returns the input shape itself, strides included, also
    when the input is not in standard layout. *)
Theorem reshape_same_dims_returns_input (t : type_t) (l st dims : list Z) :
  length st = length l ->
  Forall2 (fun d x => d = 0 \/ (d = x /\ 0 < x < 2 ^ 64)) dims l ->
  reshape.compute_shape dims [shape_static t l st] = Ok (shape_static t l st).
Proof.
  intros Hlen Hkeep.
  unfold reshape.compute_shape. cbn [check_shapes_has existsb length Nat.eqb negb andb orb dynamic bind].
  rewrite (count_neg_dims_keeps dims l Hkeep). cbn [Nat.ltb Nat.leb at_index nth_error bind dynamic].
  unfold reshape.static_compute_shape.
  cbn [check_shapes_has existsb length Nat.eqb negb andb orb dynamic bind at_index nth_error lens].
  pose proof (initial_rdims_keeps dims l [] Hkeep) as Hinit.
  cbn [app length] in Hinit. rewrite Hinit. cbn [bind Nat.ltb Nat.leb].
  rewrite (reshape_dims_same_dims t l st Hlen). cbn [bind].
  rewrite Z.eqb_refl. reflexivity.
Qed.

Lemma reshape_same_dims_returns_input_witness :
  reshape.compute_shape [0; 3; 0] [shape_static float_type [2; 3; 4] [1; 2; 6]] =
    Ok (shape_static float_type [2; 3; 4] [1; 2; 6]).
Proof.
  apply (reshape_same_dims_returns_input float_type [2; 3; 4] [1; 2; 6] [0; 3; 0]).
  - reflexivity.
  - repeat constructor; lia.
Defined.


Lemma row_major_strides_length l : length (row_major_strides l) = length l.
Proof.
  induction l as [|d l IH]; [reflexivity|].
  cbn [row_major_strides]. destruct l as [|d' l]; [reflexivity|].
  destruct (row_major_strides (d' :: l)) as [|s rest] eqn:E; [discriminate IH|].
  cbn [length] in *. lia.
Qed.

Lemma trailing_ones_length range stride : forall rstrides r,
  reshape.trailing_ones range stride rstrides = Some r ->
  length r = (length rstrides + length range)%nat.
Proof.
  induction range as [|d range IH]; intros rstrides r; cbn [reshape.trailing_ones].
  - intros H. injection H as <-. simpl. lia.
  - destruct (negb (d =? 1)); [discriminate|].
    intros H. apply IH in H. rewrite length_app in H. simpl in *. lia.
Qed.

Lemma reshape_dims_some input rdims s :
  reshape.reshape_dims input rdims = Ok (Some s) ->
  exists st, s = shape_static (shape_type input) rdims st /\ length st = length rdims.
Proof.
  unfold reshape.reshape_dims. destruct (standard input).
  - intros H. injection H as <-. eexists. split; [reflexivity|].
    apply row_major_strides_length.
  - destruct (reshape.walk _ _ _ _ _ _ _) as [rstrides| |]; try discriminate.
    match goal with |- match ?o with _ => _ end = _ -> _ => destruct o as [r|] end;
      [|discriminate].
    destruct (Nat.eqb_spec (length rdims) (length r)) as [E|]; [|discriminate].
    cbn [negb]. intros H. injection H as <-. exists r. split; [reflexivity|]. lia.
Qed.

Lemma initial_rdims_spec dims idims : forall i r,
  reshape.initial_rdims dims idims i = Ok r ->
  length r = length dims /\
  forall k d, nth_error dims k = Some d ->
    nth_error r k = Some (if d =? 0 then nth (i + k) idims 0
                          else if d =? -1 then 1 else to_size_t d) /\
    (d = 0 -> (i + k < length idims)%nat).
Proof.
  induction dims as [|d0 dims IH]; intros i r; cbn [reshape.initial_rdims].
  - intros H. injection H as <-. split; [reflexivity|]. intros [|k] d; discriminate.
  - destruct (if d0 =? 0 then at_index idims i
              else if d0 =? -1 then Ok 1 else Ok (to_size_t d0)) as [x| |] eqn:Ex;
      cbn [bind]; try discriminate.
    destruct (reshape.initial_rdims dims idims (S i)) as [rest| |] eqn:Er;
      cbn [bind]; try discriminate.
    intros H. injection H as <-. destruct (IH _ _ Er) as [Hlen Hnth].
    split; [simpl; lia|]. intros [|k] d Hd.
    + injection Hd as <-. rewrite Nat.add_0_r. cbn [nth_error].
      destruct (Z.eqb_spec d0 0) as [E0|].
      * unfold at_index in Ex. destruct (nth_error idims i) as [y|] eqn:Ey; [|discriminate].
        injection Ex as <-. split.
        -- f_equal. symmetry. apply nth_error_nth. exact Ey.
        -- intros _. apply nth_error_Some. congruence.
      * split; [|intros; contradiction].
        destruct (d0 =? -1); congruence.
    + cbn [nth_error] in Hd |- *. replace (i + S k)%nat with (S i + k)%nat by lia.
      apply Hnth. exact Hd.
Qed.

Lemma fill_missing_spec dims : forall r m, length r = length dims ->
  length (reshape.fill_missing dims r m) = length dims /\
  forall k d x, nth_error dims k = Some d -> nth_error r k = Some x ->
    nth_error (reshape.fill_missing dims r m) k = Some (if d =? -1 then m else x).
Proof.
  induction dims as [|d0 dims IH]; intros [|x0 r] m Hlen; try discriminate.
  - split; [reflexivity|]. intros [|k]; discriminate.
  - cbn [reshape.fill_missing]. injection Hlen as Hlen.
    destruct (IH r m Hlen) as [Hl Hn]. split; [simpl; lia|].
    intros [|k] d x Hd Hx; cbn [nth_error] in *.
    + injection Hd as <-. injection Hx as <-. reflexivity.
    + apply Hn; assumption.
Qed.

(** X8: Whenever [compute_shape] returns on a static input, the result is a
    static shape of the input's type with one dimension and one stride
    per entry of [dims] and with the input's element count; an entry [0]
    has copied the input dimension of the same index (which exists) and
    every entry other than [0] and [-1] is the dimension itself. *)
Theorem reshape_static_result (dims : list Z) (input out : shape) :
  dynamic input = false ->
  reshape.compute_shape dims [input] = Ok out ->
  out = shape_static (shape_type input) (lens out) (strides out) /\
  length (lens out) = length dims /\
  length (strides out) = length dims /\
  elements out = elements input /\
  forall k d, nth_error dims k = Some d -> d <> -1 ->
    nth_error (lens out) k =
      Some (if d =? 0 then nth k (lens input) 0 else to_size_t d) /\
    (d = 0 -> (k < length (lens input))%nat).
Proof.
  intros Hdyn. unfold reshape.compute_shape.
  cbn [check_shapes_has existsb length Nat.eqb negb andb orb bind].
  destruct (1 <? reshape.count_neg_dims dims)%nat; [discriminate|].
  cbn [at_index nth_error bind]. rewrite Hdyn.
  unfold reshape.static_compute_shape, check_shapes_has.
  cbn [existsb length Nat.eqb negb andb orb bind at_index nth_error].
  rewrite Hdyn. cbn [negb andb orb bind].
  destruct (reshape.initial_rdims dims (lens input) 0) as [r0| |] eqn:E0;
    cbn [bind]; try discriminate.
  destruct (initial_rdims_spec _ _ _ _ E0) as [Hlen0 Hnth0].
  match goal with |- bind ?c _ = _ -> _ => destruct c as [rdims| |] eqn:Er end;
    cbn [bind]; try discriminate.
  destruct (reshape.reshape_dims input rdims) as [[s|]| |] eqn:Es;
    cbn [bind]; try discriminate.
  destruct (Z.eqb_spec (elements s) (elements input)) as [Eel|]; [|discriminate].
  cbn [negb]. intros H. injection H as <-.
  destruct (reshape_dims_some _ _ _ Es) as (st & -> & Hst).
  cbn [lens strides].
  assert (Hr : length rdims = length dims /\
               forall k d x, nth_error dims k = Some d -> d <> -1 ->
                 nth_error r0 k = Some x -> nth_error rdims k = Some x).
  { destruct (0 <? reshape.count_neg_dims dims)%nat.
    - destruct (reshape.accumulate_int r0 1) as [acc| |]; cbn [bind] in Er;
        try discriminate.
      destruct (to_size_t acc =? 0); [discriminate|]. injection Er as <-.
      destruct (fill_missing_spec dims r0 (elements input / to_size_t acc) Hlen0)
        as [Hl Hn].
      split; [exact Hl|]. intros k d x Hd Hneg Hx.
      rewrite (Hn k d x Hd Hx). destruct (Z.eqb_spec d (-1)); [contradiction|reflexivity].
    - injection Er as <-. split; [exact Hlen0|]. intros; assumption. }
  destruct Hr as [Hlen Hkeep].
  repeat split; try congruence.
  - apply (Hkeep k d _ H H0). destruct (Hnth0 k d H) as [Hn _].
    rewrite Hn. cbn [Nat.add]. destruct (Z.eqb_spec d (-1)); [contradiction|reflexivity].
  - intros Hd. destruct (Hnth0 k d H) as [_ Hb]. apply Hb. exact Hd.
Qed.

Lemma reshape_static_result_witness :
  let input := shape_static float_type [2; 3; 4] [12; 4; 1] in
  let out := make_shape float_type [2; 12] in
  out = shape_static (shape_type input) (lens out) (strides out) /\
  length (lens out) = length [0; -1] /\
  length (strides out) = length [0; -1] /\
  elements out = elements input /\
  forall k d, nth_error [0; -1] k = Some d -> d <> -1 ->
    nth_error (lens out) k =
      Some (if d =? 0 then nth k (lens input) 0 else to_size_t d) /\
    (d = 0 -> (k < length (lens input))%nat).
Proof.
  apply (reshape_static_result [0; -1] (shape_static float_type [2; 3; 4] [12; 4; 1])
           (make_shape float_type [2; 12])); reflexivity.
Defined.


Lemma product_pos l : Forall (fun d => 0 < d) l -> 0 < product l.
Proof.
  unfold product. induction 1 as [|d l Hd _ IH]; cbn [fold_right]; lia.
Qed.

Lemma product_cons d l : product (d :: l) = d * product l.
Proof. reflexivity. Qed.

Lemma initial_rdims_app a b idims : forall i,
  reshape.initial_rdims (a ++ b) idims i =
    (ra <- reshape.initial_rdims a idims i ;;
     rb <- reshape.initial_rdims b idims (i + length a) ;;
     Ok (ra ++ rb)).
Proof.
  induction a as [|d a IH]; intros i.
  - cbn [app reshape.initial_rdims bind length]. rewrite Nat.add_0_r.
    destruct (reshape.initial_rdims b idims i); reflexivity.
  - cbn [app reshape.initial_rdims length]. rewrite IH.
    replace (i + S (length a))%nat with (S i + length a)%nat by lia.
    destruct (if d =? 0 then at_index idims i
              else if d =? -1 then Ok 1 else Ok (to_size_t d)); cbn [bind]; try reflexivity.
    destruct (reshape.initial_rdims a idims (S i)); cbn [bind]; try reflexivity.
    destruct (reshape.initial_rdims b idims (S i + length a)); reflexivity.
Qed.

Lemma initial_rdims_placeholder pre post idims :
  Forall (fun d => 0 < d < 2 ^ 63) (pre ++ post) ->
  reshape.initial_rdims (pre ++ -1 :: post) idims 0 = Ok (pre ++ 1 :: post).
Proof.
  intros H. apply Forall_app in H. destruct H as [Hpre Hpost].
  rewrite initial_rdims_app, (initial_rdims_positive pre idims 0 Hpre).
  simpl. rewrite (initial_rdims_positive post idims _ Hpost). reflexivity.
Qed.

Lemma count_neg_dims_placeholder pre post :
  Forall (fun d => 0 < d < 2 ^ 63) (pre ++ post) ->
  reshape.count_neg_dims (pre ++ -1 :: post) = 1%nat.
Proof.
  intros H. apply Forall_app in H. destruct H as [Hpre Hpost].
  pose proof (count_neg_dims_positive pre Hpre) as H1.
  pose proof (count_neg_dims_positive post Hpost) as H2.
  unfold reshape.count_neg_dims in *.
  rewrite filter_app, length_app. simpl. lia.
Qed.

Lemma fill_missing_placeholder pre post m :
  Forall (fun d => 0 < d < 2 ^ 63) pre ->
  Forall (fun d => 0 < d < 2 ^ 63) post ->
  reshape.fill_missing (pre ++ -1 :: post) (pre ++ 1 :: post) m = pre ++ m :: post.
Proof.
  intros Hpre Hpost. induction Hpre as [|d pre Hd _ IH].
  - simpl. f_equal.
    induction Hpost as [|d post Hd _ IH]; [reflexivity|].
    cbn [reshape.fill_missing]. destruct (Z.eqb_spec d (-1)); [lia|]. rewrite IH at 1.
    reflexivity.
  - cbn [app reshape.fill_missing]. destruct (Z.eqb_spec d (-1)); [lia|].
    rewrite IH. reflexivity.
Qed.

Lemma accumulate_int_small l : forall acc,
  Forall (fun d => 0 < d) l -> 0 < acc -> acc * product l < 2 ^ 31 ->
  reshape.accumulate_int l acc = Ok (acc * product l).
Proof.
  induction l as [|x l IH]; intros acc Hl Hacc Hsmall.
  - cbn [reshape.accumulate_int]. unfold product. cbn [fold_right]. f_equal. lia.
  - inversion Hl as [|? ? Hx Hl']; subst. rewrite product_cons in Hsmall.
    pose proof (product_pos l Hl') as Hp.
    assert (Hax : 0 < acc * x < 2 ^ 31) by nia.
    assert (Hx' : x < 2 ^ 31) by nia.
    cbn [reshape.accumulate_int].
    assert (E : to_int64 x = x).
    { unfold to_int64, wrap, size_t_modulus. rewrite Z.mod_small by lia.
      destruct (Z.ltb_spec x (2 ^ 63)); lia. }
    rewrite E.
    assert (Ein : in_int64 (acc * x) = true).
    { unfold in_int64. apply andb_true_iff. split; [apply Z.leb_le | apply Z.ltb_lt]; lia. }
    rewrite Ein.
    assert (E32 : to_int32 (acc * x) = acc * x).
    { unfold to_int32. rewrite Z.mod_small by lia.
      destruct (Z.ltb_spec (acc * x) (2 ^ 31)); lia. }
    rewrite E32, IH; [|assumption|lia|].
    + rewrite product_cons. f_equal. ring.
    + rewrite <- Z.mul_assoc. exact Hsmall.
Qed.

Lemma positive_below_product (l : list Z) :
  Forall (fun d => 0 < d) l -> Forall (fun d => 0 < d <= product l) l.
Proof.
  induction 1 as [|x l Hx Hl IH]; constructor.
  - rewrite product_cons. pose proof (product_pos l Hl). nia.
  - eapply Forall_impl; [|exact IH]. cbn beta. intros d Hd.
    rewrite product_cons. nia.
Qed.

(** X9: On a standard input, a single [-1] among positive entries whose
    product [p] is below [2^31] is inferred as [elements / p]: when [p]
    divides the element count the result is the standard shape with
    that quotient in the place of [-1], and when it does not the
    reshape is rejected with an error. *)
Theorem reshape_infers_missing_dim (input : shape) (pre post : list Z) :
  standard input = true ->
  Forall (fun d => 0 < d) (pre ++ post) ->
  product (pre ++ post) < 2 ^ 31 ->
  (elements input mod product (pre ++ post) = 0 ->
     reshape.compute_shape (pre ++ -1 :: post) [input] =
       Ok (make_shape (shape_type input)
             (pre ++ elements input / product (pre ++ post) :: post))) /\
  (elements input mod product (pre ++ post) <> 0 ->
     exists msg, reshape.compute_shape (pre ++ -1 :: post) [input] = Throw msg).
Proof.
  intros Hstd Hpos Hsmall.
  set (p := product (pre ++ post)) in *.
  assert (Hp : 0 < p) by (apply product_pos; exact Hpos).
  assert (Hbound : Forall (fun d => 0 < d < 2 ^ 63) (pre ++ post)).
  { eapply Forall_impl; [|exact (positive_below_product _ Hpos)].
    cbn beta. fold p. intros d Hd. lia. }
  assert (Hdyn : dynamic input = false) by (destruct input; simpl in *; congruence).
  assert (Hacc : reshape.accumulate_int (pre ++ 1 :: post) 1 = Ok p).
  { rewrite accumulate_int_small.
    - f_equal. rewrite product_app, product_cons. unfold p. rewrite product_app. ring.
    - apply Forall_app in Hpos. destruct Hpos. apply Forall_app. split; [assumption|].
      constructor; [lia | assumption].
    - lia.
    - rewrite product_app, product_cons. unfold p in Hsmall.
      rewrite product_app in Hsmall. lia. }
  assert (Hel : 0 <= elements input < 2 ^ 64).
  { unfold elements. rewrite product_size_t_wrap. apply wrap_range. }
  assert (Hrun : reshape.compute_shape (pre ++ -1 :: post) [input] =
    (let s := make_shape (shape_type input) (pre ++ elements input / p :: post) in
     if negb (elements s =? elements input)
     then Throw ("Reshape: Wrong number of elements for reshape: reshape has " ++
                 to_string (elements s) ++ " elements whereas the input has " ++
                 to_string (elements input))%string
     else Ok s)).
  { unfold reshape.compute_shape, check_shapes_has.
    cbn [existsb length Nat.eqb negb andb orb bind].
    rewrite (count_neg_dims_placeholder pre post Hbound).
    cbn [Nat.ltb Nat.leb at_index nth_error bind]. rewrite Hdyn.
    unfold reshape.static_compute_shape, check_shapes_has.
    cbn [existsb length Nat.eqb negb andb orb bind at_index nth_error].
    rewrite Hdyn. cbn [negb andb orb bind].
    rewrite (initial_rdims_placeholder pre post _ Hbound). cbn [bind Nat.ltb Nat.leb].
    rewrite Hacc. cbn [bind].
    assert (Ediv : to_size_t p = p).
    { unfold to_size_t. apply wrap_small. unfold is_size_t, size_t_modulus. lia. }
    rewrite Ediv. destruct (Z.eqb_spec p 0); [lia|].
    apply Forall_app in Hbound. destruct Hbound as [Hb1 Hb2].
    rewrite (fill_missing_placeholder pre post _ Hb1 Hb2). cbn [bind].
    unfold reshape.reshape_dims. rewrite Hstd. cbn [bind]. reflexivity. }
  rewrite Hrun. cbv zeta.
  assert (Eout : elements (make_shape (shape_type input)
                             (pre ++ elements input / p :: post)) =
                 wrap (elements input / p * p)).
  { unfold elements at 1. cbn [make_shape lens]. rewrite product_size_t_wrap.
    f_equal. rewrite product_app, product_cons. unfold p. rewrite product_app. ring. }
  rewrite Eout. split; intros Hmod.
  - replace (elements input / p * p) with (elements input)
      by (rewrite (Z.div_mod (elements input) p) at 1 by lia; lia).
    rewrite wrap_small by (unfold is_size_t, size_t_modulus; lia).
    rewrite Z.eqb_refl. reflexivity.
  - pose proof (Z.div_mod (elements input) p ltac:(lia)) as Hdm.
    pose proof (Z.mod_pos_bound (elements input) p Hp) as Hmb.
    assert (0 <= elements input / p) by (apply Z.div_pos; lia).
    rewrite wrap_small by (unfold is_size_t, size_t_modulus; nia).
    destruct (Z.eqb_spec (elements input / p * p) (elements input)); [lia|].
    eexists. reflexivity.
Qed.

Lemma reshape_infers_missing_dim_witness :
  reshape.compute_shape [2; -1; 3] [make_shape float_type [2; 3; 4]] =
    Ok (make_shape float_type [2; 4; 3]) /\
  exists msg,
    reshape.compute_shape [5; -1] [make_shape float_type [2; 3; 4]] = Throw msg.
Proof.
  split.
  - apply (reshape_infers_missing_dim (make_shape float_type [2; 3; 4]) [2] [3]).
    + reflexivity.
    + repeat constructor.
    + reflexivity.
    + reflexivity.
  - apply (reshape_infers_missing_dim (make_shape float_type [2; 3; 4]) [5] []).
    + reflexivity.
    + repeat constructor.
    + reflexivity.
    + discriminate.
Defined.


Lemma to_int32_range z : - 2 ^ 31 <= to_int32 z < 2 ^ 31.
Proof.
  unfold to_int32. pose proof (Z.mod_pos_bound z (2 ^ 32) ltac:(lia)) as H.
  destruct (Z.ltb_spec (z mod 2 ^ 32) (2 ^ 31)); lia.
Qed.

Lemma to_int32_mod z : to_int32 z mod 2 ^ 32 = z mod 2 ^ 32.
Proof.
  unfold to_int32. destruct (Z.ltb_spec (z mod 2 ^ 32) (2 ^ 31)).
  - apply Z.mod_mod. lia.
  - rewrite <- (Z.mod_add _ 1 (2 ^ 32)) by lia.
    replace (z mod 2 ^ 32 - 2 ^ 32 + 1 * 2 ^ 32) with (z mod 2 ^ 32) by lia.
    apply Z.mod_mod. lia.
Qed.

Lemma to_int64_small x : 0 <= x < 2 ^ 63 -> to_int64 x = x.
Proof.
  intros H. unfold to_int64, wrap, size_t_modulus. rewrite Z.mod_small by lia.
  destruct (Z.ltb_spec x (2 ^ 63)); lia.
Qed.

(** The [int] accumulator of [std::accumulate] holds the product of the
    range modulo [2^32]. *)
Lemma accumulate_int_mod l : forall acc r,
  Forall (fun d => 0 <= d < 2 ^ 63) l ->
  reshape.accumulate_int l acc = Ok r ->
  r mod 2 ^ 32 = (acc * product l) mod 2 ^ 32 /\
  (l <> [] -> - 2 ^ 31 <= r < 2 ^ 31).
Proof.
  induction l as [|x l IH]; intros acc r Hl; cbn [reshape.accumulate_int].
  - intros H. injection H as <-. split; [|congruence].
    unfold product. cbn [fold_right]. f_equal. lia.
  - inversion Hl as [|? ? Hx Hl']; subst. rewrite (to_int64_small x Hx).
    destruct (in_int64 (acc * x)); [|discriminate].
    intros H. destruct (IH _ _ Hl' H) as [Hmod Hrange]. split.
    + rewrite Hmod, product_cons.
      rewrite <- Z.mul_mod_idemp_l, to_int32_mod, Z.mul_mod_idemp_l by lia.
      f_equal. ring.
    + intros _. destruct l as [|y l].
      * cbn [reshape.accumulate_int] in H. injection H as <-. apply to_int32_range.
      * apply Hrange. discriminate.
Qed.

Lemma accumulate_int_no_throw l : forall acc msg,
  reshape.accumulate_int l acc <> Throw msg.
Proof.
  induction l as [|x l IH]; intros acc msg; cbn [reshape.accumulate_int]; [discriminate|].
  destruct (in_int64 (acc * to_int64 x)); [apply IH | discriminate].
Qed.

(** X10: The divisor that infers a [-1] entry is accumulated in an [int]:
    when the product of the other entries is a multiple of [2^32] the
    divisor is zero (or the product has overflowed), and [compute_shape]
    on a static input has no defined result. *)
Theorem reshape_missing_dim_division_by_zero (input : shape) (pre post : list Z) :
  dynamic input = false ->
  Forall (fun d => 0 < d < 2 ^ 63) (pre ++ post) ->
  product (pre ++ post) mod 2 ^ 32 = 0 ->
  reshape.compute_shape (pre ++ -1 :: post) [input] = Undefined.
Proof.
  intros Hdyn Hbound Hzero.
  unfold reshape.compute_shape, check_shapes_has.
  cbn [existsb length Nat.eqb negb andb orb bind].
  rewrite (count_neg_dims_placeholder pre post Hbound).
  cbn [Nat.ltb Nat.leb at_index nth_error bind]. rewrite Hdyn.
  unfold reshape.static_compute_shape, check_shapes_has.
  cbn [existsb length Nat.eqb negb andb orb bind at_index nth_error].
  rewrite Hdyn. cbn [negb andb orb bind].
  rewrite (initial_rdims_placeholder pre post _ Hbound). cbn [bind Nat.ltb Nat.leb].
  destruct (reshape.accumulate_int (pre ++ 1 :: post) 1) as [acc|msg|] eqn:Eacc;
    cbn [bind]; [|exfalso; exact (accumulate_int_no_throw _ _ _ Eacc)|reflexivity].
  assert (Hl : Forall (fun d => 0 <= d < 2 ^ 63) (pre ++ 1 :: post)).
  { apply Forall_app in Hbound. destruct Hbound as [H1 H2]. apply Forall_app. split.
    - eapply Forall_impl; [|exact H1]. cbn beta. intros; lia.
    - constructor; [lia|]. eapply Forall_impl; [|exact H2]. cbn beta. intros; lia. }
  destruct (accumulate_int_mod _ _ _ Hl Eacc) as [Hmod Hrange].
  assert (Hne : pre ++ 1 :: post <> []) by (destruct pre; discriminate).
  specialize (Hrange Hne).
  replace (1 * product (pre ++ 1 :: post)) with (product (pre ++ post)) in Hmod
    by (rewrite !product_app, product_cons; ring).
  rewrite Hzero in Hmod.
  assert (acc = 0).
  { apply Z.mod_divide in Hmod; [|lia]. destruct Hmod as [c Hc]. lia. }
  subst acc. reflexivity.
Qed.

Lemma reshape_missing_dim_division_by_zero_witness :
  reshape.compute_shape [-1; 65536; 65536] [make_shape float_type [4; 65536; 65536]] =
    Undefined.
Proof.
  apply (reshape_missing_dim_division_by_zero
           (make_shape float_type [4; 65536; 65536]) [] [65536; 65536]).
  - reflexivity.
  - repeat constructor.
  - reflexivity.
Defined.

Lemma initial_rdims_out_of_range dims idims : forall i k,
  nth_error dims k = Some 0 -> (length idims <= i + k)%nat ->
  reshape.initial_rdims dims idims i = Undefined.
Proof.
  induction dims as [|d dims IH]; intros i [|k] Hk Hlen; try discriminate;
    cbn [nth_error] in Hk; cbn [reshape.initial_rdims].
  - injection Hk as ->. cbn [Z.eqb]. unfold at_index.
    assert (E : nth_error idims i = None) by (apply nth_error_None; lia).
    rewrite E. reflexivity.
  - rewrite (IH (S i) k Hk) by lia.
    destruct (d =? 0); [unfold at_index; destruct (nth_error idims i); reflexivity|].
    destruct (d =? -1); reflexivity.
Qed.

(** X11: An entry [0] of [dims] at an index [k] the input does not have
    makes [static_compute_shape] evaluate [idims[k]] beyond the end of
    the vector, and nothing checks the index before: the access is out
    of range, which C++ leaves undefined, so the source fixes no result
    of [compute_shape] on such a static input (a build reads whatever
    follows the vector and goes on with it). *)
Theorem reshape_zero_beyond_input_rank (dims : list Z) (input : shape) (k : nat) :
  dynamic input = false ->
  (reshape.count_neg_dims dims <= 1)%nat ->
  nth_error dims k = Some 0 ->
  (length (lens input) <= k)%nat ->
  at_index (lens input) k = Undefined /\
  reshape.initial_rdims dims (lens input) 0 = Undefined /\
  reshape.compute_shape dims [input] = Undefined.
Proof.
  intros Hdyn Hneg Hk Hlen.
  split.
  { unfold at_index.
    assert (E : nth_error (lens input) k = None) by (apply nth_error_None; lia).
    rewrite E. reflexivity. }
  split; [apply (initial_rdims_out_of_range dims (lens input) 0 k Hk); lia|].
  unfold reshape.compute_shape, check_shapes_has.
  cbn [existsb length Nat.eqb negb andb orb bind].
  destruct (Nat.ltb_spec 1 (reshape.count_neg_dims dims)); [lia|].
  cbn [at_index nth_error bind]. rewrite Hdyn.
  unfold reshape.static_compute_shape, check_shapes_has.
  cbn [existsb length Nat.eqb negb andb orb bind at_index nth_error].
  rewrite Hdyn. cbn [negb andb orb bind].
  rewrite (initial_rdims_out_of_range dims (lens input) 0 k Hk) by lia.
  reflexivity.
Qed.

Lemma reshape_zero_beyond_input_rank_witness :
  at_index (lens (make_shape float_type [2; 3])) 2 = Undefined /\
  reshape.initial_rdims [6; 1; 0] (lens (make_shape float_type [2; 3])) 0 = Undefined /\
  reshape.compute_shape [6; 1; 0] [make_shape float_type [2; 3]] = Undefined.
Proof.
  apply (reshape_zero_beyond_input_rank [6; 1; 0] (make_shape float_type [2; 3]) 2).
  - reflexivity.
  - vm_compute. lia.
  - reflexivity.
  - simpl. lia.
Defined.


Lemma count_fixed_elements_reads dims dds : forall i a b r,
  reshape.count_fixed_elements dims dds i a b = Ok r ->
  forall k dd, nth_error dds k = Some dd ->
    exists d, nth_error dims (i + k) = Some d /\
              (is_fixed dd = false -> d = 0 \/ d = -1).
Proof.
  induction dds as [|dd0 dds IH]; intros i a b r; cbn [reshape.count_fixed_elements].
  - intros _ [|k] dd; discriminate.
  - unfold at_index. destruct (nth_error dims i) as [d0|] eqn:Ed; cbn [bind]; [|discriminate].
    intros H [|k] dd Hk; cbn [nth_error] in Hk.
    + injection Hk as <-. exists d0. rewrite Nat.add_0_r. split; [exact Ed|].
      intros Hfix. rewrite Hfix in H.
      destruct (Z.eqb_spec d0 0); [left; assumption|].
      destruct (Z.eqb_spec d0 (-1)); [right; assumption|]. discriminate.
    + replace (i + S k)%nat with (S i + k)%nat by lia.
      destruct (is_fixed dd0); [exact (IH _ _ _ _ H k dd Hk)|].
      destruct (negb (d0 =? 0) && negb (d0 =? -1)); [discriminate|].
      exact (IH _ _ _ _ H k dd Hk).
Qed.

Lemma output_dyn_dims_spec dims : forall dds out,
  reshape.output_dyn_dims dims dds = Ok out ->
  length out = length dims /\ (length dims <= length dds)%nat /\
  forall k d dd, nth_error dims k = Some d -> nth_error dds k = Some dd ->
    nth_error out k =
      Some (if negb (is_fixed dd) then dd else mk_dd (to_size_t d) (to_size_t d) []).
Proof.
  induction dims as [|d0 dims IH]; intros dds out; cbn [reshape.output_dyn_dims].
  - intros H. injection H as <-. repeat split; [simpl; lia|]. intros [|k]; discriminate.
  - destruct dds as [|dd0 dds]; [discriminate|].
    destruct (reshape.output_dyn_dims dims dds) as [rest| |] eqn:Er; cbn [bind];
      try discriminate.
    intros H. injection H as <-. destruct (IH _ _ Er) as (Hlen & Hle & Hnth).
    repeat split; [simpl; lia | simpl; lia |].
    intros [|k] d dd Hd Hdd; cbn [nth_error] in *.
    + injection Hd as <-. injection Hdd as <-. reflexivity.
    + apply Hnth; assumption.
Qed.

(** X12: Whenever [compute_shape] returns on a dynamic input, [dims] has one
    entry per input dimension, exactly one input dimension is not fixed,
    and the result is the dynamic shape of the input's type in which the
    non-fixed dimension is kept as it is (its entry of [dims] being [0]
    or [-1]) and every fixed dimension has become the range made of its
    entry of [dims] alone. *)
Theorem reshape_dynamic_result (dims : list Z) (s0 out : shape) :
  dynamic s0 = true ->
  reshape.compute_shape dims [s0] = Ok out ->
  length dims = length (dyn_dims s0) /\
  reshape.num_not_fixed s0 = 1%nat /\
  exists odds,
    out = shape_dynamic (shape_type s0) odds /\
    length odds = length dims /\
    forall k d dd, nth_error dims k = Some d -> nth_error (dyn_dims s0) k = Some dd ->
      (is_fixed dd = true ->
         nth_error odds k = Some (mk_dd (to_size_t d) (to_size_t d) [])) /\
      (is_fixed dd = false ->
         nth_error odds k = Some dd /\ (d = 0 \/ d = -1)).
Proof.
  intros Hdyn. unfold reshape.compute_shape, check_shapes_has.
  cbn [existsb length Nat.eqb negb andb orb bind].
  destruct (1 <? reshape.count_neg_dims dims)%nat; [discriminate|].
  cbn [at_index nth_error bind]. rewrite Hdyn.
  unfold reshape.dyn_compute_shape.
  destruct (Nat.eqb_spec (reshape.num_not_fixed s0) 1) as [Hone|]; [|discriminate].
  cbn [negb].
  destruct (reshape.count_fixed_elements dims (dyn_dims s0) 0 1 1) as [[a b]| |] eqn:Ec;
    cbn [bind]; try discriminate.
  destruct (negb (a =? b)); [discriminate|].
  destruct (reshape.output_dyn_dims dims (dyn_dims s0)) as [odds| |] eqn:Eo;
    cbn [bind]; try discriminate.
  intros H. injection H as <-.
  destruct (output_dyn_dims_spec _ _ _ Eo) as (Hlen & Hle & Hnth).
  pose proof (count_fixed_elements_reads _ _ _ _ _ _ Ec) as Hreads.
  assert (Hrank : length dims = length (dyn_dims s0)).
  { apply Nat.le_antisymm; [exact Hle|].
    destruct (dyn_dims s0) as [|dd0 dds] eqn:Edd; [simpl; lia|].
    destruct (nth_error (dd0 :: dds) (length dds)) as [dd|] eqn:Elast.
    - destruct (Hreads _ _ Elast) as (d & Hd & _). cbn [Nat.add] in Hd.
      assert (length dds < length dims)%nat by (apply nth_error_Some; congruence).
      simpl. lia.
    - apply nth_error_None in Elast. simpl in Elast. lia. }
  split; [exact Hrank|]. split; [exact Hone|].
  exists odds. split; [reflexivity|]. split; [exact Hlen|].
  intros k d dd Hd Hdd. rewrite (Hnth k d dd Hd Hdd). split; intros Hfix; rewrite Hfix.
  - reflexivity.
  - split; [reflexivity|].
    destruct (Hreads _ _ Hdd) as (d' & Hd' & Hph). cbn [Nat.add] in Hd'.
    assert (d' = d) by congruence. subst d'. exact (Hph Hfix).
Qed.

Lemma reshape_dynamic_result_witness :
  let s0 := shape_dynamic float_type [mk_dd 1 4 []; mk_dd 3 3 []; mk_dd 2 2 []] in
  length [0; 2; 3] = length (dyn_dims s0) /\
  reshape.num_not_fixed s0 = 1%nat /\
  exists odds,
    shape_dynamic float_type [mk_dd 1 4 []; mk_dd 2 2 []; mk_dd 3 3 []] =
      shape_dynamic (shape_type s0) odds /\
    length odds = length [0; 2; 3] /\
    forall k d dd, nth_error [0; 2; 3] k = Some d -> nth_error (dyn_dims s0) k = Some dd ->
      (is_fixed dd = true ->
         nth_error odds k = Some (mk_dd (to_size_t d) (to_size_t d) [])) /\
      (is_fixed dd = false ->
         nth_error odds k = Some dd /\ (d = 0 \/ d = -1)).
Proof.
  apply (reshape_dynamic_result [0; 2; 3]
           (shape_dynamic float_type [mk_dd 1 4 []; mk_dd 3 3 []; mk_dd 2 2 []])
           (shape_dynamic float_type [mk_dd 1 4 []; mk_dd 2 2 []; mk_dd 3 3 []]));
    reflexivity.
Defined.


(** ** [miopen_convolution] and [precompile_op]: the other members *)

(** X13: [reshape_if_1d] turns the lens [[a; b; c]] into [[a; b; 1; c]] in
    standard layout and leaves every shape of another rank as it is; it
    keeps the element type and the element count, and applying it twice
    is applying it once. *)
Theorem reshape_if_1d_inserts_unit_dim (input : shape) :
  (forall a b c, lens input = [a; b; c] ->
     convolution.reshape_if_1d input = make_shape (shape_type input) [a; b; 1; c]) /\
  (length (lens input) <> 3%nat -> convolution.reshape_if_1d input = input) /\
  shape_type (convolution.reshape_if_1d input) = shape_type input /\
  elements (convolution.reshape_if_1d input) = elements input /\
  convolution.reshape_if_1d (convolution.reshape_if_1d input) =
    convolution.reshape_if_1d input.
Proof.
  unfold convolution.reshape_if_1d.
  split; [intros a b c E; rewrite E; reflexivity|].
  split; [intros H; apply Nat.eqb_neq in H; rewrite H; reflexivity|].
  destruct (Nat.eqb_spec (length (lens input)) 3) as [E|E].
  - destruct (lens input) as [|a [|b [|c [|d l]]]] eqn:El; try discriminate E.
    cbn [firstn skipn app make_shape shape_type lens length Nat.eqb].
    split; [reflexivity|]. split; [|reflexivity].
    unfold elements. cbn [lens]. rewrite El, !product_size_t_wrap.
    apply (f_equal wrap). unfold product. cbn [make_shape lens fold_right]. ring.
  - apply Nat.eqb_neq in E. rewrite E. repeat split.
Qed.

(** X14: [pack_int8_shape] returns every shape that is not of type int8 as it
    is.  On an int8 shape of rank two or more it rounds [lens[1]] up to
    the next multiple of 4 (when [lens[1] + 3] does not wrap around),
    sets [strides[0]] to [strides[1]] times the new [lens[1]], keeps
    every other dimension and stride, and packing the result again
    changes nothing. *)
Theorem pack_int8_shape_rounds_up (s : shape) (l0 l1 s0 s1 : Z) (lr sr : list Z) :
  lens s = l0 :: l1 :: lr ->
  strides s = s0 :: s1 :: sr ->
  0 <= l1 -> l1 + 3 < 2 ^ 64 ->
  (shape_type s <> int8_type -> convolution.pack_int8_shape s = Ok s) /\
  (shape_type s = int8_type ->
     exists l1',
       l1 <= l1' < l1 + 4 /\ l1' mod 4 = 0 /\
       convolution.pack_int8_shape s =
         Ok (shape_static int8_type (l0 :: l1' :: lr) (mul_size_t s1 l1' :: s1 :: sr)) /\
       convolution.pack_int8_shape
         (shape_static int8_type (l0 :: l1' :: lr) (mul_size_t s1 l1' :: s1 :: sr)) =
         Ok (shape_static int8_type (l0 :: l1' :: lr) (mul_size_t s1 l1' :: s1 :: sr))).
Proof.
  intros El Es Hl Hfit. unfold convolution.pack_int8_shape. split.
  - intros Ht. destruct (shape_type s); try reflexivity. contradiction.
  - intros Ht. rewrite Ht, El, Es. cbn [type_eqb negb shape_type lens strides].
    assert (Hw : forall z, 0 <= z -> z + 3 < 2 ^ 64 ->
                 mul_size_t (wrap (z + 3) / 4) 4 = (z + 3) / 4 * 4).
    { intros z Hz Hz3. rewrite (wrap_small (z + 3))
        by (unfold is_size_t, size_t_modulus; lia).
      unfold mul_size_t. apply wrap_small. unfold is_size_t, size_t_modulus.
      pose proof (Z.mul_div_le (z + 3) 4 ltac:(lia)).
      pose proof (Z.div_pos (z + 3) 4 ltac:(lia) ltac:(lia)). lia. }
    rewrite (Hw l1 Hl Hfit).
    pose proof (Z.div_mod (l1 + 3) 4 ltac:(lia)) as Hdm.
    pose proof (Z.mod_pos_bound (l1 + 3) 4 ltac:(lia)) as Hmb.
    exists ((l1 + 3) / 4 * 4). split; [lia|].
    split; [apply Z.mod_mul; lia|]. split; [reflexivity|].
    rewrite Hw by lia.
    replace (((l1 + 3) / 4 * 4 + 3) / 4) with ((l1 + 3) / 4); [reflexivity|].
    symmetry. rewrite (Z.add_comm (_ * 4) 3), Z.div_add by lia. reflexivity.
Qed.

Lemma pack_int8_shape_rounds_up_witness :
  (shape_type (make_shape int8_type [2; 5; 3]) <> int8_type ->
     convolution.pack_int8_shape (make_shape int8_type [2; 5; 3]) =
       Ok (make_shape int8_type [2; 5; 3])) /\
  (shape_type (make_shape int8_type [2; 5; 3]) = int8_type ->
     exists l1',
       5 <= l1' < 5 + 4 /\ l1' mod 4 = 0 /\
       convolution.pack_int8_shape (make_shape int8_type [2; 5; 3]) =
         Ok (shape_static int8_type [2; l1'; 3] [mul_size_t 3 l1'; 3; 1]) /\
       convolution.pack_int8_shape
         (shape_static int8_type [2; l1'; 3] [mul_size_t 3 l1'; 3; 1]) =
         Ok (shape_static int8_type [2; l1'; 3] [mul_size_t 3 l1'; 3; 1])).
Proof.
  apply (pack_int8_shape_rounds_up (make_shape int8_type [2; 5; 3]) 2 5 15 3 [3] [1]).
  - reflexivity.
  - reflexivity.
  - lia.
  - lia.
Defined.

(** X15: [output_alias] of [precompile_op] and of [miopen_convolution] is the
    index of the last input shape; on an empty list the subtraction
    wraps around and the result is [-1]. *)
Theorem output_alias_last_input (shapes : list shape) :
  Z.of_nat (length shapes) < 2 ^ 63 ->
  precompile.output_alias shapes = Z.of_nat (length shapes) - 1 /\
  convolution.output_alias shapes = Z.of_nat (length shapes) - 1 /\
  (forall d, shapes <> [] ->
     nth (Z.to_nat (convolution.output_alias shapes)) shapes d = last shapes d).
Proof.
  intros Hlen.
  assert (E : last_index shapes = Z.of_nat (length shapes) - 1).
  { unfold last_index, to_int64. rewrite wrap_idem.
    destruct shapes as [|x l]; [reflexivity|].
    rewrite wrap_small by (unfold is_size_t, size_t_modulus; cbn [length] in *; lia).
    destruct (Z.ltb_spec (Z.of_nat (length (x :: l)) - 1) (2 ^ 63)); lia. }
  unfold precompile.output_alias, convolution.output_alias. rewrite E.
  repeat split. intros d Hne.
  replace (Z.to_nat (Z.of_nat (length shapes) - 1)) with (length shapes - 1)%nat by lia.
  clear. induction shapes as [|x l IH]; [reflexivity|].
  destruct l as [|y l]; [reflexivity|].
  cbn [length Nat.sub nth last] in *. rewrite Nat.sub_0_r in IH. exact IH.
Qed.

Lemma output_alias_last_input_witness :
  precompile.output_alias ([] : list shape) = -1 /\
  convolution.output_alias
    [make_shape float_type [1]; make_shape float_type [2]; make_shape float_type [3]] = 2.
Proof.
  split.
  - apply (output_alias_last_input []). simpl. lia.
  - apply (output_alias_last_input
             [make_shape float_type [1]; make_shape float_type [2];
              make_shape float_type [3]]). simpl. lia.
Defined.


Lemma finalize_loads (load : list Z -> miopen_convolution.miopenStatus_t * nat)
  self ctx self' log :
  miopen_convolution.finalize load self ctx = Ok (self', log) ->
  miopen_convolution.op_name self' = miopen_convolution.op_name self /\
  exists ptr, miopen_convolution.solution_ptr self' = Some ptr.
Proof.
  unfold miopen_convolution.finalize.
  destruct (miopen_convolution.solution_ptr self) as [p|] eqn:Ep.
  - intros H. injection H as <- _. split; [reflexivity|]. exists p. exact Ep.
  - destruct (load (miopen_convolution.solution_object self)) as [status ptr].
    destruct (negb (miopen_convolution.status_eqb status
                      miopen_convolution.miopenStatusSuccess)); [discriminate|].
    destruct (negb (miopen_convolution.cu_count ctx =?
                    miopen_convolution.current_cu_count ctx) ||
              negb (String.eqb (miopen_convolution.gfx_arch ctx)
                      (miopen_convolution.current_gfx_arch ctx))); [discriminate|].
    intros H. injection H as <- _. split; [reflexivity|]. exists ptr. reflexivity.
Qed.

(** X16: After a [finalize] that returned, [compute] on four arguments whose
    tensor descriptors can be built never reports a missing solution:
    it runs the loaded solution and returns its fourth argument, the one
    [output_alias] designates, or throws that running the convolution
    failed when the library reports a status other than success. *)
Theorem convolution_compute_after_finalize
  (load : list Z -> miopen_convolution.miopenStatus_t * nat)
  (self self' : miopen_convolution.t) (ctx : miopen_convolution.context)
  (log : list string)
  (tensor_descriptor : Type) (make_tensor : shape -> bool -> outcome tensor_descriptor)
  (bytes : shape -> Z)
  (miopenRunSolution : nat -> reshape.argument -> reshape.argument ->
     reshape.argument -> reshape.argument -> Z -> miopen_convolution.miopenStatus_t)
  (int8_x4_format : bool) (output_shape : shape) (a0 a1 a2 a3 : reshape.argument) :
  miopen_convolution.finalize load self ctx = Ok (self', log) ->
  (forall s b, exists d, make_tensor s b = Ok d) ->
  exists ptr,
    miopen_convolution.solution_ptr self' = Some ptr /\
    convolution.compute tensor_descriptor make_tensor bytes miopenRunSolution
      self' int8_x4_format output_shape [a0; a1; a2; a3] =
      (if miopen_convolution.status_eqb
            (miopenRunSolution ptr a0 a1 a3 a2 (bytes (reshape.arg_shape a2)))
            miopen_convolution.miopenStatusSuccess
       then Ok a3
       else Throw (convolution.run_failed_message self)) /\
    nth_error [a0; a1; a2; a3]
      (Z.to_nat (convolution.output_alias
                   (map reshape.arg_shape [a0; a1; a2; a3]))) = Some a3.
Proof.
  intros Hfin Htensor.
  destruct (finalize_loads load self ctx self' log Hfin) as (Hname & ptr & Hptr).
  exists ptr. split; [exact Hptr|]. split; [|reflexivity].
  unfold convolution.compute. cbn [at_index nth_error bind].
  destruct (Htensor (convolution.reshape_if_1d (reshape.arg_shape a0)) int8_x4_format)
    as (d0 & ->).
  destruct (Htensor (convolution.reshape_if_1d (reshape.arg_shape a1)) int8_x4_format)
    as (d1 & ->).
  destruct (Htensor (convolution.reshape_if_1d output_shape) false) as (d2 & ->).
  cbn [bind]. rewrite Hptr.
  unfold convolution.run_failed_message. rewrite Hname.
  destruct (miopen_convolution.status_eqb _ _); reflexivity.
Qed.

Lemma convolution_compute_after_finalize_witness :
  let self := miopen_convolution.mk "convolution" [1; 2] None in
  let a := reshape.mk_argument 0 (make_shape float_type [1; 3; 8]) in
  let out := reshape.mk_argument 3 (make_shape float_type [1; 4; 6]) in
  exists ptr,
    miopen_convolution.solution_ptr
      (miopen_convolution.mk "convolution" [1; 2] (Some 7%nat)) = Some ptr /\
    convolution.compute unit (fun _ _ => Ok tt) (fun _ => 0)
      (fun _ _ _ _ _ _ => miopen_convolution.miopenStatusSuccess)
      (miopen_convolution.mk "convolution" [1; 2] (Some 7%nat))
      false (make_shape float_type [1; 4; 6]) [a; a; a; out] =
      (if miopen_convolution.status_eqb miopen_convolution.miopenStatusSuccess
            miopen_convolution.miopenStatusSuccess
       then Ok out
       else Throw (convolution.run_failed_message self)) /\
    nth_error [a; a; a; out]
      (Z.to_nat (convolution.output_alias (map reshape.arg_shape [a; a; a; out]))) =
      Some out.
Proof.
  intros self a out.
  apply (convolution_compute_after_finalize
           (fun _ => (miopen_convolution.miopenStatusSuccess, 7%nat))
           self (miopen_convolution.mk "convolution" [1; 2] (Some 7%nat))
           (miopen_convolution.mk_context "gfx90a" 104 "3.0" "gfx90a" 104) []
           unit (fun _ _ => Ok tt) (fun _ => 0)
           (fun _ _ _ _ _ _ => miopen_convolution.miopenStatusSuccess)
           false (make_shape float_type [1; 4; 6]) a a a out).
  - reflexivity.
  - intros s b. exists tt. reflexivity.
Defined.


(** ** [parallel_reduce] and [precompile_op]: shape inference *)

Lemma transform_of_Forall2 {A B} (f : A -> outcome B) l l' :
  Forall2 (fun x y => f x = Ok y) l l' -> transform f l = Ok l'.
Proof.
  induction 1 as [|x y l l' Hxy _ IH]; [reflexivity|].
  cbn [transform]. rewrite Hxy, IH. reflexivity.
Qed.

Lemma transform_first_throw {A B} (f : A -> outcome B) pre x post msg :
  Forall (fun i => exists r, f i = Ok r) pre -> f x = Throw msg ->
  transform f (pre ++ x :: post) = Throw msg.
Proof.
  intros Hpre Hx. induction Hpre as [|i pre [r Hi] _ IH]; cbn [app transform].
  - rewrite Hx. reflexivity.
  - rewrite Hi, IH. reflexivity.
Qed.

(** X17: The shape of [parallel_reduce] is a tuple with one slot per input:
    slot [k] is the shape the wrapped operator infers from input [k]
    alone, and the first input that the wrapped operator rejects makes
    [compute_shape] throw the same error. *)
Theorem parallel_reduce_shape_is_tuple
  (gcs : string -> list (string * Z) -> list shape -> outcome shape)
  (op : operation) (inputs : list shape) :
  (forall s,
     compute_shape gcs (parallel_reduce op) inputs = Ok s <->
     exists subs, s = shape_tuple subs /\
       Forall2 (fun input r => compute_shape gcs op [input] = Ok r) inputs subs) /\
  (forall pre x post msg,
     inputs = pre ++ x :: post ->
     Forall (fun i => exists r, compute_shape gcs op [i] = Ok r) pre ->
     compute_shape gcs op [x] = Throw msg ->
     compute_shape gcs (parallel_reduce op) inputs = Throw msg).
Proof.
  split.
  - intros s. cbn [compute_shape]. split.
    + destruct (transform (fun input => compute_shape gcs op [input]) inputs)
        as [subs| |] eqn:E; cbn [bind]; try discriminate.
      intros H. injection H as <-. exists subs. split; [reflexivity|].
      apply transform_Forall2 in E. exact E.
    + intros (subs & -> & H).
      rewrite (transform_of_Forall2 (fun input => compute_shape gcs op [input]) _ _ H).
      reflexivity.
  - intros pre x post msg -> Hpre Hx. cbn [compute_shape].
    rewrite (transform_first_throw (fun input => compute_shape gcs op [input])
               pre x post msg Hpre Hx).
    reflexivity.
Qed.

(** X18: The shape of [precompile_op] is the shape the wrapped operator
    infers from the inputs without the last [additional_args] ones,
    whatever those are; with fewer inputs than [additional_args] it
    returns no shape. *)
Theorem precompile_op_shape_ignores_additional_args
  (gcs : string -> list (string * Z) -> list shape -> outcome shape)
  (op : operation) (additional_args : nat) (ignore_modules : bool) :
  (forall inputs extra,
     length extra = additional_args ->
     compute_shape gcs (precompile_op op additional_args ignore_modules)
       (inputs ++ extra) = compute_shape gcs op inputs) /\
  (forall inputs s,
     (length inputs < additional_args)%nat ->
     compute_shape gcs (precompile_op op additional_args ignore_modules) inputs <> Ok s).
Proof.
  split.
  - intros inputs extra Hlen. cbn [compute_shape].
    rewrite length_app, Hlen.
    destruct (Nat.ltb_spec (length inputs + additional_args) additional_args); [lia|].
    replace (length inputs + additional_args - additional_args)%nat
      with (length inputs + 0)%nat by lia.
    rewrite firstn_app_2. cbn [firstn]. rewrite app_nil_r. reflexivity.
  - intros inputs s Hlen. cbn [compute_shape].
    destruct (Nat.ltb_spec (length inputs) additional_args); [discriminate | lia].
Qed.


(** ** [compile_ops]: placeholders that are not replaced *)

Lemma plans_keep
  (gcs : string -> list (string * Z) -> list shape -> outcome shape)
  (value : Type) (null_value : value)
  (get_tuning_config : instruction -> operation -> option (list value))
  (compile : instruction -> operation -> value -> outcome operation)
  (m : module) scan :
  NoDup (map ins_id m) ->
  (forall x, In x scan -> In x m) ->
  (forall x, In x scan -> compile_ops_spec.placeholder x = true ->
     exists op a b solutions,
       ins_op x = precompile_op op a b /\
       get_tuning_config x op = Some solutions /\
       length solutions <> 1%nat /\
       forall solution, In solution solutions ->
         exists code, compile x op solution = Ok code) ->
  exists cps0 cps1 cps2,
    compile_ops.find_precompile_ops value scan = Ok cps0 /\
    transform (compile_ops.update_config value get_tuning_config m) cps0 = Ok cps1 /\
    transform (compile_ops.run_compiles value null_value compile m) cps1 = Ok cps2 /\
    forall mc, compile_ops.replace_all gcs value mc cps2 = Ok mc.
Proof.
  intros Hnd. induction scan as [|x rest IH]; intros Hsub Hall.
  - exists [], [], []. repeat split; reflexivity.
  - destruct IH as (cps0 & cps1 & cps2 & H0 & H1 & H2 & H3).
    { intros y Hy. apply Hsub. right. exact Hy. }
    { intros y Hy. apply Hall. right. exact Hy. }
    cbn [compile_ops.find_precompile_ops].
    unfold compile_ops_spec.placeholder, compile_ops_spec.placeholder_name in Hall.
    destruct (String.eqb (name (ins_op x)) "gpu::precompile_op") eqn:Ename; cbn [negb].
    + destruct (Hall x (or_introl eq_refl) Ename)
        as (op & a & b & solutions & Eop & Ecfg & Hlen & Hcomp).
      rewrite Eop, H0. cbn [bind].
      assert (Hx : deref m (ins_id x) = Ok x).
      { unfold deref. rewrite (lookup_unique m x Hnd (Hsub x (or_introl eq_refl))).
        reflexivity. }
      destruct (transform_total
                  (fun solution =>
                     code <- compile x op solution ;;
                     Ok (compile_ops.mk_compiled_result code (ins_id x))) solutions)
        as (rs & Hrs).
      { intros sol Hsol. destruct (Hcomp sol Hsol) as (code & ->).
        eexists. reflexivity. }
      pose proof (transform_length _ _ _ Hrs) as Hrslen.
      eexists. eexists. eexists.
      split; [reflexivity|]. split.
      { cbn [transform]. unfold compile_ops.update_config at 1.
        cbn [compile_ops.plan_ins compile_ops.preop compile_ops.results].
        rewrite Hx. cbn [bind]. rewrite Ecfg, H1. cbn [bind]. reflexivity. }
      split.
      { cbn [transform]. unfold compile_ops.run_compiles at 1.
        cbn [compile_ops.plan_ins compile_ops.preop compile_ops.config].
        rewrite Hx. cbn [bind]. rewrite Hrs. cbn [bind].
        rewrite H2. cbn [bind]. reflexivity. }
      intros mc. cbn [compile_ops.replace_all].
      unfold compile_ops.replace. cbn [compile_ops.results].
      destruct rs as [|r [|r' rs]]; cbn [bind]; try apply H3.
      simpl in Hrslen. lia.
    + exists cps0, cps1, cps2. auto.
Qed.

(** X19: [compile_ops::apply] replaces a placeholder only when its plan holds
    exactly one compiled result.  When every placeholder of the module
    has a tuning configuration with no solution or with several, and
    every compilation succeeds, the pass returns the module as it was;
    so it does, in particular, on a module without placeholders. *)
Theorem compile_ops_keeps_untuned_placeholders
  (gcs : string -> list (string * Z) -> list shape -> outcome shape)
  (value : Type) (null_value : value)
  (get_tuning_config : instruction -> operation -> option (list value))
  (compile : instruction -> operation -> value -> outcome operation)
  (m : module) :
  NoDup (map ins_id m) ->
  (forall x, In x m -> compile_ops_spec.placeholder x = true ->
     exists op a b solutions,
       ins_op x = precompile_op op a b /\
       get_tuning_config x op = Some solutions /\
       length solutions <> 1%nat /\
       forall solution, In solution solutions ->
         exists code, compile x op solution = Ok code) ->
  compile_ops.apply gcs value null_value get_tuning_config compile m = Ok m.
Proof.
  intros Hnd Hall.
  destruct (plans_keep gcs value null_value get_tuning_config compile m m Hnd)
    as (cps0 & cps1 & cps2 & H0 & H1 & H2 & H3); [auto | exact Hall |].
  unfold compile_ops.apply. rewrite H0. cbn [bind]. rewrite H1. cbn [bind].
  rewrite H2. cbn [bind]. apply H3.
Qed.

Lemma compile_ops_keeps_untuned_placeholders_witness :
  let gcs := fun (_ : string) (_ : list (string * Z)) (_ : list shape) =>
               Ok (make_shape float_type [4; 1]) in
  let get_tuning_config := fun (_ : instruction) (_ : operation) => Some [7; 9] in
  let compile := fun (_ : instruction) (op : operation) (solution : Z) =>
                   Ok (generic_op "gpu::code_object" [("solution", solution)]) in
  let s := make_shape float_type [4; 8] in
  let m := [ mk_instruction 1%nat (generic_op "@param" []) [] s;
             mk_instruction 2%nat (generic_op "hip::allocate" []) [] s;
             mk_instruction 3%nat (precompile_op (generic_op "pointwise" []) 1 false)
               [1%nat; 2%nat] s ] in
  compile_ops.apply gcs Z 0 get_tuning_config compile m = Ok m.
Proof.
  intros gcs get_tuning_config compile s m.
  apply (compile_ops_keeps_untuned_placeholders gcs Z 0 get_tuning_config compile m).
  - repeat constructor; simpl; intuition discriminate.
  - intros x [<-|[<-|[<-|[]]]] Hp; try discriminate Hp.
    exists (generic_op "pointwise" []), 1%nat, false, [7; 9].
    repeat split; [discriminate|].
    intros solution _. eexists. reflexivity.
Defined.


(** ** [prepare_reduce]: what the pass keeps *)

Lemma scanned_begin m : scan_spec.scanned m (begin m).
Proof.
  destruct m as [|x rest]; cbn [begin scan_spec.scanned].
  - intros y [].
  - split; [left; reflexivity|].
    unfold scan_spec.visited. cbn [scan_spec.before_ids].
    rewrite Nat.eqb_refl. intros y [].
Qed.

(** X20: The pass leaves a module in which no operator name contains
    "reduce" exactly as it was. *)
Theorem prepare_reduce_without_reductions
  (gcs : string -> list (string * Z) -> list shape -> outcome shape)
  (m : module) (fuel : nat) :
  prepare_reduce_spec.topological m = true ->
  (forall x, In x m -> prepare_reduce.contains (name (ins_op x)) "reduce" = false) ->
  (length m <= fuel)%nat ->
  prepare_reduce.run gcs fuel m = Ok m.
Proof.
  intros Htop Hnone Hfuel.
  assert (Hcounted : forall x, In x m ->
            prepare_reduce_spec.counted_reduction (name (ins_op x)) = false).
  { intros x Hx. unfold prepare_reduce_spec.counted_reduction,
      prepare_reduce_spec.reduction_operator. rewrite (Hnone x Hx). reflexivity. }
  assert (Hunary : scan_spec.unary_reductions m = true).
  { apply unary_reductions_spec. intros x Hx Hc. rewrite (Hcounted x Hx) in Hc.
    discriminate. }
  unfold prepare_reduce.run.
  apply (find_matches_quiet gcs m (topological_well_formed m Htop Hunary))
    with (pre := []); [|reflexivity|exact Hfuel].
  intros y _ o1 o2 r1 r2 _ _ _ _ _ Hr1 _.
  unfold prepare_reduce.get_reduce in Hr1.
  destruct (get_reduce_some_lookup _ _ _ _ Hr1) as (x & Hx & Hc).
  apply lookup_In in Hx as [Hx _]. rewrite (Hcounted x Hx) in Hc. discriminate.
Qed.

Lemma prepare_reduce_without_reductions_witness :
  let gcs := fun (_ : string) (_ : list (string * Z)) (_ : list shape) =>
               Ok (make_shape float_type [4; 1]) in
  let s := make_shape float_type [4; 8] in
  let m := [ mk_instruction 1%nat (generic_op "@param" []) [] s;
             mk_instruction 2%nat (generic_op "pointwise" []) [1%nat] s;
             mk_instruction 3%nat (generic_op "pointwise" []) [1%nat] s;
             mk_instruction 4%nat (generic_op "add" []) [2%nat; 3%nat] s ] in
  prepare_reduce.run gcs 4 m = Ok m.
Proof.
  intros gcs s m.
  apply (prepare_reduce_without_reductions gcs m 4).
  - reflexivity.
  - intros x [<-|[<-|[<-|[<-|[]]]]]; reflexivity.
  - simpl. lia.
Defined.

(** X21: Whenever the pass returns on a topologically ordered module whose
    counted reductions have one input, the module it returns still has
    unique identities and no dangling input, its counted reductions
    still have one input, and [get_reduce] still returns on each of its
    instructions. *)
Theorem prepare_reduce_keeps_module_invariants
  (gcs : string -> list (string * Z) -> list shape -> outcome shape)
  (m m1 : module) (fuel : nat) :
  prepare_reduce_spec.topological m = true ->
  scan_spec.unary_reductions m = true ->
  prepare_reduce.run gcs fuel m = Ok m1 ->
  NoDup (map ins_id m1) /\ closed m1 /\
  scan_spec.unary_reductions m1 = true /\
  forall o, In o (map ins_id m1) -> exists res, prepare_reduce.get_reduce m1 o = Ok res.
Proof.
  intros Htop Hunary Hrun.
  destruct (find_matches_settles gcs fuel m (begin m) m1
              (topological_well_formed m Htop Hunary) (scanned_begin m) Hrun)
    as [(Hnd & Hcl & Hun & Htot) _].
  repeat split; assumption.
Qed.

Lemma prepare_reduce_keeps_module_invariants_witness :
  let gcs := fun (_ : string) (_ : list (string * Z)) (_ : list shape) =>
               Ok (make_shape float_type [4; 1]) in
  let s := make_shape float_type [4; 8] in
  let m := [ mk_instruction 1%nat (generic_op "@param" []) [] s;
             mk_instruction 2%nat (generic_op "reduce_sum" []) [1%nat] s;
             mk_instruction 3%nat (generic_op "reduce_sum" []) [1%nat] s;
             mk_instruction 4%nat (generic_op "add" []) [2%nat; 3%nat] s ] in
  exists m1,
    prepare_reduce.run gcs 20 m = Ok m1 /\ (length m < length m1)%nat /\
    NoDup (map ins_id m1) /\ closed m1 /\
    scan_spec.unary_reductions m1 = true /\
    forall o, In o (map ins_id m1) -> exists res, prepare_reduce.get_reduce m1 o = Ok res.
Proof.
  intros gcs s m.
  destruct (prepare_reduce.run gcs 20 m) as [m1| |] eqn:E; try discriminate E.
  exists m1. split; [reflexivity|]. split.
  - vm_compute in E. injection E as <-. simpl. lia.
  - apply (prepare_reduce_keeps_module_invariants gcs m m1 20); [reflexivity..|exact E].
Defined.


(** ** [miopen_convolution::finalize]: when it returns *)

(** X22: [finalize] returns in two cases only: a solution is already loaded,
    and the operator is returned as it is without any call of the
    library or look at the device; or no solution is loaded, the library
    loads one with status success and the device has the compute-unit
    count and the architecture the model was compiled for, and the
    operator holds the loaded solution.  In both cases nothing is
    logged: the warning on the MIOpen version is never written. *)
Theorem finalize_returns_iff
  (miopenLoadSolution : list Z -> miopen_convolution.miopenStatus_t * nat)
  (self self' : miopen_convolution.t) (ctx : miopen_convolution.context)
  (log : list string) :
  miopen_convolution.finalize miopenLoadSolution self ctx = Ok (self', log) <->
  log = [] /\
  ((exists ptr, miopen_convolution.solution_ptr self = Some ptr) /\ self' = self \/
   miopen_convolution.solution_ptr self = None /\
   exists ptr,
     miopenLoadSolution (miopen_convolution.solution_object self) =
       (miopen_convolution.miopenStatusSuccess, ptr) /\
     miopen_convolution.cu_count ctx = miopen_convolution.current_cu_count ctx /\
     miopen_convolution.gfx_arch ctx = miopen_convolution.current_gfx_arch ctx /\
     self' = miopen_convolution.mk (miopen_convolution.op_name self)
               (miopen_convolution.solution_object self) (Some ptr)).
Proof.
  unfold miopen_convolution.finalize. split.
  - destruct (miopen_convolution.solution_ptr self) as [p|].
    { intros H. injection H as <- <-. split; [reflexivity|]. left.
      split; [exists p|]; reflexivity. }
    destruct (miopenLoadSolution _) as [status ptr].
    destruct status; cbn [negb miopen_convolution.status_eqb]; try discriminate.
    destruct (Z.eqb_spec (miopen_convolution.cu_count ctx)
                         (miopen_convolution.current_cu_count ctx)) as [Ecu|];
      [|discriminate].
    destruct (String.eqb_spec (miopen_convolution.gfx_arch ctx)
                              (miopen_convolution.current_gfx_arch ctx)) as [Ea|];
      [|discriminate].
    cbn [negb orb]. intros H. injection H as <- <-. split; [reflexivity|]. right.
    split; [reflexivity|]. exists ptr. auto.
  - intros [-> [[[p Hp] ->]|[Hnone (ptr & Hload & Hcu & Harch & ->)]]].
    + rewrite Hp. reflexivity.
    + rewrite Hnone, Hload, Hcu, Harch. cbn [negb miopen_convolution.status_eqb].
      rewrite Z.eqb_refl, String.eqb_refl. reflexivity.
Qed.

(** X23: Once [finalize] has returned, every later call on the operator it
    left returns the same operator at once, whatever the library and the
    device have become: the solution is not loaded again and the device
    is not compared again. *)
Theorem finalize_twice
  (miopenLoadSolution miopenLoadSolution' :
     list Z -> miopen_convolution.miopenStatus_t * nat)
  (self self' : miopen_convolution.t) (ctx ctx' : miopen_convolution.context)
  (log : list string) :
  miopen_convolution.finalize miopenLoadSolution self ctx = Ok (self', log) ->
  miopen_convolution.finalize miopenLoadSolution' self' ctx' = Ok (self', []).
Proof.
  intros H. destruct (finalize_loads _ _ _ _ _ H) as (_ & ptr & Hptr).
  unfold miopen_convolution.finalize. rewrite Hptr. reflexivity.
Qed.

Lemma finalize_twice_witness :
  miopen_convolution.finalize
    (fun _ => (miopen_convolution.miopenStatusUnknownError, 0%nat))
    (miopen_convolution.mk "convolution" [1; 2; 3] (Some 7%nat))
    (miopen_convolution.mk_context "gfx90a" 104 "3.2.0" "gfx1100" 48) =
    Ok (miopen_convolution.mk "convolution" [1; 2; 3] (Some 7%nat), []).
Proof.
  apply (finalize_twice
           (fun _ => (miopen_convolution.miopenStatusSuccess, 7%nat))
           (fun _ => (miopen_convolution.miopenStatusUnknownError, 0%nat))
           (miopen_convolution.mk "convolution" [1; 2; 3] None)
           (miopen_convolution.mk "convolution" [1; 2; 3] (Some 7%nat))
           (miopen_convolution.mk_context "gfx90a" 104 "3.2.0" "gfx90a" 104)
           (miopen_convolution.mk_context "gfx90a" 104 "3.2.0" "gfx1100" 48) []).
  reflexivity.
Defined.


(** ** [get_reduce] *)

(** X24: On a topologically ordered module [get_reduce] returns on every
    instruction of the module, and what it returns is the one counted
    reduction the instruction reaches (itself, or through pointwise
    operators of one input and one consumer), or nothing when it reaches
    none; on a reference to no instruction of the module it has no
    defined result. *)
Theorem get_reduce_returns_the_reached_reduction (m : module) (o : instruction_ref) :
  prepare_reduce_spec.topological m = true ->
  (In o (map ins_id m) ->
     exists res,
       prepare_reduce.get_reduce m o = Ok res /\
       forall r, res = Some r <->
                 prepare_reduce_spec.reaches prepare_reduce_spec.counted_reduction m o r) /\
  (~ In o (map ins_id m) -> prepare_reduce.get_reduce m o = Undefined).
Proof.
  intros Htop. split.
  - intros Hin. pose proof (get_reduce_defined m Htop o Hin) as Hdef.
    unfold prepare_reduce.get_reduce in *.
    destruct (prepare_reduce.get_reduce_from (length m) m o) as [res|msg|] eqn:E.
    + exists res. split; [reflexivity|]. intros r. split.
      * intros ->. eapply get_reduce_from_sound. exact E.
      * intros Hr. destruct (get_reduce_from_complete m o r Hr (length m)) as [H|H];
          rewrite E in H; [discriminate|]. injection H as ->. reflexivity.
    + exfalso. exact (get_reduce_from_no_throw m _ _ _ E).
    + congruence.
  - intros Hout. unfold prepare_reduce.get_reduce.
    assert (E : lookup m o = None).
    { destruct (lookup m o) as [x|] eqn:E; [|reflexivity].
      apply lookup_In in E as [Hx <-]. exfalso. apply Hout. apply in_map. exact Hx. }
    destruct (length m); cbn [prepare_reduce.get_reduce_from]; unfold deref;
      rewrite E; reflexivity.
Qed.

Lemma get_reduce_returns_the_reached_reduction_witness :
  let s := make_shape float_type [4; 8] in
  let m := [ mk_instruction 1%nat (generic_op "@param" []) [] s;
             mk_instruction 2%nat (generic_op "pointwise" []) [1%nat] s;
             mk_instruction 3%nat (generic_op "reduce_sum" []) [2%nat] s ] in
  (In 2%nat (map ins_id m) ->
     exists res,
       prepare_reduce.get_reduce m 2%nat = Ok res /\
       forall r, res = Some r <->
                 prepare_reduce_spec.reaches prepare_reduce_spec.counted_reduction
                   m 2%nat r) /\
  (~ In 2%nat (map ins_id m) -> prepare_reduce.get_reduce m 2%nat = Undefined).
Proof.
  intros s m. apply (get_reduce_returns_the_reached_reduction m 2%nat). reflexivity.
Defined.

(** ** [compile_ops]: no tuning configuration *)

Lemma transform_map_result {A B} (g : B -> B) (f f' : A -> outcome B) l :
  (forall x, f' x = (y <- f x ;; Ok (g y))) ->
  transform f' l = (ys <- transform f l ;; Ok (map g ys)).
Proof.
  intros Hf. induction l as [|x l IH]; [reflexivity|].
  cbn [transform]. rewrite Hf, IH.
  destruct (f x); cbn [bind]; try reflexivity.
  destruct (transform f l); reflexivity.
Qed.

Lemma transform_map_source {A B} (g : A -> A) (h : B -> B) (f : A -> outcome B) l :
  (forall x, f (g x) = (y <- f x ;; Ok (h y))) ->
  transform f (map g l) = (ys <- transform f l ;; Ok (map h ys)).
Proof.
  intros Hf. induction l as [|x l IH]; [reflexivity|].
  cbn [map transform]. rewrite Hf, IH.
  destruct (f x); cbn [bind]; try reflexivity.
  destruct (transform f l); reflexivity.
Qed.

(** X25: A placeholder for which [get_tuning_config] returns no configuration
    is handled as one whose configuration holds the default solution
    alone: the pass gives the same result with either. *)
Theorem compile_ops_default_solution
  (gcs : string -> list (string * Z) -> list shape -> outcome shape)
  (value : Type) (null_value : value)
  (get_tuning_config : instruction -> operation -> option (list value))
  (compile : instruction -> operation -> value -> outcome operation)
  (m : module) :
  compile_ops.apply gcs value null_value get_tuning_config compile m =
  compile_ops.apply gcs value null_value
    (fun x op => Some (match get_tuning_config x op with
                       | Some solutions => solutions
                       | None => [null_value]
                       end)) compile m.
Proof.
  set (solutions_of := fun c : option (list value) =>
         match c with Some solutions => solutions | None => [null_value] end).
  set (g := fun cp : compile_ops.compile_plan value =>
         compile_ops.mk_compile_plan value (compile_ops.preop value cp)
           (compile_ops.plan_ins value cp)
           (Some (solutions_of (compile_ops.config value cp)))
           (compile_ops.results value cp)).
  unfold compile_ops.apply.
  destruct (compile_ops.find_precompile_ops value m) as [cps0| |]; cbn [bind];
    try reflexivity.
  rewrite (transform_map_result g
             (compile_ops.update_config value get_tuning_config m)
             (compile_ops.update_config value
                (fun x op => Some (solutions_of (get_tuning_config x op))) m)).
  2:{ intros cp. unfold compile_ops.update_config.
      destruct (deref m (compile_ops.plan_ins value cp)); reflexivity. }
  destruct (transform (compile_ops.update_config value get_tuning_config m) cps0)
    as [cps1| |]; cbn [bind]; try reflexivity.
  rewrite (transform_map_source g g (compile_ops.run_compiles value null_value compile m)).
  2:{ intros cp. unfold compile_ops.run_compiles, g.
      cbn [compile_ops.plan_ins compile_ops.preop compile_ops.config].
      destruct (deref m (compile_ops.plan_ins value cp)) as [x| |]; cbn [bind];
        try reflexivity.
      unfold solutions_of at 1.
      replace (match compile_ops.config value cp with
               | Some solutions => solutions
               | None => [null_value]
               end) with (solutions_of (compile_ops.config value cp)) by reflexivity.
      destruct (transform _ (solutions_of (compile_ops.config value cp)));
        reflexivity. }
  destruct (transform (compile_ops.run_compiles value null_value compile m) cps1)
    as [cps2| |]; cbn [bind]; try reflexivity.
  clear. revert m. induction cps2 as [|cp cps2 IH]; intros m; [reflexivity|].
  cbn [map compile_ops.replace_all].
  replace (compile_ops.replace gcs value m (g cp)) with (compile_ops.replace gcs value m cp)
    by reflexivity.
  destruct (compile_ops.replace gcs value m cp); cbn [bind]; try reflexivity.
  apply IH.
Qed.


(** ** [reshape]: trailing unit dimensions and the dynamic path *)

Lemma firstn_succ_nth {A} (l : list A) : forall i x,
  nth_error l i = Some x -> firstn (S i) l = firstn i l ++ [x].
Proof.
  induction l as [|y l IH]; intros [|i] x H; try discriminate; simpl in *.
  - injection H as <-. reflexivity.
  - rewrite (IH i x H). reflexivity.
Qed.

Lemma walk_common_prefix (l st extra : list Z) : length st = length l ->
  forall fuel i, (i <= length l)%nat -> (length l - i <= fuel)%nat ->
  reshape.walk fuel l st (l ++ extra) i i (firstn i st) = reshape.Walked st.
Proof.
  intros Hlen. induction fuel as [|fuel IH]; intros i Hi Hfuel.
  - assert (i = length l) by lia. subst i.
    cbn [reshape.walk]. rewrite Nat.ltb_irrefl. cbn [andb].
    rewrite <- Hlen, firstn_all. reflexivity.
  - cbn [reshape.walk]. destruct (Nat.ltb_spec i (length l)) as [Hlt|Hge]; cbn [andb].
    + assert (Hr : (i <? length (l ++ extra))%nat = true)
        by (apply Nat.ltb_lt; rewrite length_app; lia).
      rewrite Hr. unfold reshape.step.
      rewrite (nth_error_app1 l extra Hlt).
      destruct (nth_error l i) as [x|] eqn:Ex;
        [|apply nth_error_None in Ex; lia].
      rewrite Z.eqb_refl.
      destruct (nth_error st i) as [s|] eqn:Es;
        [|apply nth_error_None in Es; lia].
      rewrite <- (firstn_succ_nth st i s Es). apply IH; lia.
    + assert (i = length l) by lia. subst i.
      rewrite <- Hlen, firstn_all. reflexivity.
Qed.

Lemma trailing_ones_repeat k stride : forall rstrides,
  reshape.trailing_ones (repeat 1 k) stride rstrides = Some (rstrides ++ repeat stride k).
Proof.
  induction k as [|k IH]; intros rstrides; cbn [repeat reshape.trailing_ones].
  - rewrite app_nil_r. reflexivity.
  - cbn [Z.eqb Pos.eqb negb]. rewrite IH, <- app_assoc. reflexivity.
Qed.

Lemma trailing_ones_other range d rest stride : forall rstrides,
  Forall (fun x => x = 1) range -> d <> 1 ->
  reshape.trailing_ones (range ++ d :: rest) stride rstrides = None.
Proof.
  intros rstrides Hones Hd. revert rstrides.
  induction Hones as [|x range -> _ IH]; intros rstrides; cbn [app reshape.trailing_ones].
  - destruct (Z.eqb_spec d 1); [contradiction|]. reflexivity.
  - cbn [Z.eqb Pos.eqb negb]. apply IH.
Qed.

(** X26: On an input that is not in standard layout, target dimensions that
    are the input dimensions followed by further ones are accepted when
    the further dimensions are all 1, each of them taking the last input
    stride; when one of them is not 1, [reshape_dims] returns [nullopt]
    and [compute_shape] throws that the axis is not packed. *)
Theorem reshape_trailing_unit_dims (t : type_t) (l st : list Z) :
  standard (shape_static t l st) = false ->
  length st = length l -> l <> [] ->
  Forall (fun d => 0 < d < 2 ^ 63) l ->
  (forall k,
     reshape.compute_shape (l ++ repeat 1 k) [shape_static t l st] =
       Ok (shape_static t (l ++ repeat 1 k) (st ++ repeat (last st 0) k))) /\
  (forall ones d rest,
     Forall (fun x => x = 1) ones -> 1 < d < 2 ^ 63 ->
     Forall (fun d => 0 < d < 2 ^ 63) rest ->
     reshape.reshape_dims (shape_static t l st) (l ++ ones ++ d :: rest) = Ok None /\
     reshape.compute_shape (l ++ ones ++ d :: rest) [shape_static t l st] =
       Throw "Reshape on axis that is not packed.").
Proof.
  intros Hstd Hlen Hne Hpos.
  assert (Hwalk : forall extra,
            reshape.walk (length l) l st (l ++ extra) 0 0 [] = reshape.Walked st).
  { intros extra. pose proof (walk_common_prefix l st extra Hlen (length l) 0%nat) as Hw.
    cbn [firstn] in Hw. apply Hw; lia. }
  assert (Hst : length st <> 0%nat) by (destruct l; [contradiction|simpl in Hlen; lia]).
  assert (Hrun : forall dims,
            Forall (fun d => 0 < d < 2 ^ 63) dims ->
            reshape.compute_shape dims [shape_static t l st] =
              (s <- reshape.reshape_dims (shape_static t l st) dims ;;
               match s with
               | None => Throw "Reshape on axis that is not packed."
               | Some s =>
                   if negb (elements s =? elements (shape_static t l st))
                   then Throw ("Reshape: Wrong number of elements for reshape: reshape has " ++
                               to_string (elements s) ++ " elements whereas the input has " ++
                               to_string (elements (shape_static t l st)))%string
                   else Ok s
               end)).
  { intros dims Hdims. unfold reshape.compute_shape, check_shapes_has.
    cbn [existsb length Nat.eqb negb andb orb bind dynamic].
    rewrite (count_neg_dims_positive dims Hdims).
    cbn [Nat.ltb Nat.leb at_index nth_error bind dynamic].
    unfold reshape.static_compute_shape, check_shapes_has.
    cbn [existsb length Nat.eqb negb andb orb bind at_index nth_error dynamic lens].
    rewrite (initial_rdims_positive dims l 0 Hdims). cbn [bind Nat.ltb Nat.leb].
    reflexivity. }
  split.
  - intros k.
    assert (Hdims : Forall (fun d => 0 < d < 2 ^ 63) (l ++ repeat 1 k)).
    { apply Forall_app. split; [exact Hpos|].
      clear. induction k; cbn [repeat]; constructor; [lia | assumption]. }
    rewrite (Hrun _ Hdims).
    assert (Hdimsr : reshape.reshape_dims (shape_static t l st) (l ++ repeat 1 k) =
              Ok (Some (shape_static t (l ++ repeat 1 k) (st ++ repeat (last st 0) k)))).
    { unfold reshape.reshape_dims. rewrite Hstd. cbn [lens strides shape_type].
      rewrite Hwalk. rewrite length_app, repeat_length, Hlen.
      destruct k as [|k].
      - rewrite Nat.add_0_r, Nat.ltb_irrefl. cbn [andb repeat].
        rewrite !app_nil_r, Hlen, Nat.eqb_refl. reflexivity.
      - destruct (Nat.ltb_spec (length l) (length l + S k)); [|lia].
        rewrite <- Hlen. destruct (Nat.eqb_spec (length st) 0); [contradiction|].
        cbn [andb negb]. rewrite Hlen, skipn_app, skipn_all, Nat.sub_diag.
        cbn [app skipn]. rewrite trailing_ones_repeat.
        rewrite length_app, repeat_length, Hlen, Nat.eqb_refl. reflexivity. }
    rewrite Hdimsr. cbn [bind].
    assert (Eel : elements (shape_static t (l ++ repeat 1 k) (st ++ repeat (last st 0) k)) =
                  elements (shape_static t l st)).
    { unfold elements. cbn [lens]. rewrite !product_size_t_wrap, product_app.
      replace (product (repeat 1 k)) with 1; [f_equal; lia|].
      clear. induction k; [reflexivity|]. cbn [repeat]. rewrite product_cons. lia. }
    rewrite Eel, Z.eqb_refl. reflexivity.
  - intros ones d rest Hones Hd Hrest.
    assert (Hnone : reshape.reshape_dims (shape_static t l st) (l ++ ones ++ d :: rest) =
              Ok None).
    { unfold reshape.reshape_dims. rewrite Hstd. cbn [lens strides shape_type].
      rewrite Hwalk. rewrite length_app, Hlen, length_app. cbn [length].
      destruct (Nat.ltb_spec (length l) (length l + (length ones + S (length rest))));
        [|lia].
      rewrite <- Hlen. destruct (Nat.eqb_spec (length st) 0); [contradiction|].
      cbn [andb negb]. rewrite Hlen, skipn_app, skipn_all, Nat.sub_diag.
      cbn [app skipn]. rewrite trailing_ones_other; [reflexivity|exact Hones|lia]. }
    split; [exact Hnone|].
    rewrite Hrun, Hnone; [reflexivity|].
    apply Forall_app. split; [exact Hpos|]. apply Forall_app. split.
    + eapply Forall_impl; [|exact Hones]. cbn beta. intros x ->. lia.
    + constructor; [lia | exact Hrest].
Qed.

Lemma reshape_trailing_unit_dims_witness :
  reshape.compute_shape [2; 3; 1; 1] [shape_static float_type [2; 3] [1; 2]] =
    Ok (shape_static float_type [2; 3; 1; 1] [1; 2; 2; 2]) /\
  reshape.compute_shape [2; 3; 1; 4] [shape_static float_type [2; 3] [1; 2]] =
    Throw "Reshape on axis that is not packed.".
Proof.
  destruct (reshape_trailing_unit_dims float_type [2; 3] [1; 2] eq_refl eq_refl
              ltac:(discriminate) ltac:(repeat constructor)) as [Hones Hother].
  split; [exact (Hones 2%nat)|].
  apply (Hother [1] 4 []).
  - repeat constructor.
  - lia.
  - constructor.
Defined.


Lemma fold_mul_size_t_zero l : fold_left mul_size_t l 0 = 0.
Proof.
  induction l as [|x l IH]; [reflexivity|]. cbn [fold_left].
  unfold mul_size_t at 2. cbn [Z.mul]. exact IH.
Qed.

(** The two counts of [dyn_compute_shape] when every non-fixed dimension
    meets an entry [0] or [-1]: the count of the input is the product of
    the fixed dimensions, and the count of [dims] is zero as soon as a
    fixed dimension meets an entry [0]. *)
Lemma count_fixed_elements_zero dims dds : forall i a b,
  (forall k dd, nth_error dds k = Some dd ->
     exists d, nth_error dims (i + k) = Some d /\
               (is_fixed dd = false -> d = 0 \/ d = -1)) ->
  exists a',
    reshape.count_fixed_elements dims dds i a b =
      Ok (a', fold_left mul_size_t (map dd_min (filter is_fixed dds)) b) /\
    (a = 0 \/
     (exists k dd, nth_error dds k = Some dd /\ is_fixed dd = true /\
                   nth_error dims (i + k) = Some 0) -> a' = 0).
Proof.
  induction dds as [|dd0 dds IH]; intros i a b Hreads.
  - exists a. split; [reflexivity|]. intros [H|(k & dd & H & _)]; [exact H|].
    destruct k; discriminate.
  - destruct (Hreads 0%nat dd0 eq_refl) as (d0 & Hd0 & Hph). rewrite Nat.add_0_r in Hd0.
    assert (Hrest : forall a1 b1, exists a',
              reshape.count_fixed_elements dims dds (S i) a1 b1 =
                Ok (a', fold_left mul_size_t (map dd_min (filter is_fixed dds)) b1) /\
              (a1 = 0 \/
               (exists k dd, nth_error dds k = Some dd /\ is_fixed dd = true /\
                             nth_error dims (S i + k) = Some 0) -> a' = 0)).
    { intros a1 b1. apply IH. intros k dd Hk.
      destruct (Hreads (S k) dd Hk) as (d & Hd & Hp).
      exists d. replace (S i + k)%nat with (i + S k)%nat by lia. auto. }
    cbn [reshape.count_fixed_elements filter]. unfold at_index. rewrite Hd0. cbn [bind].
    destruct (is_fixed dd0) eqn:Efix.
    + destruct (Hrest (mul_size_t a (to_size_t d0)) (mul_size_t b (dd_min dd0)))
        as (a' & Hrun & Hzero).
      exists a'. split; [exact Hrun|].
      intros Hcase. apply Hzero. destruct Hcase as [->|(k & dd & Hk & Hf & Hd)].
      * left. reflexivity.
      * destruct k as [|k].
        -- left. rewrite Nat.add_0_r in Hd. rewrite Hd0 in Hd. injection Hd as ->.
           unfold mul_size_t, to_size_t. rewrite Z.mul_comm. reflexivity.
        -- right. exists k, dd. cbn [nth_error] in Hk.
           replace (S i + k)%nat with (i + S k)%nat by lia. auto.
    + destruct (Hph eq_refl) as [->| ->]; cbn [Z.eqb Pos.eqb negb andb].
      all: destruct (Hrest a b) as (a' & Hrun & Hzero).
      all: exists a'; split; [exact Hrun|].
      all: intros Hcase; apply Hzero; destruct Hcase as [->|(k & dd & Hk & Hf & Hd)];
        [left; reflexivity|].
      all: destruct k as [|k];
        [cbn [nth_error] in Hk; injection Hk as <-; congruence|].
      all: right; exists k, dd; cbn [nth_error] in Hk;
        replace (S i + k)%nat with (i + S k)%nat by lia; auto.
Qed.

(** X27: On the dynamic path an entry [0] of [dims] that meets a fixed
    dimension is not a copy of that dimension: it counts as the extent
    zero.  With one entry of [dims] per input dimension, the non-fixed
    dimension meeting [0] or [-1] and fixed dimensions whose product is
    a positive [std::size_t], such a reshape is rejected because the
    numbers of fixed elements differ. *)
Theorem reshape_dynamic_zero_on_fixed_dim (dims : list Z) (s0 : shape) (k : nat)
  (dd : dynamic_dimension) :
  dynamic s0 = true ->
  (reshape.count_neg_dims dims <= 1)%nat ->
  reshape.num_not_fixed s0 = 1%nat ->
  length dims = length (dyn_dims s0) ->
  (forall j d dj, nth_error dims j = Some d -> nth_error (dyn_dims s0) j = Some dj ->
     is_fixed dj = false -> d = 0 \/ d = -1) ->
  0 < product (map dd_min (filter is_fixed (dyn_dims s0))) < 2 ^ 64 ->
  nth_error (dyn_dims s0) k = Some dd -> is_fixed dd = true ->
  nth_error dims k = Some 0 ->
  reshape.compute_shape dims [s0] =
    Throw ("Reshape: Number of fixed elements must match. Input: " ++
           to_string (product (map dd_min (filter is_fixed (dyn_dims s0)))) ++
           " Output: " ++ to_string 0)%string.
Proof.
  intros Hdyn Hneg Hone Hlen Hph Hprod Hk Hfix Hzero.
  rewrite (compute_shape_dynamic_path dims s0 Hdyn Hneg).
  unfold reshape.dyn_compute_shape. rewrite Hone. cbn [Nat.eqb negb].
  destruct (count_fixed_elements_zero dims (dyn_dims s0) 0 1 1) as (a' & Hrun & Ha').
  { intros j dj Hj. cbn [Nat.add].
    destruct (nth_error dims j) as [d|] eqn:Ed.
    - exists d. split; [reflexivity|]. intros Hnf. exact (Hph j d dj Ed Hj Hnf).
    - apply nth_error_None in Ed.
      assert (j < length (dyn_dims s0))%nat by (apply nth_error_Some; congruence). lia. }
  rewrite Hrun. cbn [bind].
  rewrite Ha' by (right; exists k, dd; auto).
  fold (product_size_t (map dd_min (filter is_fixed (dyn_dims s0)))).
  rewrite product_size_t_wrap, wrap_small
    by (unfold is_size_t, size_t_modulus; lia).
  destruct (Z.eqb_spec 0 (product (map dd_min (filter is_fixed (dyn_dims s0)))));
    [lia|].
  reflexivity.
Qed.

Lemma reshape_dynamic_zero_on_fixed_dim_witness :
  reshape.compute_shape [0; 0]
    [shape_dynamic float_type [mk_dd 1 4 []; mk_dd 3 3 []]] =
    Throw "Reshape: Number of fixed elements must match. Input: 3 Output: 0".
Proof.
  apply (reshape_dynamic_zero_on_fixed_dim [0; 0]
           (shape_dynamic float_type [mk_dd 1 4 []; mk_dd 3 3 []]) 1 (mk_dd 3 3 [])).
  - reflexivity.
  - vm_compute. lia.
  - reflexivity.
  - reflexivity.
  - intros [|[|j]] d dj Hd Hj Hnf; simpl in Hd, Hj; try discriminate.
    + injection Hd as <-. left. reflexivity.
    + injection Hj as <-. discriminate Hnf.
    + destruct j; discriminate Hd.
  - vm_compute. split; reflexivity.
  - reflexivity.
  - reflexivity.
  - reflexivity.
Defined.
